(** * AGV scheduler: a shallow embedding of [agv-algorithm.py]

    The development follows the layout of the Python module: grid geometry
    ([Direction], [PointEx]), the priority queue, the orientation-aware
    planner ([PathPlanning]), the domain model ([TaskEx], [Agv],
    [AgvContext]) and the discrete-time scheduler ([SchedulerService]).

    Python integers are unbounded, hence [Z].  Object references (an AGV, a
    task) are indices into the lists owned by the context, which is where the
    objects live for the whole run.  Code that can raise runs in a
    state-and-exception monad in which the mutations made before a [raise]
    persist, as they do in Python. *)

From Stdlib Require Import String.
From Stdlib Require Import ZArith List Bool Lia Permutation Sorted Arith.
Import ListNotations.
Open Scope Z_scope.

(** ** Exceptions *)

Inductive exn : Type :=
| DeadlockExceeded          (* Exception("Failed to complete all tasks after 400s") *)
| PitchFailure (from_x from_y to_x to_y : Z)
                            (* Exception("Failed to calculate pitch from ...") *)
| ValueError                (* list.remove(x): x not in list *)
| KeyError                  (* dict[k]: k absent *)
| AttributeError.           (* attribute access on None *)

Inductive result (A : Type) : Type :=
| Ok (a : A)
| Raise (e : exn).
Arguments Ok {A} a.
Arguments Raise {A} e.

(** ** Direction *)

Module Direction.

Inductive t : Type := RIGHT | UP | LEFT | DOWN.

Definition value (d : t) : Z :=
  match d with RIGHT => 0 | UP => 90 | LEFT => 180 | DOWN => 270 end.

Definition eqb (a b : t) : bool :=
  match a, b with
  | RIGHT, RIGHT | UP, UP | LEFT, LEFT | DOWN, DOWN => true
  | _, _ => false
  end.

End Direction.

(** ** PointEx *)

Module PointEx.

Record t : Type := mk { x : Z; y : Z }.

(* __eq__ *)
Definition eqb (p q : t) : bool := (x p =? x q) && (y p =? y q).

Definition left_neighbour (p : t) : t := mk (x p - 1) (y p).
Definition right_neighbour (p : t) : t := mk (x p + 1) (y p).
Definition up_neighbour (p : t) : t := mk (x p) (y p - 1).
Definition down_neighbour (p : t) : t := mk (x p) (y p + 1).

Definition neighbours (p : t) : list t :=
  [left_neighbour p; right_neighbour p; up_neighbour p; down_neighbour p].

Definition get_neighbour (p : t) (direction : Direction.t) : t :=
  match direction with
  | Direction.RIGHT => right_neighbour p
  | Direction.UP => up_neighbour p
  | Direction.LEFT => left_neighbour p
  | Direction.DOWN => down_neighbour p
  end.

Definition is_neighbour (p point : t) : bool :=
  ((x p =? x point) && ((y p =? y point + 1) || (y p =? y point - 1)))
  || ((y p =? y point) && ((x p =? x point + 1) || (x p =? x point - 1))).

Definition get_pitch_to_neighbour (p neighbour_point : t) : result Direction.t :=
  let dx := x neighbour_point - x p in
  let dy := y neighbour_point - y p in
  if dy =? 0 then
    if dx >? 0 then Ok Direction.RIGHT
    else if dx <? 0 then Ok Direction.LEFT
    else Raise (PitchFailure (x p) (y p) (x neighbour_point) (y neighbour_point))
  else if dx =? 0 then
    if dy >? 0 then Ok Direction.UP
    else if dy <? 0 then Ok Direction.DOWN
    else Raise (PitchFailure (x p) (y p) (x neighbour_point) (y neighbour_point))
  else Raise (PitchFailure (x p) (y p) (x neighbour_point) (y neighbour_point)).

(* [point in points], through __eq__ *)
Definition mem (p : t) (l : list t) : bool := existsb (eqb p) l.

(* [points.remove(point)]: drops the first occurrence, ValueError if absent *)
Fixpoint remove (p : t) (l : list t) : result (list t) :=
  match l with
  | [] => Raise ValueError
  | q :: l' =>
      if eqb q p then Ok l'
      else match remove p l' with
           | Ok r => Ok (q :: r)
           | Raise e => Raise e
           end
  end.

End PointEx.

(** ** PathTimePoint, RectEx *)

Module PathTimePoint.
Record t : Type := mk { position : PointEx.t; time_cost : Z }.
End PathTimePoint.

Module RectEx.
Record t : Type := mk { left : Z; top : Z; right : Z; bottom : Z }.
End RectEx.

(** ** SimplePriorityQueue

    [heapq] keeps the entries [(priority, index, item)] in a binary heap; what
    the callers observe is the bag of entries and that [heappop] removes the
    least one.  The index is unique per queue, so the tuple comparison never
    reaches the item and the least entry is unique. *)

Module SimplePriorityQueue.
Section Queue.
Context {A : Type}.

Definition entry : Type := (Z * nat * A)%type.

Record t : Type := mk { _heap : list entry; _index : nat }.

Definition empty : t := mk [] 0%nat.

Definition entry_ltb (a b : entry) : bool :=
  let '(pa, ia, _) := a in
  let '(pb, ib, _) := b in
  (pa <? pb) || ((pa =? pb) && (ia <? ib)%nat).

Definition heappush (h : list entry) (e : entry) : list entry := h ++ [e].

Fixpoint heappop (h : list entry) : option (entry * list entry) :=
  match h with
  | [] => None
  | e :: h' =>
      match heappop h' with
      | None => Some (e, [])
      | Some (m, rest) =>
          if entry_ltb m e then Some (m, e :: rest) else Some (e, h')
      end
  end.

Definition enqueue (q : t) (item : A) (priority : Z) : t :=
  mk (heappush (_heap q) (priority, _index q, item)) (S (_index q)).

(* None stands for IndexError("Priority queue is empty") *)
Definition dequeue (q : t) : option (A * t) :=
  match heappop (_heap q) with
  | None => None
  | Some ((_, _, item), rest) => Some (item, mk rest (_index q))
  end.

Definition count (q : t) : nat := length (_heap q).
End Queue.
Arguments t : clear implicits.
End SimplePriorityQueue.

(** ** PathPlanning *)

Module PathPlanning.

Definition MOVE_COST : Z := 1.
Definition TURN_COST : Z := 1.
Definition LOAD_UNLOAD_TIME : Z := 1.
Definition GRID_SIZE : Z * Z := (21, 21).

Definition manhattan (p1 p2 : PointEx.t) : Z :=
  Z.abs (PointEx.x p1 - PointEx.x p2) + Z.abs (PointEx.y p1 - PointEx.y p2).

Definition directions : list (Z * Z * Direction.t) :=
  [(1, 0, Direction.RIGHT); (-1, 0, Direction.LEFT);
   (0, 1, Direction.UP); (0, -1, Direction.DOWN)].

(* the generator get_neighbors, as the list of what it yields *)
Definition get_neighbors (size : Z * Z) (obstacles : list PointEx.t)
    (pos : PointEx.t) (current_orientation : Direction.t)
  : list (PointEx.t * Direction.t * Z) :=
  flat_map
    (fun '(dx, dy, direction) =>
       let nx := PointEx.x pos + dx in
       let ny := PointEx.y pos + dy in
       if (1 <=? nx) && (nx <=? fst size) && (1 <=? ny) && (ny <=? snd size)
          && negb (PointEx.mem (PointEx.mk nx ny) obstacles)
       then
         let turn_cost :=
           if Direction.eqb direction current_orientation then 0 else TURN_COST in
         [(PointEx.mk nx ny, direction, MOVE_COST + turn_cost)]
       else [])
    directions.

(* a frontier payload: (priority, cost, position, orientation, path) *)
Definition node : Type := (Z * Z * PointEx.t * Direction.t * list PointEx.t)%type.

Definition state : Type := (PointEx.t * Direction.t)%type.

Definition state_eqb (a b : state) : bool :=
  PointEx.eqb (fst a) (fst b) && Direction.eqb (snd a) (snd b).

Definition visited_mem (s : state) (visited : list state) : bool :=
  existsb (state_eqb s) visited.

(* the body of [for next_pos, next_orientation, move_cost in get_neighbors(...)] *)
Definition expand (goal : PointEx.t) (visited : list state) (cost : Z)
    (path : list PointEx.t) (frontier : SimplePriorityQueue.t node)
    (nb : PointEx.t * Direction.t * Z) : SimplePriorityQueue.t node :=
  let '(next_pos, next_orientation, move_cost) := nb in
  if visited_mem (next_pos, next_orientation) visited then frontier
  else
    let new_cost := cost + move_cost in
    let new_path := path ++ [next_pos] in
    let priority := new_cost + manhattan next_pos goal in
    SimplePriorityQueue.enqueue frontier
      (priority, new_cost, next_pos, next_orientation, new_path) priority.

Inductive outcome : Type :=
| Reached (cost : Z) (path : list PointEx.t)   (* return path, popped with g = cost *)
| NoPath                                       (* frontier exhausted: return [] *)
| Timeout.                                     (* the model's fuel ran out *)

(* the [while frontier.count > 0] loop *)
Fixpoint search (fuel : nat) (size : Z * Z) (goal : PointEx.t)
    (obstacles : list PointEx.t) (frontier : SimplePriorityQueue.t node)
    (visited : list state) : outcome :=
  match fuel with
  | O => Timeout
  | S fuel' =>
      match SimplePriorityQueue.dequeue frontier with
      | None => NoPath
      | Some ((_, cost, current_pos, current_orientation, path), frontier') =>
          if PointEx.eqb current_pos goal then Reached cost path
          else
            let current_state := (current_pos, current_orientation) in
            if visited_mem current_state visited then
              search fuel' size goal obstacles frontier' visited
            else
              let visited' := current_state :: visited in
              let frontier'' :=
                fold_left (expand goal visited' cost path)
                  (get_neighbors size obstacles current_pos current_orientation)
                  frontier' in
              search fuel' size goal obstacles frontier'' visited'
      end
  end.

(* every cell of the grid, and the start: the positions a state can have *)
Definition cells (size : Z * Z) : list PointEx.t :=
  flat_map
    (fun i => map (fun j => PointEx.mk (Z.of_nat i) (Z.of_nat j))
                  (seq 1 (Z.to_nat (snd size))))
    (seq 1 (Z.to_nat (fst size))).

Definition all_states (size : Z * Z) (start : PointEx.t) : list state :=
  flat_map
    (fun p => [(p, Direction.RIGHT); (p, Direction.UP);
               (p, Direction.LEFT); (p, Direction.DOWN)])
    (start :: cells size).

(* five iterations per state and one for the start entry are enough, see
   [search_terminates] *)
Definition search_fuel (size : Z * Z) (start : PointEx.t) : nat :=
  (5 * length (all_states size start) + 2)%nat.

Definition initial_frontier (start goal : PointEx.t) (orientation : Direction.t)
  : SimplePriorityQueue.t node :=
  SimplePriorityQueue.enqueue SimplePriorityQueue.empty
    (manhattan start goal, 0, start, orientation, [start])
    (manhattan start goal).

Definition a_star_search (start goal : PointEx.t) (orientation : Direction.t)
    (obstacles : list PointEx.t) (grid_size : option (Z * Z)) : outcome :=
  let size := match grid_size with Some s => s | None => GRID_SIZE end in
  search (search_fuel size start) size goal obstacles
    (initial_frontier start goal orientation) [].

Definition a_star_with_orientation (start goal : PointEx.t)
    (orientation : Direction.t) (obstacles : list PointEx.t)
    (grid_size : option (Z * Z)) : list PointEx.t :=
  match a_star_search start goal orientation obstacles grid_size with
  | Reached _ path => path
  | NoPath => []
  | Timeout => []
  end.

(* the [for i in range(1, len(path))] loop, [from_point] being path[i-1] *)
Fixpoint timing_loop (from_point : PointEx.t) (rest : list PointEx.t)
    (current_time : Z) (current_pitch : Direction.t)
  : result (list PathTimePoint.t) :=
  match rest with
  | [] => Ok []
  | to_point :: rest' =>
      match PointEx.get_pitch_to_neighbour from_point to_point with
      | Raise e => Raise e
      | Ok new_pitch =>
          let '(turned_time, pitch') :=
            if Direction.eqb new_pitch current_pitch
            then (current_time, current_pitch)
            else (current_time + TURN_COST, new_pitch) in
          let moved_time := turned_time + MOVE_COST in
          match timing_loop to_point rest' moved_time pitch' with
          | Raise e => Raise e
          | Ok tail => Ok (PathTimePoint.mk to_point moved_time :: tail)
          end
      end
  end.

Definition calculate_path_timing (path : list PointEx.t)
    (initial_pitch : Direction.t) : result (list PathTimePoint.t) :=
  match path with
  | [] => Ok []
  | p0 :: rest =>
      match timing_loop p0 rest 0 initial_pitch with
      | Raise e => Raise e
      | Ok tail => Ok (PathTimePoint.mk p0 0 :: tail)
      end
  end.

End PathPlanning.


(** ** Small list utilities standing for Python built-ins *)

(* l[i] = a *)
Fixpoint list_set {A : Type} (l : list A) (i : nat) (a : A) : list A :=
  match l, i with
  | [], _ => []
  | _ :: l', O => a :: l'
  | b :: l', S i' => b :: list_set l' i' a
  end.

(* enumerate(l, start=i): every object with its reference *)
Fixpoint enumerate_from {A : Type} (i : nat) (l : list A) : list (nat * A) :=
  match l with
  | [] => []
  | a :: l' => (i, a) :: enumerate_from (S i) l'
  end.

Definition enumerate {A : Type} (l : list A) : list (nat * A) := enumerate_from 0 l.

(* [ref in refs], references compared by identity *)
Definition ref_mem (r : nat) (refs : list nat) : bool := existsb (Nat.eqb r) refs.

(* refs.remove(r) when r is known to be in refs: drops its first occurrence *)
Fixpoint ref_remove (r : nat) (refs : list nat) : list nat :=
  match refs with
  | [] => []
  | q :: refs' => if Nat.eqb q r then refs' else q :: ref_remove r refs'
  end.

(* refs.index(r) *)
Fixpoint ref_index (r : nat) (refs : list nat) : option nat :=
  match refs with
  | [] => None
  | q :: refs' =>
      if Nat.eqb q r then Some O
      else match ref_index r refs' with
           | Some i => Some (S i)
           | None => None
           end
  end.

(* list.sort(key=...) is stable: equal keys keep their input order.  The keys
   are computed once per element before sorting, here the first components. *)
Section StableSort.
Context {K V : Type} (leb : K -> K -> bool).

Fixpoint sort_insert (e : K * V) (sorted : list (K * V)) : list (K * V) :=
  match sorted with
  | [] => [e]
  | e' :: sorted' =>
      if leb (fst e) (fst e') then e :: e' :: sorted'
      else e' :: sort_insert e sorted'
  end.

Fixpoint stable_sort (l : list (K * V)) : list (K * V) :=
  match l with
  | [] => []
  | e :: l' => sort_insert e (stable_sort l')
  end.
End StableSort.

(* min(l) and max(l) of a non-empty list, given as head and tail *)
Definition list_min (a : Z) (l : list Z) : Z := fold_left Z.min l a.
Definition list_max (a : Z) (l : list Z) : Z := fold_left Z.max l a.

(* range(lo, hi) *)
Definition range (lo hi : Z) : list Z :=
  map (fun i => lo + Z.of_nat i) (seq 0 (Z.to_nat (hi - lo))).

Definition result_map {A B : Type} (f : A -> B) (r : result A) : result B :=
  match r with Ok a => Ok (f a) | Raise e => Raise e end.

(* [f(x) for x in l], stopping at the first raise *)
Fixpoint result_list_map {A B : Type} (f : A -> result B) (l : list A)
  : result (list B) :=
  match l with
  | [] => Ok []
  | a :: l' =>
      match f a with
      | Raise e => Raise e
      | Ok b =>
          match result_list_map f l' with
          | Raise e => Raise e
          | Ok bs => Ok (b :: bs)
          end
      end
  end.

(** ** Domain model *)

Module TaskPriority.
Inductive t : Type := NORMAL | HIGH.
Definition value (p : t) : Z := match p with NORMAL => 0 | HIGH => 1 end.
Definition eqb (a b : t) : bool :=
  match a, b with NORMAL, NORMAL | HIGH, HIGH => true | _, _ => false end.
End TaskPriority.

Module MapElementType.
Inductive t : Type := START_POINT | END_POINT | AGV.
Definition eqb (a b : t) : bool :=
  match a, b with
  | START_POINT, START_POINT | END_POINT, END_POINT | AGV, AGV => true
  | _, _ => false
  end.
End MapElementType.

Module TaskRecord.
Record t : Type := mk {
  task_id : string;
  start_point : string;
  end_point : string;
  priority : TaskPriority.t;
  remaining_time : option Z
}.
End TaskRecord.

Module MapElement.
Record t : Type := mk {
  type : MapElementType.t;
  name : string;
  x : Z;
  y : Z;
  pitch : option Direction.t
}.
End MapElement.

Module MapElementParser.
Definition get_bounds (map_elements : list MapElement.t) : RectEx.t :=
  match map_elements with
  | [] => RectEx.mk 0 0 0 0
  | e :: rest =>
      RectEx.mk (list_min (MapElement.x e) (map MapElement.x rest))
                (list_min (MapElement.y e) (map MapElement.y rest))
                (list_max (MapElement.x e) (map MapElement.x rest))
                (list_max (MapElement.y e) (map MapElement.y rest))
  end.
End MapElementParser.

Module TaskEx.

Record t : Type := mk {
  task_id : string;
  start_point : string;
  end_point : string;
  priority : TaskPriority.t;
  remaining_time : option Z;
  start_position : PointEx.t;
  end_position : PointEx.t;
  pickup_position : PointEx.t;
  agv : option nat;              (* reference to the Agv that loaded it *)
  start_timestamp : Z;
  complete_timestamp : Z;
  is_completed : bool
}.

(* __init__ *)
Definition init (task_record : TaskRecord.t) (start_position end_position : PointEx.t)
  : t :=
  mk (TaskRecord.task_id task_record)
     (TaskRecord.start_point task_record)
     (TaskRecord.end_point task_record)
     (TaskRecord.priority task_record)
     (TaskRecord.remaining_time task_record)
     start_position
     end_position
     (if PointEx.x start_position >? 10
      then PointEx.left_neighbour start_position
      else PointEx.right_neighbour start_position)
     None 0 0 false.

Definition is_pending (task : t) : bool :=
  match agv task with None => true | Some _ => false end.

Definition is_running (task : t) : bool :=
  negb (is_pending task) && negb (is_completed task).

Definition load_by (task : t) (agv_ref : nat) (start_timestamp' : Z) : t :=
  mk (task_id task) (start_point task) (end_point task) (priority task)
     (remaining_time task) (start_position task) (end_position task)
     (pickup_position task) (Some agv_ref) start_timestamp'
     (complete_timestamp task) (is_completed task).

Definition unload (task : t) (complete_timestamp' : Z) : t :=
  mk (task_id task) (start_point task) (end_point task) (priority task)
     (remaining_time task) (start_position task) (end_position task)
     (pickup_position task) (agv task) (start_timestamp task)
     complete_timestamp' true.

End TaskEx.

Module Agv.

Record t : Type := mk {
  name : string;
  position : PointEx.t;
  pitch : Direction.t;
  is_loaded : bool;
  loaded_task : option nat;      (* reference to the carried TaskEx *)
  path_time_points : list PathTimePoint.t
}.

Definition init (name : string) (position : PointEx.t) (pitch : Direction.t) : t :=
  mk name position pitch false None [].

Definition set_position (a : t) (p : PointEx.t) : t :=
  mk (name a) p (pitch a) (is_loaded a) (loaded_task a) (path_time_points a).
Definition set_pitch (a : t) (d : Direction.t) : t :=
  mk (name a) (position a) d (is_loaded a) (loaded_task a) (path_time_points a).
Definition set_path_time_points (a : t) (l : list PathTimePoint.t) : t :=
  mk (name a) (position a) (pitch a) (is_loaded a) (loaded_task a) l.

(* time_cost -= 1 *)
Definition tick (p : PathTimePoint.t) : PathTimePoint.t :=
  PathTimePoint.mk (PathTimePoint.position p) (PathTimePoint.time_cost p - 1).

(* The task is another object: [load], [unload] and [can_unload] take the
   task table and give it back.  A reference that points nowhere cannot exist
   in Python; the model answers it like a dereference of None. *)
Definition load (self : nat) (a : t) (task_ref : nat) (timestamp : Z)
    (tasks : list TaskEx.t) : result (t * list TaskEx.t) :=
  match nth_error tasks task_ref with
  | None => Raise AttributeError
  | Some task =>
      Ok (mk (name a) (position a) (pitch a) true (Some task_ref)
             (path_time_points a),
          list_set tasks task_ref (TaskEx.load_by task self timestamp))
  end.

Definition unload (a : t) (timestamp : Z) (tasks : list TaskEx.t)
  : result (t * list TaskEx.t) :=
  match loaded_task a with
  | None => Ok (mk (name a) (position a) (pitch a) false None [], tasks)
  | Some task_ref =>
      match nth_error tasks task_ref with
      | None => Raise AttributeError
      | Some task =>
          Ok (mk (name a) (position a) (pitch a) false None [],
              list_set tasks task_ref (TaskEx.unload task timestamp))
      end
  end.

Definition can_unload (a : t) (tasks : list TaskEx.t) : result bool :=
  if is_loaded a then
    match loaded_task a with
    | None => Ok false
    | Some task_ref =>
        match nth_error tasks task_ref with
        | None => Raise AttributeError
        | Some task =>
            Ok (PointEx.is_neighbour (position a) (TaskEx.end_position task))
        end
    end
  else Ok false.

Definition should_turn (a : t) : result bool :=
  match path_time_points a with
  | _ :: p1 :: _ =>
      result_map (fun d => negb (Direction.eqb d (pitch a)))
        (PointEx.get_pitch_to_neighbour (position a) (PathTimePoint.position p1))
  | _ => Ok false
  end.

Definition turn (a : t) (specified_pitch : option Direction.t) : result t :=
  match specified_pitch with
  | Some d => Ok (set_pitch a d)
  | None =>
      match path_time_points a with
      | p0 :: p1 :: rest =>
          match PointEx.get_pitch_to_neighbour (position a)
                  (PathTimePoint.position p1) with
          | Raise e => Raise e
          | Ok d =>
              Ok (mk (name a) (position a) d (is_loaded a) (loaded_task a)
                     (p0 :: map tick (p1 :: rest)))
          end
      | _ => Ok a
      end
  end.

Definition should_move (a : t) : result bool :=
  match path_time_points a with
  | _ :: p1 :: _ =>
      result_map (fun d => Direction.eqb d (pitch a))
        (PointEx.get_pitch_to_neighbour (position a) (PathTimePoint.position p1))
  | _ => Ok false
  end.

Definition move (a : t) : t :=
  match path_time_points a with
  | _ :: p1 :: rest =>
      mk (name a) (PathTimePoint.position p1) (pitch a) (is_loaded a)
         (loaded_task a) (map tick (p1 :: rest))
  | _ => a
  end.

End Agv.

Module TrajectoryRecorderService.

(* one row of the trajectory: the dict built by [add] *)
Record record : Type := mk_record {
  timestamp : Z;
  name : string;
  X : Z;
  Y : Z;
  pitch : Z;
  loaded : string;
  destination : string;
  Emergency : string;
  TaskId : string
}.

Definition row (timestamp : Z) (tasks : list TaskEx.t) (agv : Agv.t)
  : result record :=
  match Agv.loaded_task agv with
  | None =>
      Ok (mk_record timestamp (Agv.name agv)
            (PointEx.x (Agv.position agv)) (PointEx.y (Agv.position agv))
            (Direction.value (Agv.pitch agv))
            (if Agv.is_loaded agv then "true" else "false")
            "" "false" "")
  | Some task_ref =>
      match nth_error tasks task_ref with
      | None => Raise AttributeError
      | Some task =>
          Ok (mk_record timestamp (Agv.name agv)
                (PointEx.x (Agv.position agv)) (PointEx.y (Agv.position agv))
                (Direction.value (Agv.pitch agv))
                (if Agv.is_loaded agv then "true" else "false")
                (TaskEx.end_point task)
                (if TaskPriority.eqb (TaskEx.priority task) TaskPriority.HIGH
                 then "true" else "false")
                (TaskEx.task_id task))
      end
  end.

(* the service's [agvs] is the context's list itself, so [add] reads it there *)
Definition add (trajectory_records : list record) (timestamp : Z)
    (agvs : list Agv.t) (tasks : list TaskEx.t) : result (list record) :=
  result_map (fun rows => trajectory_records ++ rows)
    (result_list_map (row timestamp tasks) agvs).

Definition get_records_count (trajectory_records : list record) : nat :=
  length trajectory_records.

End TrajectoryRecorderService.

Module AgvContext.

Record t : Type := mk {
  map_elements : list MapElement.t;
  task_records : list TaskRecord.t;
  tasks : list TaskEx.t;
  agvs : list Agv.t;
  fixed_map_obstacles : list PointEx.t;
  map_bounds : RectEx.t;
  trajectory_recorder : list TrajectoryRecorderService.record
}.

Definition set_tasks (c : t) (tasks' : list TaskEx.t) : t :=
  mk (map_elements c) (task_records c) tasks' (agvs c) (fixed_map_obstacles c)
     (map_bounds c) (trajectory_recorder c).
Definition set_agvs (c : t) (agvs' : list Agv.t) : t :=
  mk (map_elements c) (task_records c) (tasks c) agvs' (fixed_map_obstacles c)
     (map_bounds c) (trajectory_recorder c).
Definition set_trajectory_recorder (c : t)
    (r : list TrajectoryRecorderService.record) : t :=
  mk (map_elements c) (task_records c) (tasks c) (agvs c) (fixed_map_obstacles c)
     (map_bounds c) r.

Fixpoint _get_position_by_name (map_elements : list MapElement.t)
    (element_type : MapElementType.t) (name : string) : result PointEx.t :=
  match map_elements with
  | [] => Raise ValueError
  | element :: rest =>
      if MapElementType.eqb (MapElement.type element) element_type
         && String.eqb (MapElement.name element) name
      then Ok (PointEx.mk (MapElement.x element) (MapElement.y element))
      else _get_position_by_name rest element_type name
  end.

Definition is_agv (item : MapElement.t) : bool :=
  MapElementType.eqb (MapElement.type item) MapElementType.AGV.

Definition is_point (item : MapElement.t) : bool :=
  MapElementType.eqb (MapElement.type item) MapElementType.START_POINT
  || MapElementType.eqb (MapElement.type item) MapElementType.END_POINT.

Definition border (min_x max_x min_y max_y : Z) : list PointEx.t :=
  flat_map (fun x => [PointEx.mk x (min_y - 1); PointEx.mk x (max_y + 1)])
           (range (min_x - 1) (max_x + 2))
  ++ flat_map (fun y => [PointEx.mk (min_x - 1) y; PointEx.mk (max_x + 1) y])
              (range (min_y - 1) (max_y + 2)).

(* __init__.  An Agv row without a pitch yields an Agv whose pitch is None;
   the recorder's first snapshot, which ends the constructor, then fails on
   [agv.pitch.value], so no context exists with such an Agv. *)
Definition init (map_elements : list MapElement.t)
    (task_records : list TaskRecord.t) : result t :=
  match
    result_list_map
      (fun task =>
         match _get_position_by_name map_elements MapElementType.START_POINT
                 (TaskRecord.start_point task) with
         | Raise e => Raise e
         | Ok start_position =>
             match _get_position_by_name map_elements MapElementType.END_POINT
                     (TaskRecord.end_point task) with
             | Raise e => Raise e
             | Ok end_position => Ok (TaskEx.init task start_position end_position)
             end
         end)
      task_records
  with
  | Raise e => Raise e
  | Ok tasks =>
      match map_elements with
      | [] => Raise ValueError          (* min() of an empty sequence *)
      | e :: rest =>
          let min_x := list_min (MapElement.x e) (map MapElement.x rest) in
          let max_x := list_max (MapElement.x e) (map MapElement.x rest) in
          let min_y := list_min (MapElement.y e) (map MapElement.y rest) in
          let max_y := list_max (MapElement.y e) (map MapElement.y rest) in
          let obstacles :=
            map (fun item => PointEx.mk (MapElement.x item) (MapElement.y item))
                (filter is_point map_elements)
            ++ border min_x max_x min_y max_y in
          match
            result_list_map
              (fun item =>
                 match MapElement.pitch item with
                 | None => Raise AttributeError
                 | Some pitch =>
                     Ok (Agv.init (MapElement.name item)
                           (PointEx.mk (MapElement.x item) (MapElement.y item))
                           pitch)
                 end)
              (filter is_agv map_elements)
          with
          | Raise e => Raise e
          | Ok agvs =>
              match TrajectoryRecorderService.add [] 0 agvs tasks with
              | Raise e => Raise e
              | Ok recorder =>
                  Ok (mk map_elements task_records tasks agvs obstacles
                         (MapElementParser.get_bounds map_elements) recorder)
              end
          end
      end
  end.

Definition get_completed_tasks (c : t) : list TaskEx.t :=
  filter TaskEx.is_completed (tasks c).

Definition all_tasks_completed (c : t) : bool :=
  forallb TaskEx.is_completed (tasks c).

(* grouped_tasks: start_point -> the pending tasks of that start point, in
   order; a task is held with its reference, which is what [index] compares *)
Definition groups : Type := list (string * list (nat * TaskEx.t)).

Fixpoint group_get (g : groups) (key : string) : option (list (nat * TaskEx.t)) :=
  match g with
  | [] => None
  | (k, l) :: g' => if String.eqb k key then Some l else group_get g' key
  end.

(* if key not in g: g[key] = []; g[key].append(task) *)
Fixpoint group_append (g : groups) (key : string) (task : nat * TaskEx.t) : groups :=
  match g with
  | [] => [(key, [task])]
  | (k, l) :: g' =>
      if String.eqb k key then (k, l ++ [task]) :: g'
      else (k, l) :: group_append g' key task
  end.

Definition group_tasks (pending_tasks : list (nat * TaskEx.t)) : groups :=
  fold_left (fun g task => group_append g (TaskEx.start_point (snd task)) task)
    pending_tasks [].

Definition sort_key_t : Type := (Z * Z * Z * Z * Z)%type.

Definition middleY : Z := 10.

Definition is_high (task : nat * TaskEx.t) : bool :=
  TaskPriority.eqb (TaskEx.priority (snd task)) TaskPriority.HIGH.

Definition sort_key (grouped_tasks : groups) (task : nat * TaskEx.t)
  : result sort_key_t :=
  match group_get grouped_tasks (TaskEx.start_point (snd task)) with
  | None => Raise KeyError
  | Some group =>
      match ref_index (fst task) (map fst group) with
      | None => Raise ValueError
      | Some sequence_index =>
          let priority_value := - TaskPriority.value (TaskEx.priority (snd task)) in
          let has_high_priority := existsb is_high group in
          let has_high_priority_value := if has_high_priority then -1 else 0 in
          let queue_length := - Z.of_nat (length group) in
          let y_position :=
            if negb (PointEx.y (TaskEx.pickup_position (snd task)) =? middleY)
            then 0 else 1 in
          Ok (Z.of_nat sequence_index, priority_value, has_high_priority_value,
              queue_length, y_position)
      end
  end.

(* tuple comparison: lexicographic *)
Definition sort_key_leb (a b : sort_key_t) : bool :=
  let '(a1, a2, a3, a4, a5) := a in
  let '(b1, b2, b3, b4, b5) := b in
  (a1 <? b1) || ((a1 =? b1) &&
  ((a2 <? b2) || ((a2 =? b2) &&
  ((a3 <? b3) || ((a3 =? b3) &&
  ((a4 <? b4) || ((a4 =? b4) && (a5 <=? b5)))))))).

Definition pending (c : t) : list (nat * TaskEx.t) :=
  filter (fun task => TaskEx.is_pending (snd task)) (enumerate (tasks c)).

(* the result lists the tasks by reference *)
Definition get_sorted_pending_tasks (c : t) : result (list nat) :=
  let pending_tasks := pending c in
  let grouped_tasks := group_tasks pending_tasks in
  match
    result_list_map
      (fun task => result_map (fun k => (k, task)) (sort_key grouped_tasks task))
      pending_tasks
  with
  | Raise e => Raise e
  | Ok keyed => Ok (map (fun e => fst (snd e)) (stable_sort sort_key_leb keyed))
  end.

End AgvContext.

(** ** SchedulerService *)

Module SchedulerService.

Record t : Type := mk { context : AgvContext.t; timestamp : Z }.

Definition init (context : AgvContext.t) : t := mk context 0.

(** The scheduler's methods mutate the scheduler and everything it owns and
    may raise; what was mutated before a raise stays mutated. *)
Definition M (A : Type) : Type := t -> result A * t.

Definition ret {A : Type} (a : A) : M A := fun s => (Ok a, s).
Definition raise {A : Type} (e : exn) : M A := fun s => (Raise e, s).
Definition bind {A B : Type} (m : M A) (k : A -> M B) : M B :=
  fun s => match m s with
           | (Ok a, s') => k a s'
           | (Raise e, s') => (Raise e, s')
           end.
Definition lift {A : Type} (r : result A) : M A := fun s => (r, s).
Definition get : M t := fun s => (Ok s, s).

Notation "x <- m ;; k" := (bind m (fun x => k))
  (at level 61, m at next level, right associativity).
Notation "m ;;; k" := (bind m (fun _ => k))
  (at level 61, right associativity).

(* for x in l: acc = body(x, acc) *)
Fixpoint for_each {X Acc : Type} (body : X -> Acc -> M Acc) (l : list X)
    (acc : Acc) : M Acc :=
  match l with
  | [] => ret acc
  | x :: l' => acc' <- body x acc ;; for_each body l' acc'
  end.

(* [x for x in l if test(x)] where the test may raise *)
Fixpoint filter_m {X : Type} (test : X -> M bool) (l : list X) : M (list X) :=
  match l with
  | [] => ret []
  | x :: l' =>
      b <- test x ;;
      rest <- filter_m test l' ;;
      ret (if b then x :: rest else rest)
  end.

Definition agvs (s : t) : list Agv.t := AgvContext.agvs (context s).
Definition tasks (s : t) : list TaskEx.t := AgvContext.tasks (context s).
Definition agv_refs (s : t) : list nat := seq 0 (length (agvs s)).

Definition get_agv (agv_ref : nat) : M Agv.t :=
  fun s => match nth_error (agvs s) agv_ref with
           | Some agv => (Ok agv, s)
           | None => (Raise AttributeError, s)
           end.

Definition get_task (task_ref : nat) : M TaskEx.t :=
  fun s => match nth_error (tasks s) task_ref with
           | Some task => (Ok task, s)
           | None => (Raise AttributeError, s)
           end.

Definition with_agvs (s : t) (agvs' : list Agv.t) : t :=
  mk (AgvContext.set_agvs (context s) agvs') (timestamp s).

Definition with_tasks (s : t) (tasks' : list TaskEx.t) : t :=
  mk (AgvContext.set_tasks (context s) tasks') (timestamp s).

(* agv.method(...): the method mutates the Agv object in place *)
Definition call_agv (agv_ref : nat) (method : Agv.t -> result Agv.t) : M unit :=
  fun s => match nth_error (agvs s) agv_ref with
           | None => (Raise AttributeError, s)
           | Some agv =>
               match method agv with
               | Raise e => (Raise e, s)
               | Ok agv' => (Ok tt, with_agvs s (list_set (agvs s) agv_ref agv'))
               end
           end.

(* a method of the Agv that reaches into the task table as well *)
Definition call_agv_task (agv_ref : nat)
    (method : Agv.t -> list TaskEx.t -> result (Agv.t * list TaskEx.t)) : M unit :=
  fun s => match nth_error (agvs s) agv_ref with
           | None => (Raise AttributeError, s)
           | Some agv =>
               match method agv (tasks s) with
               | Raise e => (Raise e, s)
               | Ok (agv', tasks') =>
                   (Ok tt,
                    with_tasks (with_agvs s (list_set (agvs s) agv_ref agv')) tasks')
               end
           end.

(* agv.path_time_points = path_time_points *)
Definition set_path_time_points (agv_ref : nat)
    (path_time_points : list PathTimePoint.t) : M unit :=
  call_agv agv_ref
    (fun agv => Ok (Agv.set_path_time_points agv path_time_points)).

Definition _build_obstacles (s : t) (additional_obstacles : list PointEx.t)
  : list PointEx.t :=
  AgvContext.fixed_map_obstacles (context s) ++ additional_obstacles.

Definition others {A : Type} (r : nat) (l : list A) : list (nat * A) :=
  filter (fun x => negb (Nat.eqb (fst x) r)) (enumerate l).

(* what is left of [agv_item]'s neighbours once the fixed obstacles and the
   AGVs next to it are taken out *)
Definition free_neighbours (s : t) (item_ref : nat) (agv_item : Agv.t)
    (agvs : list Agv.t) : list PointEx.t :=
  fold_left
    (fun neighbours neighbour_agv =>
       filter (fun n => negb (PointEx.eqb n (Agv.position (snd neighbour_agv))))
              neighbours)
    (filter (fun x => PointEx.is_neighbour (Agv.position (snd x))
                        (Agv.position agv_item))
            (others item_ref agvs))
    (filter (fun n => negb (PointEx.mem n
                              (AgvContext.fixed_map_obstacles (context s))))
            (PointEx.neighbours (Agv.position agv_item))).

Definition _get_obstacles (s : t) (agv_ref : nat) (agv : Agv.t)
    (agvs : list Agv.t) : list PointEx.t :=
  let agv_positions := map Agv.position agvs in
  let obstacles :=
    filter (fun pos => PointEx.mem pos agv_positions)
           (PointEx.neighbours (Agv.position agv)) in
  fold_left
    (fun obstacles agv_item =>
       match free_neighbours s (fst agv_item) (snd agv_item) agvs with
       | [n] =>
           if PointEx.mem n (PointEx.neighbours (Agv.position agv))
           then obstacles ++ [n] else obstacles
       | _ => obstacles
       end)
    (others agv_ref agvs) obstacles.

Definition _calculate_path_to_pickup_position (s : t) (agv : Agv.t)
    (task : TaskEx.t) (additional_obstacles : list PointEx.t) : list PointEx.t :=
  let obstacles := _build_obstacles s additional_obstacles in
  let goal := TaskEx.pickup_position task in
  PathPlanning.a_star_with_orientation (Agv.position agv) goal (Agv.pitch agv)
    obstacles None.

Definition _calculate_path_to_end_point (s : t) (agv : Agv.t)
    (task : TaskEx.t) (additional_obstacles : list PointEx.t)
  : result (list PointEx.t) :=
  let obstacles := _build_obstacles s additional_obstacles in
  let goal := TaskEx.end_position task in
  match PointEx.remove goal obstacles with
  | Raise e => Raise e
  | Ok obstacles' =>
      Ok (PathPlanning.a_star_with_orientation (Agv.position agv) goal
            (Agv.pitch agv) obstacles' None)
  end.

(** *** _batch_move_agvs *)

(* (moved_agv, moved_pos, moved_task) *)
Definition moved_item : Type := (nat * PointEx.t * nat)%type.

(* temp_assignments: Agv -> TaskEx, a dict in insertion order *)
Definition assignments : Type := list (nat * nat).

Fixpoint dict_get (d : assignments) (k : nat) : option nat :=
  match d with
  | [] => None
  | (k', v) :: d' => if Nat.eqb k' k then Some v else dict_get d' k
  end.

Fixpoint dict_set (d : assignments) (k v : nat) : assignments :=
  match d with
  | [] => [(k, v)]
  | (k', v') :: d' =>
      if Nat.eqb k' k then (k', v) :: d' else (k', v') :: dict_set d' k v
  end.

Definition horizontal (d : Direction.t) : bool :=
  match d with Direction.LEFT | Direction.RIGHT => true | _ => false end.

Definition vertical (d : Direction.t) : bool :=
  match d with Direction.UP | Direction.DOWN => true | _ => false end.

(* the four tests made on one moved item; None when none of them fires *)
Definition cross_lock (agv : Agv.t) (current_agv_task : TaskEx.t)
    (moved_agv : Agv.t) (moved_pos : PointEx.t) (moved_task : TaskEx.t)
  : option Direction.t :=
  let p := Agv.position agv in
  let e := TaskEx.end_position current_agv_task in
  let mp := Agv.position moved_agv in
  let me := TaskEx.end_position moved_task in
  if Direction.eqb (Agv.pitch moved_agv) (Agv.pitch agv) then
    if horizontal (Agv.pitch agv)
       && (PointEx.x moved_pos =? PointEx.x p)
       && (PointEx.y moved_pos =? PointEx.y p + 1)
       && (PointEx.y e >? PointEx.y p)
       && (PointEx.y me <=? PointEx.y mp)
    then Some Direction.UP
    else if horizontal (Agv.pitch agv)
       && (PointEx.x moved_pos =? PointEx.x p)
       && (PointEx.y moved_pos =? PointEx.y p - 1)
       && (PointEx.y e <? PointEx.y p)
       && (PointEx.y me >=? PointEx.y mp)
    then Some Direction.DOWN
    else if vertical (Agv.pitch agv)
       && (PointEx.y moved_pos =? PointEx.y p)
       && (PointEx.x moved_pos =? PointEx.x p - 1)
       && (PointEx.x e <? PointEx.x p)
       && (PointEx.x me >=? PointEx.x mp)
    then Some Direction.LEFT
    else if vertical (Agv.pitch agv)
       && (PointEx.y moved_pos =? PointEx.y p)
       && (PointEx.x moved_pos =? PointEx.x p + 1)
       && (PointEx.x e >? PointEx.x p)
       && (PointEx.x me <=? PointEx.x mp)
    then Some Direction.RIGHT
    else None
  else None.

(* for moved_item in moved_items: ... break at the first test that fires *)
Fixpoint check_moved_items (agv : Agv.t) (current_agv_task : TaskEx.t)
    (moved_items : list moved_item) : M (option Direction.t) :=
  match moved_items with
  | [] => ret None
  | (moved_ref, moved_pos, moved_task_ref) :: rest =>
      moved_agv <- get_agv moved_ref ;;
      moved_task <- get_task moved_task_ref ;;
      match cross_lock agv current_agv_task moved_agv moved_pos moved_task with
      | Some turn_direction => ret (Some turn_direction)
      | None => check_moved_items agv current_agv_task rest
      end
  end.

(* the path an AGV is given when its turn comes: planned against the
   obstacles of the moment, then timed *)
Definition replan (s : t) (is_loaded : bool) (agv_ref : nat) (agv : Agv.t)
    (current_agv_task : TaskEx.t) : result (list PathTimePoint.t) :=
  let obstacles := _get_obstacles s agv_ref agv (agvs s) in
  match
    (if is_loaded
     then _calculate_path_to_end_point s agv current_agv_task obstacles
     else Ok (_calculate_path_to_pickup_position s agv current_agv_task obstacles))
  with
  | Raise e => Raise e
  | Ok path => PathPlanning.calculate_path_timing path (Agv.pitch agv)
  end.

(* the loop's local state: handled_agvs, moved_items, is_assigned *)
Definition batch_state : Type := (list nat * list moved_item * bool)%type.

(* the body of [for agv in agvs] *)
Definition batch_move_one (is_loaded : bool)
    (temp_assignments : option assignments) (agv_ref : nat) (acc : batch_state)
  : M batch_state :=
  let '(handled_agvs, moved_items, is_assigned) := acc in
  agv <- get_agv agv_ref ;;
  if ref_mem agv_ref handled_agvs || negb (Bool.eqb (Agv.is_loaded agv) is_loaded)
  then ret acc
  else
    task_ref <-
      (if is_loaded then
         match Agv.loaded_task agv with
         | Some task_ref => ret task_ref
         | None => raise AttributeError      (* None.end_position *)
         end
       else
         match temp_assignments with
         | None => raise KeyError
         | Some d =>
             match dict_get d agv_ref with
             | Some task_ref => ret task_ref
             | None => raise KeyError
             end
         end) ;;
    current_agv_task <- get_task task_ref ;;
    s <- get ;;
    path_time_points <- lift (replan s is_loaded agv_ref agv current_agv_task) ;;
    set_path_time_points agv_ref path_time_points ;;;
    match path_time_points with
    | _ :: p1 :: _ =>
        expect_move_pitch <-
          lift (PointEx.get_pitch_to_neighbour (Agv.position agv)
                  (PathTimePoint.position p1)) ;;
        if negb (Direction.eqb expect_move_pitch (Agv.pitch agv)) then ret acc
        else
          turn <- check_moved_items agv current_agv_task moved_items ;;
          match turn with
          | Some turn_direction =>
              call_agv agv_ref (fun agv => Agv.turn agv (Some turn_direction)) ;;;
              set_path_time_points agv_ref [] ;;;
              ret (handled_agvs ++ [agv_ref], moved_items, true)
          | None =>
              call_agv agv_ref (fun agv => Ok (Agv.move agv)) ;;;
              ret (handled_agvs ++ [agv_ref],
                   moved_items ++ [(agv_ref, Agv.position agv, task_ref)],
                   true)
          end
    | _ => ret acc
    end.

(* the [while True] loop: one pass over the candidates per iteration; a pass
   that acts handles a candidate that was not handled, so there are at most
   [length agvs + 1] passes.  None: the model's fuel ran out. *)
Fixpoint batch_loop (fuel : nat) (agvs : list nat) (is_loaded : bool)
    (temp_assignments : option assignments) (handled_agvs : list nat)
    (moved_items : list moved_item) : M (option (list nat)) :=
  match fuel with
  | O => ret None
  | S fuel' =>
      acc <- for_each (batch_move_one is_loaded temp_assignments) agvs
               (handled_agvs, moved_items, false) ;;
      let '(handled_agvs', moved_items', is_assigned) := acc in
      if is_assigned
      then batch_loop fuel' agvs is_loaded temp_assignments handled_agvs'
             moved_items'
      else ret (Some handled_agvs')
  end.

(* gives back handled_agvs, the caller's list that the loop appended to *)
Definition _batch_move_agvs (agvs : list nat) (handled_agvs : list nat)
    (is_loaded : bool) (temp_assignments : option assignments)
  : M (option (list nat)) :=
  batch_loop (S (length agvs)) agvs is_loaded temp_assignments handled_agvs [].

Definition batch_move (agvs : list nat) (handled_agvs : list nat)
    (is_loaded : bool) (temp_assignments : option assignments) : M (list nat) :=
  r <- _batch_move_agvs agvs handled_agvs is_loaded temp_assignments ;;
  match r with
  | Some handled_agvs' => ret handled_agvs'
  | None => ret handled_agvs      (* never taken, see [batch_loop_terminates] *)
  end.

(** *** process *)

Definition MAX_TIMESTAMP : Z := 400.

(* 1. the body of the unload loop *)
Definition unload_step (agv_ref : nat) (handled_agvs : list nat) : M (list nat) :=
  if ref_mem agv_ref handled_agvs then ret handled_agvs
  else
    agv <- get_agv agv_ref ;;
    s <- get ;;
    can_unload <- lift (Agv.can_unload agv (tasks s)) ;;
    if can_unload then
      call_agv_task agv_ref (fun agv tasks => Agv.unload agv (timestamp s) tasks) ;;;
      ret (handled_agvs ++ [agv_ref])
    else ret handled_agvs.

(* 2. for pending_load_task in pending_load_tasks: ... break *)
Fixpoint load_scan (agv_ref : nat) (pending_load_tasks : list nat)
    (handled_agvs : list nat) : M (list nat) :=
  match pending_load_tasks with
  | [] => ret handled_agvs
  | task_ref :: rest =>
      task <- get_task task_ref ;;
      agv <- get_agv agv_ref ;;
      if PointEx.eqb (TaskEx.pickup_position task) (Agv.position agv) then
        s <- get ;;
        call_agv_task agv_ref
          (fun agv tasks => Agv.load agv_ref agv task_ref (timestamp s) tasks) ;;;
        ret (handled_agvs ++ [agv_ref])
      else load_scan agv_ref rest handled_agvs
  end.

Definition load_step (pending_load_tasks : list nat) (agv_ref : nat)
    (handled_agvs : list nat) : M (list nat) :=
  agv <- get_agv agv_ref ;;
  if ref_mem agv_ref handled_agvs || Agv.is_loaded agv then ret handled_agvs
  else load_scan agv_ref pending_load_tasks handled_agvs.

(* 4. the body of the loop that turns the loaded AGVs *)
Definition turn_step (agv_ref : nat) (handled_agvs : list nat) : M (list nat) :=
  agv <- get_agv agv_ref ;;
  if ref_mem agv_ref handled_agvs || negb (Agv.is_loaded agv) then ret handled_agvs
  else
    should_turn <- lift (Agv.should_turn agv) ;;
    if should_turn then
      call_agv agv_ref (fun agv => Agv.turn agv None) ;;;
      ret (handled_agvs ++ [agv_ref])
    else ret handled_agvs.

(* 5. x[1][-1].time_cost if x[1] else float('inf'); None is the infinity *)
Fixpoint last_time_cost (path_time_points : list PathTimePoint.t) : option Z :=
  match path_time_points with
  | [] => None
  | [p] => Some (PathTimePoint.time_cost p)
  | _ :: rest => last_time_cost rest
  end.

Definition cost_leb (a b : option Z) : bool :=
  match a, b with
  | Some x, Some y => x <=? y
  | Some _, None => true
  | None, Some _ => false
  | None, None => true
  end.

(* the option computed for one idle AGV *)
Definition assignment_option (task : TaskEx.t) (agv_ref : nat)
  : M (nat * list PathTimePoint.t) :=
  agv <- get_agv agv_ref ;;
  s <- get ;;
  let obstacles := _get_obstacles s agv_ref agv (agvs s) in
  let path := _calculate_path_to_pickup_position s agv task obstacles in
  path_time_points <- lift (PathPlanning.calculate_path_timing path (Agv.pitch agv)) ;;
  ret (agv_ref, path_time_points).

Fixpoint assignment_options (task : TaskEx.t) (idle_agvs : list nat)
  : M (list (nat * list PathTimePoint.t)) :=
  match idle_agvs with
  | [] => ret []
  | agv_ref :: rest =>
      o <- assignment_option task agv_ref ;;
      os <- assignment_options task rest ;;
      ret (o :: os)
  end.

(* the local state of the assignment loop: idle_agvs, temp_assignments *)
Definition assign_state : Type := (list nat * assignments)%type.

(* the body of [for task in pending_tasks], after the [break] test *)
Definition assign_task (task_ref : nat) (acc : assign_state) : M assign_state :=
  let '(idle_agvs, temp_assignments) := acc in
  task <- get_task task_ref ;;
  options <- assignment_options task idle_agvs ;;
  match stable_sort cost_leb
          (map (fun o => (last_time_cost (snd o), o)) options) with
  | [] => ret acc
  | (_, (selected_agv, path_time_points)) :: _ =>
      set_path_time_points selected_agv path_time_points ;;;
      ret (ref_remove selected_agv idle_agvs,
           dict_set temp_assignments selected_agv task_ref)
  end.

Fixpoint assign_loop (pending_tasks : list nat) (acc : assign_state)
  : M assign_state :=
  match pending_tasks with
  | [] => ret acc
  | task_ref :: rest =>
      match fst acc with
      | [] => ret acc                       (* if not idle_agvs: break *)
      | _ :: _ => acc' <- assign_task task_ref acc ;; assign_loop rest acc'
      end
  end.

(* min(points, key=...): the first of the least *)
Fixpoint min_by {A : Type} (key : A -> Z) (best : A) (l : list A) : A :=
  match l with
  | [] => best
  | a :: l' => min_by key (if key a <? key best then a else best) l'
  end.

(* the edge cells an idle AGV may park at *)
Definition edge_points (idle_agv : Agv.t) (agvs : list Agv.t) : list PointEx.t :=
  let x := PointEx.x (Agv.position idle_agv) in
  let y := PointEx.y (Agv.position idle_agv) in
  let loaded_agvs := filter Agv.is_loaded agvs in
  let px := fun a : Agv.t => PointEx.x (Agv.position a) in
  let py := fun a : Agv.t => PointEx.y (Agv.position a) in
  (if existsb (fun a => (px a =? x) && (py a >? y)) loaded_agvs
   then [] else [PointEx.mk x 20])
  ++ (if existsb (fun a => (px a =? x) && (py a <? y)) loaded_agvs
      then [] else [PointEx.mk x 1])
  ++ (if existsb (fun a => (px a >? x) && (py a =? y)) loaded_agvs
      then [] else [PointEx.mk 20 y])
  ++ (if existsb (fun a => (px a <? x) && (py a =? y)) loaded_agvs
      then [] else [PointEx.mk 1 y]).

(* the body of the parking loop *)
Definition park_step (idle_ref : nat) (_ : unit) : M unit :=
  idle_agv <- get_agv idle_ref ;;
  s <- get ;;
  let additional_obstacles := _get_obstacles s idle_ref idle_agv (agvs s) in
  let obstacles := _build_obstacles s additional_obstacles in
  match edge_points idle_agv (agvs s) with
  | [] => ret tt
  | p :: points =>
      let goal :=
        min_by (fun point =>
                  Z.abs (PointEx.x point - PointEx.x (Agv.position idle_agv))
                  + Z.abs (PointEx.y point - PointEx.y (Agv.position idle_agv)))
               p points in
      let path :=
        PathPlanning.a_star_with_orientation (Agv.position idle_agv) goal
          (Agv.pitch idle_agv) obstacles None in
      path_time_points <-
        lift (PathPlanning.calculate_path_timing path (Agv.pitch idle_agv)) ;;
      set_path_time_points idle_ref path_time_points ;;;
      idle_agv <- get_agv idle_ref ;;
      should_move <- lift (Agv.should_move idle_agv) ;;
      if should_move then call_agv idle_ref (fun agv => Ok (Agv.move agv))
      else
        should_turn <- lift (Agv.should_turn idle_agv) ;;
        if should_turn then call_agv idle_ref (fun agv => Agv.turn agv None)
        else ret tt
  end.

Definition agv_should_turn (agv_ref : nat) : M bool :=
  agv <- get_agv agv_ref ;; lift (Agv.should_turn agv).

Definition agv_should_move (agv_ref : nat) : M bool :=
  agv <- get_agv agv_ref ;; lift (Agv.should_move agv).

Definition agv_turn (agv_ref : nat) (_ : unit) : M unit :=
  call_agv agv_ref (fun agv => Agv.turn agv None).

Definition set_trajectory_recorder
    (records : list TrajectoryRecorderService.record) : M unit :=
  fun s => (Ok tt,
            mk (AgvContext.set_trajectory_recorder (context s) records)
               (timestamp s)).

(* self.timestamp += 1 *)
Definition advance_timestamp : M unit :=
  fun s => (Ok tt, mk (context s) (timestamp s + 1)).

(* 7. self.context.trajectory_recorder.add(self.timestamp) *)
Definition record_tick : M unit :=
  s <- get ;;
  records <-
    lift (TrajectoryRecorderService.add
            (AgvContext.trajectory_recorder (context s)) (timestamp s)
            (agvs s) (tasks s)) ;;
  set_trajectory_recorder records.

(* the phases of a tick.  The [print] of the tick's progress writes to the
   standard output only and is left out. *)
Definition phases : M unit :=
  s <- get ;;
  let agvs_ := agv_refs s in
  (* 1 *)
  handled_agvs <- for_each unload_step agvs_ [] ;;
  (* 2 *)
  s <- get ;;
  pending_load_tasks <- lift (AgvContext.get_sorted_pending_tasks (context s)) ;;
  handled_agvs <- for_each (load_step pending_load_tasks) agvs_ handled_agvs ;;
  (* 3 *)
  s <- get ;;
  let loaded_agvs :=
    map fst (filter (fun x => Agv.is_loaded (snd x)) (enumerate (agvs s))) in
  handled_agvs <- batch_move loaded_agvs handled_agvs true None ;;
  (* 4 *)
  handled_agvs <- for_each turn_step agvs_ handled_agvs ;;
  (* 5 *)
  s <- get ;;
  pending_tasks <- lift (AgvContext.get_sorted_pending_tasks (context s)) ;;
  let idle_agvs :=
    map fst
      (filter (fun x => negb (ref_mem (fst x) handled_agvs)
                        && negb (Agv.is_loaded (snd x)))
              (enumerate (agvs s))) in
  assigned <- assign_loop pending_tasks (idle_agvs, []) ;;
  let temp_assignments := snd assigned in
  (* 6 *)
  turn_agvs <- filter_m agv_should_turn (map fst temp_assignments) ;;
  move_agvs <- filter_m agv_should_move (map fst temp_assignments) ;;
  for_each agv_turn turn_agvs tt ;;;
  handled_agvs <- batch_move move_agvs handled_agvs false (Some temp_assignments) ;;
  (match pending_tasks with
   | [] =>
       for_each park_step
         (filter (fun r => negb (ref_mem r handled_agvs)) agvs_) tt
   | _ :: _ => ret tt
   end) ;;;
  (* 7 *)
  record_tick.

Definition process : M unit :=
  s <- get ;;
  if timestamp s >? MAX_TIMESTAMP then raise DeadlockExceeded
  else advance_timestamp ;;; phases.

(* the [while not all_tasks_completed] loop; None: the model's fuel ran out *)
Fixpoint process_loop (fuel : nat) : M (option unit) :=
  match fuel with
  | O => ret None
  | S fuel' =>
      s <- get ;;
      if AgvContext.all_tasks_completed (context s) then ret (Some tt)
      else process ;;; process_loop fuel'
  end.

(* no tick starts once the timestamp is past MAX_TIMESTAMP *)
Definition process_to_complete : M (option unit) :=
  s <- get ;;
  process_loop (S (Z.to_nat (MAX_TIMESTAMP + 2 - timestamp s))).

End SchedulerService.

(** * Statements

    The definitions below are used by the theorems only: the compound key as
    the documentation words it, the predicates on paths, and the concrete
    worlds the examples run on. *)

Module Ordering.

(* the pending tasks that share [task]'s start point, in file order *)
Definition group_of (c : AgvContext.t) (task : nat * TaskEx.t)
  : list (nat * TaskEx.t) :=
  filter (fun other => String.eqb (TaskEx.start_point (snd other))
                         (TaskEx.start_point (snd task)))
         (AgvContext.pending c).

(* g.get(key, []) *)
Definition group_or_empty (g : AgvContext.groups) (key : string)
  : list (nat * TaskEx.t) :=
  match AgvContext.group_get g key with Some l => l | None => [] end.

(* how many tasks stand before the one referenced by [r] *)
Fixpoint index_of (r : nat) (refs : list nat) : nat :=
  match refs with
  | [] => O
  | q :: refs' => if Nat.eqb q r then O else S (index_of r refs')
  end.

(* the five components, as the documentation lists them *)
Definition compound_key (c : AgvContext.t) (task : nat * TaskEx.t)
  : AgvContext.sort_key_t :=
  let group := group_of c task in
  (Z.of_nat (index_of (fst task) (map fst group)),
   - TaskPriority.value (TaskEx.priority (snd task)),
   if existsb (fun other => TaskPriority.eqb (TaskEx.priority (snd other))
                              TaskPriority.HIGH) group
   then -1 else 0,
   - Z.of_nat (length group),
   if PointEx.y (TaskEx.pickup_position (snd task)) =? 10 then 1 else 0).

Definition key_eqb (a b : AgvContext.sort_key_t) : bool :=
  let '(a1, a2, a3, a4, a5) := a in
  let '(b1, b2, b3, b4, b5) := b in
  (a1 =? b1) && (a2 =? b2) && (a3 =? b3) && (a4 =? b4) && (a5 =? b5).

(* the order of Python's tuples: the first component that differs decides *)
Definition lex_le (a b : Z * Z * Z * Z * Z) : Prop :=
  let '(a1, a2, a3, a4, a5) := a in
  let '(b1, b2, b3, b4, b5) := b in
  a1 < b1 \/ (a1 = b1 /\ (a2 < b2 \/ (a2 = b2 /\ (a3 < b3 \/ (a3 = b3 /\
    (a4 < b4 \/ (a4 = b4 /\ a5 <= b5))))))).

(* ascending: the key of every element is at most the key of every later one *)
Definition ascending (c : AgvContext.t) (l : list (nat * TaskEx.t)) : Prop :=
  StronglySorted (fun a b => lex_le (compound_key c a) (compound_key c b)) l.

(* two tasks at one start point, the second urgent *)
Definition two_tasks : AgvContext.t :=
  let p := PointEx.mk in
  let task prio :=
    TaskEx.init (TaskRecord.mk "T" "S1" "E1" prio None) (p 5 5) (p 15 5) in
  AgvContext.mk [] []
    [task TaskPriority.NORMAL; task TaskPriority.HIGH]
    [] [] (RectEx.mk 0 0 0 0) [].

End Ordering.

Module Path.

Definition four_adjacent (p q : PointEx.t) : Prop := PathPlanning.manhattan p q = 1.

(* every two consecutive points are 4-adjacent *)
Fixpoint chain (path : list PointEx.t) : Prop :=
  match path with
  | p :: (q :: _) as rest => four_adjacent p q /\ chain rest
  | _ => True
  end.

Definition in_bounds (size : Z * Z) (p : PointEx.t) : Prop :=
  1 <= PointEx.x p <= fst size /\ 1 <= PointEx.y p <= snd size.

Definition free_cell (size : Z * Z) (obstacles : list PointEx.t) (p : PointEx.t)
  : Prop :=
  in_bounds size p /\ ~ In p obstacles.

Definition grid (grid_size : option (Z * Z)) : Z * Z :=
  match grid_size with Some s => s | None => PathPlanning.GRID_SIZE end.

(* the number of orientation changes along a path walked from [pitch] *)
Fixpoint turns (pitch : Direction.t) (path : list PointEx.t) : Z :=
  match path with
  | p :: (q :: _) as rest =>
      match PointEx.get_pitch_to_neighbour p q with
      | Ok d => (if Direction.eqb d pitch then 0 else 1) + turns d rest
      | Raise _ => 0
      end
  | _ => 0
  end.

(* where a walk along [rest] from [from] ends: position, time, orientation *)
Fixpoint walk (from : PointEx.t) (rest : list PointEx.t) (time : Z)
    (pitch : Direction.t) : result (PointEx.t * Z * Direction.t) :=
  match rest with
  | [] => Ok (from, time, pitch)
  | to :: rest' =>
      match PointEx.get_pitch_to_neighbour from to with
      | Raise e => Raise e
      | Ok new_pitch =>
          if Direction.eqb new_pitch pitch
          then walk to rest' (time + PathPlanning.MOVE_COST) pitch
          else walk to rest'
                 (time + PathPlanning.TURN_COST + PathPlanning.MOVE_COST) new_pitch
      end
  end.

(* what the planner keeps true of every node on its frontier *)
Definition good_node (size : Z * Z) (obstacles : list PointEx.t)
    (start : PointEx.t) (orientation : Direction.t) (n : PathPlanning.node)
  : Prop :=
  let '(_, cost, pos, pitch, path) := n in
  exists rest,
    path = start :: rest
    /\ walk start rest 0 orientation = Ok (pos, cost, pitch)
    /\ chain path
    /\ Forall (free_cell size obstacles) rest.

Definition good_frontier (size : Z * Z) (obstacles : list PointEx.t)
    (start : PointEx.t) (orientation : Direction.t)
    (q : SimplePriorityQueue.t PathPlanning.node) : Prop :=
  forall e, In e (SimplePriorityQueue._heap q) ->
            good_node size obstacles start orientation (snd e).

(* the state of a node is the start or a cell of the grid, with a direction *)
Definition known_node (size : Z * Z) (start : PointEx.t) (n : PathPlanning.node)
  : Prop :=
  let '(_, _, pos, pitch, _) := n in
  In (pos, pitch) (PathPlanning.all_states size start).

Definition known_frontier (size : Z * Z) (start : PointEx.t)
    (q : SimplePriorityQueue.t PathPlanning.node) : Prop :=
  forall e, In e (SimplePriorityQueue._heap q) -> known_node size start (snd e).

(* the states the search has not expanded yet *)
Definition unvisited (size : Z * Z) (start : PointEx.t)
    (visited : list PathPlanning.state) : nat :=
  length (filter (fun s => negb (PathPlanning.visited_mem s visited))
                 (PathPlanning.all_states size start)).

End Path.

Module Run.
Import SchedulerService.

(* every run of [m] relates the state before to the state after by [R], and
   raises only exceptions in [E] *)
Definition sat {A : Type} (R : t -> t -> Prop) (E : exn -> Prop) (m : M A)
  : Prop :=
  forall s, R s (snd (m s)) /\ (forall e, fst (m s) = Raise e -> E e).

Definition not_deadlock (e : exn) : Prop := e <> DeadlockExceeded.
Definition any_exn (e : exn) : Prop := True.

Definition same_timestamp (s s' : t) : Prop := timestamp s' = timestamp s.

Definition fixed (s : t) : list PointEx.t :=
  AgvContext.fixed_map_obstacles (context s).

(* nothing a plan depends on for safety has moved *)
Definition same_cells (s s' : t) : Prop :=
  map Agv.position (agvs s') = map Agv.position (agvs s)
  /\ fixed s' = fixed s
  /\ map TaskEx.end_position (tasks s') = map TaskEx.end_position (tasks s).

Definition distinct_cells (s : t) : Prop := NoDup (map Agv.position (agvs s)).

(* every delivery cell is a fixed obstacle: it is an EndPoint of the map *)
Definition ends_fixed (s : t) : Prop :=
  Forall (fun task => In (TaskEx.end_position task) (fixed s)) (tasks s).

Definition safe (s : t) : Prop := distinct_cells s /\ ends_fixed s.

Definition keeps (I : t -> Prop) (s s' : t) : Prop := I s -> I s'.

(* any two distinct AGVs stand on different cells *)
Definition pairwise_distinct (s : t) : Prop :=
  forall (i j : nat) (a b : Agv.t),
    i <> j ->
    nth_error (agvs s) i = Some a -> nth_error (agvs s) j = Some b ->
    Agv.position a <> Agv.position b.

(* the state after [n] calls of process, whatever they returned *)
Fixpoint after_calls (n : nat) (s : t) : t :=
  match n with
  | O => s
  | S n' => snd (process (after_calls n' s))
  end.

(* [n] ticks in a row, each started with tasks left and ended normally *)
Fixpoint run_ticks (n : nat) (s : t) : option t :=
  match n with
  | O => Some s
  | S n' =>
      if AgvContext.all_tasks_completed (context s) then None
      else match process s with
           | (Ok _, s') => run_ticks n' s'
           | (Raise _, _) => None
           end
  end.

End Run.

Module Worlds.

Definition empty_context : AgvContext.t :=
  AgvContext.mk [] [] [] [] [] (RectEx.mk 0 0 0 0) [].

Definition built (map_elements : list MapElement.t)
    (task_records : list TaskRecord.t) : AgvContext.t :=
  match AgvContext.init map_elements task_records with
  | Ok c => c
  | Raise _ => empty_context
  end.

(* an AGV walled in by the map border and the start point: its task can
   never be picked up *)
Definition stuck_map : list MapElement.t :=
  [MapElement.mk MapElementType.AGV "A1" 5 5 (Some Direction.RIGHT);
   MapElement.mk MapElementType.START_POINT "S1" 5 6 None;
   MapElement.mk MapElementType.END_POINT "E1" 5 7 None].

Definition stuck_tasks : list TaskRecord.t :=
  [TaskRecord.mk "T1" "S1" "E1" TaskPriority.NORMAL None].

Definition stuck_context : AgvContext.t :=
  Eval vm_compute in built stuck_map stuck_tasks.

Definition stuck : SchedulerService.t := SchedulerService.init stuck_context.

(* two AGVs, each walled in on its own; the pickup cell lies on the border *)
Definition boxed_pair_map : list MapElement.t :=
  [MapElement.mk MapElementType.AGV "A1" 5 5 (Some Direction.RIGHT);
   MapElement.mk MapElementType.END_POINT "E1" 6 5 None;
   MapElement.mk MapElementType.AGV "A2" 7 5 (Some Direction.LEFT);
   MapElement.mk MapElementType.START_POINT "S1" 8 5 None].

Definition boxed_pair_context : AgvContext.t :=
  Eval vm_compute in built boxed_pair_map stuck_tasks.

Definition boxed_pair : SchedulerService.t :=
  SchedulerService.init boxed_pair_context.

(* the same, the first AGV still holding the last point of an earlier parking
   move *)
Definition boxed_pair_parked : SchedulerService.t :=
  Eval vm_compute in
    snd (SchedulerService.set_path_time_points 0
           [PathTimePoint.mk (PointEx.mk 5 5) 0] boxed_pair).

(* two loaded AGVs on adjacent rows, both facing RIGHT: M delivers on its own
   row, A has to cross M's row to deliver *)
Definition crossing_map : list MapElement.t :=
  [MapElement.mk MapElementType.AGV "M" 5 6 (Some Direction.RIGHT);
   MapElement.mk MapElementType.AGV "A" 5 5 (Some Direction.RIGHT);
   MapElement.mk MapElementType.START_POINT "S1" 2 2 None;
   MapElement.mk MapElementType.START_POINT "S2" 2 4 None;
   MapElement.mk MapElementType.END_POINT "EM" 14 6 None;
   MapElement.mk MapElementType.END_POINT "EA" 12 9 None].

Definition crossing_tasks : list TaskRecord.t :=
  [TaskRecord.mk "TM" "S1" "EM" TaskPriority.NORMAL None;
   TaskRecord.mk "TA" "S2" "EA" TaskPriority.NORMAL None].

Definition crossing_start : SchedulerService.t :=
  Eval vm_compute in SchedulerService.init (built crossing_map crossing_tasks).



End Worlds.

Module CrossLock.



End CrossLock.

Module Batch.

(* the candidates of a batch that are not handled yet *)
Definition unhandled (agvs handled : list nat) : nat :=
  length (filter (fun r => negb (ref_mem r handled)) agvs).

End Batch.

(** * Further statements *)

Module Geometry.

(* the direction with UP and DOWN exchanged *)
Definition flip (d : Direction.t) : Direction.t :=
  match d with
  | Direction.UP => Direction.DOWN
  | Direction.DOWN => Direction.UP
  | Direction.LEFT => Direction.LEFT
  | Direction.RIGHT => Direction.RIGHT
  end.



(* each number exceeds the one before it by 1 or by 2 *)
Fixpoint steps (times : list Z) : Prop :=
  match times with
  | t0 :: (t1 :: _) as rest => (t1 = t0 + 1 \/ t1 = t0 + 2) /\ steps rest
  | _ => True
  end.

End Geometry.

Module QueueOrder.
Section Order.
Context {A : Type}.
Import SimplePriorityQueue.

(* the queues a program can hold: the empty one, and whatever enqueue and
   dequeue make of a queue it holds *)
Inductive built : t A -> Prop :=
| built_empty : built empty
| built_enqueue (q : t A) (item : A) (priority : Z) :
    built q -> built (enqueue q item priority)
| built_dequeue (q q' : t A) (item : A) :
    built q -> dequeue q = Some (item, q') -> built q'.

Definition priority_of (e : @entry A) : Z := fst (fst e).
Definition index_of (e : @entry A) : nat := snd (fst e).

(* [a] is due before [b]: lower priority value, or equal and pushed earlier *)
Definition before (a b : @entry A) : Prop :=
  priority_of a < priority_of b
  \/ (priority_of a = priority_of b /\ (index_of a < index_of b)%nat).

(* the insertion indices in the heap are distinct and below the counter *)
Definition stamped (q : t A) : Prop :=
  NoDup (map index_of (_heap q))
  /\ forall e, In e (_heap q) -> (index_of e < _index q)%nat.

End Order.
End QueueOrder.

Module Frame.

Definition cell (e : MapElement.t) : PointEx.t :=
  PointEx.mk (MapElement.x e) (MapElement.y e).

(* within the rectangle *)
Definition inside (b : RectEx.t) (p : PointEx.t) : Prop :=
  RectEx.left b <= PointEx.x p <= RectEx.right b
  /\ RectEx.top b <= PointEx.y p <= RectEx.bottom b.

(* on the ring of cells one step outside the rectangle *)
Definition on_frame (b : RectEx.t) (p : PointEx.t) : Prop :=
  (RectEx.left b - 1 <= PointEx.x p <= RectEx.right b + 1
   /\ (PointEx.y p = RectEx.top b - 1 \/ PointEx.y p = RectEx.bottom b + 1))
  \/ (RectEx.top b - 1 <= PointEx.y p <= RectEx.bottom b + 1
      /\ (PointEx.x p = RectEx.left b - 1 \/ PointEx.x p = RectEx.right b + 1)).

(* the map has an element of this type and name *)
Definition named (map_elements : list MapElement.t) (ty : MapElementType.t)
    (name : string) : Prop :=
  exists e, In e map_elements /\ MapElement.type e = ty /\ MapElement.name e = name.

(* a task record whose start and end points are on the map *)
Definition resolvable (map_elements : list MapElement.t) (task : TaskRecord.t)
  : Prop :=
  named map_elements MapElementType.START_POINT (TaskRecord.start_point task)
  /\ named map_elements MapElementType.END_POINT (TaskRecord.end_point task).

(* the Agv an AGV row of the map becomes *)
Definition fresh_agv (e : MapElement.t) (a : Agv.t) : Prop :=
  Agv.name a = MapElement.name e
  /\ Agv.position a = cell e
  /\ MapElement.pitch e = Some (Agv.pitch a)
  /\ Agv.is_loaded a = false
  /\ Agv.loaded_task a = None
  /\ Agv.path_time_points a = [].

(* the TaskEx a task record becomes *)
Definition fresh_task (map_elements : list MapElement.t) (r : TaskRecord.t)
    (task : TaskEx.t) : Prop :=
  TaskEx.task_id task = TaskRecord.task_id r
  /\ TaskEx.priority task = TaskRecord.priority r
  /\ AgvContext._get_position_by_name map_elements MapElementType.START_POINT
       (TaskRecord.start_point r) = Ok (TaskEx.start_position task)
  /\ AgvContext._get_position_by_name map_elements MapElementType.END_POINT
       (TaskRecord.end_point r) = Ok (TaskEx.end_position task)
  /\ TaskEx.is_pending task = true
  /\ TaskEx.is_completed task = false.

(* the row the recorder writes for an idle AGV *)
Definition idle_row (timestamp : Z) (a : Agv.t)
  : TrajectoryRecorderService.record :=
  TrajectoryRecorderService.mk_record timestamp (Agv.name a)
    (PointEx.x (Agv.position a)) (PointEx.y (Agv.position a))
    (Direction.value (Agv.pitch a)) "false" "" "false" "".

End Frame.

Module Progress.
Import SchedulerService.

(* what may become of a task: taken, then completed, never the reverse; what
   it is and where it goes never change *)
Definition task_step (task task' : TaskEx.t) : Prop :=
  TaskEx.task_id task' = TaskEx.task_id task
  /\ TaskEx.start_point task' = TaskEx.start_point task
  /\ TaskEx.end_point task' = TaskEx.end_point task
  /\ TaskEx.priority task' = TaskEx.priority task
  /\ TaskEx.start_position task' = TaskEx.start_position task
  /\ TaskEx.end_position task' = TaskEx.end_position task
  /\ TaskEx.pickup_position task' = TaskEx.pickup_position task
  /\ (TaskEx.is_pending task = false -> TaskEx.is_pending task' = false)
  /\ (TaskEx.is_completed task = true -> TaskEx.is_completed task' = true).

(* the same AGVs by name, the same map, and every task at the same place of
   the table, only further on *)
Definition steady (s s' : t) : Prop :=
  map Agv.name (agvs s') = map Agv.name (agvs s)
  /\ AgvContext.fixed_map_obstacles (context s')
     = AgvContext.fixed_map_obstacles (context s)
  /\ AgvContext.map_elements (context s') = AgvContext.map_elements (context s)
  /\ AgvContext.map_bounds (context s') = AgvContext.map_bounds (context s)
  /\ Forall2 task_step (tasks s) (tasks s').

(* loaded exactly when holding a task; the task held is in the table and has
   been taken *)
Definition cargo_ok (tasks : list TaskEx.t) (a : Agv.t) : Prop :=
  match Agv.loaded_task a with
  | None => Agv.is_loaded a = false
  | Some task_ref =>
      Agv.is_loaded a = true
      /\ exists task, nth_error tasks task_ref = Some task
                      /\ TaskEx.is_pending task = false
  end.

Definition cargo (s : t) : Prop := Forall (cargo_ok (tasks s)) (agvs s).

End Progress.

Module Trace.
Import SchedulerService.

Definition trajectory (s : t) : list TrajectoryRecorderService.record :=
  AgvContext.trajectory_recorder (context s).

(* [row] shows [a] at [timestamp] *)
Definition shows (timestamp : Z) (a : Agv.t)
    (row : TrajectoryRecorderService.record) : Prop :=
  TrajectoryRecorderService.timestamp row = timestamp
  /\ TrajectoryRecorderService.name row = Agv.name a
  /\ TrajectoryRecorderService.X row = PointEx.x (Agv.position a)
  /\ TrajectoryRecorderService.Y row = PointEx.y (Agv.position a)
  /\ TrajectoryRecorderService.pitch row = Direction.value (Agv.pitch a)
  /\ TrajectoryRecorderService.loaded row
     = (if Agv.is_loaded a then "true" else "false")%string.

(* one row per AGV, in the order of the AGV list *)
Definition snapshot (timestamp : Z) (agvs : list Agv.t)
    (rows : list TrajectoryRecorderService.record) : Prop :=
  Forall2 (shows timestamp) agvs rows.

(* nothing but the AGVs' and tasks' own fields has changed *)
Definition quiet (s s' : t) : Prop :=
  trajectory s' = trajectory s /\ timestamp s' = timestamp s.

(* what a run from [s] has done to the trajectory: one snapshot more if it
   ended normally, nothing if it raised *)
Definition recorded {A : Type} (s : t) (out : result A * t) : Prop :=
  match fst out with
  | Ok _ =>
      timestamp (snd out) = timestamp s
      /\ exists rows,
           trajectory (snd out) = trajectory s ++ rows
           /\ snapshot (timestamp s) (agvs (snd out)) rows
  | Raise _ => quiet s (snd out)
  end.

End Trace.

Module Drive.

(* what a tick does to an AGV that nothing hinders: it moves if it faces its
   next point, turns towards it otherwise *)
Definition step (a : Agv.t) : result Agv.t :=
  match Agv.should_move a with
  | Raise e => Raise e
  | Ok true => Ok (Agv.move a)
  | Ok false =>
      match Agv.should_turn a with
      | Raise e => Raise e
      | Ok true => Agv.turn a None
      | Ok false => Ok a
      end
  end.

Fixpoint run (ticks : nat) (a : Agv.t) : result Agv.t :=
  match ticks with
  | O => Ok a
  | S ticks' =>
      match step a with
      | Raise e => Raise e
      | Ok a' => run ticks' a'
      end
  end.

End Drive.

Module Obstacles.
Import SchedulerService.

(* a cell the AGV at place [j] of the list cannot step on: a fixed obstacle,
   or the cell of another AGV of the list *)
Definition blocked (s : t) (agvs : list Agv.t) (j : nat) (n : PointEx.t) : Prop :=
  In n (AgvContext.fixed_map_obstacles (context s))
  \/ exists (k : nat) (other : Agv.t),
       k <> j /\ nth_error agvs k = Some other /\ Agv.position other = n.

(* [p] is the one cell at distance 1 from the AGV [item], at place [j], that
   is not blocked: the other three are *)
Definition last_exit (s : t) (agvs : list Agv.t) (j : nat) (item : Agv.t)
    (p : PointEx.t) : Prop :=
  PathPlanning.manhattan (Agv.position item) p = 1
  /\ ~ blocked s agvs j p
  /\ forall n : PointEx.t,
       PathPlanning.manhattan (Agv.position item) n = 1 ->
       ~ blocked s agvs j n -> n = p.

End Obstacles.

Module Nearest.

(* equal costs; None is the cost of an AGV without a path *)
Definition cost_eqb (a b : option Z) : bool :=
  match a, b with
  | Some x, Some y => x =? y
  | None, None => true
  | _, _ => false
  end.

(* when an AGV following the timed path arrives: the time_cost of the last
   point; never (None) without a path *)
Definition arrival (path_time_points : list PathTimePoint.t) : option Z :=
  match path_time_points with
  | [] => None
  | p :: rest => Some (PathTimePoint.time_cost (last rest p))
  end.

(* strictly sooner; never is later than any time *)
Definition sooner (a b : option Z) : Prop :=
  match a, b with
  | Some x, Some y => x < y
  | Some _, None => True
  | None, _ => False
  end.

Definition no_later (a b : option Z) : Prop :=
  match a, b with
  | Some x, Some y => x <= y
  | _, None => True
  | None, Some _ => False
  end.

(* the option of the idle AGV [r]: the timing of its planned path to the
   pickup cell of [task] *)
Definition planned_for (s : SchedulerService.t) (task : TaskEx.t) (r : nat)
    (o : nat * list PathTimePoint.t) : Prop :=
  fst o = r
  /\ exists agv : Agv.t,
       nth_error (SchedulerService.agvs s) r = Some agv
       /\ PathPlanning.calculate_path_timing
            (SchedulerService._calculate_path_to_pickup_position s agv task
               (SchedulerService._get_obstacles s r agv
                  (SchedulerService.agvs s)))
            (Agv.pitch agv)
          = Ok (snd o).

(* the options the assignment step computes for [task] and the idle AGVs *)
Definition options_of (s : SchedulerService.t) (task : TaskEx.t)
    (idle_agvs : list nat) : list (nat * list PathTimePoint.t) :=
  match fst (SchedulerService.assignment_options task idle_agvs s) with
  | Ok options => options
  | Raise _ => []
  end.

End Nearest.

Module Delivery.
Import SchedulerService.

(* what has happened to task [j] since the tick began in [s0]: if it has been
   completed, an AGV that held it stood next to its end point; if it has been
   taken, the AGV that took it stood on its pickup cell *)
Definition task_events (s0 : t) (j : nat) (task0 task : TaskEx.t) : Prop :=
  (TaskEx.is_completed task0 = false -> TaskEx.is_completed task = true ->
   TaskEx.complete_timestamp task = timestamp s0
   /\ exists i a0,
        nth_error (agvs s0) i = Some a0
        /\ Agv.loaded_task a0 = Some j
        /\ PointEx.is_neighbour (Agv.position a0) (TaskEx.end_position task0)
           = true)
  /\ (TaskEx.agv task0 = None ->
      forall i, TaskEx.agv task = Some i ->
        TaskEx.start_timestamp task = timestamp s0
        /\ exists a0,
             nth_error (agvs s0) i = Some a0
             /\ Agv.position a0 = TaskEx.pickup_position task0).

(* [s] is a state of the tick that began in [s0] *)
Definition during (s0 s : t) : Prop :=
  timestamp s = timestamp s0
  /\ Forall2 Progress.task_step (tasks s0) (tasks s)
  /\ forall j task0 task,
       nth_error (tasks s0) j = Some task0 ->
       nth_error (tasks s) j = Some task ->
       task_events s0 j task0 task.

(* no AGV has moved since [s0] *)
Definition standing (s0 s : t) : Prop :=
  Forall2 (fun a0 a => Agv.position a = Agv.position a0) (agvs s0) (agvs s).

(* no AGV holds a task it did not hold in [s0] *)
Definition holding (s0 s : t) : Prop :=
  Forall2 (fun a0 a => forall j, Agv.loaded_task a = Some j ->
                                 Agv.loaded_task a0 = Some j)
    (agvs s0) (agvs s).

(* the task table and the clock are as they were *)
Definition calm (s s' : t) : Prop :=
  tasks s' = tasks s /\ timestamp s' = timestamp s.

(* an AGV on the pickup cell of the one task of the map *)
Definition at_pickup_map : list MapElement.t :=
  [MapElement.mk MapElementType.AGV "A1" 3 2 (Some Direction.RIGHT);
   MapElement.mk MapElementType.START_POINT "S1" 2 2 None;
   MapElement.mk MapElementType.END_POINT "E1" 6 2 None].

Definition at_pickup : t :=
  Eval vm_compute in
    init (Worlds.built at_pickup_map
            [TaskRecord.mk "T1" "S1" "E1" TaskPriority.NORMAL None]).

End Delivery.

Module Sound.
Import SchedulerService.

(* the points of a plan for an AGV that stands at [p]: none at all, or a
   chain of 4-adjacent cells that starts at [p] *)
Definition plan_from (p : PointEx.t) (points : list PointEx.t) : Prop :=
  match points with
  | [] => True
  | q :: _ => q = p /\ Path.chain points
  end.

(* an AGV whose path is a plan from where it stands and whose load flag
   agrees with the task it holds, a task of the table of [nt] tasks *)
Definition agv_ok (nt : nat) (a : Agv.t) : Prop :=
  plan_from (Agv.position a)
    (map PathTimePoint.position (Agv.path_time_points a))
  /\ match Agv.loaded_task a with
     | None => Agv.is_loaded a = false
     | Some j => Agv.is_loaded a = true /\ (j < nt)%nat
     end.

(* the scheduler states a run goes through, [na] AGVs and [nt] tasks *)
Definition inv (na nt : nat) (s : t) : Prop :=
  length (agvs s) = na
  /\ length (tasks s) = nt
  /\ Forall (agv_ok nt) (agvs s)
  /\ Run.ends_fixed s.

(* [m] started in a state of [P] returns normally, in a state of [Q] *)
Definition runs {A : Type} (P : t -> Prop) (m : M A) (Q : A -> t -> Prop)
  : Prop :=
  forall s, P s -> exists a s', m s = (Ok a, s') /\ Q a s'.

(* the items of the batch loop refer to AGVs and tasks that exist *)
Definition moved_ok (na nt : nat) (moved : list moved_item) : Prop :=
  Forall (fun item : moved_item =>
            (fst (fst item) < na)%nat /\ (snd item < nt)%nat) moved.

(* the assignment table maps AGVs that exist to tasks that exist *)
Definition table_ok (na nt : nat) (d : assignments) : Prop :=
  Forall (fun kv : nat * nat => (fst kv < na)%nat /\ (snd kv < nt)%nat) d.

(* every candidate of a batch has its task: the task it holds if the batch
   is of loaded AGVs, its entry of the assignment table otherwise *)
(* the local state of the assignment loop refers to AGVs and tasks *)
Definition idle_ok (na nt : nat) (acc : assign_state) : Prop :=
  Forall (fun r => (r < na)%nat) (fst acc) /\ table_ok na nt (snd acc).

Definition has_task (nt : nat) (is_loaded : bool)
    (temp_assignments : option assignments) (r : nat) : Prop :=
  is_loaded = false ->
  exists d j, temp_assignments = Some d /\ dict_get d r = Some j /\ (j < nt)%nat.

End Sound.

(** * Proofs *)

(** ** Equality tests *)

Lemma PointEx_eqb_eq (p q : PointEx.t) : PointEx.eqb p q = true <-> p = q.
Proof.
  destruct p as [px py], q as [qx qy]; unfold PointEx.eqb; simpl.
  rewrite andb_true_iff, !Z.eqb_eq. split.
  - intros [-> ->]; reflexivity.
  - intros H; injection H; auto.
Qed.

Lemma PointEx_eqb_refl (p : PointEx.t) : PointEx.eqb p p = true.
Proof. apply PointEx_eqb_eq; reflexivity. Qed.

Lemma PointEx_eqb_neq (p q : PointEx.t) : PointEx.eqb p q = false <-> p <> q.
Proof.
  rewrite <- PointEx_eqb_eq. destruct (PointEx.eqb p q); split; congruence.
Qed.

Lemma PointEx_mem_In (p : PointEx.t) (l : list PointEx.t) :
  PointEx.mem p l = true <-> In p l.
Proof.
  unfold PointEx.mem. rewrite existsb_exists. split.
  - intros [q [Hin Heq]]. apply PointEx_eqb_eq in Heq. subst; assumption.
  - intros Hin. exists p. split; [assumption | apply PointEx_eqb_refl].
Qed.

Lemma Direction_eqb_eq (a b : Direction.t) : Direction.eqb a b = true <-> a = b.
Proof. destruct a, b; simpl; split; congruence. Qed.

Lemma Direction_eqb_refl (a : Direction.t) : Direction.eqb a a = true.
Proof. destruct a; reflexivity. Qed.

Lemma ref_mem_In (r : nat) (refs : list nat) : ref_mem r refs = true <-> In r refs.
Proof.
  unfold ref_mem. rewrite existsb_exists. split.
  - intros [q [Hin Heq]]. apply Nat.eqb_eq in Heq. subst; assumption.
  - intros Hin. exists r. split; [assumption | apply Nat.eqb_refl].
Qed.

(** ** TaskEx *)

(** C8: the pickup cell is the left neighbour of the start cell when the start
    cell lies right of column 10 and its right neighbour otherwise; in both
    cases the two cells are 4-adjacent. *)
Theorem pickup_position_beside_start :
  forall (task_record : TaskRecord.t) (start_position end_position : PointEx.t),
    let task := TaskEx.init task_record start_position end_position in
    TaskEx.pickup_position task
    = (if PointEx.x start_position >? 10
       then PointEx.mk (PointEx.x start_position - 1) (PointEx.y start_position)
       else PointEx.mk (PointEx.x start_position + 1) (PointEx.y start_position))
    /\ PointEx.is_neighbour (TaskEx.pickup_position task) start_position = true
    /\ PointEx.is_neighbour start_position (TaskEx.pickup_position task) = true.
Proof.
  intros task_record [sx sy] end_position; simpl.
  unfold PointEx.is_neighbour.
  destruct (sx >? 10); simpl; repeat split;
    rewrite ?Z.eqb_refl; simpl;
    repeat match goal with
      | |- context [?a =? ?b] =>
          let E := fresh in destruct (Z.eqb_spec a b) as [E | E]; simpl;
          try reflexivity; try lia
      end.
Qed.

(** ** Stable sorting *)

Section StableSortFacts.
Context {K V : Type} (leb : K -> K -> bool).
Hypothesis leb_total : forall a b, leb a b = true \/ leb b a = true.
Hypothesis leb_trans : forall a b c, leb a b = true -> leb b c = true -> leb a c = true.

Let le (a b : K * V) : Prop := leb (fst a) (fst b) = true.

Lemma sort_insert_perm (e : K * V) (l : list (K * V)) :
  Permutation (sort_insert leb e l) (e :: l).
Proof.
  induction l as [| e' l IH]; simpl.
  - apply Permutation_refl.
  - destruct (leb (fst e) (fst e')).
    + apply Permutation_refl.
    + eapply perm_trans; [apply perm_skip, IH | apply perm_swap].
Qed.

Lemma stable_sort_perm (l : list (K * V)) : Permutation (stable_sort leb l) l.
Proof.
  induction l as [| e l IH]; simpl.
  - constructor.
  - eapply perm_trans; [apply sort_insert_perm | apply perm_skip, IH].
Qed.

Lemma sort_insert_sorted (e : K * V) (l : list (K * V)) :
  StronglySorted le l -> StronglySorted le (sort_insert leb e l).
Proof.
  induction 1 as [| e' l Hs IH Hall]; simpl.
  - repeat constructor.
  - destruct (leb (fst e) (fst e')) eqn:E.
    + constructor.
      * constructor; assumption.
      * constructor; [exact E |].
        eapply Forall_impl; [| exact Hall].
        intros x Hx. unfold le in *. eapply leb_trans; eassumption.
    + constructor; [exact IH |].
      assert (Hle : le e' e).
      { unfold le. destruct (leb_total (fst e) (fst e')); congruence. }
      eapply Permutation_Forall.
      * apply Permutation_sym, sort_insert_perm.
      * constructor; assumption.
Qed.

Lemma stable_sort_sorted (l : list (K * V)) : StronglySorted le (stable_sort leb l).
Proof.
  induction l as [| e l IH]; simpl.
  - constructor.
  - apply sort_insert_sorted, IH.
Qed.

(* elements with one and the same key keep their order *)
Variable eqb : K -> K -> bool.
Hypothesis eqb_eq : forall a b, eqb a b = true <-> a = b.

Lemma sort_insert_stable (k : K) (e : K * V) (l : list (K * V)) :
  filter (fun x => eqb (fst x) k) (sort_insert leb e l)
  = filter (fun x => eqb (fst x) k) (e :: l).
Proof.
  induction l as [| e' l IH]; simpl.
  - reflexivity.
  - destruct (leb (fst e) (fst e')) eqn:E; simpl.
    + reflexivity.
    + simpl in IH. rewrite IH.
      destruct (eqb (fst e) k) eqn:Ee; destruct (eqb (fst e') k) eqn:Ee';
        try reflexivity.
      apply eqb_eq in Ee, Ee'. rewrite Ee, Ee' in E.
      destruct (leb_total k k); congruence.
Qed.

Lemma stable_sort_stable (k : K) (l : list (K * V)) :
  filter (fun x => eqb (fst x) k) (stable_sort leb l)
  = filter (fun x => eqb (fst x) k) l.
Proof.
  induction l as [| e l IH]; simpl.
  - reflexivity.
  - rewrite sort_insert_stable. simpl. rewrite IH. reflexivity.
Qed.
End StableSortFacts.

(** ** Task ordering *)

Section OrderingFacts.
Import AgvContext.

Lemma sort_key_leb_spec (a b : sort_key_t) :
  sort_key_leb a b = true <->
  let '(a1, a2, a3, a4, a5) := a in
  let '(b1, b2, b3, b4, b5) := b in
  a1 < b1 \/ (a1 = b1 /\ (a2 < b2 \/ (a2 = b2 /\ (a3 < b3 \/ (a3 = b3 /\
    (a4 < b4 \/ (a4 = b4 /\ a5 <= b5))))))).
Proof.
  destruct a as [[[[a1 a2] a3] a4] a5], b as [[[[b1 b2] b3] b4] b5].
  unfold sort_key_leb.
  rewrite !orb_true_iff, !andb_true_iff, !orb_true_iff, !andb_true_iff,
    !orb_true_iff, !andb_true_iff, !orb_true_iff, !andb_true_iff,
    !Z.ltb_lt, !Z.eqb_eq, Z.leb_le.
  tauto.
Qed.

Lemma sort_key_leb_total (a b : sort_key_t) :
  sort_key_leb a b = true \/ sort_key_leb b a = true.
Proof.
  rewrite !sort_key_leb_spec.
  destruct a as [[[[a1 a2] a3] a4] a5], b as [[[[b1 b2] b3] b4] b5]. lia.
Qed.

Lemma sort_key_leb_trans (a b c : sort_key_t) :
  sort_key_leb a b = true -> sort_key_leb b c = true -> sort_key_leb a c = true.
Proof.
  rewrite !sort_key_leb_spec.
  destruct a as [[[[a1 a2] a3] a4] a5], b as [[[[b1 b2] b3] b4] b5],
           c as [[[[c1 c2] c3] c4] c5]. lia.
Qed.

Lemma key_eqb_eq (a b : sort_key_t) : Ordering.key_eqb a b = true <-> a = b.
Proof.
  destruct a as [[[[a1 a2] a3] a4] a5], b as [[[[b1 b2] b3] b4] b5].
  unfold Ordering.key_eqb. rewrite !andb_true_iff, !Z.eqb_eq. split.
  - intros [[[[-> ->] ->] ->] ->]. reflexivity.
  - intros H; injection H; auto.
Qed.

(** the dict of groups *)

Lemma group_get_append (g : groups) (k k' : string) (task : nat * TaskEx.t) :
  group_get (group_append g k task) k'
  = if String.eqb k k' then Some (Ordering.group_or_empty g k ++ [task])
    else group_get g k'.
Proof.
  unfold Ordering.group_or_empty.
  induction g as [| [k0 l0] g IH]; simpl.
  - destruct (String.eqb k k'); reflexivity.
  - destruct (String.eqb_spec k0 k) as [-> | Hk0]; simpl.
    + destruct (String.eqb_spec k k') as [-> | Hk]; [reflexivity |].
      reflexivity.
    + rewrite IH.
      destruct (String.eqb_spec k k') as [-> | Hk].
      * destruct (String.eqb_spec k0 k'); [contradiction | reflexivity].
      * reflexivity.
Qed.

Lemma group_get_fold (l : list (nat * TaskEx.t)) (g : groups) (key : string) :
  group_get
    (fold_left (fun g task => group_append g (TaskEx.start_point (snd task)) task)
       l g) key
  = match filter (fun t => String.eqb (TaskEx.start_point (snd t)) key) l with
    | [] => group_get g key
    | members => Some (Ordering.group_or_empty g key ++ members)
    end.
Proof.
  revert g. induction l as [| task l IH]; intros g; simpl.
  - reflexivity.
  - rewrite IH. unfold Ordering.group_or_empty. rewrite !group_get_append.
    destruct (String.eqb_spec (TaskEx.start_point (snd task)) key) as [E | E].
    + unfold Ordering.group_or_empty. rewrite E.
      destruct (filter _ l); rewrite <- ?app_assoc; reflexivity.
    + reflexivity.
Qed.

Lemma group_get_pending (c : t) (task : nat * TaskEx.t) :
  In task (pending c) ->
  group_get (group_tasks (pending c)) (TaskEx.start_point (snd task))
  = Some (Ordering.group_of c task).
Proof.
  intros Hin. unfold group_tasks. rewrite group_get_fold.
  unfold Ordering.group_of.
  assert (Hmem : In task
            (filter (fun t => String.eqb (TaskEx.start_point (snd t))
                                (TaskEx.start_point (snd task))) (pending c))).
  { apply filter_In. split; [assumption | apply String.eqb_refl]. }
  destruct (filter _ (pending c)); [contradiction | reflexivity].
Qed.

Lemma ref_index_index_of (r : nat) (refs : list nat) :
  In r refs -> ref_index r refs = Some (Ordering.index_of r refs).
Proof.
  induction refs as [| q refs IH]; simpl; [contradiction |].
  intros [-> | Hin].
  - rewrite Nat.eqb_refl. reflexivity.
  - destruct (Nat.eqb q r); [reflexivity |]. rewrite IH by assumption. reflexivity.
Qed.

Lemma sort_key_compound (c : t) (task : nat * TaskEx.t) :
  In task (pending c) ->
  sort_key (group_tasks (pending c)) task = Ok (Ordering.compound_key c task).
Proof.
  intros Hin. unfold sort_key. rewrite group_get_pending by assumption.
  rewrite ref_index_index_of.
  - unfold Ordering.compound_key, middleY.
    destruct (PointEx.y (TaskEx.pickup_position (snd task)) =? 10); reflexivity.
  - apply in_map. apply filter_In. split; [assumption | apply String.eqb_refl].
Qed.

Lemma result_list_map_ok {A B : Type} (f : A -> result B) (g : A -> B)
    (l : list A) :
  (forall a, In a l -> f a = Ok (g a)) -> result_list_map f l = Ok (map g l).
Proof.
  induction l as [| a l IH]; intros H; simpl.
  - reflexivity.
  - rewrite (H a) by (left; reflexivity).
    rewrite IH by (intros; apply H; right; assumption). reflexivity.
Qed.

(** references of the enumerated objects *)

Lemma enumerate_from_In {A : Type} (l : list A) (n i : nat) (a : A) :
  In (i, a) (enumerate_from n l) <->
  (n <= i)%nat /\ nth_error l (i - n) = Some a.
Proof.
  revert n. induction l as [| b l IH]; intros n; simpl.
  - split; [contradiction |]. intros [_ H]. destruct (i - n)%nat; discriminate.
  - rewrite IH. split.
    + intros [H | [Hle Hn]].
      * injection H as -> ->. split; [lia |]. rewrite Nat.sub_diag. reflexivity.
      * split; [lia |]. replace (i - n)%nat with (S (i - S n)) by lia. exact Hn.
    + intros [Hle Hn]. destruct (Nat.eq_dec n i) as [-> | Hne].
      * left. rewrite Nat.sub_diag in Hn. simpl in Hn. congruence.
      * right. split; [lia |].
        replace (i - n)%nat with (S (i - S n)) in Hn by lia. exact Hn.
Qed.

Lemma enumerate_In {A : Type} (l : list A) (i : nat) (a : A) :
  In (i, a) (enumerate l) <-> nth_error l i = Some a.
Proof.
  unfold enumerate. rewrite enumerate_from_In, Nat.sub_0_r.
  split; [tauto | split; [lia | assumption]].
Qed.

Lemma enumerate_from_fst {A : Type} (l : list A) (n : nat) :
  map fst (enumerate_from n l) = seq n (length l).
Proof.
  revert n. induction l as [| a l IH]; intros n; simpl; [| rewrite IH]; reflexivity.
Qed.

Lemma enumerate_from_snd {A : Type} (l : list A) (n : nat) :
  map snd (enumerate_from n l) = l.
Proof.
  revert n. induction l as [| a l IH]; intros n; simpl; [| rewrite IH]; reflexivity.
Qed.

(* dropping elements keeps the keys distinct *)
Lemma filter_keeps_distinct_keys {X Y : Type} (key : X -> Y) (keep : X -> bool)
    (xs : list X) (Hnd : NoDup (map key xs)) :
  NoDup (map key (filter keep xs)).
Proof.
  induction xs as [| x xs IH]; simpl in *; [constructor |].
  apply NoDup_cons_iff in Hnd. destruct Hnd as [Hfresh Hrest].
  destruct (keep x); simpl; [| apply IH, Hrest].
  apply NoDup_cons; [| apply IH, Hrest].
  intros Hin. apply Hfresh. apply in_map_iff in Hin.
  destruct Hin as [x' [Hkey Hx']]. apply filter_In in Hx'.
  apply in_map_iff. exists x'. tauto.
Qed.

Lemma pending_refs_NoDup (c : t) : NoDup (map fst (pending c)).
Proof.
  unfold pending. apply filter_keeps_distinct_keys.
  unfold enumerate. rewrite enumerate_from_fst. apply seq_NoDup.
Qed.

Lemma pending_In (c : t) (r : nat) (task : TaskEx.t) :
  In (r, task) (pending c) <->
  nth_error (tasks c) r = Some task /\ TaskEx.agv task = None.
Proof.
  unfold pending. rewrite filter_In, enumerate_In. simpl.
  unfold TaskEx.is_pending. destruct (TaskEx.agv task); split;
    intros [H1 H2]; split; congruence.
Qed.

Lemma sort_key_leb_lex (a b : sort_key_t) :
  sort_key_leb a b = true <-> Ordering.lex_le a b.
Proof. apply sort_key_leb_spec. Qed.

Lemma sorted_by_key {A : Type} (key : A -> sort_key_t)
    (l : list (sort_key_t * A)) :
  Forall (fun e => fst e = key (snd e)) l ->
  StronglySorted (fun a b => sort_key_leb (fst a) (fst b) = true) l ->
  StronglySorted (fun a b => Ordering.lex_le (key a) (key b)) (map snd l).
Proof.
  intros Hkey Hs. induction Hs as [| e l Hs IH Hall]; simpl.
  - constructor.
  - inversion Hkey as [| ? ? He Hl]; subst.
    constructor; [apply IH; assumption |].
    apply Forall_map. rewrite Forall_forall in *.
    intros x Hx. rewrite <- He, <- (Hl x Hx). apply sort_key_leb_lex, Hall, Hx.
Qed.
End OrderingFacts.

(* the key function finds every pending task in its group: no raise *)
Lemma get_sorted_pending_tasks_ok (c : AgvContext.t) :
  exists sorted, AgvContext.get_sorted_pending_tasks c = Ok sorted.
Proof.
  unfold AgvContext.get_sorted_pending_tasks.
  rewrite (result_list_map_ok _
             (fun task => (Ordering.compound_key c task, task))).
  - eexists. reflexivity.
  - intros task Hin. rewrite sort_key_compound by assumption. reflexivity.
Qed.

(** C3: [get_sorted_pending_tasks] returns the pending tasks (those whose
    [agv] is None), each once, in ascending order of the five-component key
    (index in its start-point group, negated priority value, -1 if the group
    holds a High task else 0, negated group length, 0 if the pickup row is not
    10 else 1), the keys compared as tuples of integers: the first component
    that differs decides.  Tasks with equal keys stay in their input order. *)
Theorem get_sorted_pending_tasks_sorted :
  forall c : AgvContext.t,
  exists sorted : list (nat * TaskEx.t),
    AgvContext.get_sorted_pending_tasks c = Ok (map fst sorted)
    /\ Permutation sorted (AgvContext.pending c)
    /\ (forall r task,
          In (r, task) sorted <->
          nth_error (AgvContext.tasks c) r = Some task /\ TaskEx.agv task = None)
    /\ Ordering.ascending c sorted
    /\ (forall k,
          filter (fun task => Ordering.key_eqb (Ordering.compound_key c task) k)
                 sorted
          = filter (fun task => Ordering.key_eqb (Ordering.compound_key c task) k)
                   (AgvContext.pending c)).
Proof.
  intros c.
  set (keyed := map (fun task => (Ordering.compound_key c task, task))
                    (AgvContext.pending c)).
  set (S := stable_sort AgvContext.sort_key_leb keyed).
  assert (Hperm : Permutation S keyed) by apply stable_sort_perm.
  assert (Hkeyed : Forall (fun e => fst e = Ordering.compound_key c (snd e)) keyed).
  { unfold keyed. apply Forall_map. apply Forall_forall. reflexivity. }
  assert (HkeyS : Forall (fun e => fst e = Ordering.compound_key c (snd e)) S).
  { eapply Permutation_Forall; [apply Permutation_sym, Hperm | exact Hkeyed]. }
  assert (Hsnd : map snd keyed = AgvContext.pending c).
  { unfold keyed. rewrite map_map. simpl. apply map_id. }
  exists (map snd S). split; [| split; [| split; [| split]]].
  - unfold AgvContext.get_sorted_pending_tasks.
    rewrite (result_list_map_ok _
               (fun task => (Ordering.compound_key c task, task))).
    + fold keyed. fold S. rewrite map_map. reflexivity.
    + intros task Hin. rewrite sort_key_compound by assumption. reflexivity.
  - rewrite <- Hsnd. apply Permutation_map, Hperm.
  - intros r task. rewrite <- pending_In, <- Hsnd. split; intros Hin.
    + eapply Permutation_in; [apply Permutation_map, Hperm | exact Hin].
    + eapply Permutation_in; [apply Permutation_sym, Permutation_map, Hperm | exact Hin].
  - unfold Ordering.ascending. apply sorted_by_key; [exact HkeyS |].
    apply stable_sort_sorted.
    + apply sort_key_leb_total.
    + apply sort_key_leb_trans.
  - intros k.
    assert (Hf : forall l : list (AgvContext.sort_key_t * (nat * TaskEx.t)),
               Forall (fun e => fst e = Ordering.compound_key c (snd e)) l ->
               filter (fun task => Ordering.key_eqb (Ordering.compound_key c task) k)
                      (map snd l)
               = map snd (filter (fun e => Ordering.key_eqb (fst e) k) l)).
    { induction 1 as [| e l He Hl IH]; cbn [filter map]; [reflexivity |].
      rewrite <- He, IH. destruct (Ordering.key_eqb (fst e) k); reflexivity. }
    rewrite Hf by exact HkeyS. rewrite <- Hsnd, Hf by exact Hkeyed.
    f_equal. apply stable_sort_stable.
    + apply sort_key_leb_total.
    + apply key_eqb_eq.
Qed.

(** C2, as the code has it: with exactly two pending tasks at one start point,
    the first Normal and the second High, the Normal task stays first; the
    index within the start-point group is the leading component of the key. *)
Theorem same_start_point_keeps_file_order :
  forall (c : AgvContext.t) (i j : nat) (first second : TaskEx.t),
    AgvContext.pending c = [(i, first); (j, second)] ->
    TaskEx.start_point first = TaskEx.start_point second ->
    TaskEx.priority first = TaskPriority.NORMAL ->
    TaskEx.priority second = TaskPriority.HIGH ->
    AgvContext.get_sorted_pending_tasks c = Ok [i; j].
Proof.
  intros c i j first second Hp Hsp _ _.
  assert (Hij : i <> j).
  { pose proof (pending_refs_NoDup c) as Hnd. rewrite Hp in Hnd. simpl in Hnd.
    inversion Hnd as [| ? ? Hnotin _]; subst.
    intros ->. apply Hnotin. left; reflexivity. }
  unfold AgvContext.get_sorted_pending_tasks. rewrite Hp.
  unfold AgvContext.group_tasks, AgvContext.sort_key. simpl.
  rewrite Hsp, String.eqb_refl. simpl. rewrite String.eqb_refl. simpl.
  rewrite Nat.eqb_refl.
  destruct (Nat.eqb_spec i j) as [E | _]; [contradiction |].
  rewrite Nat.eqb_refl. simpl. reflexivity.
Qed.

Lemma same_start_point_keeps_file_order_witness :
  AgvContext.get_sorted_pending_tasks Ordering.two_tasks = Ok [0%nat; 1%nat].
Proof.
  eapply (same_start_point_keeps_file_order Ordering.two_tasks);
    reflexivity.
Defined.

(** C2 as stated fails: in [Ordering.two_tasks] the two pending tasks share
    their start point, the first is Normal and the second High, and the
    Normal one is returned first. *)
Lemma high_task_not_promoted :
  (exists first second : TaskEx.t,
     AgvContext.pending Ordering.two_tasks = [(0%nat, first); (1%nat, second)]
     /\ TaskEx.start_point first = TaskEx.start_point second
     /\ TaskEx.priority first = TaskPriority.NORMAL
     /\ TaskEx.priority second = TaskPriority.HIGH)
  /\ AgvContext.get_sorted_pending_tasks Ordering.two_tasks = Ok [0%nat; 1%nat]
  /\ AgvContext.get_sorted_pending_tasks Ordering.two_tasks <> Ok [1%nat; 0%nat].
Proof.
  split; [| split].
  - eexists; eexists. repeat split.
  - reflexivity.
  - discriminate.
Qed.

(** ** The priority queue *)

Section QueueFacts.
Context {A : Type}.
Import SimplePriorityQueue.

Lemma heappop_In (h : list (@entry A)) (m : entry) (rest : list entry) :
  heappop h = Some (m, rest) ->
  In m h /\ (forall e, In e rest -> In e h) /\ length h = S (length rest).
Proof.
  revert m rest. induction h as [| e h IH]; simpl; intros m rest H.
  - discriminate.
  - destruct (heappop h) as [[m' rest'] |] eqn:E.
    + destruct (IH _ _ eq_refl) as [Hin [Hsub Hlen]].
      destruct (entry_ltb m' e); injection H as <- <-.
      * split; [right; assumption |]. split.
        -- intros x [-> | Hx]; [left; reflexivity | right; auto].
        -- simpl. rewrite Hlen. reflexivity.
      * split; [left; reflexivity |]. split; [intros; right; assumption |].
        reflexivity.
    + injection H as <- <-. destruct h; [| simpl in E; destruct (heappop h);
        [destruct p; destruct (entry_ltb e1 e0) |]; discriminate].
      split; [left; reflexivity |]. split; [contradiction | reflexivity].
Qed.

Lemma heappop_None (h : list (@entry A)) : heappop h = None -> h = [].
Proof.
  destruct h as [| e h]; [reflexivity |]. simpl.
  destruct (heappop h) as [[m rest] |]; [destruct (entry_ltb m e) |]; discriminate.
Qed.

Lemma dequeue_In (q q' : t A) (item : A) :
  dequeue q = Some (item, q') ->
  (exists p i, In (p, i, item) (_heap q))
  /\ (forall e, In e (_heap q') -> In e (_heap q))
  /\ length (_heap q) = S (length (_heap q')).
Proof.
  unfold dequeue. destruct (heappop (_heap q)) as [[[[p i] x] rest] |] eqn:E;
    [| discriminate].
  intros H; injection H as <- <-. simpl.
  destruct (heappop_In _ _ _ E) as [Hin [Hsub Hlen]].
  split; [exists p, i; assumption | split; assumption].
Qed.

Lemma dequeue_None (q : t A) : dequeue q = None -> _heap q = [].
Proof.
  unfold dequeue. destruct (heappop (_heap q)) as [[[[p i] x] rest] |] eqn:E;
    [discriminate |]. intros _. apply heappop_None, E.
Qed.

Lemma enqueue_In (q : t A) (item : A) (priority : Z) (e : entry) :
  In e (_heap (enqueue q item priority)) ->
  In e (_heap q) \/ snd e = item.
Proof.
  unfold enqueue, heappush; simpl. rewrite in_app_iff. simpl.
  intros [H | [<- | []]]; [left; assumption | right; reflexivity].
Qed.

Lemma enqueue_length (q : t A) (item : A) (priority : Z) :
  length (_heap (enqueue q item priority)) = S (length (_heap q)).
Proof. unfold enqueue, heappush; simpl. rewrite length_app. simpl. lia. Qed.
End QueueFacts.

(** ** The planner *)

Section PlannerFacts.
Import PathPlanning.

Lemma is_neighbour_four_adjacent (p q : PointEx.t) :
  PointEx.is_neighbour p q = true <-> Path.four_adjacent p q.
Proof.
  unfold PointEx.is_neighbour, Path.four_adjacent, manhattan.
  rewrite !orb_true_iff, !andb_true_iff, !orb_true_iff, !Z.eqb_eq. lia.
Qed.

Lemma four_adjacent_sym (p q : PointEx.t) :
  Path.four_adjacent p q -> Path.four_adjacent q p.
Proof. unfold Path.four_adjacent, manhattan. lia. Qed.

(* what get_neighbors yields *)
Lemma get_neighbors_In (size : Z * Z) (obstacles : list PointEx.t)
    (pos : PointEx.t) (o : Direction.t) (npos : PointEx.t) (d : Direction.t)
    (c : Z) :
  In (npos, d, c) (get_neighbors size obstacles pos o) ->
  Path.free_cell size obstacles npos
  /\ Path.four_adjacent pos npos
  /\ PointEx.get_pitch_to_neighbour pos npos = Ok d
  /\ c = MOVE_COST + (if Direction.eqb d o then 0 else TURN_COST).
Proof.
  unfold get_neighbors, directions. rewrite in_flat_map.
  intros [[[dx dy] d'] [Hd Hin]].
  destruct (_ && _) eqn:Hok in Hin; [| contradiction].
  destruct Hin as [Hin | []]. injection Hin as <- <- <-.
  rewrite !andb_true_iff, negb_true_iff, !Z.leb_le in Hok.
  destruct Hok as [[[[H1 H2] H3] H4] Hob].
  assert (Hfree : ~ In (PointEx.mk (PointEx.x pos + dx) (PointEx.y pos + dy))
                    obstacles).
  { rewrite <- PointEx_mem_In. congruence. }
  unfold Path.free_cell, Path.in_bounds, Path.four_adjacent, manhattan,
    PointEx.get_pitch_to_neighbour.
  simpl in Hd.
  destruct Hd as [Hd | [Hd | [Hd | [Hd | []]]]]; injection Hd as <- <- <-;
    simpl in *;
    repeat match goal with
      | |- context [?a =? ?b] => destruct (Z.eqb_spec a b); try lia
      | |- context [?a >? ?b] => destruct (Z.gtb_spec a b); try lia
      | |- context [?a <? ?b] => destruct (Z.ltb_spec a b); try lia
      end;
    (split; [split; [lia | assumption] | split; [lia | split; reflexivity]]).
Qed.

Lemma get_neighbors_length (size : Z * Z) (obstacles : list PointEx.t)
    (pos : PointEx.t) (o : Direction.t) :
  (length (get_neighbors size obstacles pos o) <= 4)%nat.
Proof.
  unfold get_neighbors, directions. simpl.
  repeat match goal with
    | |- context [if ?b then _ else _] => destruct b
    end; simpl; lia.
Qed.

(** walking a path *)

Lemma walk_app (from : PointEx.t) (rest : list PointEx.t) (q : PointEx.t)
    (time : Z) (pitch : Direction.t) (last : PointEx.t) (time' : Z)
    (pitch' d : Direction.t) :
  Path.walk from rest time pitch = Ok (last, time', pitch') ->
  PointEx.get_pitch_to_neighbour last q = Ok d ->
  Path.walk from (rest ++ [q]) time pitch
  = Ok (q, time' + (MOVE_COST + (if Direction.eqb d pitch' then 0 else TURN_COST)),
        d).
Proof.
  revert from time pitch. induction rest as [| p rest IH]; intros from time pitch;
    simpl.
  - intros H; injection H as -> -> ->. intros ->.
    destruct (Direction.eqb d pitch') eqn:E.
    + apply Direction_eqb_eq in E. subst.
      unfold MOVE_COST, TURN_COST. repeat (f_equal; try lia).
    + unfold MOVE_COST, TURN_COST. repeat (f_equal; try lia).
  - destruct (PointEx.get_pitch_to_neighbour from p) as [np | e]; [| discriminate].
    destruct (Direction.eqb np pitch); intros H1 H2; apply IH; assumption.
Qed.

Lemma walk_last (from : PointEx.t) (rest : list PointEx.t) (time : Z)
    (pitch : Direction.t) (pos : PointEx.t) (time' : Z) (pitch' : Direction.t)
    (d : PointEx.t) :
  Path.walk from rest time pitch = Ok (pos, time', pitch') ->
  last (from :: rest) d = pos.
Proof.
  revert from time pitch. induction rest as [| p rest IH]; intros from time pitch.
  - simpl. intros H; injection H as -> _ _. reflexivity.
  - cbn [Path.walk].
    destruct (PointEx.get_pitch_to_neighbour from p) as [np | e]; [| discriminate].
    change (last (from :: p :: rest) d) with (last (p :: rest) d).
    destruct (Direction.eqb np pitch); intros H; apply IH in H; exact H.
Qed.

Lemma chain_app (path : list PointEx.t) (d q : PointEx.t) :
  Path.chain path -> path <> [] -> Path.four_adjacent (last path d) q ->
  Path.chain (path ++ [q]).
Proof.
  induction path as [| p path IH]; [congruence |].
  intros Hc _ Hadj. destruct path as [| p' path].
  - simpl in *. split; [assumption | exact I].
  - change ((p :: p' :: path) ++ [q]) with (p :: (p' :: path) ++ [q]).
    destruct Hc as [H1 H2]. split; [exact H1 |].
    apply IH; [exact H2 | discriminate | exact Hadj].
Qed.

(* timing and walking agree *)
Lemma timing_loop_walk (from : PointEx.t) (rest : list PointEx.t) (time : Z)
    (pitch : Direction.t) (pos : PointEx.t) (time' : Z) (pitch' : Direction.t) :
  Path.walk from rest time pitch = Ok (pos, time', pitch') ->
  exists tail,
    timing_loop from rest time pitch = Ok tail
    /\ map PathTimePoint.position tail = rest
    /\ SchedulerService.last_time_cost (PathTimePoint.mk from time :: tail)
       = Some time'.
Proof.
  revert from time pitch. induction rest as [| p rest IH]; intros from time pitch.
  - simpl. intros H; injection H as _ -> _. exists []. repeat split.
  - cbn [Path.walk timing_loop].
    destruct (PointEx.get_pitch_to_neighbour from p) as [np | e]; [| discriminate].
    destruct (Direction.eqb np pitch); intros H;
      destruct (IH _ _ _ H) as [tail [Ht [Hm Hl]]];
      [| replace (time + TURN_COST + MOVE_COST) with (time + TURN_COST + MOVE_COST)
           in * by reflexivity];
      rewrite Ht; eexists; (split; [reflexivity |]); (split; [simpl; congruence |]);
      exact Hl.
Qed.

Lemma walk_cost (from : PointEx.t) (rest : list PointEx.t) (time : Z)
    (pitch : Direction.t) (pos : PointEx.t) (time' : Z) (pitch' : Direction.t) :
  Path.walk from rest time pitch = Ok (pos, time', pitch') ->
  time' = time + MOVE_COST * Z.of_nat (length rest)
          + TURN_COST * Path.turns pitch (from :: rest).
Proof.
  revert from time pitch. induction rest as [| p rest IH]; intros from time pitch.
  - simpl. intros H; injection H as _ -> _. unfold MOVE_COST, TURN_COST. lia.
  - cbn [Path.walk].
    change (Path.turns pitch (from :: p :: rest))
      with (match PointEx.get_pitch_to_neighbour from p with
            | Ok d => (if Direction.eqb d pitch then 0 else 1)
                      + Path.turns d (p :: rest)
            | Raise _ => 0
            end).
    destruct (PointEx.get_pitch_to_neighbour from p) as [np | e]; [| discriminate].
    destruct (Direction.eqb np pitch) eqn:E; intros H; apply IH in H; rewrite H.
    + apply Direction_eqb_eq in E. subst np.
      unfold MOVE_COST, TURN_COST. cbn [length]. lia.
    + unfold MOVE_COST, TURN_COST. cbn [length]. lia.
Qed.
End PlannerFacts.

(** ** The search loop *)

Section SearchFacts.
Import PathPlanning.
Variables (size : Z * Z) (goal : PointEx.t) (obstacles : list PointEx.t)
          (start : PointEx.t) (orientation : Direction.t).

Let good := Path.good_node size obstacles start orientation.
Let good_frontier := Path.good_frontier size obstacles start orientation.

Lemma expand_good (visited : list state) (f cost : Z) (pos : PointEx.t)
    (o : Direction.t) (path : list PointEx.t)
    (q : SimplePriorityQueue.t node) (nb : PointEx.t * Direction.t * Z) :
  good (f, cost, pos, o, path) ->
  In nb (get_neighbors size obstacles pos o) ->
  good_frontier q ->
  good_frontier (expand goal visited cost path q nb).
Proof.
  intros Hn Hnb Hq. destruct nb as [[npos d] c]. unfold expand.
  destruct (visited_mem (npos, d) visited); [exact Hq |].
  intros e He. apply enqueue_In in He. destruct He as [He | He]; [auto |].
  rewrite He. clear e He.
  destruct (get_neighbors_In _ _ _ _ _ _ _ Hnb) as [Hfree [Hadj [Hpitch ->]]].
  destruct Hn as [rest [-> [Hw [Hc Hf]]]].
  exists (rest ++ [npos]). split; [reflexivity |]. split; [| split].
  - apply walk_app with (last := pos); assumption.
  - change (start :: rest ++ [npos]) with ((start :: rest) ++ [npos]).
    apply chain_app with (d := start); [assumption | discriminate |].
    rewrite (walk_last _ _ _ _ _ _ _ start Hw). exact Hadj.
  - apply Forall_app. split; [assumption |]. constructor; [assumption | constructor].
Qed.

Lemma fold_expand_good (visited : list state) (f cost : Z) (pos : PointEx.t)
    (o : Direction.t) (path : list PointEx.t)
    (nbs : list (PointEx.t * Direction.t * Z)) (q : SimplePriorityQueue.t node) :
  good (f, cost, pos, o, path) ->
  (forall nb, In nb nbs -> In nb (get_neighbors size obstacles pos o)) ->
  good_frontier q ->
  good_frontier (fold_left (expand goal visited cost path) nbs q).
Proof.
  intros Hn. revert q. induction nbs as [| nb nbs IH]; intros q Hsub Hq; simpl.
  - exact Hq.
  - apply IH; [intros; apply Hsub; right; assumption |].
    eapply expand_good; [exact Hn | apply Hsub; left; reflexivity | exact Hq].
Qed.

(* a path that is returned was popped at the goal and is a good node *)
Lemma search_good (fuel : nat) :
  forall (q : SimplePriorityQueue.t node) (visited : list state)
         (cost : Z) (path : list PointEx.t),
    good_frontier q ->
    search fuel size goal obstacles q visited = Reached cost path ->
    exists f o, good (f, cost, goal, o, path).
Proof.
  induction fuel as [| fuel IH]; intros q visited cost path Hq; simpl;
    [discriminate |].
  destruct (SimplePriorityQueue.dequeue q) as [[[[[[f c] pos] o] p] q'] |] eqn:Hd;
    [| discriminate].
  destruct (dequeue_In _ _ _ Hd) as [[pr [i Hin]] [Hsub _]].
  assert (Hn : good (f, c, pos, o, p)) by (apply (Hq _ Hin)).
  assert (Hq' : good_frontier q') by (intros e He; apply Hq, Hsub, He).
  destruct (PointEx.eqb pos goal) eqn:Hg.
  - intros H; injection H as <- <-. apply PointEx_eqb_eq in Hg. subst pos.
    exists f, o. exact Hn.
  - destruct (visited_mem (pos, o) visited).
    + apply IH; assumption.
    + apply IH. eapply fold_expand_good; [exact Hn | auto | exact Hq'].
Qed.

(** termination *)

Let known_frontier := Path.known_frontier size start.

Lemma cells_In (p : PointEx.t) : Path.in_bounds size p -> In p (cells size).
Proof.
  destruct p as [px py]. unfold Path.in_bounds, cells; simpl. intros [Hx Hy].
  apply in_flat_map. exists (Z.to_nat px). split.
  - apply in_seq. lia.
  - apply in_map_iff. exists (Z.to_nat py). split.
    + rewrite !Z2Nat.id by lia. reflexivity.
    + apply in_seq. lia.
Qed.

Lemma all_states_In (p : PointEx.t) (d : Direction.t) :
  p = start \/ In p (cells size) -> In (p, d) (all_states size start).
Proof.
  intros H. unfold all_states. apply in_flat_map. exists p. split.
  - destruct H as [-> | H]; [left; reflexivity | right; exact H].
  - destruct d; simpl; auto.
Qed.

Lemma expand_known (visited : list state) (cost : Z) (pos : PointEx.t)
    (o : Direction.t) (path : list PointEx.t)
    (q : SimplePriorityQueue.t node) (nb : PointEx.t * Direction.t * Z) :
  In nb (get_neighbors size obstacles pos o) ->
  known_frontier q ->
  known_frontier (expand goal visited cost path q nb)
  /\ (length (SimplePriorityQueue._heap (expand goal visited cost path q nb))
      <= S (length (SimplePriorityQueue._heap q)))%nat.
Proof.
  intros Hnb Hq. destruct nb as [[npos d] c]. unfold expand.
  destruct (visited_mem (npos, d) visited); [split; [exact Hq | lia] |].
  split; [| rewrite enqueue_length; lia].
  intros e He. apply enqueue_In in He. destruct He as [He | He]; [auto |].
  rewrite He. simpl.
  destruct (get_neighbors_In _ _ _ _ _ _ _ Hnb) as [[Hb _] _].
  apply all_states_In. right. apply cells_In, Hb.
Qed.

Lemma fold_expand_known (visited : list state) (cost : Z) (pos : PointEx.t)
    (o : Direction.t) (path : list PointEx.t)
    (nbs : list (PointEx.t * Direction.t * Z)) (q : SimplePriorityQueue.t node) :
  (forall nb, In nb nbs -> In nb (get_neighbors size obstacles pos o)) ->
  known_frontier q ->
  known_frontier (fold_left (expand goal visited cost path) nbs q)
  /\ (length (SimplePriorityQueue._heap
                (fold_left (expand goal visited cost path) nbs q))
      <= length nbs + length (SimplePriorityQueue._heap q))%nat.
Proof.
  revert q. induction nbs as [| nb nbs IH]; intros q Hsub Hq; simpl.
  - split; [exact Hq | lia].
  - destruct (expand_known visited cost pos o path q nb) as [Hk Hl];
      [apply Hsub; left; reflexivity | exact Hq |].
    destruct (IH (expand goal visited cost path q nb)) as [Hk' Hl'];
      [intros; apply Hsub; right; assumption | exact Hk |].
    split; [exact Hk' | lia].
Qed.

Lemma state_eqb_eq (a b : state) : state_eqb a b = true <-> a = b.
Proof.
  destruct a as [pa da], b as [pb db]. unfold state_eqb; simpl.
  rewrite andb_true_iff, PointEx_eqb_eq, Direction_eqb_eq.
  split; [intros [-> ->]; reflexivity | intros H; injection H; auto].
Qed.

Lemma filter_length_lt {A : Type} (p q : A -> bool) (l : list A) (a : A) :
  (forall x, q x = true -> p x = true) ->
  In a l -> p a = true -> q a = false ->
  (length (filter q l) < length (filter p l))%nat.
Proof.
  intros Himp. 
  assert (Hle : forall l', (length (filter q l') <= length (filter p l'))%nat).
  { induction l' as [| x l' IH]; simpl; [lia |].
    destruct (q x) eqn:Eq; [rewrite (Himp x Eq); simpl; lia |].
    destruct (p x); simpl; lia. }
  induction l as [| x l IH]; simpl; [contradiction |].
  intros [-> | Hin] Hp Hq.
  - rewrite Hp, Hq. simpl. specialize (Hle l). lia.
  - specialize (IH Hin Hp Hq).
    destruct (q x) eqn:Eq; [rewrite (Himp x Eq); simpl; lia |].
    destruct (p x); simpl; lia.
Qed.

Lemma unvisited_decreases (s : state) (visited : list state) :
  In s (all_states size start) -> visited_mem s visited = false ->
  (Path.unvisited size start (s :: visited) < Path.unvisited size start visited)%nat.
Proof.
  intros Hin Hv. unfold Path.unvisited.
  apply filter_length_lt with (a := s).
  - intros x. simpl. rewrite !negb_true_iff, orb_false_iff. tauto.
  - exact Hin.
  - rewrite Hv. reflexivity.
  - simpl. replace (state_eqb s s) with true; [reflexivity |].
    symmetry. apply state_eqb_eq. reflexivity.
Qed.

(* five iterations per state not yet expanded, one per queued node *)
Lemma search_enough_fuel (fuel : nat) :
  forall (q : SimplePriorityQueue.t node) (visited : list state),
    known_frontier q ->
    (5 * Path.unvisited size start visited
     + length (SimplePriorityQueue._heap q) < fuel)%nat ->
    search fuel size goal obstacles q visited <> Timeout.
Proof.
  induction fuel as [| fuel IH]; intros q visited Hq Hfuel; [lia |].
  cbn [search].
  destruct (SimplePriorityQueue.dequeue q) as [[[[[[f c] pos] o] p] q'] |] eqn:Hd;
    [| discriminate].
  destruct (dequeue_In _ _ _ Hd) as [[pr [i Hin]] [Hsub Hlen]].
  assert (Hn : In (pos, o) (all_states size start)) by (apply (Hq _ Hin)).
  assert (Hq' : known_frontier q') by (intros e He; apply Hq, Hsub, He).
  destruct (PointEx.eqb pos goal); [discriminate |].
  destruct (visited_mem (pos, o) visited) eqn:Hv.
  - apply IH; [exact Hq' | lia].
  - destruct (fold_expand_known ((pos, o) :: visited) c pos o p
                (get_neighbors size obstacles pos o) q') as [Hk Hl];
      [auto | exact Hq' |].
    pose proof (get_neighbors_length size obstacles pos o) as H4.
    pose proof (unvisited_decreases (pos, o) visited Hn Hv) as Hu.
    apply IH; [exact Hk | ]. clear - Hl H4 Hu Hlen Hfuel.
    unfold SimplePriorityQueue.entry, node, state in *. lia.
Qed.
End SearchFacts.

Lemma initial_frontier_good (size : Z * Z) (obstacles : list PointEx.t)
    (start goal : PointEx.t) (orientation : Direction.t) :
  Path.good_frontier size obstacles start orientation
    (PathPlanning.initial_frontier start goal orientation).
Proof.
  intros e [<- | []]. simpl. exists []. repeat split. constructor.
Qed.

Lemma initial_frontier_known (size : Z * Z) (start goal : PointEx.t)
    (orientation : Direction.t) :
  Path.known_frontier size start
    (PathPlanning.initial_frontier start goal orientation).
Proof.
  intros e [<- | []]. simpl. apply all_states_In. left; reflexivity.
Qed.

(* the planner's loop always ends: it returns a path or finds the frontier
   empty *)
Lemma search_terminates (start goal : PointEx.t) (orientation : Direction.t)
    (obstacles : list PointEx.t) (grid_size : option (Z * Z)) :
  PathPlanning.a_star_search start goal orientation obstacles grid_size
  <> PathPlanning.Timeout.
Proof.
  unfold PathPlanning.a_star_search.
  apply search_enough_fuel with (start := start).
  - apply initial_frontier_known.
  - unfold PathPlanning.search_fuel, Path.unvisited. simpl.
    match goal with
    | |- context [filter ?f ?l] => pose proof (filter_length_le f l)
    end. lia.
Qed.

(* what a returned path looks like *)
Lemma a_star_search_reached (start goal : PointEx.t) (orientation : Direction.t)
    (obstacles : list PointEx.t) (grid_size : option (Z * Z))
    (cost : Z) (path : list PointEx.t) :
  PathPlanning.a_star_search start goal orientation obstacles grid_size
  = PathPlanning.Reached cost path ->
  exists f o, Path.good_node (Path.grid grid_size) obstacles start orientation
                (f, cost, goal, o, path).
Proof.
  unfold PathPlanning.a_star_search. intros H.
  eapply search_good; [| exact H]. apply initial_frontier_good.
Qed.

(** ** The planner's results *)

Lemma last_time_cost_last (l : list PathTimePoint.t) (t : Z) (d : PathTimePoint.t) :
  SchedulerService.last_time_cost l = Some t ->
  PathTimePoint.time_cost (last l d) = t.
Proof.
  induction l as [| p l IH]; simpl; [discriminate |].
  destruct l as [| p' l]; [intros H; injection H; auto |]. exact IH.
Qed.

Lemma last_In {A : Type} (l : list A) (d : A) : l <> [] -> In (last l d) l.
Proof.
  induction l as [| a l IH]; [congruence |]. intros _.
  destruct l as [| b l]; [left; reflexivity |].
  right. apply IH. discriminate.
Qed.

(** C6: the planner's loop ends, and it returns either a path that starts at
    [start], ends at [goal], moves between 4-adjacent cells and, after its
    first point, stays inside the grid and off the obstacles, or the empty
    list; the empty list is what an exhausted frontier gives. *)
Theorem a_star_returns_path_or_empty :
  forall (start goal : PointEx.t) (orientation : Direction.t)
         (obstacles : list PointEx.t) (grid_size : option (Z * Z)),
    let path :=
      PathPlanning.a_star_with_orientation start goal orientation obstacles
        grid_size in
    let outcome :=
      PathPlanning.a_star_search start goal orientation obstacles grid_size in
    outcome <> PathPlanning.Timeout
    /\ ((exists rest cost,
           path = start :: rest
           /\ last path start = goal
           /\ Path.chain path
           /\ Forall (Path.free_cell (Path.grid grid_size) obstacles) rest
           /\ outcome = PathPlanning.Reached cost path)
        \/ (path = [] /\ outcome = PathPlanning.NoPath))
    /\ (forall (fuel index : nat) (visited : list PathPlanning.state),
          PathPlanning.search (S fuel) (Path.grid grid_size) goal obstacles
            (SimplePriorityQueue.mk [] index) visited
          = PathPlanning.NoPath).
Proof.
  intros start goal orientation obstacles grid_size path outcome.
  split; [apply search_terminates |]. split; [| reflexivity].
  pose proof (search_terminates start goal orientation obstacles grid_size) as Ht.
  pose proof (a_star_search_reached start goal orientation obstacles grid_size)
    as Hr.
  subst path outcome. unfold PathPlanning.a_star_with_orientation.
  destruct (PathPlanning.a_star_search start goal orientation obstacles grid_size)
    as [cost p | |]; [| right; split; reflexivity | congruence].
  left. destruct (Hr cost p eq_refl) as [f [o [rest [-> [Hw [Hc Hf]]]]]].
  exists rest, cost. repeat split; try assumption.
  eapply walk_last, Hw.
Qed.

(** C5: for a path the planner returns, the timing computed from the same
    initial orientation starts at time 0 and ends at the g-cost with which the
    planner popped the goal, which is MOVE_COST per step plus TURN_COST per
    change of orientation. *)
Theorem path_timing_equals_g_cost :
  forall (start goal : PointEx.t) (orientation : Direction.t)
         (obstacles : list PointEx.t) (grid_size : option (Z * Z))
         (path : list PointEx.t),
    PathPlanning.a_star_with_orientation start goal orientation obstacles grid_size
    = path ->
    path <> [] ->
    exists (cost : Z) (first : PathTimePoint.t) (tail : list PathTimePoint.t),
      PathPlanning.a_star_search start goal orientation obstacles grid_size
      = PathPlanning.Reached cost path
      /\ PathPlanning.calculate_path_timing path orientation = Ok (first :: tail)
      /\ map PathTimePoint.position (first :: tail) = path
      /\ PathTimePoint.time_cost first = 0
      /\ PathTimePoint.time_cost (last (first :: tail) first) = cost
      /\ cost = PathPlanning.MOVE_COST * (Z.of_nat (length path) - 1)
                + PathPlanning.TURN_COST * Path.turns orientation path.
Proof.
  intros start goal orientation obstacles grid_size path Hpath Hne.
  pose proof (a_star_search_reached start goal orientation obstacles grid_size)
    as Hr.
  unfold PathPlanning.a_star_with_orientation in Hpath.
  destruct (PathPlanning.a_star_search start goal orientation obstacles grid_size)
    as [cost p | |]; [| congruence | congruence].
  subst p. destruct (Hr cost path eq_refl) as [f [o [rest [-> [Hw _]]]]].
  destruct (timing_loop_walk _ _ _ _ _ _ _ Hw) as [tail [Ht [Hm Hl]]].
  exists cost, (PathTimePoint.mk start 0), tail.
  split; [reflexivity |]. split; [| split; [| split; [| split]]].
  - unfold PathPlanning.calculate_path_timing. rewrite Ht. reflexivity.
  - simpl. rewrite Hm. reflexivity.
  - reflexivity.
  - apply last_time_cost_last, Hl.
  - rewrite (walk_cost _ _ _ _ _ _ _ Hw). cbn [length].
    unfold PathPlanning.MOVE_COST, PathPlanning.TURN_COST. lia.
Qed.

Lemma path_timing_equals_g_cost_witness :
  exists (cost : Z) (first : PathTimePoint.t) (tail : list PathTimePoint.t),
    PathPlanning.a_star_search (PointEx.mk 1 1) (PointEx.mk 3 3) Direction.RIGHT
      [] None
    = PathPlanning.Reached cost
        [PointEx.mk 1 1; PointEx.mk 2 1; PointEx.mk 3 1; PointEx.mk 3 2;
         PointEx.mk 3 3]
    /\ PathPlanning.calculate_path_timing
         [PointEx.mk 1 1; PointEx.mk 2 1; PointEx.mk 3 1; PointEx.mk 3 2;
          PointEx.mk 3 3] Direction.RIGHT
       = Ok (first :: tail)
    /\ map PathTimePoint.position (first :: tail)
       = [PointEx.mk 1 1; PointEx.mk 2 1; PointEx.mk 3 1; PointEx.mk 3 2;
          PointEx.mk 3 3]
    /\ PathTimePoint.time_cost first = 0
    /\ PathTimePoint.time_cost (last (first :: tail) first) = cost
    /\ cost = PathPlanning.MOVE_COST * (Z.of_nat 5 - 1)
              + PathPlanning.TURN_COST
                * Path.turns Direction.RIGHT
                    [PointEx.mk 1 1; PointEx.mk 2 1; PointEx.mk 3 1;
                     PointEx.mk 3 2; PointEx.mk 3 3].
Proof.
  apply (path_timing_equals_g_cost (PointEx.mk 1 1) (PointEx.mk 3 3)
           Direction.RIGHT [] None).
  - vm_compute. reflexivity.
  - discriminate.
Defined.

(** C7, as the code has it: when the goal is an obstacle and differs from the
    start, the planner returns the empty path. *)
Theorem goal_in_obstacles_no_path :
  forall (start goal : PointEx.t) (orientation : Direction.t)
         (obstacles : list PointEx.t) (grid_size : option (Z * Z)),
    In goal obstacles ->
    start <> goal ->
    PathPlanning.a_star_with_orientation start goal orientation obstacles grid_size
    = [].
Proof.
  intros start goal orientation obstacles grid_size Hin Hne.
  pose proof (a_star_search_reached start goal orientation obstacles grid_size)
    as Hr.
  unfold PathPlanning.a_star_with_orientation.
  destruct (PathPlanning.a_star_search start goal orientation obstacles grid_size)
    as [cost p | |]; [| reflexivity | reflexivity].
  exfalso. destruct (Hr cost p eq_refl) as [f [o [rest [-> [Hw [_ Hf]]]]]].
  pose proof (walk_last _ _ _ _ _ _ _ start Hw) as Hlast.
  destruct rest as [| q rest]; [simpl in Hlast; contradiction |].
  change (last (start :: q :: rest) start) with (last (q :: rest) start) in Hlast.
  assert (Hq : In goal (q :: rest)).
  { rewrite <- Hlast. apply last_In. discriminate. }
  rewrite Forall_forall in Hf. destruct (Hf goal Hq) as [_ Hfree]. contradiction.
Qed.

Lemma goal_in_obstacles_no_path_witness :
  PathPlanning.a_star_with_orientation (PointEx.mk 1 1) (PointEx.mk 1 2)
    Direction.RIGHT [PointEx.mk 1 2] (Some (2, 2))
  = [].
Proof.
  apply goal_in_obstacles_no_path.
  - simpl. left. reflexivity.
  - discriminate.
Defined.

(** C7 as stated fails: with the start itself as the goal, the goal is popped
    before any obstacle test and the one-point path is returned although the
    goal is an obstacle. *)
Lemma goal_in_obstacles_start_is_goal :
  In (PointEx.mk 1 1) [PointEx.mk 1 1]
  /\ PathPlanning.a_star_with_orientation (PointEx.mk 1 1) (PointEx.mk 1 1)
       Direction.RIGHT [PointEx.mk 1 1] None
     = [PointEx.mk 1 1]
  /\ PathPlanning.a_star_with_orientation (PointEx.mk 1 1) (PointEx.mk 1 1)
       Direction.RIGHT [PointEx.mk 1 1] None
     <> [].
Proof.
  split; [left; reflexivity |].
  assert (H : PathPlanning.a_star_with_orientation (PointEx.mk 1 1)
                (PointEx.mk 1 1) Direction.RIGHT [PointEx.mk 1 1] None
              = [PointEx.mk 1 1]) by (vm_compute; reflexivity).
  split; [exact H | rewrite H; discriminate].
Qed.

(** ** Reasoning about the scheduler's methods *)

Section SatFacts.
Import SchedulerService.
Variables (R : t -> t -> Prop) (E : exn -> Prop).
Hypothesis R_refl : forall s, R s s.
Hypothesis R_trans : forall a b c, R a b -> R b c -> R a c.
Hypothesis E_not_deadlock : forall e, Run.not_deadlock e -> E e.

Lemma sat_ret {A : Type} (a : A) : Run.sat R E (ret a).
Proof. intros s. split; [apply R_refl | discriminate]. Qed.

Lemma sat_get : Run.sat R E get.
Proof. intros s. split; [apply R_refl | discriminate]. Qed.

Lemma sat_raise {A : Type} (e : exn) : E e -> Run.sat R E (@raise A e).
Proof.
  intros He s. split; [apply R_refl |]. simpl. intros e' H. congruence.
Qed.

Lemma sat_lift {A : Type} (r : result A) :
  (forall e, r = Raise e -> Run.not_deadlock e) -> Run.sat R E (lift r).
Proof. intros Hr s. split; [apply R_refl | simpl; auto]. Qed.

Lemma sat_get_agv (agv_ref : nat) : Run.sat R E (get_agv agv_ref).
Proof.
  intros s. unfold get_agv. destruct (nth_error (agvs s) agv_ref); simpl.
  - split; [apply R_refl | discriminate].
  - split; [apply R_refl |]. intros e H. injection H as <-.
    apply E_not_deadlock. discriminate.
Qed.

Lemma sat_get_task (task_ref : nat) : Run.sat R E (get_task task_ref).
Proof.
  intros s. unfold get_task. destruct (nth_error (tasks s) task_ref); simpl.
  - split; [apply R_refl | discriminate].
  - split; [apply R_refl |]. intros e H. injection H as <-.
    apply E_not_deadlock. discriminate.
Qed.

Lemma sat_bind {A B : Type} (m : M A) (k : A -> M B) :
  Run.sat R E m -> (forall a, Run.sat R E (k a)) -> Run.sat R E (bind m k).
Proof.
  intros Hm Hk s. unfold bind. destruct (Hm s) as [HR HE].
  destruct (m s) as [[a | e] s1]; simpl in *.
  - destruct (Hk a s1) as [HR' HE']. split; [eapply R_trans; eassumption | exact HE'].
  - split; [exact HR |]. intros e' H. injection H as <-. apply HE. reflexivity.
Qed.

Lemma sat_for_each {X Acc : Type} (body : X -> Acc -> M Acc) (l : list X) :
  (forall x acc, Run.sat R E (body x acc)) ->
  forall acc, Run.sat R E (for_each body l acc).
Proof.
  intros Hb. induction l as [| x l IH]; intros acc; simpl.
  - apply sat_ret.
  - apply sat_bind; [apply Hb | exact IH].
Qed.

Lemma sat_filter_m {X : Type} (test : X -> M bool) (l : list X) :
  (forall x, Run.sat R E (test x)) -> Run.sat R E (filter_m test l).
Proof.
  intros Ht. induction l as [| x l IH]; simpl.
  - apply sat_ret.
  - apply sat_bind; [apply Ht |]. intros b.
    apply sat_bind; [exact IH |]. intros rest. apply sat_ret.
Qed.
End SatFacts.

(** the exceptions of the methods that do not touch the scheduler *)

Ltac crush_exn :=
  repeat match goal with
    | |- forall _, _ => intro
    | H : Ok _ = Raise _ |- _ => discriminate H
    | H : Raise _ = Raise _ |- _ => injection H as <-
    | |- Run.not_deadlock _ => discriminate
    | H : context [match ?x with _ => _ end] |- _ =>
        let E := fresh "E" in destruct x eqn:E
    | H : context [if ?b then _ else _] |- _ => destruct b
    end.

Lemma get_pitch_to_neighbour_exn (p q : PointEx.t) (e : exn) :
  PointEx.get_pitch_to_neighbour p q = Raise e -> Run.not_deadlock e.
Proof. unfold PointEx.get_pitch_to_neighbour. crush_exn. Qed.

Lemma timing_loop_exn (rest : list PointEx.t) :
  forall (from : PointEx.t) (time : Z) (pitch : Direction.t) (e : exn),
    PathPlanning.timing_loop from rest time pitch = Raise e -> Run.not_deadlock e.
Proof.
  induction rest as [| p rest IH]; intros from time pitch e; simpl; [discriminate |].
  destruct (PointEx.get_pitch_to_neighbour from p) eqn:Hp.
  - destruct (Direction.eqb a pitch);
      match goal with
      | |- context [PathPlanning.timing_loop ?a ?b ?c ?d] =>
          specialize (IH a c d); destruct (PathPlanning.timing_loop a b c d)
      end; intros H; try discriminate; injection H as <-; apply IH; reflexivity.
  - intros H; injection H as <-. eapply get_pitch_to_neighbour_exn, Hp.
Qed.

Lemma calculate_path_timing_exn (path : list PointEx.t) (pitch : Direction.t)
    (e : exn) :
  PathPlanning.calculate_path_timing path pitch = Raise e -> Run.not_deadlock e.
Proof.
  unfold PathPlanning.calculate_path_timing. destruct path as [| p rest];
    [discriminate |].
  destruct (PathPlanning.timing_loop p rest 0 pitch) eqn:Ht; [discriminate |].
  intros H; injection H as <-. eapply timing_loop_exn, Ht.
Qed.

Lemma remove_exn (p : PointEx.t) (l : list PointEx.t) (e : exn) :
  PointEx.remove p l = Raise e -> Run.not_deadlock e.
Proof.
  induction l as [| q l IH]; simpl; [crush_exn |].
  destruct (PointEx.eqb q p); [discriminate |].
  destruct (PointEx.remove p l); [discriminate |].
  intros H; injection H as <-. apply IH. reflexivity.
Qed.

Lemma result_list_map_exn {A B : Type} (f : A -> result B) (l : list A) (e : exn) :
  (forall a e, f a = Raise e -> Run.not_deadlock e) ->
  result_list_map f l = Raise e -> Run.not_deadlock e.
Proof.
  intros Hf. induction l as [| a l IH]; simpl; [discriminate |].
  destruct (f a) eqn:Ha.
  - destruct (result_list_map f l); [discriminate |].
    intros H; injection H as <-. apply IH. reflexivity.
  - intros H; injection H as <-. eapply Hf, Ha.
Qed.

Lemma result_map_exn {A B : Type} (f : A -> B) (r : result A) (e : exn) :
  (forall e, r = Raise e -> Run.not_deadlock e) ->
  result_map f r = Raise e -> Run.not_deadlock e.
Proof. destruct r; simpl; [discriminate |]. intros Hr H. injection H as <-. auto. Qed.

Lemma can_unload_exn (a : Agv.t) (tasks : list TaskEx.t) (e : exn) :
  Agv.can_unload a tasks = Raise e -> Run.not_deadlock e.
Proof. unfold Agv.can_unload. crush_exn. Qed.

Lemma unload_exn (a : Agv.t) (timestamp : Z) (tasks : list TaskEx.t) (e : exn) :
  Agv.unload a timestamp tasks = Raise e -> Run.not_deadlock e.
Proof. unfold Agv.unload. crush_exn. Qed.

Lemma load_exn (self : nat) (a : Agv.t) (task_ref : nat) (timestamp : Z)
    (tasks : list TaskEx.t) (e : exn) :
  Agv.load self a task_ref timestamp tasks = Raise e -> Run.not_deadlock e.
Proof. unfold Agv.load. crush_exn. Qed.

Lemma should_turn_exn (a : Agv.t) (e : exn) :
  Agv.should_turn a = Raise e -> Run.not_deadlock e.
Proof.
  unfold Agv.should_turn. destruct (Agv.path_time_points a) as [| ? [| p1 ?]];
    try discriminate.
  apply result_map_exn. intros e'. apply get_pitch_to_neighbour_exn.
Qed.

Lemma should_move_exn (a : Agv.t) (e : exn) :
  Agv.should_move a = Raise e -> Run.not_deadlock e.
Proof.
  unfold Agv.should_move. destruct (Agv.path_time_points a) as [| ? [| p1 ?]];
    try discriminate.
  apply result_map_exn. intros e'. apply get_pitch_to_neighbour_exn.
Qed.

Lemma turn_exn (a : Agv.t) (d : option Direction.t) (e : exn) :
  Agv.turn a d = Raise e -> Run.not_deadlock e.
Proof.
  unfold Agv.turn. destruct d; [discriminate |].
  destruct (Agv.path_time_points a) as [| ? [| p1 ?]]; try discriminate.
  destruct (PointEx.get_pitch_to_neighbour _ _) eqn:Hp; [discriminate |].
  intros H; injection H as <-. eapply get_pitch_to_neighbour_exn, Hp.
Qed.

Lemma calculate_path_to_end_point_exn (s : SchedulerService.t) (a : Agv.t)
    (task : TaskEx.t) (additional : list PointEx.t) (e : exn) :
  SchedulerService._calculate_path_to_end_point s a task additional = Raise e ->
  Run.not_deadlock e.
Proof.
  unfold SchedulerService._calculate_path_to_end_point.
  destruct (PointEx.remove _ _) eqn:Hr; [discriminate |].
  intros H; injection H as <-. eapply remove_exn, Hr.
Qed.

Lemma recorder_add_exn (records : list TrajectoryRecorderService.record)
    (timestamp : Z) (agvs : list Agv.t) (tasks : list TaskEx.t) (e : exn) :
  TrajectoryRecorderService.add records timestamp agvs tasks = Raise e ->
  Run.not_deadlock e.
Proof.
  unfold TrajectoryRecorderService.add. apply result_map_exn. intros e'.
  apply result_list_map_exn. intros a e''. unfold TrajectoryRecorderService.row.
  crush_exn.
Qed.

Lemma get_sorted_pending_tasks_exn (c : AgvContext.t) (e : exn) :
  AgvContext.get_sorted_pending_tasks c = Raise e -> Run.not_deadlock e.
Proof.
  destruct (get_sorted_pending_tasks_ok c) as [sorted H].
  rewrite H. discriminate.
Qed.

Create HintDb exn.
#[local] Hint Resolve get_pitch_to_neighbour_exn calculate_path_timing_exn
  remove_exn can_unload_exn unload_exn load_exn should_turn_exn should_move_exn
  turn_exn calculate_path_to_end_point_exn recorder_add_exn
  get_sorted_pending_tasks_exn : exn.

(* one step of a proof that a method satisfies [Run.sat]: follow the code *)
Ltac sat_step :=
  match goal with
  | |- forall _, _ => intro
  | |- Run.sat _ _ (SchedulerService.ret _) => apply sat_ret
  | |- Run.sat _ _ SchedulerService.get => apply sat_get
  | |- Run.sat _ _ (SchedulerService.get_agv _) => apply sat_get_agv
  | |- Run.sat _ _ (SchedulerService.get_task _) => apply sat_get_task
  | |- Run.sat _ _ (SchedulerService.bind _ _) => apply sat_bind
  | |- Run.sat _ _ (SchedulerService.for_each _ _ _) => apply sat_for_each
  | |- Run.sat _ _ (SchedulerService.filter_m _ _) => apply sat_filter_m
  | |- Run.sat _ _ (SchedulerService.lift _) => apply sat_lift
  | |- Run.sat _ _ (SchedulerService.raise _) => apply sat_raise
  | |- Run.sat _ _ (match ?x with _ => _ end) => destruct x
  | |- Run.sat _ _ (if ?b then _ else _) => destruct b
  | |- Run.not_deadlock _ => discriminate
  | |- _ => assumption
  | |- _ => solve [eauto with exn]
  end.

Ltac sat_tac := repeat sat_step.

Lemma replan_exn (s : SchedulerService.t) (is_loaded : bool) (agv_ref : nat)
    (agv : Agv.t) (task : TaskEx.t) (e : exn) :
  SchedulerService.replan s is_loaded agv_ref agv task = Raise e ->
  Run.not_deadlock e.
Proof.
  unfold SchedulerService.replan. destruct is_loaded.
  - destruct (SchedulerService._calculate_path_to_end_point _ _ _ _) eqn:Hp.
    + apply calculate_path_timing_exn.
    + intros H; injection H as <-. eapply calculate_path_to_end_point_exn, Hp.
  - apply calculate_path_timing_exn.
Qed.

#[local] Hint Resolve replan_exn : exn.

Section MoveSat.
Import SchedulerService.
Variables (R : t -> t -> Prop) (E : exn -> Prop).
Hypothesis R_refl : forall s, R s s.
Hypothesis R_trans : forall a b c, R a b -> R b c -> R a c.
Hypothesis E_not_deadlock : forall e, Run.not_deadlock e -> E e.
Hypothesis H_call :
  forall r method,
    (forall a e, method a = Raise e -> Run.not_deadlock e) ->
    Run.sat R E (call_agv r method).

Lemma sat_check_moved_items (agv : Agv.t) (task : TaskEx.t)
    (moved_items : list moved_item) :
  Run.sat R E (check_moved_items agv task moved_items).
Proof.
  induction moved_items as [| [[moved_ref moved_pos] moved_task_ref] rest IH];
    simpl; sat_tac.
Qed.

Lemma sat_batch_move_one (is_loaded : bool) (temp : option assignments)
    (agv_ref : nat) (acc : batch_state) :
  Run.sat R E (batch_move_one is_loaded temp agv_ref acc).
Proof.
  unfold batch_move_one, set_path_time_points.
  destruct acc as [[handled moved] assigned].
  sat_tac; try apply sat_check_moved_items; try apply H_call; sat_tac;
    try (apply E_not_deadlock; discriminate).
Qed.

Lemma sat_park_step (idle_ref : nat) (u : unit) : Run.sat R E (park_step idle_ref u).
Proof.
  unfold park_step, set_path_time_points.
  sat_tac; try apply H_call; sat_tac.
Qed.
End MoveSat.

Section PhasesSat.
Import SchedulerService.
Variables (R : t -> t -> Prop) (E : exn -> Prop).
Hypothesis R_refl : forall s, R s s.
Hypothesis R_trans : forall a b c, R a b -> R b c -> R a c.
Hypothesis E_not_deadlock : forall e, Run.not_deadlock e -> E e.
Hypothesis H_turn :
  forall r d, Run.sat R E (call_agv r (fun agv => Agv.turn agv d)).
Hypothesis H_path : forall r l, Run.sat R E (set_path_time_points r l).
Hypothesis H_load :
  forall r task_ref ts,
    Run.sat R E
      (call_agv_task r (fun agv tasks => Agv.load r agv task_ref ts tasks)).
Hypothesis H_unload :
  forall r ts,
    Run.sat R E (call_agv_task r (fun agv tasks => Agv.unload agv ts tasks)).
Hypothesis H_record : forall records, Run.sat R E (set_trajectory_recorder records).
Hypothesis H_batch_one :
  forall is_loaded temp agv_ref acc,
    Run.sat R E (batch_move_one is_loaded temp agv_ref acc).
Hypothesis H_park : forall idle_ref u, Run.sat R E (park_step idle_ref u).

Lemma sat_unload_step (agv_ref : nat) (handled : list nat) :
  Run.sat R E (unload_step agv_ref handled).
Proof. unfold unload_step. sat_tac. Qed.

Lemma sat_load_scan (agv_ref : nat) (pending : list nat) (handled : list nat) :
  Run.sat R E (load_scan agv_ref pending handled).
Proof. induction pending as [| task_ref rest IH]; simpl; sat_tac. Qed.

Lemma sat_load_step (pending : list nat) (agv_ref : nat) (handled : list nat) :
  Run.sat R E (load_step pending agv_ref handled).
Proof. unfold load_step. sat_tac. apply sat_load_scan. Qed.

Lemma sat_turn_step (agv_ref : nat) (handled : list nat) :
  Run.sat R E (turn_step agv_ref handled).
Proof. unfold turn_step. sat_tac. Qed.

Lemma sat_batch_loop (fuel : nat) :
  forall (agvs : list nat) (is_loaded : bool) (temp : option assignments)
         (handled : list nat) (moved : list moved_item),
    Run.sat R E (batch_loop fuel agvs is_loaded temp handled moved).
Proof.
  induction fuel as [| fuel IH]; intros; simpl; sat_tac.
Qed.

Lemma sat_batch_move (agvs : list nat) (handled : list nat) (is_loaded : bool)
    (temp : option assignments) :
  Run.sat R E (batch_move agvs handled is_loaded temp).
Proof.
  unfold batch_move, _batch_move_agvs. sat_tac. try apply sat_batch_loop.
Qed.

Lemma sat_assignment_options (task : TaskEx.t) (idle : list nat) :
  Run.sat R E (assignment_options task idle).
Proof.
  induction idle as [| r rest IH]; simpl; [sat_tac |].
  unfold assignment_option. sat_tac.
Qed.

Lemma sat_assign_task (task_ref : nat) (acc : assign_state) :
  Run.sat R E (assign_task task_ref acc).
Proof.
  unfold assign_task. destruct acc as [idle temp]. sat_tac.
  apply sat_assignment_options.
Qed.

Lemma sat_assign_loop (pending : list nat) :
  forall acc, Run.sat R E (assign_loop pending acc).
Proof.
  induction pending as [| task_ref rest IH]; intros acc; simpl; sat_tac.
  apply sat_assign_task.
Qed.

Lemma sat_record_tick : Run.sat R E record_tick.
Proof. unfold record_tick. sat_tac. Qed.

Lemma sat_phases : Run.sat R E phases.
Proof.
  unfold phases, agv_should_turn, agv_should_move, agv_turn.
  sat_tac;
    first [ apply sat_unload_step | apply sat_load_step | apply sat_batch_move
          | apply sat_turn_step | apply sat_assign_loop | apply sat_record_tick
          | idtac ].
Qed.
End PhasesSat.

(** ** The deadlock guard *)

Section TimestampFacts.
Import SchedulerService.

Lemma same_timestamp_refl (s : t) : Run.same_timestamp s s.
Proof. reflexivity. Qed.

Lemma same_timestamp_trans (a b c : t) :
  Run.same_timestamp a b -> Run.same_timestamp b c -> Run.same_timestamp a c.
Proof. unfold Run.same_timestamp. congruence. Qed.

Lemma call_agv_timestamp (r : nat) (method : Agv.t -> result Agv.t) :
  (forall a e, method a = Raise e -> Run.not_deadlock e) ->
  Run.sat Run.same_timestamp Run.not_deadlock (call_agv r method).
Proof.
  intros Hm s. unfold call_agv.
  destruct (nth_error (agvs s) r) as [a |]; simpl.
  - destruct (method a) eqn:Ha; simpl.
    + split; [reflexivity | discriminate].
    + split; [reflexivity |]. intros e' H. injection H as <-. eapply Hm, Ha.
  - split; [reflexivity |]. intros e' H. injection H as <-. discriminate.
Qed.

Lemma call_agv_task_timestamp (r : nat)
    (method : Agv.t -> list TaskEx.t -> result (Agv.t * list TaskEx.t)) :
  (forall a l e, method a l = Raise e -> Run.not_deadlock e) ->
  Run.sat Run.same_timestamp Run.not_deadlock (call_agv_task r method).
Proof.
  intros Hm s. unfold call_agv_task.
  destruct (nth_error (agvs s) r) as [a |]; simpl.
  - destruct (method a (tasks s)) as [[a' l'] | e] eqn:Ha; simpl.
    + split; [reflexivity | discriminate].
    + split; [reflexivity |]. intros e' H. injection H as <-. eapply Hm, Ha.
  - split; [reflexivity |]. intros e' H. injection H as <-. discriminate.
Qed.

(* the phases leave the timestamp alone and do not raise the deadlock error *)
Lemma phases_timestamp : Run.sat Run.same_timestamp Run.not_deadlock phases.
Proof.
  apply sat_phases.
  - exact same_timestamp_refl.
  - exact same_timestamp_trans.
  - auto.
  - intros. apply call_agv_timestamp. intros. eapply turn_exn; eassumption.
  - intros. apply call_agv_timestamp. discriminate.
  - intros. apply call_agv_task_timestamp. intros. eapply load_exn; eassumption.
  - intros. apply call_agv_task_timestamp. intros. eapply unload_exn; eassumption.
  - intros records s. split; [reflexivity | discriminate].
  - intros. apply sat_batch_move_one.
    + exact same_timestamp_refl.
    + exact same_timestamp_trans.
    + auto.
    + exact call_agv_timestamp.
  - intros. apply sat_park_step.
    + exact same_timestamp_refl.
    + exact same_timestamp_trans.
    + auto.
    + exact call_agv_timestamp.
Qed.

Lemma process_guarded (s : t) :
  timestamp s > MAX_TIMESTAMP -> process s = (Raise DeadlockExceeded, s).
Proof.
  intros H. unfold process, bind, get, raise.
  destruct (Z.gtb_spec (timestamp s) MAX_TIMESTAMP); [reflexivity | lia].
Qed.

Lemma process_unguarded (s : t) :
  timestamp s <= MAX_TIMESTAMP ->
  process s = phases (mk (context s) (timestamp s + 1)).
Proof.
  intros H. unfold process, bind, get, advance_timestamp.
  destruct (Z.gtb_spec (timestamp s) MAX_TIMESTAMP); [lia | reflexivity].
Qed.

Lemma process_ok_timestamp (s s' : t) (u : unit) :
  process s = (Ok u, s') ->
  timestamp s <= MAX_TIMESTAMP /\ timestamp s' = timestamp s + 1.
Proof.
  intros H. destruct (Z.le_gt_cases (timestamp s) MAX_TIMESTAMP) as [Hle | Hgt].
  - split; [exact Hle |]. rewrite process_unguarded in H by exact Hle.
    destruct (phases_timestamp (mk (context s) (timestamp s + 1))) as [Ht _].
    rewrite H in Ht. exact Ht.
  - rewrite process_guarded in H by lia. discriminate.
Qed.

Lemma run_ticks_loop (n : nat) :
  forall (s s' : t) (fuel : nat),
    Run.run_ticks n s = Some s' ->
    process_loop (n + fuel) s = process_loop fuel s'
    /\ timestamp s' = timestamp s + Z.of_nat n.
Proof.
  induction n as [| n IH]; intros s s' fuel; simpl.
  - intros H; injection H as <-. split; [reflexivity | lia].
  - unfold bind at 1, get at 1.
    destruct (AgvContext.all_tasks_completed (context s)); [discriminate |].
    unfold bind. destruct (process s) as [[u | e] s1] eqn:Hp; [| discriminate].
    intros H. destruct (IH _ _ fuel H) as [Hl Ht].
    destruct (process_ok_timestamp _ _ _ Hp) as [_ Ht1].
    split; [exact Hl | lia].
Qed.

(* the loop of process_to_complete ends within the model's fuel *)
Lemma process_loop_terminates (fuel : nat) :
  forall s : t,
    (Z.to_nat (MAX_TIMESTAMP + 2 - timestamp s) < fuel)%nat ->
    fst (process_loop fuel s) <> Ok None.
Proof.
  induction fuel as [| fuel IH]; intros s Hf; [lia |]. simpl.
  unfold bind at 1, get at 1.
  destruct (AgvContext.all_tasks_completed (context s)); [discriminate |].
  unfold bind. destruct (process s) as [[u | e] s1] eqn:Hp; [| discriminate].
  destruct (process_ok_timestamp _ _ _ Hp) as [Hle Ht1].
  apply IH. rewrite Ht1. unfold MAX_TIMESTAMP in *. lia.
Qed.
End TimestampFacts.

(** C9: process raises the deadlock error exactly when the timestamp exceeds
    400 on entry, and then the scheduler is left as it was: timestamp, AGVs,
    tasks and trajectory.  Hence a run from timestamp 0 whose first 401 ticks
    all end normally with tasks left fails at the next call with the deadlock
    error, the timestamp being 401; and process_to_complete always ends. *)
Theorem process_deadlock_guard :
  forall s : SchedulerService.t,
    (fst (SchedulerService.process s) = Raise DeadlockExceeded
     <-> SchedulerService.timestamp s > 400)
    /\ (SchedulerService.timestamp s > 400 ->
        SchedulerService.process s = (Raise DeadlockExceeded, s))
    /\ (forall s' : SchedulerService.t,
          SchedulerService.timestamp s = 0 ->
          Run.run_ticks 401 s = Some s' ->
          AgvContext.all_tasks_completed (SchedulerService.context s') = false ->
          SchedulerService.process_to_complete s = (Raise DeadlockExceeded, s')
          /\ SchedulerService.timestamp s' = 401)
    /\ fst (SchedulerService.process_to_complete s) <> Ok None.
Proof.
  intros s. split; [| split; [| split]].
  - split.
    + intros H. destruct (Z.le_gt_cases (SchedulerService.timestamp s) 400)
        as [Hle | Hgt]; [| lia].
      exfalso. rewrite process_unguarded in H by exact Hle.
      destruct (phases_timestamp
                  (SchedulerService.mk (SchedulerService.context s)
                     (SchedulerService.timestamp s + 1))) as [_ He].
      apply (He _ H). reflexivity.
    + intros H. rewrite process_guarded by exact H. reflexivity.
  - apply process_guarded.
  - intros s' H0 Hrun Hleft.
    destruct (run_ticks_loop 401 s s' 2 Hrun) as [Hl Ht].
    assert (Ht' : SchedulerService.timestamp s' = 401) by (rewrite Ht, H0; reflexivity).
    split; [| exact Ht'].
    unfold SchedulerService.process_to_complete.
    unfold SchedulerService.bind at 1, SchedulerService.get at 1.
    rewrite H0.
    change (S (Z.to_nat (SchedulerService.MAX_TIMESTAMP + 2 - 0)))
      with (401 + 2)%nat.
    rewrite Hl. cbn [SchedulerService.process_loop].
    unfold SchedulerService.bind at 1, SchedulerService.get at 1.
    rewrite Hleft. unfold SchedulerService.bind.
    rewrite process_guarded by (rewrite Ht'; reflexivity). reflexivity.
  - unfold SchedulerService.process_to_complete.
    unfold SchedulerService.bind, SchedulerService.get.
    apply process_loop_terminates. lia.
Qed.

Lemma process_deadlock_guard_witness :
  exists s' : SchedulerService.t,
    Run.run_ticks 401 Worlds.stuck = Some s'
    /\ SchedulerService.process_to_complete Worlds.stuck
       = (Raise DeadlockExceeded, s')
    /\ SchedulerService.timestamp s' = 401.
Proof.
  eexists. split; [vm_compute; reflexivity |].
  apply (proj1 (proj2 (proj2 (process_deadlock_guard Worlds.stuck)))).
  - reflexivity.
  - vm_compute. reflexivity.
  - vm_compute. reflexivity.
Defined.

(** ** Objects held in a list and updated in place *)

Section ListSetFacts.
Context {A : Type}.

Lemma list_set_length (l : list A) (i : nat) (a : A) :
  length (list_set l i a) = length l.
Proof.
  revert i. induction l as [| b l IH]; intros [| i]; simpl; auto.
Qed.

Lemma nth_error_list_set_same (l : list A) (i : nat) (a b : A) :
  nth_error l i = Some b -> nth_error (list_set l i a) i = Some a.
Proof.
  revert i. induction l as [| c l IH]; intros [| i]; simpl; try discriminate; auto.
Qed.

Lemma nth_error_list_set_other (l : list A) (i j : nat) (a : A) :
  i <> j -> nth_error (list_set l i a) j = nth_error l j.
Proof.
  revert i j. induction l as [| c l IH]; intros [| i] [| j] H; simpl; auto.
  congruence.
Qed.

Lemma list_set_twice (l : list A) (i : nat) (a b : A) :
  list_set (list_set l i a) i b = list_set l i b.
Proof.
  revert i. induction l as [| c l IH]; intros [| i]; simpl; auto.
  rewrite IH. reflexivity.
Qed.

Lemma map_list_set_same {B : Type} (f : A -> B) (l : list A) (i : nat) (a b : A) :
  nth_error l i = Some b -> f a = f b -> map f (list_set l i a) = map f l.
Proof.
  revert i. induction l as [| c l IH]; intros [| i]; simpl; try discriminate.
  - intros H Hf. injection H as ->. rewrite Hf. reflexivity.
  - intros H Hf. rewrite (IH i) by assumption. reflexivity.
Qed.

Lemma Forall_list_set (P : A -> Prop) (l : list A) (i : nat) (a : A) :
  Forall P l -> P a -> Forall P (list_set l i a).
Proof.
  intros Hl Ha. revert i. induction Hl as [| c l Hc Hl IH]; intros [| i]; simpl;
    constructor; auto.
Qed.
End ListSetFacts.

Lemma dict_get_set (d : SchedulerService.assignments) (k v : nat) :
  SchedulerService.dict_get (SchedulerService.dict_set d k v) k = Some v.
Proof.
  induction d as [| [k' v'] d IH]; simpl.
  - rewrite Nat.eqb_refl. reflexivity.
  - destruct (Nat.eqb k' k) eqn:E; simpl; rewrite E; [reflexivity | exact IH].
Qed.

(* sorting a list whose keys are all equal changes nothing *)
Lemma stable_sort_equal_keys {K V : Type} (leb : K -> K -> bool) (k : K)
    (l : list (K * V)) :
  leb k k = true -> Forall (fun e => fst e = k) l -> stable_sort leb l = l.
Proof.
  intros Hk. induction 1 as [| e l He Hl IH]; simpl; [reflexivity |].
  rewrite IH. destruct l as [| e' l']; [reflexivity |]. simpl.
  inversion Hl as [| ? ? He' _]; subst. rewrite He'. rewrite Hk. reflexivity.
Qed.

(** ** Running the scheduler's methods step by step *)

Section StepFacts.
Import SchedulerService.

Lemma bind_ok {A B : Type} (m : M A) (k : A -> M B) (s s' : t) (a : A) :
  m s = (Ok a, s') -> bind m k s = k a s'.
Proof. intros H. unfold bind. rewrite H. reflexivity. Qed.

Lemma bind_raise {A B : Type} (m : M A) (k : A -> M B) (s s' : t) (e : exn) :
  m s = (Raise e, s') -> bind m k s = (Raise e, s').
Proof. intros H. unfold bind. rewrite H. reflexivity. Qed.

Lemma get_agv_ok (s : t) (r : nat) (a : Agv.t) :
  nth_error (agvs s) r = Some a -> get_agv r s = (Ok a, s).
Proof. intros H. unfold get_agv. rewrite H. reflexivity. Qed.

Lemma get_task_ok (s : t) (r : nat) (task : TaskEx.t) :
  nth_error (tasks s) r = Some task -> get_task r s = (Ok task, s).
Proof. intros H. unfold get_task. rewrite H. reflexivity. Qed.

Lemma call_agv_ok (s : t) (r : nat) (method : Agv.t -> result Agv.t)
    (a a' : Agv.t) :
  nth_error (agvs s) r = Some a -> method a = Ok a' ->
  call_agv r method s = (Ok tt, with_agvs s (list_set (agvs s) r a')).
Proof. intros H Hm. unfold call_agv. rewrite H, Hm. reflexivity. Qed.
End StepFacts.

(** ** The assignment of idle AGVs *)

Section AssignFacts.
Import SchedulerService.

(* when no idle AGV has a path, every option is an empty list of time points *)
Lemma assignment_options_no_path (s : t) (task : TaskEx.t) (idle : list nat) :
  (forall r, In r idle ->
     exists agv,
       nth_error (agvs s) r = Some agv
       /\ _calculate_path_to_pickup_position s agv task
            (_get_obstacles s r agv (agvs s)) = []) ->
  assignment_options task idle s = (Ok (map (fun r => (r, [])) idle), s).
Proof.
  induction idle as [| r idle IH]; intros H; simpl; [reflexivity |].
  destruct (H r (or_introl eq_refl)) as [agv [Hagv Hpath]].
  unfold bind at 1. unfold assignment_option, bind, get_agv, get, lift, ret.
  rewrite Hagv, Hpath. simpl.
  fold (assignment_options task idle).
  rewrite IH by (intros; apply H; right; assumption). reflexivity.
Qed.
End AssignFacts.

(** C10: when the planned path of every idle AGV to the task's pickup cell is
    empty, the assignment step still selects the first idle AGV: whatever
    path it held, its path_time_points is the empty list afterwards, while
    its name, cell, pitch and load stay as they were and no other AGV
    changes; it enters the assignment table under the task, and leaves the
    idle pool that the later tasks of the tick see; the task table is
    untouched, so the task stays pending. *)
Theorem unreachable_task_takes_first_idle_agv :
  forall (s : SchedulerService.t) (task_ref : nat) (task : TaskEx.t)
         (first : nat) (others : list nat)
         (temp_assignments : SchedulerService.assignments)
         (later_tasks : list nat),
    nth_error (SchedulerService.tasks s) task_ref = Some task ->
    (forall r, In r (first :: others) ->
       exists agv,
         nth_error (SchedulerService.agvs s) r = Some agv
         /\ SchedulerService._calculate_path_to_pickup_position s agv task
              (SchedulerService._get_obstacles s r agv (SchedulerService.agvs s))
            = []) ->
    exists (agv agv' : Agv.t) (s' : SchedulerService.t),
      nth_error (SchedulerService.agvs s) first = Some agv
      /\ s' = SchedulerService.with_agvs s
                (list_set (SchedulerService.agvs s) first
                   (Agv.set_path_time_points agv []))
      /\ SchedulerService.assign_task task_ref (first :: others, temp_assignments) s
         = (Ok (others, SchedulerService.dict_set temp_assignments first task_ref),
            s')
      /\ SchedulerService.dict_get
           (SchedulerService.dict_set temp_assignments first task_ref) first
         = Some task_ref
      /\ SchedulerService.tasks s' = SchedulerService.tasks s
      /\ SchedulerService.assign_loop (task_ref :: later_tasks)
           (first :: others, temp_assignments) s
         = SchedulerService.assign_loop later_tasks
             (others, SchedulerService.dict_set temp_assignments first task_ref) s'
      /\ nth_error (SchedulerService.agvs s') first = Some agv'
      /\ Agv.path_time_points agv' = []
      /\ Agv.name agv' = Agv.name agv
      /\ Agv.position agv' = Agv.position agv
      /\ Agv.pitch agv' = Agv.pitch agv
      /\ Agv.is_loaded agv' = Agv.is_loaded agv
      /\ Agv.loaded_task agv' = Agv.loaded_task agv
      /\ (forall r : nat,
            r <> first ->
            nth_error (SchedulerService.agvs s') r
            = nth_error (SchedulerService.agvs s) r).
Proof.
  intros s task_ref task first others temp later Htask Hpaths.
  destruct (Hpaths first (or_introl eq_refl)) as [agv [Hagv _]].
  exists agv, (Agv.set_path_time_points agv []). eexists.
  split; [exact Hagv |]. split; [reflexivity |].
  assert (Hassign :
    SchedulerService.assign_task task_ref (first :: others, temp) s
    = (Ok (others, SchedulerService.dict_set temp first task_ref),
       SchedulerService.with_agvs s
         (list_set (SchedulerService.agvs s) first
            (Agv.set_path_time_points agv [])))).
  { unfold SchedulerService.assign_task.
    unfold SchedulerService.bind at 1. unfold SchedulerService.get_task.
    rewrite Htask.
    unfold SchedulerService.bind at 1.
    rewrite (assignment_options_no_path s task (first :: others) Hpaths).
    rewrite (stable_sort_equal_keys SchedulerService.cost_leb None).
    - simpl. unfold SchedulerService.bind, SchedulerService.set_path_time_points,
        SchedulerService.call_agv, SchedulerService.ret.
      rewrite Hagv. rewrite Nat.eqb_refl. reflexivity.
    - reflexivity.
    - apply Forall_map. apply Forall_map. apply Forall_forall. reflexivity. }
  split; [exact Hassign |]. split; [apply dict_get_set |].
  split; [reflexivity |]. split.
  { cbn [SchedulerService.assign_loop fst]. unfold SchedulerService.bind at 1.
    rewrite Hassign. reflexivity. }
  split; [apply (nth_error_list_set_same _ _ _ _ Hagv) |].
  repeat (split; [reflexivity |]).
  intros r Hr. apply nth_error_list_set_other. congruence.
Qed.

Lemma unreachable_task_takes_first_idle_agv_witness :
  exists s' : SchedulerService.t,
    SchedulerService.assign_task 0 ([0%nat; 1%nat], []) Worlds.boxed_pair_parked
    = (Ok ([1%nat], [(0%nat, 0%nat)]), s')
    /\ map Agv.path_time_points (SchedulerService.agvs Worlds.boxed_pair_parked)
       = [[PathTimePoint.mk (PointEx.mk 5 5) 0]; []]
    /\ map Agv.path_time_points (SchedulerService.agvs s') = [[]; []]
    /\ map Agv.position (SchedulerService.agvs s')
       = [PointEx.mk 5 5; PointEx.mk 7 5].
Proof.
  destruct (unreachable_task_takes_first_idle_agv Worlds.boxed_pair_parked 0
              (TaskEx.init (TaskRecord.mk "T1" "S1" "E1" TaskPriority.NORMAL None)
                 (PointEx.mk 8 5) (PointEx.mk 6 5))
              0%nat [1%nat] [] [])
    as (agv & agv' & s' & Hagv & Hs' & H & _).
  - reflexivity.
  - intros r [<- | [<- | []]]; eexists; (split; [reflexivity |]);
      vm_compute; reflexivity.
  - exists s'. split; [exact H |]. rewrite Hs'.
    vm_compute in Hagv. injection Hagv as <-. vm_compute.
    repeat split; reflexivity.
Defined.

(** ** The cross-lock turn *)

Section CrossLockFacts.
Import SchedulerService.




Lemma check_moved_items_state (a : Agv.t) (task : TaskEx.t)
    (items : list moved_item) (s : t) :
  snd (check_moved_items a task items s) = s.
Proof.
  induction items as [| [[r mp] tr] items IH]; simpl; [reflexivity |].
  unfold bind, get_agv, get_task.
  destruct (nth_error (agvs s) r); [| reflexivity].
  destruct (nth_error (tasks s) tr); [| reflexivity].
  destruct (cross_lock a task _ mp _); [reflexivity | exact IH].
Qed.



End CrossLockFacts.




(** ** No two AGVs on one cell *)

Section CellFacts.
Import SchedulerService.

Lemma same_cells_refl (s : t) : Run.same_cells s s.
Proof. repeat split. Qed.

Lemma same_cells_trans (a b c : t) :
  Run.same_cells a b -> Run.same_cells b c -> Run.same_cells a c.
Proof.
  intros [H1 [H2 H3]] [H4 [H5 H6]]. repeat split; congruence.
Qed.

Lemma same_cells_path (s : t) (r : nat) (agv : Agv.t) (l : list PathTimePoint.t) :
  nth_error (agvs s) r = Some agv ->
  Run.same_cells s
    (with_agvs s (list_set (agvs s) r (Agv.set_path_time_points agv l))).
Proof.
  intros H. split; [| split; reflexivity].
  apply map_list_set_same with (b := agv); [exact H | reflexivity].
Qed.

Lemma same_cells_keeps_safe (s s' : t) :
  Run.same_cells s s' -> Run.keeps Run.safe s s'.
Proof.
  intros [Hp [Hf He]] [Hd Hends]. split.
  - unfold Run.distinct_cells. rewrite Hp. exact Hd.
  - unfold Run.ends_fixed in *. rewrite Hf.
    rewrite Forall_forall in *. intros task Hin.
    apply (in_map TaskEx.end_position) in Hin. rewrite He in Hin.
    apply in_map_iff in Hin. destruct Hin as [task' [Heq Hin]].
    rewrite <- Heq. apply Hends, Hin.
Qed.

Lemma keeps_safe_refl (s : t) : Run.keeps Run.safe s s.
Proof. intros H; exact H. Qed.

Lemma keeps_safe_trans (a b c : t) :
  Run.keeps Run.safe a b -> Run.keeps Run.safe b c -> Run.keeps Run.safe a c.
Proof. unfold Run.keeps. auto. Qed.

(* a method that leaves the AGV where it is keeps all cells *)
Lemma call_agv_same_cells (r : nat) (method : Agv.t -> result Agv.t) (s : t) :
  (forall a a', method a = Ok a' -> Agv.position a' = Agv.position a) ->
  Run.same_cells s (snd (call_agv r method s)).
Proof.
  intros Hm. unfold call_agv.
  destruct (nth_error (agvs s) r) as [a |] eqn:Ha; [| apply same_cells_refl].
  destruct (method a) as [a' | e] eqn:Hma; [| apply same_cells_refl].
  split; [| split; reflexivity]. cbn.
  apply map_list_set_same with (b := a); [exact Ha | apply Hm, Hma].
Qed.

Lemma call_agv_task_same_cells (r : nat)
    (method : Agv.t -> list TaskEx.t -> result (Agv.t * list TaskEx.t)) (s : t) :
  (forall a l a' l',
     method a l = Ok (a', l') ->
     Agv.position a' = Agv.position a
     /\ map TaskEx.end_position l' = map TaskEx.end_position l) ->
  Run.same_cells s (snd (call_agv_task r method s)).
Proof.
  intros Hm. unfold call_agv_task.
  destruct (nth_error (agvs s) r) as [a |] eqn:Ha; [| apply same_cells_refl].
  destruct (method a (tasks s)) as [[a' l'] | e] eqn:Hma; [| apply same_cells_refl].
  destruct (Hm _ _ _ _ Hma) as [Hp Hl].
  split; [| split; [reflexivity | exact Hl]]. cbn.
  apply map_list_set_same with (b := a); [exact Ha | exact Hp].
Qed.

Lemma turn_position (a a' : Agv.t) (d : option Direction.t) :
  Agv.turn a d = Ok a' -> Agv.position a' = Agv.position a.
Proof.
  unfold Agv.turn. destruct d; [intros H; injection H as <-; reflexivity |].
  destruct (Agv.path_time_points a) as [| p0 [| p1 rest]];
    try (intros H; injection H as <-; reflexivity).
  destruct (PointEx.get_pitch_to_neighbour _ _); [| discriminate].
  intros H; injection H as <-; reflexivity.
Qed.

Lemma load_cells (self : nat) (a a' : Agv.t) (task_ref : nat) (ts : Z)
    (l l' : list TaskEx.t) :
  Agv.load self a task_ref ts l = Ok (a', l') ->
  Agv.position a' = Agv.position a
  /\ map TaskEx.end_position l' = map TaskEx.end_position l.
Proof.
  unfold Agv.load. destruct (nth_error l task_ref) as [task |] eqn:Ht;
    [| discriminate].
  intros H; injection H as <- <-. split; [reflexivity |].
  apply map_list_set_same with (b := task); [exact Ht | reflexivity].
Qed.

Lemma unload_cells (a a' : Agv.t) (ts : Z) (l l' : list TaskEx.t) :
  Agv.unload a ts l = Ok (a', l') ->
  Agv.position a' = Agv.position a
  /\ map TaskEx.end_position l' = map TaskEx.end_position l.
Proof.
  unfold Agv.unload. destruct (Agv.loaded_task a) as [task_ref |].
  - destruct (nth_error l task_ref) as [task |] eqn:Ht; [| discriminate].
    intros H; injection H as <- <-. split; [reflexivity |].
    apply map_list_set_same with (b := task); [exact Ht | reflexivity].
  - intros H; injection H as <- <-. split; reflexivity.
Qed.

(** what a plan's second point is *)

Lemma timing_loop_positions (rest : list PointEx.t) :
  forall (from : PointEx.t) (time : Z) (pitch : Direction.t)
         (tail : list PathTimePoint.t),
    PathPlanning.timing_loop from rest time pitch = Ok tail ->
    map PathTimePoint.position tail = rest.
Proof.
  induction rest as [| p rest IH]; intros from time pitch tail; simpl.
  - intros H; injection H as <-. reflexivity.
  - destruct (PointEx.get_pitch_to_neighbour from p); [| discriminate].
    destruct (Direction.eqb a pitch);
      match goal with
      | |- context [PathPlanning.timing_loop ?a ?b ?c ?d] =>
          specialize (IH a c d); destruct (PathPlanning.timing_loop a b c d)
      end; try discriminate;
      intros H; injection H as <-; simpl; rewrite (IH _ eq_refl); reflexivity.
Qed.

Lemma calculate_path_timing_positions (path : list PointEx.t)
    (pitch : Direction.t) (ptp : list PathTimePoint.t) :
  PathPlanning.calculate_path_timing path pitch = Ok ptp ->
  map PathTimePoint.position ptp = path.
Proof.
  unfold PathPlanning.calculate_path_timing. destruct path as [| p0 rest].
  - intros H; injection H as <-. reflexivity.
  - destruct (PathPlanning.timing_loop p0 rest 0 pitch) eqn:Ht; [| discriminate].
    intros H; injection H as <-. simpl.
    rewrite (timing_loop_positions _ _ _ _ _ Ht). reflexivity.
Qed.

Lemma a_star_step_free (start goal : PointEx.t) (o : Direction.t)
    (obstacles : list PointEx.t) (grid_size : option (Z * Z))
    (q0 q1 : PointEx.t) (rest : list PointEx.t) :
  PathPlanning.a_star_with_orientation start goal o obstacles grid_size
  = q0 :: q1 :: rest ->
  q0 = start /\ Path.four_adjacent start q1 /\ ~ In q1 obstacles.
Proof.
  unfold PathPlanning.a_star_with_orientation.
  destruct (PathPlanning.a_star_search start goal o obstacles grid_size)
    as [cost path | |] eqn:Hs; try discriminate.
  intros ->.
  destruct (a_star_search_reached _ _ _ _ _ _ _ Hs)
    as [f [o' [rest0 [Hp [_ [Hc Hf]]]]]].
  injection Hp as -> <-. split; [reflexivity |].
  destruct Hc as [Hadj _]. split; [exact Hadj |].
  inversion Hf as [| ? ? [_ Hfree] _]; subst. exact Hfree.
Qed.

Lemma four_adjacent_neighbours (p q : PointEx.t) :
  Path.four_adjacent p q -> In q (PointEx.neighbours p).
Proof.
  destruct p as [px py], q as [qx qy].
  unfold Path.four_adjacent, PathPlanning.manhattan, PointEx.neighbours,
    PointEx.left_neighbour, PointEx.right_neighbour, PointEx.up_neighbour,
    PointEx.down_neighbour; simpl.
  intros H.
  assert (Hc : (qx = px - 1 /\ qy = py) \/ (qx = px + 1 /\ qy = py)
               \/ (qx = px /\ qy = py - 1) \/ (qx = px /\ qy = py + 1)) by lia.
  destruct Hc as [[-> ->] | [[-> ->] | [[-> ->] | [-> ->]]]]; auto.
Qed.

(* the cross-lock loop only adds obstacles *)
Lemma get_obstacles_agv_cells (s : t) (r : nat) (agv : Agv.t)
    (agvs : list Agv.t) (p : PointEx.t) :
  In p (PointEx.neighbours (Agv.position agv)) ->
  In p (map Agv.position agvs) ->
  In p (_get_obstacles s r agv agvs).
Proof.
  intros Hn Hp. unfold _get_obstacles.
  assert (Hinit : In p (filter (fun pos => PointEx.mem pos (map Agv.position agvs))
                          (PointEx.neighbours (Agv.position agv)))).
  { apply filter_In. split; [exact Hn | apply PointEx_mem_In, Hp]. }
  revert Hinit. generalize (filter (fun pos => PointEx.mem pos (map Agv.position agvs))
                              (PointEx.neighbours (Agv.position agv))).
  induction (others r agvs) as [| item items IH]; intros init Hinit;
    cbn [fold_left]; [exact Hinit |].
  apply IH.
  destruct (free_neighbours s (fst item) (snd item) agvs) as [| n [| ? ?]];
    try exact Hinit.
  destruct (PointEx.mem n (PointEx.neighbours (Agv.position agv)));
    [apply in_or_app; left |]; exact Hinit.
Qed.

Lemma remove_keeps_tail (goal : PointEx.t) (l1 l2 obstacles : list PointEx.t) :
  In goal l1 ->
  PointEx.remove goal (l1 ++ l2) = Ok obstacles ->
  forall p, In p l2 -> In p obstacles.
Proof.
  revert obstacles. induction l1 as [| q l1 IH]; intros obstacles Hin;
    [contradiction |].
  simpl. destruct (PointEx.eqb q goal) eqn:E.
  - intros H; injection H as <-. intros p Hp. apply in_or_app. right; exact Hp.
  - destruct Hin as [-> | Hin]; [rewrite PointEx_eqb_refl in E; discriminate |].
    destruct (PointEx.remove goal (l1 ++ l2)) as [r |] eqn:Hr; [| discriminate].
    intros H; injection H as <-. intros p Hp. right. eapply IH; eauto.
Qed.

(* the cell a plan steps to first is not occupied *)
Lemma planned_step_fresh (s : t) (r : nat) (agv : Agv.t) (goal : PointEx.t)
    (obstacles : list PointEx.t) (p0 p1 : PathTimePoint.t)
    (rest : list PathTimePoint.t) :
  (forall p, In p (_get_obstacles s r agv (agvs s)) -> In p obstacles) ->
  PathPlanning.calculate_path_timing
    (PathPlanning.a_star_with_orientation (Agv.position agv) goal (Agv.pitch agv)
       obstacles None)
    (Agv.pitch agv)
  = Ok (p0 :: p1 :: rest) ->
  ~ In (PathTimePoint.position p1) (map Agv.position (agvs s)).
Proof.
  intros Hobs Ht Hin.
  apply calculate_path_timing_positions in Ht. simpl in Ht. symmetry in Ht.
  apply a_star_step_free in Ht. destruct Ht as [_ [Hadj Hfree]].
  apply Hfree, Hobs. apply get_obstacles_agv_cells; [| exact Hin].
  apply four_adjacent_neighbours, Hadj.
Qed.

Lemma replan_step_fresh (s : t) (is_loaded : bool) (r : nat) (agv : Agv.t)
    (task : TaskEx.t) (p0 p1 : PathTimePoint.t) (rest : list PathTimePoint.t) :
  In (TaskEx.end_position task) (Run.fixed s) ->
  replan s is_loaded r agv task = Ok (p0 :: p1 :: rest) ->
  ~ In (PathTimePoint.position p1) (map Agv.position (agvs s)).
Proof.
  intros Hend. unfold replan. destruct is_loaded.
  - unfold _calculate_path_to_end_point, _build_obstacles.
    destruct (PointEx.remove _ _) as [obstacles |] eqn:Hr; [| discriminate].
    apply (planned_step_fresh s r). intros p Hp.
    eapply remove_keeps_tail; [exact Hend | exact Hr | exact Hp].
  - unfold _calculate_path_to_pickup_position, _build_obstacles.
    apply (planned_step_fresh s r). intros p Hp. apply in_or_app. right; exact Hp.
Qed.

(** moving onto a free cell *)

Lemma In_list_set {A : Type} (l : list A) (i : nat) (a x : A) :
  In x (list_set l i a) -> x = a \/ In x l.
Proof.
  revert i. induction l as [| b l IH]; intros [| i]; simpl; try tauto.
  - intros [-> | H]; auto.
  - intros [-> | H]; auto. destruct (IH _ H); auto.
Qed.

Lemma NoDup_list_set_fresh {A : Type} (l : list A) (i : nat) (a : A) :
  NoDup l -> ~ In a l -> NoDup (list_set l i a).
Proof.
  intros Hnd. revert i. induction Hnd as [| b l Hb Hnd IH]; intros i Ha;
    destruct i as [| i]; simpl; try constructor.
  - intros Hin. apply Ha. right; exact Hin.
  - exact Hnd.
  - intros Hin. apply In_list_set in Hin. destruct Hin as [-> | Hin].
    + apply Ha. left; reflexivity.
    + contradiction.
  - apply IH. intros Hin. apply Ha. right; exact Hin.
Qed.

Lemma map_list_set {A B : Type} (f : A -> B) (l : list A) (i : nat) (a : A) :
  map f (list_set l i a) = list_set (map f l) i (f a).
Proof.
  revert i. induction l as [| b l IH]; intros [| i]; simpl; auto.
  rewrite IH. reflexivity.
Qed.

Lemma move_keeps_safe (s : t) (r : nat) (agv : Agv.t) (p0 p1 : PathTimePoint.t)
    (rest : list PathTimePoint.t) :
  Run.safe s ->
  ~ In (PathTimePoint.position p1) (map Agv.position (agvs s)) ->
  Run.safe
    (with_agvs s
       (list_set (agvs s) r
          (Agv.move (Agv.set_path_time_points agv (p0 :: p1 :: rest))))).
Proof.
  intros [Hd He] Hfresh. split; [| exact He].
  unfold Run.distinct_cells. cbn. rewrite map_list_set.
  apply NoDup_list_set_fresh; assumption.
Qed.
End CellFacts.

Section SafetyFacts.
Import SchedulerService.

Ltac stays H :=
  injection H as _ <-; left; first [apply same_cells_refl | assumption].

(* one turn of the batch loop either keeps every cell or moves the candidate
   one step along the path it was just given *)
Lemma batch_move_one_moves_or_stays (is_loaded : bool)
    (temp : option assignments) (r : nat) (acc : batch_state) (s s' : t)
    (res : result batch_state) :
  batch_move_one is_loaded temp r acc s = (res, s') ->
  Run.same_cells s s'
  \/ exists agv task_ref task p0 p1 rest,
       nth_error (agvs s) r = Some agv
       /\ Agv.is_loaded agv = is_loaded
       /\ nth_error (tasks s) task_ref = Some task
       /\ replan s is_loaded r agv task = Ok (p0 :: p1 :: rest)
       /\ s' = with_agvs s
                 (list_set (agvs s) r
                    (Agv.move (Agv.set_path_time_points agv (p0 :: p1 :: rest)))).
Proof.
  destruct acc as [[handled moved] assigned]. unfold batch_move_one. intros H.
  unfold bind at 1, get_agv in H.
  destruct (nth_error (agvs s) r) as [agv |] eqn:Hagv; [| stays H].
  destruct (ref_mem r handled || negb (Bool.eqb (Agv.is_loaded agv) is_loaded))
    eqn:Hskip; [stays H |].
  apply orb_false_iff in Hskip. destruct Hskip as [_ Hl].
  apply negb_false_iff, Bool.eqb_prop in Hl.
  unfold bind at 1 in H.
  match type of H with
  | context [(if is_loaded then ?a else ?b) s] =>
      assert (Href : (exists t, (if is_loaded then a else b) s = (Ok t, s))
                     \/ exists e, (if is_loaded then a else b) s = (Raise e, s))
  end.
  { destruct is_loaded.
    - destruct (Agv.loaded_task agv); [left | right]; eexists; reflexivity.
    - destruct temp as [d |]; [| right; eexists; reflexivity].
      destruct (dict_get d r); [left | right]; eexists; reflexivity. }
  destruct Href as [[task_ref Href] | [e Href]]; rewrite Href in H; [| stays H].
  unfold bind at 1, get_task in H.
  destruct (nth_error (tasks s) task_ref) as [task |] eqn:Htask; [| stays H].
  unfold bind at 1, get at 1 in H. cbv beta iota in H.
  unfold bind at 1, lift at 1 in H.
  destruct (replan s is_loaded r agv task) as [ptp | e] eqn:Hreplan; [| stays H].
  unfold bind at 1, set_path_time_points, call_agv in H. rewrite Hagv in H.
  cbv beta iota in H.
  set (s1 := with_agvs s (list_set (agvs s) r (Agv.set_path_time_points agv ptp)))
    in *.
  assert (Hs1 : Run.same_cells s s1) by (apply same_cells_path, Hagv).
  assert (Hagv1 : nth_error (agvs s1) r = Some (Agv.set_path_time_points agv ptp)).
  { eapply nth_error_list_set_same, Hagv. }
  destruct ptp as [| p0 [| p1 rest]]; [stays H | stays H |].
  unfold bind at 1, lift at 1 in H.
  destruct (PointEx.get_pitch_to_neighbour _ _) as [d | e]; [| stays H].
  cbv beta iota in H.
  destruct (negb (Direction.eqb d (Agv.pitch agv))); [stays H |].
  unfold bind at 1 in H.
  pose proof (check_moved_items_state agv task moved s1) as Hpure.
  destruct (check_moved_items agv task moved s1) as [[[turn |] | e] s2];
    simpl in Hpure; subst s2; [| | stays H].
  - left. unfold bind, ret in H. rewrite Hagv1 in H. cbn in H.
    erewrite nth_error_list_set_same in H
      by (eapply nth_error_list_set_same, Hagv).
    injection H as _ <-. rewrite !list_set_twice.
    split; [| split; reflexivity]. cbn.
    apply map_list_set_same with (b := agv); [exact Hagv | reflexivity].
  - right. unfold bind, ret in H. rewrite Hagv1 in H. cbn in H.
    injection H as _ <-. rewrite !list_set_twice.
    exists agv, task_ref, task, p0, p1, rest. repeat split; assumption.
Qed.

Lemma batch_move_one_safe (is_loaded : bool) (temp : option assignments)
    (r : nat) (acc : batch_state) :
  Run.sat (Run.keeps Run.safe) Run.any_exn (batch_move_one is_loaded temp r acc).
Proof.
  intros s. split; [| intros; exact I].
  destruct (batch_move_one is_loaded temp r acc s) as [res s'] eqn:H. simpl.
  apply batch_move_one_moves_or_stays in H.
  destruct H as [H | [agv [task_ref [task [p0 [p1 [rest [Ha [_ [Ht [Hr ->]]]]]]]]]]].
  - apply same_cells_keeps_safe, H.
  - intros Hsafe. apply move_keeps_safe; [exact Hsafe |].
    eapply replan_step_fresh; [| exact Hr].
    destruct Hsafe as [_ He]. unfold Run.ends_fixed in He.
    rewrite Forall_forall in He. apply He. eapply nth_error_In, Ht.
Qed.

(* parking does the same with the path to the edge cell *)
Lemma park_step_moves_or_stays (r : nat) (u : unit) (s s' : t)
    (res : result unit) :
  park_step r u s = (res, s') ->
  Run.same_cells s s'
  \/ exists agv goal p0 p1 rest,
       nth_error (agvs s) r = Some agv
       /\ PathPlanning.calculate_path_timing
            (PathPlanning.a_star_with_orientation (Agv.position agv) goal
               (Agv.pitch agv)
               (_build_obstacles s (_get_obstacles s r agv (agvs s))) None)
            (Agv.pitch agv)
          = Ok (p0 :: p1 :: rest)
       /\ s' = with_agvs s
                 (list_set (agvs s) r
                    (Agv.move (Agv.set_path_time_points agv (p0 :: p1 :: rest)))).
Proof.
  unfold park_step. intros H.
  unfold bind at 1, get_agv in H.
  destruct (nth_error (agvs s) r) as [agv |] eqn:Hagv; [| stays H].
  unfold bind at 1, get at 1 in H. cbv beta iota in H.
  destruct (edge_points agv (agvs s)) as [| p points]; [stays H |].
  unfold bind at 1, lift at 1 in H.
  match type of H with
  | context [PathPlanning.calculate_path_timing ?path ?pitch] =>
      destruct (PathPlanning.calculate_path_timing path pitch) as [ptp | e] eqn:Ht
  end; [| stays H].
  unfold bind at 1, set_path_time_points, call_agv in H. rewrite Hagv in H.
  cbv beta iota in H.
  set (s1 := with_agvs s (list_set (agvs s) r (Agv.set_path_time_points agv ptp)))
    in *.
  assert (Hs1 : Run.same_cells s s1) by (apply same_cells_path, Hagv).
  assert (Hagv1 : nth_error (agvs s1) r = Some (Agv.set_path_time_points agv ptp)).
  { eapply nth_error_list_set_same, Hagv. }
  unfold bind at 1, get_agv in H. rewrite Hagv1 in H.
  unfold bind at 1, lift at 1 in H.
  destruct (Agv.should_move (Agv.set_path_time_points agv ptp)) as [[|] | e] eqn:Hm;
    [| | stays H].
  - unfold call_agv in H. rewrite Hagv1 in H. cbn in H.
    injection H as _ <-. rewrite list_set_twice.
    destruct ptp as [| p0 [| p1 rest]]; try discriminate Hm.
    right. exists agv. eexists. exists p0, p1, rest.
    split; [reflexivity |]. split; [exact Ht | reflexivity].
  - unfold bind at 1, lift at 1 in H.
    destruct (Agv.should_turn (Agv.set_path_time_points agv ptp)) as [[|] | e];
      [| stays H | stays H].
    left. eapply same_cells_trans; [exact Hs1 |].
    apply (f_equal snd) in H. cbn [snd] in H. rewrite <- H.
    apply call_agv_same_cells. intros a a'. apply (turn_position a a' None).
Qed.

Lemma park_step_safe (r : nat) (u : unit) :
  Run.sat (Run.keeps Run.safe) Run.any_exn (park_step r u).
Proof.
  intros s. split; [| intros; exact I].
  destruct (park_step r u s) as [res s'] eqn:H. simpl.
  apply park_step_moves_or_stays in H.
  destruct H as [H | [agv [goal [p0 [p1 [rest [Ha [Ht ->]]]]]]]].
  - apply same_cells_keeps_safe, H.
  - intros Hsafe. apply move_keeps_safe; [exact Hsafe |].
    eapply (planned_step_fresh s r); [| exact Ht].
    intros p Hp. unfold _build_obstacles. apply in_or_app. right; exact Hp.
Qed.

Lemma same_cells_sat {A : Type} (m : M A) :
  (forall s, Run.same_cells s (snd (m s))) ->
  Run.sat (Run.keeps Run.safe) Run.any_exn m.
Proof.
  intros H s. split; [apply same_cells_keeps_safe, H | intros; exact I].
Qed.

(* the phases of a tick keep the AGVs apart *)
Lemma phases_safe : Run.sat (Run.keeps Run.safe) Run.any_exn phases.
Proof.
  apply sat_phases.
  - exact keeps_safe_refl.
  - exact keeps_safe_trans.
  - intros; exact I.
  - intros r d. apply same_cells_sat. intros s.
    apply call_agv_same_cells. intros a a'. apply turn_position.
  - intros r l. apply same_cells_sat. intros s.
    apply call_agv_same_cells. intros a a' H. injection H as <-. reflexivity.
  - intros r task_ref ts. apply same_cells_sat. intros s.
    apply call_agv_task_same_cells. intros a l a' l'. apply load_cells.
  - intros r ts. apply same_cells_sat. intros s.
    apply call_agv_task_same_cells. intros a l a' l'. apply unload_cells.
  - intros records. apply same_cells_sat. intros s. repeat split.
  - exact batch_move_one_safe.
  - exact park_step_safe.
Qed.

Lemma process_safe (s : t) : Run.safe s -> Run.safe (snd (process s)).
Proof.
  intros Hsafe. unfold process, bind, get.
  destruct (timestamp s >? MAX_TIMESTAMP); [exact Hsafe |].
  unfold advance_timestamp.
  destruct (phases_safe (mk (context s) (timestamp s + 1))) as [Hk _].
  destruct (phases (mk (context s) (timestamp s + 1))) as [[u | e] s'];
    apply Hk; exact Hsafe.
Qed.

Lemma after_calls_safe (n : nat) (s : t) :
  Run.safe s -> Run.safe (Run.after_calls n s).
Proof.
  intros H. induction n as [| n IH]; simpl; [exact H | apply process_safe, IH].
Qed.

(** the two readings of "distinct cells" *)

Lemma distinct_cells_pairwise (s : t) :
  Run.distinct_cells s <-> Run.pairwise_distinct s.
Proof.
  unfold Run.distinct_cells, Run.pairwise_distinct. split.
  - intros Hnd i j a b Hij Ha Hb Heq.
    apply Hij. rewrite NoDup_nth_error in Hnd. apply Hnd.
    + rewrite length_map. apply nth_error_Some. congruence.
    + rewrite !nth_error_map, Ha, Hb. simpl. congruence.
  - intros Hp. apply NoDup_nth_error. intros i j Hi Heq.
    destruct (Nat.eq_dec i j) as [| Hij]; [assumption | exfalso].
    rewrite length_map in Hi. rewrite !nth_error_map in Heq.
    destruct (nth_error (agvs s) i) as [a |] eqn:Ha;
      [| apply nth_error_None in Ha; lia].
    destruct (nth_error (agvs s) j) as [b |] eqn:Hb; [| discriminate].
    simpl in Heq. injection Heq as Heq. exact (Hp i j a b Hij Ha Hb Heq).
Qed.

(** the constructor makes every delivery cell a fixed obstacle *)

Lemma get_position_by_name_In (map_elements : list MapElement.t)
    (ty : MapElementType.t) (name : string) (p : PointEx.t) :
  AgvContext._get_position_by_name map_elements ty name = Ok p ->
  exists e, In e map_elements
            /\ MapElementType.eqb (MapElement.type e) ty = true
            /\ MapElement.name e = name
            /\ p = PointEx.mk (MapElement.x e) (MapElement.y e).
Proof.
  induction map_elements as [| e rest IH]; simpl; [discriminate |].
  destruct (MapElementType.eqb (MapElement.type e) ty
            && String.eqb (MapElement.name e) name) eqn:E.
  - intros H; injection H as <-. apply andb_true_iff in E. destruct E as [E1 E2].
    apply String.eqb_eq in E2. exists e. auto.
  - intros H. destruct (IH H) as [e' [Hin Hrest]]. exists e'. split; [right |]; auto.
Qed.

Lemma result_list_map_Forall {A B : Type} (f : A -> result B) (l : list A)
    (l' : list B) :
  result_list_map f l = Ok l' ->
  Forall (fun b => exists a, In a l /\ f a = Ok b) l'.
Proof.
  revert l'. induction l as [| a l IH]; simpl; intros l'.
  - intros H; injection H as <-. constructor.
  - destruct (f a) as [b |] eqn:Hfa; [| discriminate].
    destruct (result_list_map f l) as [bs |]; [| discriminate].
    intros H; injection H as <-. constructor.
    + exists a. auto.
    + eapply Forall_impl; [| apply IH; reflexivity].
      intros b' [a' [Hin Hf]]. exists a'. auto.
Qed.

Lemma init_ends_fixed (map_elements : list MapElement.t)
    (task_records : list TaskRecord.t) (c : AgvContext.t) :
  AgvContext.init map_elements task_records = Ok c ->
  Run.ends_fixed (init c).
Proof.
  unfold AgvContext.init.
  destruct (result_list_map _ task_records) as [tasks0 |] eqn:Htasks;
    [| discriminate].
  destruct map_elements as [| e rest] eqn:Hmap; [discriminate |].
  rewrite <- Hmap in *.
  destruct (result_list_map _ (filter AgvContext.is_agv map_elements))
    as [agvs0 |]; [| discriminate].
  destruct (TrajectoryRecorderService.add [] 0 agvs0 tasks0) as [rec |];
    [| discriminate].
  intros H; injection H as <-. unfold Run.ends_fixed, Run.fixed. simpl.
  apply result_list_map_Forall in Htasks.
  eapply Forall_impl; [| exact Htasks].
  intros task [record [_ Hb]].
  destruct (AgvContext._get_position_by_name map_elements
              MapElementType.START_POINT _) as [sp |]; [| discriminate].
  destruct (AgvContext._get_position_by_name map_elements
              MapElementType.END_POINT _) as [ep |] eqn:Hep; [| discriminate].
  injection Hb as <-. simpl.
  apply get_position_by_name_In in Hep.
  destruct Hep as [e' [Hin [Hty [_ ->]]]].
  apply in_or_app. left. apply in_map_iff. exists e'. split; [reflexivity |].
  apply filter_In. split; [exact Hin |].
  unfold AgvContext.is_point. rewrite Hty. apply orb_true_r.
Qed.
End SafetyFacts.

(** C1: the AGVs of a context, as the constructor builds it, stay on pairwise
    distinct cells: if any two distinct AGVs start on different cells, so do
    they after any number of calls of process, whether a call returned or
    raised. *)
Theorem agvs_stay_on_distinct_cells :
  forall (map_elements : list MapElement.t) (task_records : list TaskRecord.t)
         (c : AgvContext.t) (n : nat),
    AgvContext.init map_elements task_records = Ok c ->
    Run.pairwise_distinct (SchedulerService.init c) ->
    Run.pairwise_distinct (Run.after_calls n (SchedulerService.init c)).
Proof.
  intros map_elements task_records c n Hinit Hdistinct.
  apply distinct_cells_pairwise.
  apply (after_calls_safe n (SchedulerService.init c)).
  split.
  - apply distinct_cells_pairwise, Hdistinct.
  - eapply init_ends_fixed, Hinit.
Qed.

Lemma agvs_stay_on_distinct_cells_witness :
  Run.pairwise_distinct
    (Run.after_calls 3
       (SchedulerService.init (Worlds.built Worlds.crossing_map Worlds.crossing_tasks))).
Proof.
  apply (agvs_stay_on_distinct_cells Worlds.crossing_map Worlds.crossing_tasks).
  - vm_compute. reflexivity.
  - apply distinct_cells_pairwise. unfold Run.distinct_cells. vm_compute.
    repeat constructor; simpl; intuition discriminate.
Defined.

(** ** The batch loop ends *)

Section BatchFacts.
Import SchedulerService.

Ltac same H := injection H; intros; subst; left; split; reflexivity.

(* what one turn of the loop does to its local state *)
Lemma batch_move_one_result (is_loaded : bool) (temp : option assignments)
    (r : nat) (handled handled' : list nat) (moved moved' : list moved_item)
    (assigned assigned' : bool) (s s' : t) :
  batch_move_one is_loaded temp r (handled, moved, assigned) s
  = (Ok (handled', moved', assigned'), s') ->
  (handled' = handled /\ assigned' = assigned)
  \/ (~ In r handled /\ handled' = handled ++ [r] /\ assigned' = true).
Proof.
  unfold batch_move_one. intros H.
  unfold bind at 1, get_agv in H.
  destruct (nth_error (agvs s) r) as [agv |] eqn:Hagv; [| discriminate].
  destruct (ref_mem r handled || negb (Bool.eqb (Agv.is_loaded agv) is_loaded))
    eqn:Hskip; [same H |].
  apply orb_false_iff in Hskip. destruct Hskip as [Hfresh _].
  assert (Hnot : ~ In r handled).
  { intros Hin. apply ref_mem_In in Hin. congruence. }
  unfold bind at 1 in H.
  match type of H with
  | context [(if is_loaded then ?a else ?b) s] =>
      assert (Href : (exists t, (if is_loaded then a else b) s = (Ok t, s))
                     \/ exists e, (if is_loaded then a else b) s = (Raise e, s))
  end.
  { destruct is_loaded.
    - destruct (Agv.loaded_task agv); [left | right]; eexists; reflexivity.
    - destruct temp as [d |]; [| right; eexists; reflexivity].
      destruct (dict_get d r); [left | right]; eexists; reflexivity. }
  destruct Href as [[task_ref Href] | [e Href]]; rewrite Href in H;
    [| discriminate].
  unfold bind at 1, get_task in H.
  destruct (nth_error (tasks s) task_ref) as [task |]; [| discriminate].
  unfold bind at 1, get at 1 in H. cbv beta iota in H.
  unfold bind at 1, lift at 1 in H.
  destruct (replan s is_loaded r agv task) as [ptp | e]; [| discriminate].
  unfold bind at 1, set_path_time_points, call_agv in H. rewrite Hagv in H.
  cbv beta iota in H.
  destruct ptp as [| p0 [| p1 rest]]; [same H | same H |].
  unfold bind at 1, lift at 1 in H.
  destruct (PointEx.get_pitch_to_neighbour _ _) as [d | e]; [| discriminate].
  cbv beta iota in H.
  destruct (negb (Direction.eqb d (Agv.pitch agv))); [same H |].
  unfold bind at 1 in H.
  destruct (check_moved_items agv task moved _) as [[[turn |] | e] s2];
    [| | discriminate].
  - right. unfold bind, ret in H.
    repeat match type of H with
      | context [match ?x with _ => _ end] => destruct x
      end; try discriminate; injection H; intros; subst; auto.
  - right. unfold bind, ret in H.
    repeat match type of H with
      | context [match ?x with _ => _ end] => destruct x
      end; try discriminate; injection H; intros; subst; auto.
Qed.

(* a pass never forgets a handled AGV, and one that acts handles a candidate
   that was not handled *)
Lemma batch_pass_result (is_loaded : bool) (temp : option assignments)
    (agvs : list nat) :
  forall (handled handled' : list nat) (moved moved' : list moved_item)
         (assigned assigned' : bool) (s s' : t),
    for_each (batch_move_one is_loaded temp) agvs (handled, moved, assigned) s
    = (Ok (handled', moved', assigned'), s') ->
    (forall x, In x handled -> In x handled')
    /\ ((handled' = handled /\ assigned' = assigned)
        \/ (assigned' = true
            /\ exists r, In r agvs /\ ~ In r handled /\ In r handled')).
Proof.
  induction agvs as [| r agvs IH]; intros handled handled' moved moved'
    assigned assigned' s s'; cbn [for_each].
  - unfold ret. intros H; injection H; intros; subst. split; [auto | left; auto].
  - unfold bind at 1.
    destruct (batch_move_one is_loaded temp r (handled, moved, assigned) s)
      as [[[[h1 m1] b1] | e] s1] eqn:Hone; cbv beta iota; intros Hrest;
      [| discriminate Hrest].
    apply batch_move_one_result in Hone.
    destruct (IH _ _ _ _ _ _ _ _ Hrest) as [Hsub Hcase].
    destruct Hone as [[-> ->] | [Hfresh [-> ->]]].
    + split; [exact Hsub |].
      destruct Hcase as [Hsame | [Hb [r' [Hin [Hfresh' Hin']]]]]; [left; exact Hsame |].
      right. split; [exact Hb |]. exists r'. split; [right; exact Hin | auto].
    + split; [intros x Hx; apply Hsub, in_or_app; left; exact Hx |].
      right. split.
      * destruct Hcase as [[_ ->] | [-> _]]; reflexivity.
      * exists r. split; [left; reflexivity |]. split; [exact Hfresh |].
        apply Hsub, in_or_app. right. left. reflexivity.
Qed.

Lemma unhandled_decreases (agvs handled handled' : list nat) (r : nat) :
  (forall x, In x handled -> In x handled') ->
  In r agvs -> ~ In r handled -> In r handled' ->
  (Batch.unhandled agvs handled' < Batch.unhandled agvs handled)%nat.
Proof.
  intros Hsub Hin Hfresh Hin'. unfold Batch.unhandled.
  apply filter_length_lt with (a := r).
  - intros x. rewrite !negb_true_iff. intros Hx.
    destruct (ref_mem x handled) eqn:E; [| reflexivity].
    apply ref_mem_In, Hsub, ref_mem_In in E. congruence.
  - exact Hin.
  - apply negb_true_iff. destruct (ref_mem r handled) eqn:E; [| reflexivity].
    apply ref_mem_In in E. contradiction.
  - apply negb_false_iff, ref_mem_In, Hin'.
Qed.

Lemma batch_loop_enough_fuel (is_loaded : bool) (temp : option assignments)
    (agvs : list nat) (fuel : nat) :
  forall (handled : list nat) (moved : list moved_item) (s : t),
    (Batch.unhandled agvs handled < fuel)%nat ->
    fst (batch_loop fuel agvs is_loaded temp handled moved s) <> Ok None.
Proof.
  induction fuel as [| fuel IH]; intros handled moved s Hfuel; [lia |].
  cbn [batch_loop]. unfold bind.
  destruct (for_each (batch_move_one is_loaded temp) agvs (handled, moved, false) s)
    as [[[[h1 m1] b1] | e] s1] eqn:Hpass; cbv beta iota; [| discriminate].
  destruct (batch_pass_result _ _ _ _ _ _ _ _ _ _ _ Hpass)
    as [Hsub [[-> ->] | [-> [r [Hin [Hfresh Hin']]]]]].
  - discriminate.
  - apply IH.
    pose proof (unhandled_decreases agvs handled h1 r Hsub Hin Hfresh Hin').
    lia.
Qed.
End BatchFacts.

(** The while loop of _batch_move_agvs ends: a pass that acts handles a
    candidate that was not handled before, so after at most one pass per
    candidate a pass acts on nothing and the loop breaks. *)
Theorem batch_move_agvs_terminates :
  forall (agvs handled_agvs : list nat) (is_loaded : bool)
         (temp_assignments : option SchedulerService.assignments)
         (s : SchedulerService.t),
    fst (SchedulerService._batch_move_agvs agvs handled_agvs is_loaded
           temp_assignments s)
    <> Ok None.
Proof.
  intros agvs handled is_loaded temp s. unfold SchedulerService._batch_move_agvs.
  apply batch_loop_enough_fuel. unfold Batch.unhandled.
  pose proof (filter_length_le (fun r => negb (ref_mem r handled)) agvs). lia.
Qed.

(** * Further properties *)

(** ** Points and directions *)

(** get_pitch_to_neighbour answers the planner's own table of moves (+x RIGHT,
    -x LEFT, +y UP, -y DOWN); against the neighbour properties of PointEx,
    where up_neighbour is the cell at y - 1, it agrees on LEFT and RIGHT and
    exchanges UP and DOWN. *)
Theorem pitch_of_neighbour_flips_vertical :
  forall (p : PointEx.t) (d : Direction.t),
    PointEx.get_pitch_to_neighbour p (PointEx.get_neighbour p d)
    = Ok (Geometry.flip d)
    /\ (forall dx dy d',
          In (dx, dy, d') PathPlanning.directions ->
          PointEx.get_pitch_to_neighbour p
            (PointEx.mk (PointEx.x p + dx) (PointEx.y p + dy))
          = Ok d').
Proof.
  intros [px py] d. split.
  - destruct d; unfold PointEx.get_pitch_to_neighbour; simpl;
      repeat match goal with
        | |- context [?a =? ?b] => destruct (Z.eqb_spec a b); try lia
        | |- context [?a >? ?b] => destruct (Z.gtb_spec a b); try lia
        | |- context [?a <? ?b] => destruct (Z.ltb_spec a b); try lia
        end; reflexivity.
  - intros dx dy d' Hin. simpl in Hin.
    destruct Hin as [H | [H | [H | [H | []]]]]; injection H as <- <- <-;
      unfold PointEx.get_pitch_to_neighbour; simpl;
      repeat match goal with
        | |- context [?a =? ?b] => destruct (Z.eqb_spec a b); try lia
        | |- context [?a >? ?b] => destruct (Z.gtb_spec a b); try lia
        | |- context [?a <? ?b] => destruct (Z.ltb_spec a b); try lia
        end; reflexivity.
Qed.

Lemma pitch_raises_off_axis_aux (p q : PointEx.t) :
  (exists e, PointEx.get_pitch_to_neighbour p q = Raise e) ->
  p = q \/ (PointEx.x p <> PointEx.x q /\ PointEx.y p <> PointEx.y q).
Proof.
  destruct p as [px py], q as [qx qy].
  unfold PointEx.get_pitch_to_neighbour; simpl. intros [e H].
  repeat match type of H with
    | context [?a =? ?b] => destruct (Z.eqb_spec a b)
    | context [?a >? ?b] => destruct (Z.gtb_spec a b)
    | context [?a <? ?b] => destruct (Z.ltb_spec a b)
    end; try discriminate;
    first [left; f_equal; lia | right; lia].
Qed.

(** get_pitch_to_neighbour raises exactly when the target is the point itself
    or shares neither its row nor its column; any other point of the row or
    the column gets a direction, adjacent or not. *)
Theorem pitch_raises_off_axis :
  forall p q : PointEx.t,
    (exists e, PointEx.get_pitch_to_neighbour p q = Raise e)
    <-> (p = q \/ (PointEx.x p <> PointEx.x q /\ PointEx.y p <> PointEx.y q)).
Proof.
  intros p q. split; [apply pitch_raises_off_axis_aux |].
  destruct p as [px py], q as [qx qy].
  unfold PointEx.get_pitch_to_neighbour; simpl.
  - intros [H | [Hx Hy]].
    + injection H as -> ->. rewrite !Z.sub_diag. simpl. eexists; reflexivity.
    + destruct (Z.eqb_spec (qy - py) 0); [lia |].
      destruct (Z.eqb_spec (qx - px) 0); [lia |]. eexists; reflexivity.
Qed.

(** is_neighbour holds exactly of the four cells listed by neighbours, that
    is of the cells at Manhattan distance 1, and it is symmetric. *)
Theorem is_neighbour_characterised :
  forall p q : PointEx.t,
    (PointEx.is_neighbour p q = true <-> In q (PointEx.neighbours p))
    /\ (PointEx.is_neighbour p q = true <-> PathPlanning.manhattan p q = 1)
    /\ PointEx.is_neighbour p q = PointEx.is_neighbour q p.
Proof.
  intros p q. split; [| split].
  - rewrite is_neighbour_four_adjacent. split.
    + apply four_adjacent_neighbours.
    + destruct p as [px py], q as [qx qy].
      unfold Path.four_adjacent, PathPlanning.manhattan. simpl.
      intros [H | [H | [H | [H | []]]]]; injection H as <- <-; lia.
  - apply is_neighbour_four_adjacent.
  - destruct (PointEx.is_neighbour p q) eqn:Hpq;
      destruct (PointEx.is_neighbour q p) eqn:Hqp; try reflexivity.
    + apply is_neighbour_four_adjacent, four_adjacent_sym,
        is_neighbour_four_adjacent in Hpq. congruence.
    + apply is_neighbour_four_adjacent, four_adjacent_sym,
        is_neighbour_four_adjacent in Hqp. congruence.
Qed.

(** The planner's heuristic is a metric on the grid, and one step changes it
    by at most 1: it never overestimates the number of moves left. *)
Theorem manhattan_metric :
  forall p q g : PointEx.t,
    PathPlanning.manhattan p q = PathPlanning.manhattan q p
    /\ (PathPlanning.manhattan p q = 0 <-> p = q)
    /\ PathPlanning.manhattan p g
       <= PathPlanning.manhattan p q + PathPlanning.manhattan q g
    /\ (PointEx.is_neighbour p q = true ->
        PathPlanning.manhattan p g <= 1 + PathPlanning.manhattan q g).
Proof.
  intros p q g.
  assert (Hadj : PointEx.is_neighbour p q = true ->
                 PathPlanning.manhattan p g <= 1 + PathPlanning.manhattan q g).
  { intros H. apply is_neighbour_four_adjacent in H.
    unfold Path.four_adjacent, PathPlanning.manhattan in *. lia. }
  revert Hadj. destruct p as [px py], q as [qx qy], g as [gx gy].
  unfold PathPlanning.manhattan. cbn [PointEx.x PointEx.y]. intros Hadj.
  split; [lia |]. split; [| split; [lia | exact Hadj]].
  split; [intros H; f_equal; lia | intros H; injection H as -> ->; lia].
Qed.

Lemma manhattan_metric_witness :
  PathPlanning.manhattan (PointEx.mk 3 4) (PointEx.mk 9 9)
  <= 1 + PathPlanning.manhattan (PointEx.mk 3 5) (PointEx.mk 9 9).
Proof.
  apply (proj2 (proj2 (proj2
           (manhattan_metric (PointEx.mk 3 4) (PointEx.mk 3 5) (PointEx.mk 9 9))))).
  reflexivity.
Defined.

(** ** Path timing *)

Section TimingFacts.
Import PathPlanning.

Lemma timing_loop_steps (rest : list PointEx.t) :
  forall (from : PointEx.t) (time : Z) (pitch : Direction.t)
         (tail : list PathTimePoint.t),
    timing_loop from rest time pitch = Ok tail ->
    Geometry.steps (time :: map PathTimePoint.time_cost tail).
Proof.
  induction rest as [| p rest IH]; intros from time pitch tail; simpl.
  - intros H; injection H as <-. exact I.
  - destruct (PointEx.get_pitch_to_neighbour from p); [| discriminate].
    destruct (Direction.eqb a pitch);
      match goal with
      | |- context [timing_loop ?a ?b ?c ?d] =>
          specialize (IH a c d); destruct (timing_loop a b c d)
      end; try discriminate;
      intros H; injection H as <-; specialize (IH _ eq_refl);
      cbn [map PathTimePoint.time_cost Geometry.steps];
      (split; [unfold MOVE_COST, TURN_COST; lia | exact IH]).
Qed.

Lemma timing_loop_chain (rest : list PointEx.t) :
  forall (from : PointEx.t) (time : Z) (pitch : Direction.t),
    Path.chain (from :: rest) ->
    exists tail, timing_loop from rest time pitch = Ok tail.
Proof.
  induction rest as [| p rest IH]; intros from time pitch Hc.
  - exists []. reflexivity.
  - destruct Hc as [Hadj Hc]. cbn [timing_loop].
    assert (Hp : exists d, PointEx.get_pitch_to_neighbour from p = Ok d).
    { destruct (PointEx.get_pitch_to_neighbour from p) as [d | e] eqn:E;
        [exists d; reflexivity | exfalso].
      assert (Hr : exists e, PointEx.get_pitch_to_neighbour from p = Raise e)
        by (exists e; exact E).
      apply pitch_raises_off_axis_aux in Hr.
      destruct from as [fx fy], p as [qx qy].
      unfold Path.four_adjacent, manhattan in Hadj. simpl in *.
      destruct Hr as [Hr | Hr]; [injection Hr as -> ->; lia | lia]. }
    destruct Hp as [d ->].
    destruct (Direction.eqb d pitch);
      match goal with
      | |- context [timing_loop ?a ?b ?c ?d] =>
          destruct (IH a c d Hc) as [tail ->]
      end; eexists; reflexivity.
Qed.
End TimingFacts.

(** calculate_path_timing keeps the points of the path in order, stamps the
    first one with time 0, and every later stamp exceeds the one before it by
    MOVE_COST (1) or by TURN_COST + MOVE_COST (2). *)
Theorem path_timing_shape :
  forall (path : list PointEx.t) (initial_pitch : Direction.t)
         (ptp : list PathTimePoint.t),
    PathPlanning.calculate_path_timing path initial_pitch = Ok ptp ->
    map PathTimePoint.position ptp = path
    /\ hd 0 (map PathTimePoint.time_cost ptp) = 0
    /\ Geometry.steps (map PathTimePoint.time_cost ptp).
Proof.
  intros path pitch ptp H. split; [exact (calculate_path_timing_positions _ _ _ H) |].
  unfold PathPlanning.calculate_path_timing in H. destruct path as [| p0 rest].
  - injection H as <-. split; [reflexivity | exact I].
  - destruct (PathPlanning.timing_loop p0 rest 0 pitch) as [tail | e] eqn:Ht;
      [| discriminate].
    injection H as <-. split; [reflexivity |].
    exact (timing_loop_steps _ _ _ _ _ Ht).
Qed.

Lemma path_timing_shape_witness :
  exists ptp,
    PathPlanning.calculate_path_timing
      [PointEx.mk 1 1; PointEx.mk 2 1; PointEx.mk 2 2; PointEx.mk 2 3]
      Direction.RIGHT = Ok ptp
    /\ map PathTimePoint.time_cost ptp = [0; 1; 3; 4]
    /\ Geometry.steps (map PathTimePoint.time_cost ptp).
Proof.
  eexists. split; [vm_compute; reflexivity |]. split; [reflexivity |].
  apply (path_timing_shape
           [PointEx.mk 1 1; PointEx.mk 2 1; PointEx.mk 2 2; PointEx.mk 2 3]
           Direction.RIGHT).
  vm_compute. reflexivity.
Defined.

(** calculate_path_timing raises on no path whose consecutive points are
    4-adjacent: every such path, the empty one included, gets its timing. *)
Theorem path_timing_accepts_chains :
  forall (path : list PointEx.t) (initial_pitch : Direction.t),
    Path.chain path ->
    exists ptp, PathPlanning.calculate_path_timing path initial_pitch = Ok ptp.
Proof.
  intros path pitch Hc. unfold PathPlanning.calculate_path_timing.
  destruct path as [| p0 rest]; [exists []; reflexivity |].
  destruct (timing_loop_chain rest p0 0 pitch Hc) as [tail ->].
  eexists; reflexivity.
Qed.

Lemma path_timing_accepts_chains_witness :
  exists ptp,
    PathPlanning.calculate_path_timing
      [PointEx.mk 4 4; PointEx.mk 4 3; PointEx.mk 3 3] Direction.UP = Ok ptp.
Proof.
  apply path_timing_accepts_chains. simpl. repeat split; reflexivity.
Defined.

(** ** The planner at its edges *)

(** Asked for a path from a cell to itself, the planner answers the one-point
    path at cost 0, whatever the obstacles and the grid, even with the cell
    itself an obstacle or off the grid. *)
Theorem start_is_goal_single_point :
  forall (start : PointEx.t) (orientation : Direction.t)
         (obstacles : list PointEx.t) (grid_size : option (Z * Z)),
    PathPlanning.a_star_search start start orientation obstacles grid_size
    = PathPlanning.Reached 0 [start]
    /\ PathPlanning.a_star_with_orientation start start orientation obstacles
         grid_size = [start].
Proof.
  intros start o obstacles gs.
  assert (H : PathPlanning.a_star_search start start o obstacles gs
              = PathPlanning.Reached 0 [start]).
  { unfold PathPlanning.a_star_search, PathPlanning.search_fuel.
    rewrite Nat.add_comm. cbn [Nat.add PathPlanning.search].
    unfold PathPlanning.initial_frontier. cbn.
    rewrite PointEx_eqb_refl. reflexivity. }
  split; [exact H |].
  unfold PathPlanning.a_star_with_orientation. rewrite H. reflexivity.
Qed.

Lemma turns_nonneg (path : list PointEx.t) :
  forall pitch : Direction.t, 0 <= Path.turns pitch path.
Proof.
  induction path as [| p path IH]; intros pitch; [simpl; lia |].
  destruct path as [| q path]; [simpl; lia |].
  change (Path.turns pitch (p :: q :: path))
    with (match PointEx.get_pitch_to_neighbour p q with
          | Ok d => (if Direction.eqb d pitch then 0 else 1)
                    + Path.turns d (q :: path)
          | Raise _ => 0
          end).
  destruct (PointEx.get_pitch_to_neighbour p q) as [d | e]; [| lia].
  specialize (IH d). destruct (Direction.eqb d pitch); lia.
Qed.

Lemma chain_manhattan (rest : list PointEx.t) :
  forall p d : PointEx.t,
    Path.chain (p :: rest) ->
    PathPlanning.manhattan p (last (p :: rest) d) <= Z.of_nat (length rest).
Proof.
  induction rest as [| q rest IH]; intros p d Hc.
  - destruct p as [px py]. unfold PathPlanning.manhattan. simpl. lia.
  - destruct Hc as [Hadj Hc]. specialize (IH q d Hc).
    change (last (p :: q :: rest) d) with (last (q :: rest) d).
    set (g := last (q :: rest) d) in *.
    change (length (q :: rest)) with (S (length rest)).
    destruct p as [px py], q as [qx qy], g as [gx gy].
    unfold Path.four_adjacent, PathPlanning.manhattan in *.
    cbn [PointEx.x PointEx.y] in *. lia.
Qed.

(** A path the planner returns has at least manhattan(start, goal) + 1 points,
    and its cost is at least its number of moves: the planner never reports a
    route shorter than the grid allows. *)
Theorem path_at_least_manhattan :
  forall (start goal : PointEx.t) (orientation : Direction.t)
         (obstacles : list PointEx.t) (grid_size : option (Z * Z))
         (cost : Z) (path : list PointEx.t),
    PathPlanning.a_star_search start goal orientation obstacles grid_size
    = PathPlanning.Reached cost path ->
    PathPlanning.manhattan start goal + 1 <= Z.of_nat (length path)
    /\ Z.of_nat (length path) - 1 <= cost.
Proof.
  intros start goal o obstacles gs cost path H.
  destruct (a_star_search_reached _ _ _ _ _ _ _ H)
    as [f [o' [rest [-> [Hw [Hc _]]]]]].
  pose proof (walk_last _ _ _ _ _ _ _ start Hw) as Hl.
  pose proof (walk_cost _ _ _ _ _ _ _ Hw) as Hcost.
  pose proof (chain_manhattan rest start start Hc) as Hm.
  pose proof (turns_nonneg (start :: rest) o) as Ht.
  rewrite Hl in Hm. change (length (start :: rest)) with (S (length rest)).
  unfold PathPlanning.MOVE_COST, PathPlanning.TURN_COST in Hcost. lia.
Qed.

Lemma path_at_least_manhattan_witness :
  exists cost path,
    PathPlanning.a_star_search (PointEx.mk 1 1) (PointEx.mk 3 2) Direction.RIGHT
      [PointEx.mk 2 1] (Some (5, 5)) = PathPlanning.Reached cost path
    /\ PathPlanning.manhattan (PointEx.mk 1 1) (PointEx.mk 3 2) + 1
       <= Z.of_nat (length path)
    /\ Z.of_nat (length path) - 1 <= cost.
Proof.
  eexists. eexists. split; [vm_compute; reflexivity |].
  apply (path_at_least_manhattan (PointEx.mk 1 1) (PointEx.mk 3 2)
           Direction.RIGHT [PointEx.mk 2 1] (Some (5, 5))).
  vm_compute. reflexivity.
Defined.

(** ** The priority queue, as its users see it *)

Section QueueOrderFacts.
Context {A : Type}.
Import SimplePriorityQueue.

Lemma heappop_least (h : list (@entry A)) :
  forall (m : entry) (rest : list entry),
    heappop h = Some (m, rest) ->
    Permutation h (m :: rest)
    /\ forall e, In e rest -> entry_ltb e m = false.
Proof.
  induction h as [| e h IH]; simpl; intros m rest H; [discriminate |].
  destruct (heappop h) as [[m' rest'] |] eqn:E.
  - destruct (IH _ _ eq_refl) as [Hperm Hleast].
    destruct (entry_ltb m' e) eqn:Hlt; injection H as <- <-.
    + split.
      * rewrite Hperm. apply perm_swap.
      * intros x [<- | Hx]; [| apply Hleast, Hx].
        destruct m' as [[pm im] xm], e as [[pe ie] xe].
        unfold entry_ltb in *.
        destruct (Z.ltb_spec pm pe), (Z.eqb_spec pm pe), (Nat.ltb_spec im ie),
          (Z.ltb_spec pe pm), (Z.eqb_spec pe pm), (Nat.ltb_spec ie im);
          simpl in *; try reflexivity; try discriminate; lia.
    + split; [reflexivity |].
      intros x Hx. apply (Permutation_in _ Hperm) in Hx.
      assert (Hxm : entry_ltb x m' = false \/ x = m').
      { destruct Hx as [<- | Hx]; [right; reflexivity | left; apply Hleast, Hx]. }
      destruct Hxm as [Hxm | ->]; [| exact Hlt].
      destruct m' as [[pm im] xm], e as [[pe ie] xe], x as [[px ix] xx].
      unfold entry_ltb in *.
      destruct (Z.ltb_spec pm pe), (Z.eqb_spec pm pe), (Nat.ltb_spec im ie),
        (Z.ltb_spec px pm), (Z.eqb_spec px pm), (Nat.ltb_spec ix im),
        (Z.ltb_spec px pe), (Z.eqb_spec px pe), (Nat.ltb_spec ix ie);
        simpl in *; try reflexivity; try discriminate; lia.
  - injection H as <- <-. apply heappop_None in E. subst h.
    split; [reflexivity | contradiction].
Qed.

Lemma stamped_empty : QueueOrder.stamped (@empty A).
Proof. split; [constructor | contradiction]. Qed.

Lemma stamped_enqueue (q : t A) (item : A) (priority : Z) :
  QueueOrder.stamped q -> QueueOrder.stamped (enqueue q item priority).
Proof.
  intros [Hnd Hlt]. unfold QueueOrder.stamped, enqueue, heappush. simpl. split.
  - rewrite map_app. simpl.
    apply NoDup_app; [exact Hnd | repeat constructor; simpl; tauto |].
    intros i Hi [<- | []]. apply in_map_iff in Hi.
    destruct Hi as [e [He Hin]]. specialize (Hlt e Hin).
    unfold QueueOrder.index_of in *. simpl in He. lia.
  - intros e He. apply in_app_iff in He. destruct He as [He | [<- | []]].
    + specialize (Hlt e He). lia.
    + unfold QueueOrder.index_of. simpl. lia.
Qed.

Lemma stamped_dequeue (q q' : t A) (item : A) :
  QueueOrder.stamped q -> dequeue q = Some (item, q') -> QueueOrder.stamped q'.
Proof.
  intros [Hnd Hlt]. unfold dequeue.
  destruct (heappop (_heap q)) as [[[[p i] x] rest] |] eqn:E; [| discriminate].
  intros H; injection H as _ <-. simpl.
  destruct (heappop_least _ _ _ E) as [Hperm _]. split.
  - simpl. apply (Permutation_map QueueOrder.index_of) in Hperm.
    apply (Permutation_NoDup Hperm) in Hnd. inversion Hnd; assumption.
  - simpl. intros e He. apply Hlt.
    apply (Permutation_in _ (Permutation_sym Hperm)). right; exact He.
Qed.

Lemma built_stamped (q : t A) : QueueOrder.built q -> QueueOrder.stamped q.
Proof.
  induction 1 as [| q item priority _ IH | q q' item _ IH Hd].
  - apply stamped_empty.
  - apply stamped_enqueue, IH.
  - exact (stamped_dequeue _ _ _ IH Hd).
Qed.

(** dequeue hands out the item whose (priority, insertion index) pair is the
    least in the queue and leaves the others: everything still queued has a
    strictly larger priority value, or the same one and was enqueued later. *)
Theorem dequeue_least_then_oldest :
  forall (q q' : t A) (item : A),
    QueueOrder.built q ->
    dequeue q = Some (item, q') ->
    exists (priority : Z) (index : nat),
      Permutation (_heap q) ((priority, index, item) :: _heap q')
      /\ forall e, In e (_heap q') ->
                   QueueOrder.before (priority, index, item) e.
Proof.
  intros q q' item Hb Hd. apply built_stamped in Hb. destruct Hb as [Hnd _].
  unfold dequeue in Hd.
  destruct (heappop (_heap q)) as [[[[p i] x] rest] |] eqn:E; [| discriminate].
  injection Hd as <- <-. simpl.
  destruct (heappop_least _ _ _ E) as [Hperm Hleast].
  exists p, i. split; [exact Hperm |].
  intros e He. specialize (Hleast e He).
  apply (Permutation_map QueueOrder.index_of) in Hperm.
  apply (Permutation_NoDup Hperm) in Hnd. simpl in Hnd.
  apply NoDup_cons_iff in Hnd. destruct Hnd as [Hfresh _].
  assert (Hne : QueueOrder.index_of e <> i).
  { intros Heq. apply Hfresh.
    change (QueueOrder.index_of (p, i, x)) with i. rewrite <- Heq.
    apply (in_map QueueOrder.index_of), He. }
  destruct e as [[pe ie] xe].
  unfold QueueOrder.before, QueueOrder.priority_of, QueueOrder.index_of in *.
  unfold entry_ltb in Hleast. simpl in *.
  destruct (Z.ltb_spec pe p), (Z.eqb_spec pe p), (Nat.ltb_spec ie i);
    simpl in Hleast; try discriminate; lia.
Qed.
End QueueOrderFacts.

Lemma dequeue_least_then_oldest_witness :
  exists (q' : SimplePriorityQueue.t string) (priority : Z) (index : nat),
    SimplePriorityQueue.dequeue
      (SimplePriorityQueue.enqueue
         (SimplePriorityQueue.enqueue
            (SimplePriorityQueue.enqueue SimplePriorityQueue.empty "a"%string 2)
            "b"%string 1) "c"%string 1)
    = Some ("b"%string, q')
    /\ forall e, In e (SimplePriorityQueue._heap q') ->
                 QueueOrder.before (priority, index, "b"%string) e.
Proof.
  eexists.
  destruct (dequeue_least_then_oldest
              (SimplePriorityQueue.enqueue
                 (SimplePriorityQueue.enqueue
                    (SimplePriorityQueue.enqueue SimplePriorityQueue.empty
                       "a"%string 2) "b"%string 1) "c"%string 1)
              _ "b"%string
              (QueueOrder.built_enqueue _ _ _
                 (QueueOrder.built_enqueue _ _ _
                    (QueueOrder.built_enqueue _ _ _ QueueOrder.built_empty)))
              eq_refl) as [priority [index [_ H]]].
  exists priority, index. split; [reflexivity | exact H].
Defined.

(** ** The map and the context built from it *)

Lemma list_min_le (l : list Z) :
  forall a : Z, list_min a l <= a /\ forall v, In v l -> list_min a l <= v.
Proof.
  unfold list_min. induction l as [| w l IH]; intros a; simpl.
  - split; [lia | contradiction].
  - destruct (IH (Z.min a w)) as [H1 H2]. split; [lia |].
    intros v [<- | Hv]; [lia | apply H2, Hv].
Qed.

Lemma list_min_In (l : list Z) : forall a : Z, In (list_min a l) (a :: l).
Proof.
  unfold list_min. induction l as [| w l IH]; intros a; simpl.
  - left; reflexivity.
  - destruct (IH (Z.min a w)) as [H | H].
    + rewrite <- H.
      destruct (Z.min_spec a w) as [[_ E] | [_ E]]; [left | right; left]; lia.
    + right; right; exact H.
Qed.

Lemma list_max_ge (l : list Z) :
  forall a : Z, a <= list_max a l /\ forall v, In v l -> v <= list_max a l.
Proof.
  unfold list_max. induction l as [| w l IH]; intros a; simpl.
  - split; [lia | contradiction].
  - destruct (IH (Z.max a w)) as [H1 H2]. split; [lia |].
    intros v [<- | Hv]; [lia | apply H2, Hv].
Qed.

Lemma list_max_In (l : list Z) : forall a : Z, In (list_max a l) (a :: l).
Proof.
  unfold list_max. induction l as [| w l IH]; intros a; simpl.
  - left; reflexivity.
  - destruct (IH (Z.max a w)) as [H | H].
    + rewrite <- H.
      destruct (Z.max_spec a w) as [[_ E] | [_ E]]; [right; left | left]; lia.
    + right; right; exact H.
Qed.

Lemma In_map_field (f : MapElement.t -> Z) (e : MapElement.t)
    (rest : list MapElement.t) (v : Z) :
  In v (f e :: map f rest) ->
  exists e', In e' (e :: rest) /\ f e' = v.
Proof.
  intros [<- | H].
  - exists e. split; [left |]; reflexivity.
  - apply in_map_iff in H. destruct H as [e' [Hf Hin]].
    exists e'. split; [right |]; assumption.
Qed.

(** get_bounds returns the tightest rectangle around the map elements: every
    element lies inside it and each of its four sides passes through an
    element; for no element at all it is RectEx(0, 0, 0, 0). *)
Theorem get_bounds_encloses :
  forall map_elements : list MapElement.t,
    let b := MapElementParser.get_bounds map_elements in
    (forall e, In e map_elements -> Frame.inside b (Frame.cell e))
    /\ (map_elements <> [] ->
        (exists e, In e map_elements /\ MapElement.x e = RectEx.left b)
        /\ (exists e, In e map_elements /\ MapElement.y e = RectEx.top b)
        /\ (exists e, In e map_elements /\ MapElement.x e = RectEx.right b)
        /\ (exists e, In e map_elements /\ MapElement.y e = RectEx.bottom b))
    /\ (map_elements = [] -> b = RectEx.mk 0 0 0 0).
Proof.
  intros [| e rest]; cbv zeta.
  - split; [contradiction |]. split; [congruence | reflexivity].
  - split; [| split; [intros _ | discriminate]].
    + intros e' He'. unfold Frame.inside, Frame.cell. simpl.
      destruct (list_min_le (map MapElement.x rest) (MapElement.x e)) as [A1 A2].
      destruct (list_min_le (map MapElement.y rest) (MapElement.y e)) as [B1 B2].
      destruct (list_max_ge (map MapElement.x rest) (MapElement.x e)) as [C1 C2].
      destruct (list_max_ge (map MapElement.y rest) (MapElement.y e)) as [D1 D2].
      destruct He' as [<- | He']; [lia |].
      pose proof (A2 _ (in_map MapElement.x _ _ He')).
      pose proof (B2 _ (in_map MapElement.y _ _ He')).
      pose proof (C2 _ (in_map MapElement.x _ _ He')).
      pose proof (D2 _ (in_map MapElement.y _ _ He')). lia.
    + simpl. repeat split; apply In_map_field;
        first [apply list_min_In | apply list_max_In].
Qed.

Lemma range_In (lo hi v : Z) : In v (range lo hi) <-> lo <= v < hi.
Proof.
  unfold range. rewrite in_map_iff. split.
  - intros [i [<- Hi]]. apply in_seq in Hi. lia.
  - intros H. exists (Z.to_nat (v - lo)). split; [lia |]. apply in_seq. lia.
Qed.

Lemma border_In (min_x max_x min_y max_y : Z) (p : PointEx.t) :
  In p (AgvContext.border min_x max_x min_y max_y)
  <-> Frame.on_frame (RectEx.mk min_x min_y max_x max_y) p.
Proof.
  unfold AgvContext.border, Frame.on_frame. simpl.
  rewrite in_app_iff, !in_flat_map. split.
  - intros [[v [Hv Hp]] | [v [Hv Hp]]]; apply range_In in Hv;
      destruct Hp as [<- | [<- | []]]; simpl; lia.
  - destruct p as [px py]. simpl. intros [[Hx Hy] | [Hy Hx]].
    + left. exists px. split; [apply range_In; lia |].
      destruct Hy as [-> | ->]; simpl; auto.
    + right. exists py. split; [apply range_In; lia |].
      destruct Hx as [-> | ->]; simpl; auto.
Qed.

Lemma MapElementType_eqb_eq (a b : MapElementType.t) :
  MapElementType.eqb a b = true <-> a = b.
Proof. destruct a, b; simpl; split; intros H; try reflexivity; discriminate. Qed.

Lemma get_position_by_name_cases (map_elements : list MapElement.t)
    (ty : MapElementType.t) (name : string) :
  ((exists p, AgvContext._get_position_by_name map_elements ty name = Ok p)
   /\ Frame.named map_elements ty name)
  \/ (AgvContext._get_position_by_name map_elements ty name = Raise ValueError
      /\ ~ Frame.named map_elements ty name).
Proof.
  induction map_elements as [| e rest IH]; simpl.
  - right. split; [reflexivity |]. intros [e [[] _]].
  - destruct (MapElementType.eqb (MapElement.type e) ty
              && String.eqb (MapElement.name e) name) eqn:E.
    + left. split; [eexists; reflexivity |].
      apply andb_true_iff in E. destruct E as [E1 E2].
      apply MapElementType_eqb_eq in E1. apply String.eqb_eq in E2.
      exists e. split; [left; reflexivity | split; assumption].
    + destruct IH as [[Hok [e' [Hin Hn]]] | [Hr Hn]].
      * left. split; [exact Hok |]. exists e'. split; [right |]; assumption.
      * right. split; [exact Hr |]. intros [e' [[<- | Hin] [Ht Hnm]]].
        -- apply MapElementType_eqb_eq in Ht. apply String.eqb_eq in Hnm.
           rewrite Ht, Hnm in E. discriminate.
        -- apply Hn. exists e'. auto.
Qed.

Lemma result_list_map_Forall2 {A B : Type} (f : A -> result B) (l : list A) :
  forall l' : list B,
    result_list_map f l = Ok l' -> Forall2 (fun a b => f a = Ok b) l l'.
Proof.
  induction l as [| a l IH]; simpl; intros l'.
  - intros H; injection H as <-. constructor.
  - destruct (f a) as [b |] eqn:Hfa; [| discriminate].
    destruct (result_list_map f l) as [bs |]; [| discriminate].
    intros H; injection H as <-. constructor; [exact Hfa | apply IH; reflexivity].
Qed.

Lemma result_list_map_total {A B : Type} (f : A -> result B) (l : list A) :
  (forall a, In a l -> exists b, f a = Ok b) ->
  exists l', result_list_map f l = Ok l'.
Proof.
  induction l as [| a l IH]; intros H; simpl.
  - eexists; reflexivity.
  - destruct (H a (or_introl eq_refl)) as [b ->].
    destruct IH as [bs ->]; [intros; apply H; right; assumption |].
    eexists; reflexivity.
Qed.

Lemma result_list_map_raises {A B : Type} (f : A -> result B) (l : list A)
    (e : exn) :
  result_list_map f l = Raise e -> exists a, In a l /\ f a = Raise e.
Proof.
  induction l as [| a l IH]; simpl; [discriminate |].
  destruct (f a) as [b | e'] eqn:Hfa.
  - destruct (result_list_map f l) as [bs | e'']; [discriminate |].
    intros H; injection H as ->.
    destruct (IH eq_refl) as [a' [Hin Hf]]. exists a'. auto.
  - intros H; injection H as ->. exists a. auto.
Qed.

Lemma result_list_map_ok_all {A B : Type} (f : A -> result B) (l : list A)
    (l' : list B) :
  result_list_map f l = Ok l' -> forall a, In a l -> exists b, f a = Ok b.
Proof.
  revert l'. induction l as [| a l IH]; simpl; intros l' H a' Ha'; [contradiction |].
  destruct (f a) as [b |] eqn:Hfa; [| discriminate].
  destruct (result_list_map f l) as [bs |]; [| discriminate].
  destruct Ha' as [<- | Ha']; [exists b; exact Hfa | exact (IH _ eq_refl _ Ha')].
Qed.

Lemma idle_rows (timestamp : Z) (tasks : list TaskEx.t) (agvs : list Agv.t) :
  Forall (fun a => Agv.is_loaded a = false /\ Agv.loaded_task a = None) agvs ->
  TrajectoryRecorderService.add [] timestamp agvs tasks
  = Ok (map (Frame.idle_row timestamp) agvs).
Proof.
  intros H. unfold TrajectoryRecorderService.add.
  rewrite (result_list_map_ok _ (Frame.idle_row timestamp)); [reflexivity |].
  intros a Ha. rewrite Forall_forall in H. destruct (H a Ha) as [Hl Ht].
  unfold TrajectoryRecorderService.row, Frame.idle_row. rewrite Ht, Hl.
  reflexivity.
Qed.

Lemma init_inv (map_elements : list MapElement.t)
    (task_records : list TaskRecord.t) (c : AgvContext.t) :
  AgvContext.init map_elements task_records = Ok c ->
  map_elements <> []
  /\ Forall2 (Frame.fresh_task map_elements) task_records (AgvContext.tasks c)
  /\ Forall2 Frame.fresh_agv (filter AgvContext.is_agv map_elements)
       (AgvContext.agvs c)
  /\ AgvContext.trajectory_recorder c
     = map (Frame.idle_row 0) (AgvContext.agvs c)
  /\ AgvContext.map_elements c = map_elements
  /\ AgvContext.task_records c = task_records
  /\ AgvContext.map_bounds c = MapElementParser.get_bounds map_elements
  /\ AgvContext.fixed_map_obstacles c
     = map Frame.cell (filter AgvContext.is_point map_elements)
       ++ AgvContext.border
            (RectEx.left (MapElementParser.get_bounds map_elements))
            (RectEx.right (MapElementParser.get_bounds map_elements))
            (RectEx.top (MapElementParser.get_bounds map_elements))
            (RectEx.bottom (MapElementParser.get_bounds map_elements)).
Proof.
  unfold AgvContext.init.
  destruct (result_list_map _ task_records) as [tasks0 |] eqn:Htasks;
    [| discriminate].
  destruct map_elements as [| e rest] eqn:Hmap; [discriminate |].
  rewrite <- Hmap in *.
  destruct (result_list_map _ (filter AgvContext.is_agv map_elements))
    as [agvs0 |] eqn:Hagvs; [| discriminate].
  assert (Hfresh : Forall2 Frame.fresh_agv
                     (filter AgvContext.is_agv map_elements) agvs0).
  { apply result_list_map_Forall2 in Hagvs.
    eapply Forall2_impl; [| exact Hagvs]. intros item a. cbv beta.
    unfold Frame.fresh_agv.
    destruct (MapElement.pitch item) as [d |]; [| discriminate].
    intros H; injection H as <-. repeat split. }
  assert (Hidle : Forall (fun a => Agv.is_loaded a = false
                                   /\ Agv.loaded_task a = None) agvs0).
  { clear - Hfresh. induction Hfresh as [| item a l l' Hf _ IH]; constructor;
      [| exact IH]. destruct Hf as [_ [_ [_ [H1 [H2 _]]]]]. auto. }
  rewrite (idle_rows 0 tasks0 agvs0 Hidle).
  intros H; injection H as <-. simpl.
  split; [rewrite Hmap; discriminate |].
  split; [| split; [exact Hfresh |]].
  - apply result_list_map_Forall2 in Htasks.
    eapply Forall2_impl; [| exact Htasks]. intros r task. cbv beta.
    unfold Frame.fresh_task.
    destruct (AgvContext._get_position_by_name map_elements
                MapElementType.START_POINT (TaskRecord.start_point r))
      as [sp |]; [| discriminate].
    destruct (AgvContext._get_position_by_name map_elements
                MapElementType.END_POINT (TaskRecord.end_point r))
      as [ep |]; [| discriminate].
    intros H; injection H as <-. repeat split.
  - repeat split. rewrite Hmap. reflexivity.
Qed.

(** AgvContext.__init__ builds the idle starting state: one pending,
    uncompleted task per task record, at the cells of its named start and end
    points; one unloaded AGV with no path per AGV row of the map, in map
    order; and a trajectory holding exactly one timestamp-0 row per AGV. *)
Theorem init_builds_idle_fleet :
  forall (map_elements : list MapElement.t) (task_records : list TaskRecord.t)
         (c : AgvContext.t),
    AgvContext.init map_elements task_records = Ok c ->
    Forall2 (Frame.fresh_task map_elements) task_records (AgvContext.tasks c)
    /\ Forall2 Frame.fresh_agv (filter AgvContext.is_agv map_elements)
         (AgvContext.agvs c)
    /\ AgvContext.trajectory_recorder c
       = map (Frame.idle_row 0) (AgvContext.agvs c)
    /\ AgvContext.all_tasks_completed c
       = match task_records with [] => true | _ :: _ => false end.
Proof.
  intros m ts c H. destruct (init_inv _ _ _ H) as [_ [Ht [Ha [Hr _]]]].
  split; [exact Ht |]. split; [exact Ha |]. split; [exact Hr |].
  unfold AgvContext.all_tasks_completed.
  destruct Ht as [| r task l l' Hf _]; [reflexivity |].
  destruct Hf as [_ [_ [_ [_ [_ Hc]]]]]. simpl. rewrite Hc. reflexivity.
Qed.

Lemma init_builds_idle_fleet_witness :
  AgvContext.trajectory_recorder Worlds.stuck_context
  = map (Frame.idle_row 0) (AgvContext.agvs Worlds.stuck_context).
Proof.
  apply (init_builds_idle_fleet Worlds.stuck_map Worlds.stuck_tasks).
  vm_compute. reflexivity.
Defined.

(** The fixed obstacles of a context are exactly the cells of the StartPoint
    and EndPoint elements and the ring of cells one step outside the bounding
    box of the map; AGV cells are not among them unless they are on a point. *)
Theorem fixed_obstacles_are_points_and_frame :
  forall (map_elements : list MapElement.t) (task_records : list TaskRecord.t)
         (c : AgvContext.t),
    AgvContext.init map_elements task_records = Ok c ->
    forall p : PointEx.t,
      In p (AgvContext.fixed_map_obstacles c)
      <-> ((exists e, In e map_elements /\ AgvContext.is_point e = true
                      /\ p = Frame.cell e)
           \/ Frame.on_frame (AgvContext.map_bounds c) p).
Proof.
  intros m ts c H p.
  destruct (init_inv _ _ _ H) as [_ [_ [_ [_ [_ [_ [Hb Hf]]]]]]].
  rewrite Hf, Hb, in_app_iff, border_In, in_map_iff.
  assert (Hrect : forall b : RectEx.t,
             RectEx.mk (RectEx.left b) (RectEx.top b) (RectEx.right b)
               (RectEx.bottom b) = b) by (intros []; reflexivity).
  rewrite Hrect. split.
  - intros [[e [<- He]] | Hfr]; [left | right; exact Hfr].
    apply filter_In in He. destruct He as [Hin Hpt]. exists e. auto.
  - intros [[e [Hin [Hpt ->]]] | Hfr]; [left | right; exact Hfr].
    exists e. split; [reflexivity |]. apply filter_In. auto.
Qed.

Lemma fixed_obstacles_are_points_and_frame_witness :
  In (PointEx.mk 4 8) (AgvContext.fixed_map_obstacles Worlds.stuck_context).
Proof.
  apply (proj2 (fixed_obstacles_are_points_and_frame Worlds.stuck_map
                  Worlds.stuck_tasks Worlds.stuck_context
                  ltac:(vm_compute; reflexivity) (PointEx.mk 4 8))).
  right. unfold Frame.on_frame. simpl. lia.
Defined.

(** AgvContext.__init__ succeeds exactly when the map is not empty, every task
    record names a StartPoint and an EndPoint of the map, and every AGV row
    has a pitch. *)
Theorem init_succeeds_iff :
  forall (map_elements : list MapElement.t) (task_records : list TaskRecord.t),
    (exists c, AgvContext.init map_elements task_records = Ok c)
    <-> (map_elements <> []
         /\ (forall task, In task task_records ->
                          Frame.resolvable map_elements task)
         /\ (forall e, In e map_elements ->
                       MapElement.type e = MapElementType.AGV ->
                       MapElement.pitch e <> None)).
Proof.
  intros m ts. split.
  - intros [c H]. destruct (init_inv _ _ _ H) as [Hne [Ht [Ha _]]].
    split; [exact Hne |]. split.
    + intros task Hin. clear - Ht Hin.
      induction Ht as [| r t0 l l' Hf _ IH]; [contradiction |].
      destruct Hin as [<- | Hin]; [| exact (IH Hin)].
      destruct Hf as [_ [_ [Hs [He _]]]]. split.
      * destruct (get_position_by_name_cases m MapElementType.START_POINT
                    (TaskRecord.start_point r)) as [[_ Hn] | [Hr _]];
          [exact Hn | congruence].
      * destruct (get_position_by_name_cases m MapElementType.END_POINT
                    (TaskRecord.end_point r)) as [[_ Hn] | [Hr _]];
          [exact Hn | congruence].
    + intros e Hin Hty.
      assert (Hf : In e (filter AgvContext.is_agv m)).
      { apply filter_In. split; [exact Hin |].
        unfold AgvContext.is_agv. rewrite Hty. reflexivity. }
      clear - Ha Hf.
      induction Ha as [| item a l l' Hfr _ IH]; [contradiction |].
      destruct Hf as [<- | Hf]; [| exact (IH Hf)].
      destruct Hfr as [_ [_ [Hp _]]]. congruence.
  - intros [Hne [Hres Hpitch]]. unfold AgvContext.init.
    match goal with
    | |- context [result_list_map ?f ts] =>
        destruct (result_list_map_total f ts) as [tasks0 ->]
    end.
    { intros task Hin. destruct (Hres task Hin) as [Hs He].
      destruct (get_position_by_name_cases m MapElementType.START_POINT
                  (TaskRecord.start_point task)) as [[[sp ->] _] | [_ Hn]];
        [| contradiction].
      destruct (get_position_by_name_cases m MapElementType.END_POINT
                  (TaskRecord.end_point task)) as [[[ep ->] _] | [_ Hn]];
        [| contradiction].
      eexists; reflexivity. }
    destruct m as [| e rest] eqn:Hmap; [congruence |]. rewrite <- Hmap in *.
    match goal with
    | |- context [result_list_map ?f (filter AgvContext.is_agv m)] =>
        destruct (result_list_map_total f (filter AgvContext.is_agv m))
          as [agvs0 Hagvs]
    end.
    { intros item Hin. apply filter_In in Hin. destruct Hin as [Hin Hty].
      apply MapElementType_eqb_eq in Hty.
      destruct (MapElement.pitch item) as [d |] eqn:Hp;
        [eexists; reflexivity | exfalso; exact (Hpitch item Hin Hty Hp)]. }
    rewrite Hagvs. rewrite idle_rows; [eexists; reflexivity |].
    apply result_list_map_Forall in Hagvs.
    eapply Forall_impl; [| exact Hagvs]. intros a [item [_ Hf]].
    destruct (MapElement.pitch item); [| discriminate].
    injection Hf as <-. split; reflexivity.
Qed.

(** AgvContext.__init__ raises ValueError when the map is empty (min() of an
    empty sequence) or when some task record names a start point or an end
    point that is not on the map. *)
Theorem init_rejects_unknown_points :
  forall (map_elements : list MapElement.t) (task_records : list TaskRecord.t),
    (map_elements = []
     \/ exists task, In task task_records
                     /\ ~ Frame.resolvable map_elements task) ->
    AgvContext.init map_elements task_records = Raise ValueError.
Proof.
  intros m ts Hbad. unfold AgvContext.init.
  match goal with
  | |- context [result_list_map ?f ts] =>
      set (build := f);
      assert (Hbuild : forall task e, build task = Raise e -> e = ValueError)
  end.
  { intros task e. unfold build.
    destruct (get_position_by_name_cases m MapElementType.START_POINT
                (TaskRecord.start_point task)) as [[[sp ->] _] | [-> _]];
      [| intros H; injection H as <-; reflexivity].
    destruct (get_position_by_name_cases m MapElementType.END_POINT
                (TaskRecord.end_point task)) as [[[ep ->] _] | [-> _]];
      [discriminate | intros H; injection H as <-; reflexivity]. }
  destruct (result_list_map build ts) as [tasks0 | e] eqn:Htasks.
  - destruct Hbad as [-> | [task [Hin Hnot]]]; [reflexivity | exfalso].
    destruct (result_list_map_ok_all _ _ _ Htasks task Hin) as [t0 Ht0].
    apply Hnot. unfold build in Ht0. split.
    + destruct (get_position_by_name_cases m MapElementType.START_POINT
                  (TaskRecord.start_point task)) as [[_ Hn] | [Hr _]];
        [exact Hn | rewrite Hr in Ht0; discriminate].
    + destruct (AgvContext._get_position_by_name m MapElementType.START_POINT
                  (TaskRecord.start_point task)); [| discriminate].
      destruct (get_position_by_name_cases m MapElementType.END_POINT
                  (TaskRecord.end_point task)) as [[_ Hn] | [Hr _]];
        [exact Hn | rewrite Hr in Ht0; discriminate].
  - destruct (result_list_map_raises _ _ _ Htasks) as [task [_ Hr]].
    rewrite (Hbuild task e Hr). reflexivity.
Qed.

Lemma init_rejects_unknown_points_witness :
  AgvContext.init Worlds.stuck_map
    [TaskRecord.mk "T1" "S1" "E9" TaskPriority.NORMAL None]
  = Raise ValueError.
Proof.
  apply init_rejects_unknown_points. right.
  exists (TaskRecord.mk "T1" "S1" "E9" TaskPriority.NORMAL None).
  split; [left; reflexivity |].
  intros [_ [e [Hin [_ Hname]]]]. simpl in Hin, Hname.
  destruct Hin as [<- | [<- | [<- | []]]]; discriminate Hname.
Defined.

(** ** What a tick keeps *)

(* the judgement of a tick from its methods: turn, move, path assignment,
   load, unload and the recorder *)
Section MethodSat.
Import SchedulerService.
Variables (R : t -> t -> Prop) (E : exn -> Prop).
Hypothesis R_refl : forall s, R s s.
Hypothesis R_trans : forall a b c, R a b -> R b c -> R a c.
Hypothesis E_not_deadlock : forall e, Run.not_deadlock e -> E e.
Hypothesis H_turn :
  forall r d, Run.sat R E (call_agv r (fun agv => Agv.turn agv d)).
Hypothesis H_path : forall r l, Run.sat R E (set_path_time_points r l).
Hypothesis H_move :
  forall r, Run.sat R E (call_agv r (fun agv => Ok (Agv.move agv))).
Hypothesis H_load :
  forall r task_ref ts,
    Run.sat R E
      (call_agv_task r (fun agv tasks => Agv.load r agv task_ref ts tasks)).
Hypothesis H_unload :
  forall r ts,
    Run.sat R E (call_agv_task r (fun agv tasks => Agv.unload agv ts tasks)).
Hypothesis H_record : forall records, Run.sat R E (set_trajectory_recorder records).
Hypothesis H_tick : forall s, R s (mk (context s) (timestamp s + 1)).

Lemma sat_batch_move_one_by_method (is_loaded : bool)
    (temp : option assignments) (agv_ref : nat) (acc : batch_state) :
  Run.sat R E (batch_move_one is_loaded temp agv_ref acc).
Proof.
  unfold batch_move_one. destruct acc as [[handled moved] assigned].
  sat_tac; try (apply sat_check_moved_items; assumption);
    try (apply E_not_deadlock; discriminate).
Qed.

Lemma sat_park_step_by_method (idle_ref : nat) (u : unit) :
  Run.sat R E (park_step idle_ref u).
Proof. unfold park_step. sat_tac. Qed.

Lemma sat_phases_by_method : Run.sat R E phases.
Proof.
  apply sat_phases;
    first [ assumption
          | intros; apply sat_batch_move_one_by_method
          | intros; apply sat_park_step_by_method ].
Qed.

Lemma process_by_method (s : t) : R s (snd (process s)).
Proof.
  unfold process, bind, get.
  destruct (timestamp s >? MAX_TIMESTAMP); [apply R_refl |].
  unfold advance_timestamp. eapply R_trans; [apply H_tick |].
  destruct (sat_phases_by_method (mk (context s) (timestamp s + 1))) as [Hk _].
  exact Hk.
Qed.

Lemma after_calls_by_method (n : nat) (s : t) : R s (Run.after_calls n s).
Proof.
  induction n as [| n IH]; simpl; [apply R_refl |].
  eapply R_trans; [exact IH | apply process_by_method].
Qed.
End MethodSat.

Section ProgressFacts.
Import SchedulerService.

Lemma task_step_refl (task : TaskEx.t) : Progress.task_step task task.
Proof. repeat split; auto. Qed.

Lemma task_step_trans (a b c : TaskEx.t) :
  Progress.task_step a b -> Progress.task_step b c -> Progress.task_step a c.
Proof.
  unfold Progress.task_step. intros H1 H2.
  destruct H1 as (A1 & A2 & A3 & A4 & A5 & A6 & A7 & A8 & A9).
  destruct H2 as (B1 & B2 & B3 & B4 & B5 & B6 & B7 & B8 & B9).
  repeat split; try congruence; auto.
Qed.

Lemma Forall2_same {A : Type} (P : A -> A -> Prop) (l : list A) :
  (forall a, P a a) -> Forall2 P l l.
Proof. intros H. induction l; constructor; auto. Qed.

Lemma Forall2_chain {A : Type} (P : A -> A -> Prop) (l1 : list A) :
  (forall a b c, P a b -> P b c -> P a c) ->
  forall l2 l3, Forall2 P l1 l2 -> Forall2 P l2 l3 -> Forall2 P l1 l3.
Proof.
  intros Ht l2 l3 H12. revert l3.
  induction H12 as [| a b l1 l2 Hab _ IH]; intros l3 H23; inversion H23; subst;
    constructor; eauto.
Qed.

Lemma Forall2_list_set {A : Type} (P : A -> A -> Prop) (l : list A) (i : nat)
    (a a' : A) :
  (forall x, P x x) -> nth_error l i = Some a -> P a a' ->
  Forall2 P l (list_set l i a').
Proof.
  intros Hr. revert i. induction l as [| b l IH]; intros [| i]; simpl;
    try discriminate.
  - intros H Hp. injection H as ->. constructor; [exact Hp |].
    apply Forall2_same, Hr.
  - intros H Hp. constructor; [apply Hr | apply IH; assumption].
Qed.

Lemma Forall2_nth_error {A : Type} (P : A -> A -> Prop) (l l' : list A) :
  Forall2 P l l' ->
  forall i a, nth_error l i = Some a ->
              exists a', nth_error l' i = Some a' /\ P a a'.
Proof.
  induction 1 as [| b b' l l' Hb _ IH]; intros [| i] a; simpl; try discriminate.
  - intros H; injection H as <-. exists b'. auto.
  - apply IH.
Qed.

Lemma steady_refl (s : t) : Progress.steady s s.
Proof.
  repeat split. apply Forall2_same, task_step_refl.
Qed.

Lemma steady_trans (a b c : t) :
  Progress.steady a b -> Progress.steady b c -> Progress.steady a c.
Proof.
  intros (A1 & A2 & A3 & A4 & A5) (B1 & B2 & B3 & B4 & B5).
  repeat split; try congruence.
  eapply Forall2_chain; [exact task_step_trans | exact A5 | exact B5].
Qed.

Lemma call_agv_steady (r : nat) (method : Agv.t -> result Agv.t) :
  (forall a a', method a = Ok a' -> Agv.name a' = Agv.name a) ->
  Run.sat Progress.steady Run.any_exn (call_agv r method).
Proof.
  intros Hm s. split; [| intros; exact I]. unfold call_agv.
  destruct (nth_error (agvs s) r) as [a |] eqn:Ha; [| apply steady_refl].
  destruct (method a) as [a' | e] eqn:Hma; [| apply steady_refl].
  split; [| repeat split; apply Forall2_same, task_step_refl]. cbn.
  apply map_list_set_same with (b := a); [exact Ha | apply Hm, Hma].
Qed.

Lemma call_agv_task_steady (r : nat)
    (method : Agv.t -> list TaskEx.t -> result (Agv.t * list TaskEx.t)) :
  (forall a l a' l',
     method a l = Ok (a', l') ->
     Agv.name a' = Agv.name a /\ Forall2 Progress.task_step l l') ->
  Run.sat Progress.steady Run.any_exn (call_agv_task r method).
Proof.
  intros Hm s. split; [| intros; exact I]. unfold call_agv_task.
  destruct (nth_error (agvs s) r) as [a |] eqn:Ha; [| apply steady_refl].
  destruct (method a (tasks s)) as [[a' l'] | e] eqn:Hma; [| apply steady_refl].
  destruct (Hm _ _ _ _ Hma) as [Hn Hl].
  split; [| repeat split; exact Hl]. cbn.
  apply map_list_set_same with (b := a); [exact Ha | exact Hn].
Qed.

Lemma turn_name (a a' : Agv.t) (d : option Direction.t) :
  Agv.turn a d = Ok a' ->
  Agv.name a' = Agv.name a
  /\ Agv.is_loaded a' = Agv.is_loaded a
  /\ Agv.loaded_task a' = Agv.loaded_task a.
Proof.
  unfold Agv.turn. destruct d; [intros H; injection H as <-; repeat split |].
  destruct (Agv.path_time_points a) as [| p0 [| p1 rest]];
    try (intros H; injection H as <-; repeat split).
  destruct (PointEx.get_pitch_to_neighbour _ _); [| discriminate].
  intros H; injection H as <-; repeat split.
Qed.

Lemma move_name (a : Agv.t) :
  Agv.name (Agv.move a) = Agv.name a
  /\ Agv.is_loaded (Agv.move a) = Agv.is_loaded a
  /\ Agv.loaded_task (Agv.move a) = Agv.loaded_task a.
Proof.
  unfold Agv.move. destruct (Agv.path_time_points a) as [| p0 [| p1 rest]];
    repeat split.
Qed.

Lemma load_steps (self : nat) (a a' : Agv.t) (task_ref : nat) (ts : Z)
    (l l' : list TaskEx.t) :
  Agv.load self a task_ref ts l = Ok (a', l') ->
  Agv.name a' = Agv.name a /\ Forall2 Progress.task_step l l'.
Proof.
  unfold Agv.load. destruct (nth_error l task_ref) as [task |] eqn:Ht;
    [| discriminate].
  intros H; injection H as <- <-. split; [reflexivity |].
  apply Forall2_list_set with (a := task);
    [exact task_step_refl | exact Ht |].
  repeat split; auto.
Qed.

Lemma unload_steps (a a' : Agv.t) (ts : Z) (l l' : list TaskEx.t) :
  Agv.unload a ts l = Ok (a', l') ->
  Agv.name a' = Agv.name a /\ Forall2 Progress.task_step l l'.
Proof.
  unfold Agv.unload. destruct (Agv.loaded_task a) as [task_ref |].
  - destruct (nth_error l task_ref) as [task |] eqn:Ht; [| discriminate].
    intros H; injection H as <- <-. split; [reflexivity |].
    apply Forall2_list_set with (a := task);
      [exact task_step_refl | exact Ht |].
    repeat split; auto.
  - intros H; injection H as <- <-. split; [reflexivity |].
    apply Forall2_same, task_step_refl.
Qed.

Lemma after_calls_steady (n : nat) (s : t) :
  Progress.steady s (Run.after_calls n s).
Proof.
  apply (after_calls_by_method Progress.steady Run.any_exn).
  - exact steady_refl.
  - exact steady_trans.
  - intros; exact I.
  - intros r d. apply call_agv_steady. intros a a' H. apply (turn_name _ _ _ H).
  - intros r l. apply call_agv_steady. intros a a' H. injection H as <-.
    reflexivity.
  - intros r. apply call_agv_steady. intros a a' H. injection H as <-.
    apply move_name.
  - intros r task_ref ts. apply call_agv_task_steady. intros a l a' l'.
    apply load_steps.
  - intros r ts. apply call_agv_task_steady. intros a l a' l'.
    apply unload_steps.
  - intros records s0. split; [| intros; exact I].
    repeat split. apply Forall2_same, task_step_refl.
  - intros s0. repeat split. apply Forall2_same, task_step_refl.
Qed.

(** the cargo of the AGVs *)

Lemma cargo_ok_later (l l' : list TaskEx.t) (a : Agv.t) :
  Forall2 Progress.task_step l l' ->
  Progress.cargo_ok l a -> Progress.cargo_ok l' a.
Proof.
  intros Hl. unfold Progress.cargo_ok.
  destruct (Agv.loaded_task a) as [task_ref |]; [| auto].
  intros [Hload [task [Hn Hp]]]. split; [exact Hload |].
  destruct (Forall2_nth_error _ _ _ Hl _ _ Hn) as [task' [Hn' Hs]].
  exists task'. split; [exact Hn' |].
  destruct Hs as (_ & _ & _ & _ & _ & _ & _ & Hpend & _). auto.
Qed.

Lemma keeps_cargo_refl (s : t) : Run.keeps Progress.cargo s s.
Proof. intros H; exact H. Qed.

Lemma keeps_cargo_trans (a b c : t) :
  Run.keeps Progress.cargo a b -> Run.keeps Progress.cargo b c ->
  Run.keeps Progress.cargo a c.
Proof. unfold Run.keeps. auto. Qed.

Lemma call_agv_cargo (r : nat) (method : Agv.t -> result Agv.t) :
  (forall a a', method a = Ok a' ->
                Agv.is_loaded a' = Agv.is_loaded a
                /\ Agv.loaded_task a' = Agv.loaded_task a) ->
  Run.sat (Run.keeps Progress.cargo) Run.any_exn (call_agv r method).
Proof.
  intros Hm s. split; [| intros; exact I]. unfold call_agv.
  destruct (nth_error (agvs s) r) as [a |] eqn:Ha; [| apply keeps_cargo_refl].
  destruct (method a) as [a' | e] eqn:Hma; [| apply keeps_cargo_refl].
  intros Hc. unfold Progress.cargo in *. cbn.
  apply Forall_list_set; [exact Hc |].
  rewrite Forall_forall in Hc. specialize (Hc a (nth_error_In _ _ Ha)).
  destruct (Hm _ _ Hma) as [H1 H2].
  unfold Progress.cargo_ok in *. rewrite H1, H2. exact Hc.
Qed.

Lemma call_agv_task_cargo (r : nat)
    (method : Agv.t -> list TaskEx.t -> result (Agv.t * list TaskEx.t)) :
  (forall a l a' l',
     method a l = Ok (a', l') ->
     Forall2 Progress.task_step l l' /\ Progress.cargo_ok l' a') ->
  Run.sat (Run.keeps Progress.cargo) Run.any_exn (call_agv_task r method).
Proof.
  intros Hm s. split; [| intros; exact I]. unfold call_agv_task.
  destruct (nth_error (agvs s) r) as [a |] eqn:Ha; [| apply keeps_cargo_refl].
  destruct (method a (tasks s)) as [[a' l'] | e] eqn:Hma;
    [| apply keeps_cargo_refl].
  destruct (Hm _ _ _ _ Hma) as [Hl Ha'].
  intros Hc. unfold Progress.cargo in *. cbn.
  apply Forall_list_set; [| exact Ha'].
  eapply Forall_impl; [| exact Hc]. intros b. apply cargo_ok_later, Hl.
Qed.

Lemma after_calls_cargo (n : nat) (s : t) :
  Progress.cargo s -> Progress.cargo (Run.after_calls n s).
Proof.
  apply (after_calls_by_method (Run.keeps Progress.cargo) Run.any_exn).
  - exact keeps_cargo_refl.
  - exact keeps_cargo_trans.
  - intros; exact I.
  - intros r d. apply call_agv_cargo. intros a a' H. apply (turn_name _ _ _ H).
  - intros r l. apply call_agv_cargo. intros a a' H. injection H as <-.
    split; reflexivity.
  - intros r. apply call_agv_cargo. intros a a' H. injection H as <-.
    apply move_name.
  - intros r task_ref ts. apply call_agv_task_cargo. intros a l a' l' H.
    split; [exact (proj2 (load_steps _ _ _ _ _ _ _ H)) |].
    unfold Agv.load in H.
    destruct (nth_error l task_ref) as [task |] eqn:Ht; [| discriminate].
    injection H as <- <-. unfold Progress.cargo_ok. simpl.
    split; [reflexivity |]. eexists. split.
    + eapply nth_error_list_set_same, Ht.
    + reflexivity.
  - intros r ts. apply call_agv_task_cargo. intros a l a' l' H.
    split; [exact (proj2 (unload_steps _ _ _ _ _ H)) |].
    unfold Agv.unload in H. destruct (Agv.loaded_task a) as [task_ref |].
    + destruct (nth_error l task_ref); [| discriminate].
      injection H as <- <-. reflexivity.
    + injection H as <- <-. reflexivity.
  - intros records s0. split; [| intros; exact I]. intros H; exact H.
  - intros s0 H. exact H.
Qed.
End ProgressFacts.

(** Whatever the calls of process return, the scheduler keeps the same AGVs by
    name and in order, the same map and fixed obstacles, and the same tasks at
    the same places of the table with their id, points, cells and priority; a
    task that has been taken stays taken and a completed task stays
    completed. *)
Theorem tasks_only_advance :
  forall (n : nat) (s : SchedulerService.t),
    Progress.steady s (Run.after_calls n s).
Proof. intros n s. apply after_calls_steady. Qed.

(** From a context built by AgvContext.__init__, at every tick boundary an AGV
    is loaded exactly when it holds a task, and the task it holds is in the
    task table and is no longer pending: the recorder and can_unload never
    meet a loaded AGV without a task. *)
Theorem cargo_stays_consistent :
  forall (map_elements : list MapElement.t) (task_records : list TaskRecord.t)
         (c : AgvContext.t) (n : nat),
    AgvContext.init map_elements task_records = Ok c ->
    Progress.cargo (Run.after_calls n (SchedulerService.init c)).
Proof.
  intros m ts c n H. apply after_calls_cargo.
  destruct (init_inv _ _ _ H) as [_ [_ [Ha _]]].
  unfold Progress.cargo, SchedulerService.agvs, SchedulerService.init. simpl.
  clear - Ha. induction Ha as [| item a l l' Hf _ IH]; constructor; [| exact IH].
  destruct Hf as (_ & _ & _ & Hl & Ht & _). unfold Progress.cargo_ok.
  rewrite Ht. exact Hl.
Qed.

Lemma cargo_stays_consistent_witness :
  Progress.cargo
    (Run.after_calls 2
       (SchedulerService.init
          (Worlds.built Worlds.crossing_map Worlds.crossing_tasks))).
Proof.
  apply (cargo_stays_consistent Worlds.crossing_map Worlds.crossing_tasks).
  vm_compute. reflexivity.
Defined.

(** ** The trajectory *)

Section TraceFacts.
Import SchedulerService.

Lemma quiet_refl (s : t) : Trace.quiet s s.
Proof. split; reflexivity. Qed.

Lemma quiet_trans (a b c : t) :
  Trace.quiet a b -> Trace.quiet b c -> Trace.quiet a c.
Proof. intros [H1 H2] [H3 H4]. split; congruence. Qed.

Lemma any_exn_all (e : exn) : Run.not_deadlock e -> Run.any_exn e.
Proof. intros _. exact I. Qed.

Lemma call_agv_quiet (r : nat) (method : Agv.t -> result Agv.t) :
  Run.sat Trace.quiet Run.any_exn (call_agv r method).
Proof.
  intros s. split; [| intros; exact I]. unfold call_agv.
  destruct (nth_error (agvs s) r) as [a |]; [| apply quiet_refl].
  destruct (method a); split; reflexivity.
Qed.

Lemma call_agv_task_quiet (r : nat)
    (method : Agv.t -> list TaskEx.t -> result (Agv.t * list TaskEx.t)) :
  Run.sat Trace.quiet Run.any_exn (call_agv_task r method).
Proof.
  intros s. split; [| intros; exact I]. unfold call_agv_task.
  destruct (nth_error (agvs s) r) as [a |]; [| apply quiet_refl].
  destruct (method a (tasks s)) as [[a' l'] |]; split; reflexivity.
Qed.

(* the side conditions of the judgement, for [Trace.quiet] *)
Ltac quiet_side :=
  repeat match goal with
    | |- forall _, _ => intro
    | |- Trace.quiet ?s ?s => apply quiet_refl
    | |- Trace.quiet _ _ => eapply quiet_trans; eassumption
    | |- Run.any_exn _ => exact I
    | |- Run.sat _ _ (call_agv _ _) => apply call_agv_quiet
    | |- Run.sat _ _ (set_path_time_points _ _) => apply call_agv_quiet
    | |- Run.sat _ _ (call_agv_task _ _) => apply call_agv_task_quiet
    | |- Run.sat _ _ (batch_move_one _ _ _ _) => apply sat_batch_move_one
    | |- Run.sat _ _ (park_step _ _) => apply sat_park_step
    end.

Lemma quiet_unload_step (r : nat) (handled : list nat) :
  Run.sat Trace.quiet Run.any_exn (unload_step r handled).
Proof. apply sat_unload_step; quiet_side. Qed.

Lemma quiet_load_step (pending : list nat) (r : nat) (handled : list nat) :
  Run.sat Trace.quiet Run.any_exn (load_step pending r handled).
Proof. apply sat_load_step; quiet_side. Qed.

Lemma quiet_turn_step (r : nat) (handled : list nat) :
  Run.sat Trace.quiet Run.any_exn (turn_step r handled).
Proof. apply sat_turn_step; quiet_side. Qed.

Lemma quiet_batch_move (agvs : list nat) (handled : list nat) (is_loaded : bool)
    (temp : option assignments) :
  Run.sat Trace.quiet Run.any_exn (batch_move agvs handled is_loaded temp).
Proof. apply sat_batch_move; quiet_side. Qed.

Lemma quiet_assign_loop (pending : list nat) (acc : assign_state) :
  Run.sat Trace.quiet Run.any_exn (assign_loop pending acc).
Proof. apply sat_assign_loop; quiet_side. Qed.

Lemma quiet_park_step (r : nat) (u : unit) :
  Run.sat Trace.quiet Run.any_exn (park_step r u).
Proof. apply sat_park_step; quiet_side. Qed.

Lemma recorded_later {A : Type} (s s1 : t) (out : result A * t) :
  Trace.quiet s s1 -> Trace.recorded s1 out -> Trace.recorded s out.
Proof.
  intros [Ht Hs]. unfold Trace.recorded.
  destruct (fst out).
  - rewrite Ht, Hs. auto.
  - intros H. eapply quiet_trans; [split; eassumption | exact H].
Qed.

(* a quiet step, then something that records: the whole records *)
Lemma recorded_bind {A B : Type} (m : M A) (k : A -> M B) (s : t) :
  Run.sat Trace.quiet Run.any_exn m ->
  (forall a s1, Trace.recorded s1 (k a s1)) ->
  Trace.recorded s (bind m k s).
Proof.
  intros Hm Hk. destruct (Hm s) as [Hq _]. unfold bind.
  destruct (m s) as [[a | e] s1]; simpl in Hq.
  - eapply recorded_later; [exact Hq | apply Hk].
  - exact Hq.
Qed.

Lemma row_shows (timestamp : Z) (tasks : list TaskEx.t) (a : Agv.t)
    (row : TrajectoryRecorderService.record) :
  TrajectoryRecorderService.row timestamp tasks a = Ok row ->
  Trace.shows timestamp a row.
Proof.
  unfold TrajectoryRecorderService.row.
  destruct (Agv.loaded_task a) as [task_ref |].
  - destruct (nth_error tasks task_ref); [| discriminate].
    intros H; injection H as <-. repeat split.
  - intros H; injection H as <-. repeat split.
Qed.

Lemma add_snapshot (records records' : list TrajectoryRecorderService.record)
    (timestamp : Z) (agvs : list Agv.t) (tasks : list TaskEx.t) :
  TrajectoryRecorderService.add records timestamp agvs tasks = Ok records' ->
  exists rows,
    records' = records ++ rows /\ Trace.snapshot timestamp agvs rows.
Proof.
  unfold TrajectoryRecorderService.add.
  destruct (result_list_map _ agvs) as [rows |] eqn:Hrows; [| discriminate].
  intros H; injection H as <-. exists rows. split; [reflexivity |].
  apply result_list_map_Forall2 in Hrows.
  eapply Forall2_impl; [| exact Hrows]. intros a row. apply row_shows.
Qed.

Lemma record_tick_recorded (s : t) : Trace.recorded s (record_tick s).
Proof.
  unfold record_tick, bind, get, lift, set_trajectory_recorder, Trace.recorded.
  destruct (TrajectoryRecorderService.add _ _ _ _) as [records |] eqn:Hadd;
    simpl; [| apply quiet_refl].
  split; [reflexivity |].
  destruct (add_snapshot _ _ _ _ _ Hadd) as [rows [-> Hs]].
  exists rows. split; [reflexivity | exact Hs].
Qed.

Lemma phases_recorded (s : t) : Trace.recorded s (phases s).
Proof.
  unfold phases, agv_should_turn, agv_should_move, agv_turn.
  repeat first
    [ apply record_tick_recorded
    | apply recorded_bind;
      [ first [ apply sat_for_each; [quiet_side ..| intros ];
                first [ apply quiet_unload_step | apply quiet_load_step
                      | apply quiet_turn_step | apply quiet_park_step
                      | apply call_agv_quiet ]
              | apply quiet_batch_move
              | apply quiet_assign_loop
              | apply sat_filter_m; [quiet_side ..| intros ];
                apply sat_bind; quiet_side;
                first [ apply sat_get_agv; quiet_side; apply any_exn_all
                      | apply sat_lift; quiet_side; eauto with exn ]
              | apply sat_get; quiet_side
              | apply sat_lift; quiet_side; eauto with exn
              | match goal with
                | |- Run.sat _ _ (match ?x with _ => _ end) =>
                    destruct x;
                    first [ apply sat_ret; quiet_side
                          | apply sat_for_each; [quiet_side ..| intros ];
                            apply quiet_park_step ]
                end ]
      | intros ] ].
Qed.

Lemma process_recorded (s : t) :
  match fst (process s) with
  | Ok _ =>
      timestamp (snd (process s)) = timestamp s + 1
      /\ exists rows,
           Trace.trajectory (snd (process s)) = Trace.trajectory s ++ rows
           /\ Trace.snapshot (timestamp s + 1) (agvs (snd (process s))) rows
  | Raise _ => Trace.trajectory (snd (process s)) = Trace.trajectory s
  end.
Proof.
  unfold process, bind, get.
  destruct (timestamp s >? MAX_TIMESTAMP); [reflexivity |].
  unfold advance_timestamp.
  pose proof (phases_recorded (mk (context s) (timestamp s + 1))) as H.
  unfold Trace.recorded in H.
  destruct (phases (mk (context s) (timestamp s + 1))) as [[u | e] s'];
    simpl in *; [exact H | exact (proj1 H)].
Qed.

Lemma run_ticks_rows (n : nat) :
  forall s s' : t,
    Run.run_ticks n s = Some s' ->
    length (Trace.trajectory s')
    = (length (Trace.trajectory s) + n * length (agvs s))%nat
    /\ length (agvs s') = length (agvs s)
    /\ timestamp s' = timestamp s + Z.of_nat n.
Proof.
  induction n as [| n IH]; intros s s'; simpl.
  - intros H; injection H as <-. repeat split; lia.
  - destruct (AgvContext.all_tasks_completed (context s)); [discriminate |].
    pose proof (process_recorded s) as Hp.
    pose proof (after_calls_steady 1 s) as Hs. simpl in Hs.
    destruct (process s) as [[u | e] s1]; [| discriminate].
    simpl in Hp, Hs. intros H. destruct (IH _ _ H) as (H1 & H2 & H3).
    destruct Hp as [Ht [rows [Hr Hsnap]]].
    destruct Hs as [Hnames _].
    assert (Hlen : length (agvs s1) = length (agvs s)).
    { rewrite <- (length_map Agv.name), Hnames. apply length_map. }
    apply Forall2_length in Hsnap.
    rewrite H1, H2, H3, Hr, length_app, <- Hsnap, Hlen, Ht.
    repeat split; lia.
Qed.
End TraceFacts.

(** A call of process that ends normally appends to the trajectory exactly one
    row per AGV, in the order of the AGV list, each stamped with the new
    timestamp and showing the AGV as the tick left it; a call that raises
    appends nothing. *)
Theorem process_records_one_snapshot :
  forall s : SchedulerService.t,
    match fst (SchedulerService.process s) with
    | Ok _ =>
        SchedulerService.timestamp (snd (SchedulerService.process s))
        = SchedulerService.timestamp s + 1
        /\ exists rows,
             Trace.trajectory (snd (SchedulerService.process s))
             = Trace.trajectory s ++ rows
             /\ Trace.snapshot (SchedulerService.timestamp s + 1)
                  (SchedulerService.agvs (snd (SchedulerService.process s)))
                  rows
    | Raise _ =>
        Trace.trajectory (snd (SchedulerService.process s)) = Trace.trajectory s
    end.
Proof. exact process_recorded. Qed.

(** ** One AGV along its path *)

Section FacingFacts.

End FacingFacts.


(** A turn towards the next point makes the AGV ready to move: after
    turn() has succeeded on a path of two or more points, should_move is
    true and should_turn is false, and the AGV stands where it stood, with
    the same points ahead. *)
Theorem turn_readies_move :
  forall a a' : Agv.t,
    (2 <= length (Agv.path_time_points a))%nat ->
    Agv.turn a None = Ok a' ->
    Agv.should_move a' = Ok true
    /\ Agv.should_turn a' = Ok false
    /\ Agv.position a' = Agv.position a
    /\ map PathTimePoint.position (Agv.path_time_points a')
       = map PathTimePoint.position (Agv.path_time_points a).
Proof.
  intros a a' Hlen. unfold Agv.turn.
  destruct (Agv.path_time_points a) as [| p0 [| p1 rest]] eqn:Hp;
    [simpl in Hlen; lia | simpl in Hlen; lia |].
  destruct (PointEx.get_pitch_to_neighbour (Agv.position a)
              (PathTimePoint.position p1)) as [d | e] eqn:Hd; [| discriminate].
  intros H; injection H as <-.
  unfold Agv.should_move, Agv.should_turn. simpl.
  rewrite Hd. simpl. rewrite Direction_eqb_refl.
  repeat split. rewrite map_map. reflexivity.
Qed.

Lemma turn_readies_move_witness :
  Agv.should_move
    (Agv.mk "A" (PointEx.mk 3 3) Direction.UP false None
       [PathTimePoint.mk (PointEx.mk 3 3) 0; PathTimePoint.mk (PointEx.mk 3 4) 1])
  = Ok true.
Proof.
  apply (turn_readies_move
           (Agv.mk "A" (PointEx.mk 3 3) Direction.RIGHT false None
              [PathTimePoint.mk (PointEx.mk 3 3) 0;
               PathTimePoint.mk (PointEx.mk 3 4) 2])).
  - simpl. lia.
  - reflexivity.
Defined.

Section DriveFacts.
Import PathPlanning.

Lemma last_cons {A : Type} (l : list A) (a d : A) : last (a :: l) d = last l a.
Proof.
  revert a d. induction l as [| b l IH]; intros a d; [reflexivity |].
  change (last (a :: b :: l) d) with (last (b :: l) d).
  rewrite (IH b d), (IH b a). reflexivity.
Qed.

Lemma shift_tick (time : Z) (tail : list PathTimePoint.t) :
  map Agv.tick
    (map (fun p => PathTimePoint.mk (PathTimePoint.position p)
                     (PathTimePoint.time_cost p - time)) tail)
  = map (fun p => PathTimePoint.mk (PathTimePoint.position p)
                    (PathTimePoint.time_cost p - (time + 1))) tail.
Proof.
  rewrite map_map. apply map_ext. intros p. unfold Agv.tick. simpl.
  f_equal. lia.
Qed.

(* the AGV stands at the head of a timed path whose costs are counted from
   now; it reaches the last point when the last cost has run out, not before *)
Lemma drive_timed (rest : list PointEx.t) :
  forall (a : Agv.t) (time h T : Z) (tail : list PathTimePoint.t),
    timing_loop (Agv.position a) rest time (Agv.pitch a) = Ok tail ->
    Agv.path_time_points a
    = PathTimePoint.mk (Agv.position a) h
      :: map (fun p => PathTimePoint.mk (PathTimePoint.position p)
                         (PathTimePoint.time_cost p - time)) tail ->
    SchedulerService.last_time_cost
      (PathTimePoint.mk (Agv.position a) time :: tail) = Some T ->
    time <= T
    /\ (exists a',
          Drive.run (Z.to_nat (T - time)) a = Ok a'
          /\ Agv.position a' = last rest (Agv.position a)
          /\ Agv.path_time_points a'
             = [PathTimePoint.mk (last rest (Agv.position a))
                  (match rest with [] => h | _ :: _ => 0 end)])
    /\ (forall k, (k < Z.to_nat (T - time))%nat ->
          exists a', Drive.run k a = Ok a'
                     /\ (2 <= length (Agv.path_time_points a'))%nat).
Proof.
  induction rest as [| p rest IH]; intros a time h T tail Ht Hpath Hlast.
  - simpl in Ht. injection Ht as <-. simpl in Hlast. injection Hlast as <-.
    split; [lia |]. rewrite Z.sub_diag. split.
    + exists a. simpl. split; [reflexivity |]. split; [reflexivity | exact Hpath].
    + simpl. intros k Hk. lia.
  - cbn [timing_loop] in Ht.
    destruct (PointEx.get_pitch_to_neighbour (Agv.position a) p) as [d | e]
      eqn:Hd; [| discriminate].
    destruct (Direction.eqb d (Agv.pitch a)) eqn:Heq.
    + (* the next point is straight ahead: one tick, a move *)
      destruct (timing_loop p rest (time + MOVE_COST) (Agv.pitch a))
        as [tail' |] eqn:Ht'; [| discriminate].
      injection Ht as <-. unfold MOVE_COST in *.
      assert (Hstep : Drive.step a = Ok (Agv.move a)).
      { unfold Drive.step, Agv.should_move. rewrite Hpath. simpl.
        rewrite Hd. simpl. rewrite Heq. reflexivity. }
      assert (Hmoved : Agv.move a
                       = Agv.mk (Agv.name a) p (Agv.pitch a) (Agv.is_loaded a)
                           (Agv.loaded_task a)
                           (PathTimePoint.mk p 0
                            :: map (fun q => PathTimePoint.mk
                                               (PathTimePoint.position q)
                                               (PathTimePoint.time_cost q
                                                - (time + 1))) tail')).
      { unfold Agv.move. rewrite Hpath. cbn [map].
        rewrite shift_tick. unfold Agv.tick. simpl. repeat f_equal. lia. }
      destruct (IH (Agv.move a) (time + 1) 0 T tail') as (Hle & Hrun & Hbefore).
      * rewrite Hmoved. simpl. exact Ht'.
      * rewrite Hmoved at 1. simpl. rewrite Hmoved. reflexivity.
      * rewrite Hmoved. simpl. exact Hlast.
      * assert (Hticks : Z.to_nat (T - time) = S (Z.to_nat (T - (time + 1))))
          by lia.
        split; [lia |]. rewrite Hticks. split.
        -- destruct Hrun as (a' & Hr & Hp & Hl). exists a'.
           cbn [Drive.run]. rewrite Hstep.
           rewrite Hmoved in Hp, Hl. simpl in Hp, Hl.
           rewrite last_cons. split; [exact Hr |]. split; [exact Hp |].
           rewrite Hl. destruct rest; reflexivity.
        -- intros [| k] Hk.
           ++ exists a. split; [reflexivity |]. rewrite Hpath. simpl. lia.
           ++ cbn [Drive.run]. rewrite Hstep. apply Hbefore. lia.
    + (* the next point is to the side: a turn, then a move *)
      destruct (timing_loop p rest (time + TURN_COST + MOVE_COST) d)
        as [tail' |] eqn:Ht'; [| discriminate].
      injection Ht as <-. unfold MOVE_COST, TURN_COST in *.
      set (a1 := Agv.mk (Agv.name a) (Agv.position a) d (Agv.is_loaded a)
                   (Agv.loaded_task a)
                   (PathTimePoint.mk (Agv.position a) h
                    :: PathTimePoint.mk p 1
                    :: map (fun q => PathTimePoint.mk
                                       (PathTimePoint.position q)
                                       (PathTimePoint.time_cost q
                                        - (time + 1))) tail')).
      set (a2 := Agv.mk (Agv.name a) p d (Agv.is_loaded a) (Agv.loaded_task a)
                   (PathTimePoint.mk p 0
                    :: map (fun q => PathTimePoint.mk
                                       (PathTimePoint.position q)
                                       (PathTimePoint.time_cost q
                                        - (time + 1 + 1))) tail')).
      assert (Hstep : Drive.step a = Ok a1).
      { unfold Drive.step, Agv.should_move, Agv.should_turn, Agv.turn.
        rewrite Hpath. simpl. rewrite Hd. simpl. rewrite Heq. simpl.
        unfold a1. rewrite shift_tick. unfold Agv.tick. simpl.
        repeat f_equal. lia. }
      assert (Hstep1 : Drive.step a1 = Ok a2).
      { unfold Drive.step, Agv.should_move, Agv.move. unfold a1 at 1. simpl.
        rewrite Hd. simpl. rewrite Direction_eqb_refl. unfold a1, a2. simpl.
        rewrite shift_tick. reflexivity. }
      destruct (IH a2 (time + 1 + 1) 0 T tail') as (Hle & Hrun & Hbefore).
      * exact Ht'.
      * reflexivity.
      * exact Hlast.
      * assert (Hticks : Z.to_nat (T - time)
                         = S (S (Z.to_nat (T - (time + 1 + 1))))) by lia.
        split; [lia |]. rewrite Hticks. split.
        -- destruct Hrun as (a' & Hr & Hp & Hl). exists a'.
           cbn [Drive.run]. rewrite Hstep, Hstep1.
           simpl in Hp, Hl. rewrite last_cons.
           split; [exact Hr |]. split; [exact Hp |].
           rewrite Hl. destruct rest; reflexivity.
        -- intros [| [| k]] Hk.
           ++ exists a. split; [reflexivity |]. rewrite Hpath. simpl. lia.
           ++ exists a1. cbn [Drive.run]. rewrite Hstep.
              split; [reflexivity |]. simpl. lia.
           ++ cbn [Drive.run]. rewrite Hstep, Hstep1. apply Hbefore. lia.
Qed.
End DriveFacts.

(** The time_cost of calculate_path_timing is a schedule: an AGV that stands
    at the head of a path, is given its timing, and then moves when it faces
    its next point and turns otherwise, reaches the last point after exactly
    as many ticks as the last time_cost says, not sooner, and is left with
    that point alone, at time_cost 0. *)
Theorem timed_path_is_schedule :
  forall (a : Agv.t) (rest : list PointEx.t) (T : Z),
    PathPlanning.calculate_path_timing (Agv.position a :: rest) (Agv.pitch a)
    = Ok (Agv.path_time_points a) ->
    SchedulerService.last_time_cost (Agv.path_time_points a) = Some T ->
    0 <= T
    /\ (exists a',
          Drive.run (Z.to_nat T) a = Ok a'
          /\ Agv.position a' = last rest (Agv.position a)
          /\ Agv.path_time_points a'
             = [PathTimePoint.mk (last rest (Agv.position a)) 0])
    /\ (forall k, (k < Z.to_nat T)%nat ->
          exists a', Drive.run k a = Ok a'
                     /\ (2 <= length (Agv.path_time_points a'))%nat).
Proof.
  intros a rest T Ht Hlast. unfold PathPlanning.calculate_path_timing in Ht.
  destruct (PathPlanning.timing_loop (Agv.position a) rest 0 (Agv.pitch a))
    as [tail |] eqn:Hloop; [| discriminate].
  injection Ht as Hpath. symmetry in Hpath.
  assert (Hsame : map (fun p => PathTimePoint.mk (PathTimePoint.position p)
                                  (PathTimePoint.time_cost p - 0)) tail = tail).
  { clear. induction tail as [| [pos cost] tail IH]; simpl; [reflexivity |].
    rewrite IH, Z.sub_0_r. reflexivity. }
  destruct (drive_timed rest a 0 0 T tail Hloop) as (Hle & Hrun & Hbefore).
  - rewrite Hsame. exact Hpath.
  - rewrite <- Hpath. exact Hlast.
  - rewrite Z.sub_0_r in *. split; [exact Hle |]. split; [| exact Hbefore].
    destruct Hrun as (a' & Hr & Hp & Hl). exists a'.
    split; [exact Hr |]. split; [exact Hp |]. rewrite Hl.
    destruct rest; reflexivity.
Qed.

Lemma timed_path_is_schedule_witness :
  exists a' : Agv.t,
    Drive.run 3
      (Agv.mk "A" (PointEx.mk 1 1) Direction.RIGHT false None
         [PathTimePoint.mk (PointEx.mk 1 1) 0; PathTimePoint.mk (PointEx.mk 2 1) 1;
          PathTimePoint.mk (PointEx.mk 2 2) 3]) = Ok a'
    /\ Agv.position a' = PointEx.mk 2 2
    /\ Agv.path_time_points a' = [PathTimePoint.mk (PointEx.mk 2 2) 0].
Proof.
  exact (proj1 (proj2
    (timed_path_is_schedule
       (Agv.mk "A" (PointEx.mk 1 1) Direction.RIGHT false None
          [PathTimePoint.mk (PointEx.mk 1 1) 0;
           PathTimePoint.mk (PointEx.mk 2 1) 1;
           PathTimePoint.mk (PointEx.mk 2 2) 3])
       [PointEx.mk 2 1; PointEx.mk 2 2] 3 eq_refl eq_refl))).
Defined.

(** ** The scheduler's helpers *)

Section ObstacleFacts.
Import SchedulerService.

Lemma fold_append_In {X : Type} (pick : X -> option PointEx.t) (items : list X)
    (p : PointEx.t) :
  forall init : list PointEx.t,
    In p (fold_left
            (fun obstacles item =>
               match pick item with
               | Some n => obstacles ++ [n]
               | None => obstacles
               end) items init)
    <-> In p init \/ exists item, In item items /\ pick item = Some p.
Proof.
  induction items as [| item items IH]; intros init; cbn [fold_left].
  - split; [auto | intros [H | [item [[] _]]]; exact H].
  - rewrite IH. split.
    + intros [H | [item' [Hin Hp]]].
      * destruct (pick item) as [n |] eqn:E; [| left; exact H].
        apply in_app_iff in H. destruct H as [H | [<- | []]];
          [left; exact H | right; exists item; split; [left; reflexivity | exact E]].
      * right. exists item'. split; [right; exact Hin | exact Hp].
    + intros [H | [item' [[<- | Hin] Hp]]].
      * left. destruct (pick item); [apply in_app_iff; left |]; exact H.
      * left. rewrite Hp. apply in_app_iff. right; left; reflexivity.
      * right. exists item'. auto.
Qed.
End ObstacleFacts.

(* the obstacles as the fold of the function builds them *)
Lemma get_obstacles_fold :
  forall (s : SchedulerService.t) (agv_ref : nat) (agv : Agv.t)
         (agvs : list Agv.t) (p : PointEx.t),
    In p (SchedulerService._get_obstacles s agv_ref agv agvs)
    <-> (In p (PointEx.neighbours (Agv.position agv))
         /\ (In p (map Agv.position agvs)
             \/ exists item,
                  In item (SchedulerService.others agv_ref agvs)
                  /\ SchedulerService.free_neighbours s (fst item) (snd item) agvs
                     = [p])).
Proof.
  intros s r agv agvs p. unfold SchedulerService._get_obstacles.
  set (pick := fun item : nat * Agv.t =>
                 match SchedulerService.free_neighbours s (fst item) (snd item)
                         agvs with
                 | [n] => if PointEx.mem n (PointEx.neighbours (Agv.position agv))
                          then Some n else None
                 | _ => None
                 end).
  assert (Hfold : forall items init,
             fold_left
               (fun obstacles agv_item =>
                  match SchedulerService.free_neighbours s (fst agv_item)
                          (snd agv_item) agvs with
                  | [n] =>
                      if PointEx.mem n (PointEx.neighbours (Agv.position agv))
                      then obstacles ++ [n] else obstacles
                  | _ => obstacles
                  end) items init
             = fold_left
                 (fun obstacles item =>
                    match pick item with
                    | Some n => obstacles ++ [n]
                    | None => obstacles
                    end) items init).
  { induction items as [| item items IH]; intros init; cbn [fold_left];
      [reflexivity |].
    rewrite IH. f_equal. unfold pick.
    destruct (SchedulerService.free_neighbours s (fst item) (snd item) agvs)
      as [| n [| ? ?]]; try reflexivity.
    destruct (PointEx.mem n (PointEx.neighbours (Agv.position agv)));
      reflexivity. }
  rewrite Hfold, fold_append_In, filter_In, PointEx_mem_In. split.
  - intros [[Hn Hp] | [item [Hin Hpick]]]; [split; [exact Hn | left; exact Hp] |].
    unfold pick in Hpick.
    destruct (SchedulerService.free_neighbours s (fst item) (snd item) agvs)
      as [| n [| ? ?]] eqn:Hfree; try discriminate.
    destruct (PointEx.mem n (PointEx.neighbours (Agv.position agv))) eqn:Hmem;
      [| discriminate].
    injection Hpick as ->. apply PointEx_mem_In in Hmem.
    split; [exact Hmem |]. right. exists item. auto.
  - intros [Hn [Hp | [item [Hin Hfree]]]]; [left; auto | right].
    exists item. split; [exact Hin |]. unfold pick. rewrite Hfree.
    apply PointEx_mem_In in Hn. rewrite Hn. reflexivity.
Qed.


Section FreeCellFacts.
Import SchedulerService.

Lemma neighbours_adjacent (p q : PointEx.t) :
  In q (PointEx.neighbours p) <-> PathPlanning.manhattan p q = 1.
Proof.
  split; [| apply four_adjacent_neighbours].
  destruct p as [px py].
  unfold PointEx.neighbours, PointEx.left_neighbour, PointEx.right_neighbour,
    PointEx.up_neighbour, PointEx.down_neighbour, PathPlanning.manhattan.
  cbn [PointEx.x PointEx.y].
  intros [<- | [<- | [<- | [<- | []]]]]; cbn [PointEx.x PointEx.y]; lia.
Qed.

Lemma neighbours_NoDup (p : PointEx.t) : NoDup (PointEx.neighbours p).
Proof.
  destruct p as [px py].
  unfold PointEx.neighbours, PointEx.left_neighbour, PointEx.right_neighbour,
    PointEx.up_neighbour, PointEx.down_neighbour. cbn [PointEx.x PointEx.y].
  repeat constructor; simpl;
    intros H; repeat (destruct H as [H | H]; [injection H; lia |]); exact H.
Qed.

Lemma fold_filter_In {X Y : Type} (keep : X -> Y -> bool) (xs : list X)
    (y : Y) :
  forall init : list Y,
    In y (fold_left (fun l x => filter (keep x) l) xs init)
    <-> In y init /\ forall x, In x xs -> keep x y = true.
Proof.
  induction xs as [| x xs IH]; intros init; cbn [fold_left].
  - split; [intros H; split; [exact H | intros ? []] | tauto].
  - rewrite IH, filter_In. split.
    + intros [[Hin Hx] Hall]. split; [exact Hin |].
      intros x' [<- | Hx']; [exact Hx | apply Hall, Hx'].
    + intros [Hin Hall]. split; [split; [exact Hin | apply Hall; left; reflexivity] |].
      intros x' Hx'. apply Hall. right; exact Hx'.
Qed.

Lemma fold_filter_NoDup {X Y : Type} (keep : X -> Y -> bool) (xs : list X) :
  forall init : list Y,
    NoDup init -> NoDup (fold_left (fun l x => filter (keep x) l) xs init).
Proof.
  induction xs as [| x xs IH]; intros init Hnd; cbn [fold_left]; [exact Hnd |].
  apply IH, NoDup_filter, Hnd.
Qed.

Lemma only_element {Y : Type} (l : list Y) (p : Y) :
  NoDup l -> (l = [p] <-> In p l /\ forall n, In n l -> n = p).
Proof.
  intros Hnd. split.
  - intros ->. split; [left; reflexivity |].
    intros n [<- | []]; reflexivity.
  - intros [Hin Hall]. destruct l as [| a [| b l]]; [contradiction | |].
    + rewrite (Hall a (or_introl eq_refl)). reflexivity.
    + exfalso. inversion Hnd as [| ? ? Hfresh _]; subst. apply Hfresh.
      rewrite (Hall a (or_introl eq_refl)),
        (Hall b (or_intror (or_introl eq_refl))). left; reflexivity.
Qed.

(* what the two filters of the function leave of an AGV's neighbour cells *)
Lemma free_neighbours_In (s : t) (j : nat) (item : Agv.t) (agvs : list Agv.t)
    (n : PointEx.t) :
  In n (free_neighbours s j item agvs)
  <-> PathPlanning.manhattan (Agv.position item) n = 1
      /\ ~ Obstacles.blocked s agvs j n.
Proof.
  unfold free_neighbours.
  rewrite (fold_filter_In
             (fun (x : nat * Agv.t) (n : PointEx.t) =>
                negb (PointEx.eqb n (Agv.position (snd x))))).
  rewrite filter_In, neighbours_adjacent, negb_true_iff.
  unfold Obstacles.blocked. split.
  - intros [[Hadj Hfixed] Hagvs]. split; [exact Hadj |].
    intros [Hin | (k & other & Hk & Hnth & Hpos)].
    + apply PointEx_mem_In in Hin. congruence.
    + assert (Hx : In (k, other)
                     (filter (fun x => PointEx.is_neighbour (Agv.position (snd x))
                                         (Agv.position item))
                        (others j agvs))).
      { apply filter_In. split.
        - unfold others. apply filter_In. split; [apply enumerate_In, Hnth |].
          simpl. apply negb_true_iff, Nat.eqb_neq, Hk.
        - simpl. rewrite Hpos. apply is_neighbour_four_adjacent.
          unfold Path.four_adjacent, PathPlanning.manhattan in Hadj |- *.
          lia. }
      specialize (Hagvs _ Hx). simpl in Hagvs. rewrite Hpos in Hagvs.
      rewrite PointEx_eqb_refl in Hagvs. discriminate.
  - intros [Hadj Hfree]. split; [split; [exact Hadj |] |].
    + destruct (PointEx.mem n (AgvContext.fixed_map_obstacles (context s)))
        eqn:Hmem; [| reflexivity].
      exfalso. apply Hfree. left. apply PointEx_mem_In, Hmem.
    + intros [k other] Hx. apply filter_In in Hx. destruct Hx as [Hx _].
      unfold others in Hx. apply filter_In in Hx. destruct Hx as [Hnth Hk].
      apply enumerate_In in Hnth. simpl in Hk.
      apply negb_true_iff, Nat.eqb_neq in Hk. simpl.
      apply negb_true_iff.
      destruct (PointEx.eqb n (Agv.position other)) eqn:Heq; [| reflexivity].
      exfalso. apply Hfree. right. exists k, other.
      apply PointEx_eqb_eq in Heq. auto.
Qed.

Lemma free_neighbours_NoDup (s : t) (j : nat) (item : Agv.t)
    (agvs : list Agv.t) :
  NoDup (free_neighbours s j item agvs).
Proof.
  unfold free_neighbours.
  apply (fold_filter_NoDup
           (fun (x : nat * Agv.t) (n : PointEx.t) =>
              negb (PointEx.eqb n (Agv.position (snd x))))).
  apply NoDup_filter, neighbours_NoDup.
Qed.

Lemma free_neighbours_single (s : t) (j : nat) (item : Agv.t)
    (agvs : list Agv.t) (p : PointEx.t) :
  free_neighbours s j item agvs = [p] <-> Obstacles.last_exit s agvs j item p.
Proof.
  rewrite (only_element _ p (free_neighbours_NoDup s j item agvs)).
  unfold Obstacles.last_exit. rewrite free_neighbours_In. split.
  - intros [[Hadj Hfree] Hall]. split; [exact Hadj |]. split; [exact Hfree |].
    intros n Hn Hnfree. apply Hall, free_neighbours_In. auto.
  - intros (Hadj & Hfree & Hall). split; [auto |].
    intros n Hn. apply free_neighbours_In in Hn. destruct Hn. auto.
Qed.
End FreeCellFacts.

(** The obstacles _get_obstacles reports for an AGV are cells at distance 1
    from it, and a cell at distance 1 is reported exactly when some AGV of
    the list stands on it, or it is the last exit of another AGV of the list:
    the one cell at distance 1 from that AGV that is neither a fixed obstacle
    nor the cell of a third AGV.  (An AGV whose other three sides are taken
    keeps its one way out.) *)
Theorem get_obstacles_characterised :
  forall (s : SchedulerService.t) (agv_ref : nat) (agv : Agv.t)
         (agvs : list Agv.t) (p : PointEx.t),
    In p (SchedulerService._get_obstacles s agv_ref agv agvs)
    <-> (PathPlanning.manhattan (Agv.position agv) p = 1
         /\ ((exists other : Agv.t, In other agvs /\ Agv.position other = p)
             \/ exists (j : nat) (item : Agv.t),
                  j <> agv_ref
                  /\ nth_error agvs j = Some item
                  /\ Obstacles.last_exit s agvs j item p)).
Proof.
  intros s r agv agvs p.
  rewrite get_obstacles_fold, neighbours_adjacent. split.
  - intros [Hadj [Hin | [[j item] [Hin Hfree]]]]; (split; [exact Hadj |]).
    + left. apply in_map_iff in Hin. destruct Hin as [other [Hpos Hin]].
      exists other. auto.
    + right. exists j, item. unfold SchedulerService.others in Hin.
      apply filter_In in Hin. destruct Hin as [Hnth Hj].
      apply enumerate_In in Hnth. simpl in Hj.
      apply negb_true_iff, Nat.eqb_neq in Hj.
      split; [exact Hj |]. split; [exact Hnth |].
      apply free_neighbours_single, Hfree.
  - intros [Hadj [[other [Hin Hpos]] | (j & item & Hj & Hnth & Hexit)]];
      (split; [exact Hadj |]).
    + left. rewrite <- Hpos. apply in_map, Hin.
    + right. exists (j, item). split.
      * unfold SchedulerService.others. apply filter_In.
        split; [apply enumerate_In, Hnth |].
        simpl. apply negb_true_iff, Nat.eqb_neq, Hj.
      * apply free_neighbours_single, Hexit.
Qed.

(** ** Running to completion *)

Section CompleteFacts.
Import SchedulerService.

Lemma process_loop_outcome (fuel : nat) :
  forall (s s' : t) (u : option unit),
    process_loop fuel s = (Ok u, s') ->
    u = None
    \/ (AgvContext.all_tasks_completed (context s') = true
        /\ exists n, Run.run_ticks n s = Some s').
Proof.
  induction fuel as [| fuel IH]; intros s s' u; simpl.
  - intros H; injection H as <- _. left; reflexivity.
  - unfold bind at 1, get at 1.
    destruct (AgvContext.all_tasks_completed (context s)) eqn:Hdone.
    + intros H; injection H as <- <-. right. split; [exact Hdone |].
      exists 0%nat. reflexivity.
    + unfold bind. destruct (process s) as [[v | e] s1] eqn:Hp; [| discriminate].
      intros H. destruct (IH _ _ _ H) as [-> | [Hc [n Hn]]];
        [left; reflexivity | right].
      split; [exact Hc |]. exists (S n). simpl. rewrite Hdone, Hp. exact Hn.
Qed.
End CompleteFacts.

(** process_to_complete does nothing when every task is already completed;
    and whenever it returns, every task is completed and the scheduler is in
    the state reached by a whole number of ticks, each started with a task
    left and ended normally, the timestamp having advanced by that number. *)
Theorem process_to_complete_outcome :
  forall s : SchedulerService.t,
    (AgvContext.all_tasks_completed (SchedulerService.context s) = true ->
     SchedulerService.process_to_complete s = (Ok (Some tt), s))
    /\ (forall (u : option unit) (s' : SchedulerService.t),
          SchedulerService.process_to_complete s = (Ok u, s') ->
          u = Some tt
          /\ AgvContext.all_tasks_completed (SchedulerService.context s') = true
          /\ exists n : nat,
               Run.run_ticks n s = Some s'
               /\ SchedulerService.timestamp s'
                  = SchedulerService.timestamp s + Z.of_nat n).
Proof.
  intros s. unfold SchedulerService.process_to_complete.
  unfold SchedulerService.bind at 1 2, SchedulerService.get at 1 2. split.
  - intros Hdone. cbn [SchedulerService.process_loop].
    unfold SchedulerService.bind, SchedulerService.get. rewrite Hdone.
    reflexivity.
  - intros u s' H.
    pose proof (process_loop_terminates
                  (S (Z.to_nat (SchedulerService.MAX_TIMESTAMP + 2
                                - SchedulerService.timestamp s))) s) as Hterm.
    destruct (process_loop_outcome _ _ _ _ H) as [-> | [Hc [n Hn]]].
    + exfalso. apply Hterm; [lia |]. rewrite H. reflexivity.
    + split.
      * destruct u as [[] |]; [reflexivity |].
        exfalso. apply Hterm; [lia |]. rewrite H. reflexivity.
      * split; [exact Hc |]. exists n. split; [exact Hn |].
        exact (proj2 (run_ticks_loop n s s' 0 Hn)).
Qed.

(** ** The order of the pending tasks *)

Section HeadsFirstFacts.
Import AgvContext.

Lemma sorted_before {A : Type} (R : A -> A -> Prop) (l : list A) (a b : A) :
  (forall x, R x x) ->
  StronglySorted R l -> In a l -> In b l -> ~ R b a ->
  exists l1 l2 l3, l = l1 ++ a :: l2 ++ b :: l3.
Proof.
  intros Hrefl Hs. induction Hs as [| x l Hs IH Hall]; [contradiction |].
  intros Ha Hb Hnot. destruct Ha as [-> | Ha].
  - destruct Hb as [-> | Hb]; [exfalso; apply Hnot, Hrefl |].
    destruct (in_split _ _ Hb) as [l2 [l3 ->]]. exists [], l2, l3. reflexivity.
  - destruct Hb as [-> | Hb].
    + exfalso. apply Hnot. rewrite Forall_forall in Hall. apply Hall, Ha.
    + destruct (IH Ha Hb Hnot) as [l1 [l2 [l3 ->]]].
      exists (x :: l1), l2, l3. reflexivity.
Qed.

Lemma sorted_pending (c : t) :
  exists sorted : list (nat * TaskEx.t),
    get_sorted_pending_tasks c = Ok (map fst sorted)
    /\ Permutation sorted (pending c)
    /\ Ordering.ascending c sorted.
Proof.
  set (keyed := map (fun task => (Ordering.compound_key c task, task))
                    (pending c)).
  assert (Hsnd : map snd keyed = pending c).
  { unfold keyed. rewrite map_map. apply map_id. }
  assert (Hperm : Permutation (stable_sort sort_key_leb keyed) keyed)
    by apply stable_sort_perm.
  exists (map snd (stable_sort sort_key_leb keyed)). split; [| split].
  - unfold get_sorted_pending_tasks.
    rewrite (result_list_map_ok _
               (fun task => (Ordering.compound_key c task, task))).
    + fold keyed. rewrite map_map. reflexivity.
    + intros task Hin. rewrite sort_key_compound by assumption. reflexivity.
  - rewrite <- Hsnd. apply Permutation_map, Hperm.
  - apply sorted_by_key.
    + eapply Permutation_Forall; [apply Permutation_sym, Hperm |].
      unfold keyed. apply Forall_map. apply Forall_forall. reflexivity.
    + apply stable_sort_sorted;
        [exact sort_key_leb_total | exact sort_key_leb_trans].
Qed.
End HeadsFirstFacts.

(** get_sorted_pending_tasks serves the queues of the start points in rounds:
    a pending task that stands earlier in the queue of its start point comes
    before every pending task that stands later in the queue of its own,
    whatever their priorities. *)
Theorem queue_heads_first :
  forall (c : AgvContext.t) (refs : list nat) (a b : nat * TaskEx.t),
    AgvContext.get_sorted_pending_tasks c = Ok refs ->
    In a (AgvContext.pending c) ->
    In b (AgvContext.pending c) ->
    (Ordering.index_of (fst a) (map fst (Ordering.group_of c a))
     < Ordering.index_of (fst b) (map fst (Ordering.group_of c b)))%nat ->
    exists l1 l2 l3, refs = l1 ++ fst a :: l2 ++ fst b :: l3.
Proof.
  intros c refs a b Hsorted Ha Hb Hlt.
  destruct (sorted_pending c) as [sorted [Hget [Hperm Hasc]]].
  rewrite Hget in Hsorted. injection Hsorted as <-.
  destruct (sorted_before
              (fun x y => Ordering.lex_le (Ordering.compound_key c x)
                            (Ordering.compound_key c y))
              sorted a b) as [l1 [l2 [l3 ->]]].
  - intros x. apply sort_key_leb_lex.
    destruct (sort_key_leb_total (Ordering.compound_key c x)
                (Ordering.compound_key c x)); assumption.
  - exact Hasc.
  - apply (Permutation_in _ (Permutation_sym Hperm)), Ha.
  - apply (Permutation_in _ (Permutation_sym Hperm)), Hb.
  - intros Hle. unfold Ordering.lex_le, Ordering.compound_key in Hle. lia.
  - exists (map fst l1), (map fst l2), (map fst l3).
    rewrite map_app. simpl. rewrite map_app. reflexivity.
Qed.

Lemma queue_heads_first_witness :
  exists l1 l2 l3, [0%nat; 1%nat] = l1 ++ 0%nat :: l2 ++ 1%nat :: l3.
Proof.
  apply (queue_heads_first Ordering.two_tasks [0%nat; 1%nat]
           (0%nat, TaskEx.init (TaskRecord.mk "T" "S1" "E1" TaskPriority.NORMAL None)
                     (PointEx.mk 5 5) (PointEx.mk 15 5))
           (1%nat, TaskEx.init (TaskRecord.mk "T" "S1" "E1" TaskPriority.HIGH None)
                     (PointEx.mk 5 5) (PointEx.mk 15 5))).
  - vm_compute. reflexivity.
  - left; reflexivity.
  - right; left; reflexivity.
  - vm_compute. lia.
Defined.

(** ** The nearest idle AGV *)

Section NearestFacts.
Import SchedulerService.

Lemma cost_leb_total (a b : option Z) : cost_leb a b = true \/ cost_leb b a = true.
Proof.
  destruct a as [x |], b as [y |]; simpl; auto.
  destruct (Z.leb_spec x y); [left; reflexivity | right; apply Z.leb_le; lia].
Qed.

Lemma cost_leb_trans (a b c : option Z) :
  cost_leb a b = true -> cost_leb b c = true -> cost_leb a c = true.
Proof.
  destruct a as [x |], b as [y |], c as [z |]; simpl; try discriminate; auto.
  rewrite !Z.leb_le. lia.
Qed.

Lemma cost_leb_antisym (a b : option Z) :
  cost_leb a b = true -> cost_leb b a = true -> a = b.
Proof.
  destruct a as [x |], b as [y |]; simpl; try discriminate; auto.
  rewrite !Z.leb_le. intros. f_equal. lia.
Qed.

Lemma cost_eqb_eq (a b : option Z) : Nearest.cost_eqb a b = true <-> a = b.
Proof.
  destruct a as [x |], b as [y |]; simpl; split; intros H;
    try discriminate; try reflexivity.
  - apply Z.eqb_eq in H. congruence.
  - injection H as ->. apply Z.eqb_refl.
Qed.

Lemma filter_head_split {A : Type} (f : A -> bool) (l : list A) (e : A)
    (r : list A) :
  filter f l = e :: r ->
  exists l1 l2, l = l1 ++ e :: l2 /\ Forall (fun x => f x = false) l1.
Proof.
  induction l as [| x l IH]; simpl; [discriminate |].
  destruct (f x) eqn:E.
  - intros H; injection H as -> _. exists [], l. split; [reflexivity | constructor].
  - intros H. destruct (IH H) as [l1 [l2 [-> Hl1]]].
    exists (x :: l1), l2. split; [reflexivity | constructor; assumption].
Qed.

(* the head of a stably sorted list: a least element, and the first of them *)
Lemma stable_sort_head (l : list (option Z * (nat * list PathTimePoint.t)))
    (e : option Z * (nat * list PathTimePoint.t))
    (rest : list (option Z * (nat * list PathTimePoint.t))) :
  stable_sort cost_leb l = e :: rest ->
  exists l1 l2,
    l = l1 ++ e :: l2
    /\ Forall (fun x => cost_leb (fst x) (fst e) = false) l1
    /\ Forall (fun x => cost_leb (fst e) (fst x) = true) l2.
Proof.
  intros Hsort.
  assert (Hleast : forall x, In x l -> cost_leb (fst e) (fst x) = true).
  { intros x Hx.
    pose proof (stable_sort_sorted cost_leb cost_leb_total cost_leb_trans l)
      as Hs.
    rewrite Hsort in Hs. inversion Hs as [| ? ? _ Hall]; subst.
    apply (Permutation_in _ (Permutation_sym (stable_sort_perm cost_leb l)))
      in Hx.
    rewrite Hsort in Hx. destruct Hx as [<- | Hx].
    - destruct (cost_leb_total (fst e) (fst e)); assumption.
    - rewrite Forall_forall in Hall. apply Hall, Hx. }
  pose proof (stable_sort_stable cost_leb cost_leb_total Nearest.cost_eqb
                cost_eqb_eq (fst e) l)
    as Hstable.
  rewrite Hsort in Hstable. cbn [filter] in Hstable.
  rewrite (proj2 (cost_eqb_eq (fst e) (fst e)) eq_refl) in Hstable.
  symmetry in Hstable.
  destruct (filter_head_split _ _ _ _ Hstable) as [l1 [l2 [-> Hl1]]].
  exists l1, l2. split; [reflexivity |]. split.
  - rewrite Forall_forall in *. intros x Hx.
    destruct (cost_leb (fst x) (fst e)) eqn:E; [| reflexivity].
    assert (Heq : fst x = fst e).
    { apply cost_leb_antisym; [exact E |].
      apply Hleast, in_or_app. left; exact Hx. }
    apply cost_eqb_eq in Heq. rewrite (Hl1 x Hx) in Heq. discriminate.
  - apply Forall_forall. intros x Hx. apply Hleast, in_or_app.
    right; right; exact Hx.
Qed.

(* computing the options reads the scheduler and changes nothing *)
Lemma assignment_options_reads (task : TaskEx.t) (idle : list nat) (s : t) :
  snd (assignment_options task idle s) = s
  /\ forall options,
       fst (assignment_options task idle s) = Ok options ->
       map fst options = idle
       /\ Forall (fun r => exists agv, nth_error (agvs s) r = Some agv) idle.
Proof.
  induction idle as [| r idle IH]; simpl.
  - split; [reflexivity |]. intros options H; injection H as <-.
    split; [reflexivity | constructor].
  - unfold bind at 1. unfold assignment_option, bind, get_agv, get, lift, ret.
    destruct (nth_error (agvs s) r) as [agv |] eqn:Hagv;
      [| split; [reflexivity | discriminate]].
    destruct (PathPlanning.calculate_path_timing _ (Agv.pitch agv))
      as [ptp |]; [| split; [reflexivity | discriminate]].
    fold (assignment_options task idle).
    destruct IH as [Hs Hopt].
    destruct (assignment_options task idle s) as [[os | e] s1]; simpl in *;
      subst s1; (split; [reflexivity |]); [| discriminate].
    intros options H; injection H as <-.
    destruct (Hopt os eq_refl) as [Hfst Hall]. simpl. rewrite Hfst.
    split; [reflexivity |]. constructor; [exists agv; exact Hagv | exact Hall].
Qed.
Lemma last_time_cost_arrival (ptp : list PathTimePoint.t) :
  last_time_cost ptp = Nearest.arrival ptp.
Proof.
  destruct ptp as [| p rest]; [reflexivity |]. cbn [Nearest.arrival].
  revert p. induction rest as [| q rest IH]; intros p; [reflexivity |].
  change (last_time_cost (p :: q :: rest)) with (last_time_cost (q :: rest)).
  rewrite IH, last_cons. reflexivity.
Qed.

Lemma cost_leb_no_later (a b : option Z) :
  cost_leb a b = true <-> Nearest.no_later a b.
Proof.
  destruct a as [x |], b as [y |]; simpl; try tauto;
    [apply Z.leb_le | split; [discriminate | contradiction]].
Qed.

Lemma cost_leb_sooner (a b : option Z) :
  cost_leb a b = false <-> Nearest.sooner b a.
Proof.
  destruct a as [x |], b as [y |]; simpl;
    try (split; [discriminate | contradiction]); try tauto.
  rewrite Z.leb_gt. reflexivity.
Qed.

Lemma ref_remove_split (r : nat) (refs : list nat) :
  In r refs ->
  exists l1 l2,
    refs = l1 ++ r :: l2 /\ ~ In r l1 /\ ref_remove r refs = l1 ++ l2.
Proof.
  induction refs as [| q refs IH]; [contradiction |]. simpl.
  destruct (Nat.eqb_spec q r) as [-> | Hne].
  - intros _. exists [], refs. auto.
  - intros [H | H]; [contradiction |].
    destruct (IH H) as (l1 & l2 & -> & Hl1 & ->).
    exists (q :: l1), l2. split; [reflexivity |]. split; [| reflexivity].
    intros [Hq | Hin]; auto.
Qed.

Lemma dict_get_set_other (d : assignments) (k k' v : nat) :
  k' <> k -> dict_get (dict_set d k v) k' = dict_get d k'.
Proof.
  intros Hne. induction d as [| [k0 v0] d IH]; simpl.
  - destruct (Nat.eqb_spec k k'); [congruence | reflexivity].
  - destruct (Nat.eqb_spec k0 k) as [-> | Hk0]; simpl.
    + destruct (Nat.eqb_spec k k'); [congruence | reflexivity].
    + destruct (Nat.eqb k0 k'); [reflexivity | exact IH].
Qed.

(* each option is the timing of the path planned for its AGV *)
Lemma assignment_options_planned (task : TaskEx.t) (idle : list nat) (s : t) :
  forall options,
    fst (assignment_options task idle s) = Ok options ->
    Forall2 (Nearest.planned_for s task) idle options.
Proof.
  induction idle as [| r idle IH]; simpl.
  - intros options H; injection H as <-. constructor.
  - unfold bind at 1. unfold assignment_option, bind, get_agv, get, lift, ret.
    destruct (nth_error (agvs s) r) as [agv |] eqn:Hagv; [| discriminate].
    destruct (PathPlanning.calculate_path_timing _ (Agv.pitch agv))
      as [ptp |] eqn:Hptp; [| discriminate].
    fold (assignment_options task idle).
    pose proof (proj1 (assignment_options_reads task idle s)) as Hstate.
    destruct (assignment_options task idle s) as [[os | e] s1]; simpl in *;
      [| discriminate].
    intros options H; injection H as <-.
    constructor; [| apply IH; reflexivity].
    split; [reflexivity |]. exists agv. split; [exact Hagv | exact Hptp].
Qed.

End NearestFacts.

(** Among the idle AGVs the assignment step gives the task to one whose timed
    path to the pickup cell ends soonest, an AGV without a path counting as
    arriving never: the AGV chosen arrives strictly sooner than every AGV
    before it in the idle list and no later than every AGV after it.  Its
    first occurrence leaves the idle list, the assignment table maps it to
    the task and keeps its other entries, and the AGV holds the timed path,
    nothing else of it and no other AGV or task having changed. *)
Theorem assign_task_takes_nearest :
  forall (s : SchedulerService.t) (task_ref : nat) (task : TaskEx.t)
         (idle_agvs : list nat) (temp_assignments : SchedulerService.assignments)
         (options : list (nat * list PathTimePoint.t)),
    nth_error (SchedulerService.tasks s) task_ref = Some task ->
    fst (SchedulerService.assignment_options task idle_agvs s) = Ok options ->
    idle_agvs <> [] ->
    Forall2 (Nearest.planned_for s task) idle_agvs options
    /\ exists (before : list (nat * list PathTimePoint.t)) (selected : nat)
           (path_time_points : list PathTimePoint.t)
           (after : list (nat * list PathTimePoint.t)) (agv agv' : Agv.t)
           (idle' : list nat) (temp' : SchedulerService.assignments)
           (s' : SchedulerService.t),
      options = before ++ (selected, path_time_points) :: after
      /\ (forall o, In o before ->
            Nearest.sooner (Nearest.arrival path_time_points)
              (Nearest.arrival (snd o)))
      /\ (forall o, In o after ->
            Nearest.no_later (Nearest.arrival path_time_points)
              (Nearest.arrival (snd o)))
      /\ SchedulerService.assign_task task_ref (idle_agvs, temp_assignments) s
         = (Ok (idle', temp'), s')
      /\ (exists l1 l2 : list nat,
            idle_agvs = l1 ++ selected :: l2
            /\ ~ In selected l1
            /\ idle' = l1 ++ l2)
      /\ SchedulerService.dict_get temp' selected = Some task_ref
      /\ (forall k : nat,
            k <> selected ->
            SchedulerService.dict_get temp' k
            = SchedulerService.dict_get temp_assignments k)
      /\ nth_error (SchedulerService.agvs s) selected = Some agv
      /\ nth_error (SchedulerService.agvs s') selected = Some agv'
      /\ Agv.path_time_points agv' = path_time_points
      /\ Agv.name agv' = Agv.name agv
      /\ Agv.position agv' = Agv.position agv
      /\ Agv.pitch agv' = Agv.pitch agv
      /\ Agv.is_loaded agv' = Agv.is_loaded agv
      /\ Agv.loaded_task agv' = Agv.loaded_task agv
      /\ (forall r : nat,
            r <> selected ->
            nth_error (SchedulerService.agvs s') r
            = nth_error (SchedulerService.agvs s) r)
      /\ SchedulerService.tasks s' = SchedulerService.tasks s.
Proof.
  intros s task_ref task idle temp options Htask Hoptions Hidle.
  split; [exact (assignment_options_planned task idle s options Hoptions) |].
  destruct (assignment_options_reads task idle s) as [Hstate Hrefs].
  destruct (Hrefs options Hoptions) as [Hfst Hagvs].
  set (keyed := map (fun o : nat * list PathTimePoint.t =>
                       (SchedulerService.last_time_cost (snd o), o)) options).
  assert (Hsnd : map snd keyed = options).
  { unfold keyed. rewrite map_map. apply map_id. }
  assert (Hkey : forall x, In x keyed ->
                           fst x = SchedulerService.last_time_cost (snd (snd x))).
  { intros x Hx. unfold keyed in Hx. apply in_map_iff in Hx.
    destruct Hx as [o [<- _]]. reflexivity. }
  destruct (stable_sort SchedulerService.cost_leb keyed)
    as [| [k [selected ptp]] rest] eqn:Hsort.
  { exfalso. pose proof (stable_sort_perm SchedulerService.cost_leb keyed) as Hp.
    rewrite Hsort in Hp. apply Permutation_nil in Hp.
    apply (f_equal (@length _)) in Hp. unfold keyed in Hp.
    rewrite length_map, <- (length_map fst), Hfst in Hp.
    destruct idle; [congruence | discriminate]. }
  destruct (stable_sort_head _ _ _ Hsort) as [l1 [l2 [Hsplit [Hl1 Hl2]]]].
  assert (Hk : k = SchedulerService.last_time_cost ptp).
  { apply (Hkey (k, (selected, ptp))). rewrite Hsplit. apply in_or_app.
    right; left; reflexivity. }
  assert (Hsel : In selected idle).
  { rewrite <- Hfst, <- Hsnd, Hsplit, !map_app. apply in_or_app.
    right; left; reflexivity. }
  rewrite Forall_forall in Hagvs. destruct (Hagvs selected Hsel) as [agv Hagv].
  exists (map snd l1), selected, ptp, (map snd l2), agv,
    (Agv.set_path_time_points agv ptp), (ref_remove selected idle),
    (SchedulerService.dict_set temp selected task_ref),
    (SchedulerService.with_agvs s
       (list_set (SchedulerService.agvs s) selected
          (Agv.set_path_time_points agv ptp))).
  split; [| split; [| split; [| split; [| split; [| split; [| split]]]]]].
  - rewrite <- Hsnd, Hsplit, map_app. reflexivity.
  - intros o Ho. apply in_map_iff in Ho. destruct Ho as [x [<- Hx]].
    rewrite Forall_forall in Hl1. specialize (Hl1 x Hx). simpl in Hl1.
    rewrite <- !last_time_cost_arrival. apply cost_leb_sooner.
    rewrite <- Hk, <- Hkey; [exact Hl1 |].
    rewrite Hsplit. apply in_or_app. left; exact Hx.
  - intros o Ho. apply in_map_iff in Ho. destruct Ho as [x [<- Hx]].
    rewrite Forall_forall in Hl2. specialize (Hl2 x Hx). simpl in Hl2.
    rewrite <- !last_time_cost_arrival. apply cost_leb_no_later.
    rewrite <- Hk, <- Hkey; [exact Hl2 |].
    rewrite Hsplit. apply in_or_app. right; right; exact Hx.
  - unfold SchedulerService.assign_task.
    unfold SchedulerService.bind at 1. unfold SchedulerService.get_task.
    rewrite Htask. unfold SchedulerService.bind at 1.
    destruct (SchedulerService.assignment_options task idle s)
      as [[os | e] s1] eqn:Hrun; simpl in Hoptions, Hstate;
      [| discriminate]. injection Hoptions as ->. subst s1.
    fold keyed. rewrite Hsort.
    unfold SchedulerService.bind, SchedulerService.set_path_time_points,
      SchedulerService.call_agv, SchedulerService.ret.
    rewrite Hagv. reflexivity.
  - destruct (ref_remove_split selected idle Hsel) as (i1 & i2 & H1 & H2 & H3).
    exists i1, i2. auto.
  - apply dict_get_set.
  - intros k' Hk'. apply dict_get_set_other, Hk'.
  - split; [exact Hagv |].
    split; [apply (nth_error_list_set_same _ _ _ _ Hagv) |].
    repeat (split; [reflexivity |]). split; [| reflexivity].
    intros r Hr. apply nth_error_list_set_other. congruence.
Qed.

Lemma assign_task_takes_nearest_witness :
  map (fun o => (fst o, Nearest.arrival (snd o)))
    (Nearest.options_of Worlds.crossing_start
       (TaskEx.init (TaskRecord.mk "TM" "S1" "EM" TaskPriority.NORMAL None)
          (PointEx.mk 2 2) (PointEx.mk 14 6)) [0%nat; 1%nat])
  = [(0%nat, Some 8); (1%nat, Some 7)]
  /\ fst (SchedulerService.assign_task 0 ([0%nat; 1%nat], [])
            Worlds.crossing_start)
     = Ok ([0%nat], [(1%nat, 0%nat)])
  /\ exists (selected : nat) (before : list (nat * list PathTimePoint.t))
            (path_time_points : list PathTimePoint.t),
       SchedulerService.dict_get [(1%nat, 0%nat)] selected = Some 0%nat
       /\ forall o, In o before ->
            Nearest.sooner (Nearest.arrival path_time_points)
              (Nearest.arrival (snd o)).
Proof.
  split; [vm_compute; reflexivity |].
  destruct (assign_task_takes_nearest Worlds.crossing_start 0
              (TaskEx.init (TaskRecord.mk "TM" "S1" "EM" TaskPriority.NORMAL None)
                 (PointEx.mk 2 2) (PointEx.mk 14 6))
              [0%nat; 1%nat] []
              (Nearest.options_of Worlds.crossing_start
                 (TaskEx.init
                    (TaskRecord.mk "TM" "S1" "EM" TaskPriority.NORMAL None)
                    (PointEx.mk 2 2) (PointEx.mk 14 6)) [0%nat; 1%nat]))
    as (_ & before & selected & ptp & after & agv & agv' & idle' & temp' & s'
        & _ & Hbefore & _ & Hrun & _ & Hget & _).
  - reflexivity.
  - vm_compute. reflexivity.
  - discriminate.
  - pose proof (f_equal fst Hrun) as H. vm_compute in H.
    injection H as <- <-. split; [reflexivity |].
    exists selected, before, ptp. split; [exact Hget | exact Hbefore].
Defined.

(** ** Where tasks are taken and delivered *)

Section DeliveryFacts.
Import SchedulerService.

Lemma Forall2_list_set_r {A B : Type} (P : A -> B -> Prop) (l0 : list A)
    (l : list B) (i : nat) (b b' : B) :
  Forall2 P l0 l -> nth_error l i = Some b ->
  (forall a, P a b -> P a b') ->
  Forall2 P l0 (list_set l i b').
Proof.
  intros H. revert i. induction H as [| a0 x l0 l Hax Hl IH]; intros [| i]; simpl;
    try discriminate.
  - intros Hb Hp. injection Hb as ->. constructor; [apply Hp, Hax | exact Hl].
  - intros Hb Hp. constructor; [exact Hax | apply IH; assumption].
Qed.

Lemma Forall2_nth_error_r {A B : Type} (P : A -> B -> Prop) (l0 : list A)
    (l : list B) :
  Forall2 P l0 l ->
  forall i b, nth_error l i = Some b ->
              exists a, nth_error l0 i = Some a /\ P a b.
Proof.
  induction 1 as [| a0 x l0 l Hax _ IH]; intros [| i] b; simpl; try discriminate.
  - intros H; injection H as <-. exists a0. auto.
  - apply IH.
Qed.

Lemma during_refl (s0 : t) : Delivery.during s0 s0.
Proof.
  split; [reflexivity |]. split; [apply Forall2_same, task_step_refl |].
  intros j task0 task H0 H. rewrite H0 in H. injection H as <-.
  split; [congruence | intros Hn i Hi; congruence].
Qed.

Lemma standing_refl (s0 : t) : Delivery.standing s0 s0.
Proof. apply Forall2_same. reflexivity. Qed.

Lemma holding_refl (s0 : t) : Delivery.holding s0 s0.
Proof. apply Forall2_same. auto. Qed.

Lemma during_calm (s0 s s' : t) :
  Delivery.during s0 s -> Delivery.calm s s' -> Delivery.during s0 s'.
Proof.
  intros (Ht & Hs & He) [Htasks Htime]. unfold Delivery.during.
  rewrite Htasks, Htime. auto.
Qed.

(* a task replaced in the table by a later version of itself *)
Lemma during_task (s0 s s' : t) (j : nat) (task task' : TaskEx.t) :
  Delivery.during s0 s ->
  timestamp s' = timestamp s ->
  nth_error (tasks s) j = Some task ->
  tasks s' = list_set (tasks s) j task' ->
  Progress.task_step task task' ->
  (forall task0, nth_error (tasks s0) j = Some task0 ->
                 Delivery.task_events s0 j task0 task ->
                 Delivery.task_events s0 j task0 task') ->
  Delivery.during s0 s'.
Proof.
  intros (Ht & Hs & He) Htime Hj Htasks Hstep Hev. unfold Delivery.during.
  rewrite Htime, Htasks. split; [exact Ht |]. split.
  - eapply Forall2_chain; [exact task_step_trans | exact Hs |].
    apply Forall2_list_set with (a := task);
      [exact task_step_refl | exact Hj | exact Hstep].
  - intros k task0 t H0 H. destruct (Nat.eq_dec j k) as [<- | Hne].
    + rewrite (nth_error_list_set_same _ _ _ _ Hj) in H. injection H as <-.
      apply Hev; [exact H0 |]. apply He; assumption.
    + rewrite nth_error_list_set_other in H by exact Hne. apply He; assumption.
Qed.

(** phase 1 *)

Lemma unload_step_during (s0 : t) (r : nat) (handled : list nat) (s : t) :
  Delivery.during s0 s -> Delivery.standing s0 s -> Delivery.holding s0 s ->
  Delivery.during s0 (snd (unload_step r handled s))
  /\ Delivery.standing s0 (snd (unload_step r handled s))
  /\ Delivery.holding s0 (snd (unload_step r handled s)).
Proof.
  intros Hd Hst Hh. unfold unload_step.
  destruct (ref_mem r handled); [simpl; auto |].
  unfold bind, get_agv, get, lift.
  destruct (nth_error (agvs s) r) as [agv |] eqn:Hagv; [| simpl; auto].
  destruct (Agv.can_unload agv (tasks s)) as [[|] | e] eqn:Hcan;
    try (simpl; auto; fail).
  unfold call_agv_task. rewrite Hagv.
  unfold Agv.can_unload in Hcan. unfold Agv.unload.
  destruct (Agv.is_loaded agv); [| discriminate].
  destruct (Agv.loaded_task agv) as [j |] eqn:Hj; [| discriminate].
  destruct (nth_error (tasks s) j) as [task |] eqn:Htask; [| discriminate].
  injection Hcan as Hnext. cbn [snd fst ret].
  destruct (Forall2_nth_error_r _ _ _ Hst _ _ Hagv) as [a0 [Ha0 Hpos]].
  destruct (Forall2_nth_error_r _ _ _ Hh _ _ Hagv) as [a0' [Ha0' Hheld]].
  rewrite Ha0 in Ha0'. injection Ha0' as <-.
  split; [| split].
  - apply during_task with (s := s) (j := j) (task := task)
      (task' := TaskEx.unload task (timestamp s));
      [exact Hd | reflexivity | exact Htask | reflexivity
      | repeat split; auto |].
    intros task0 H0 [Hdone Htaken]. split.
    + intros Hc0 _. destruct Hd as (Ht & Hsteps & _). split; [exact Ht |].
      exists r, a0. split; [exact Ha0 |]. split; [apply Hheld, Hj |].
      destruct (Forall2_nth_error _ _ _ Hsteps _ _ H0) as [task1 [H1 Hs1]].
      rewrite Htask in H1. injection H1 as <-.
      destruct Hs1 as (_ & _ & _ & _ & _ & Hend & _).
      rewrite <- Hpos, <- Hend. exact Hnext.
    + exact Htaken.
  - unfold Delivery.standing in *. cbn.
    eapply Forall2_list_set_r; [exact Hst | exact Hagv |].
    intros a Ha. exact Ha.
  - unfold Delivery.holding in *. cbn.
    eapply Forall2_list_set_r; [exact Hh | exact Hagv |].
    intros a _ k Hk. discriminate Hk.
Qed.

Lemma unload_loop_during (s0 : t) (refs : list nat) :
  forall (handled : list nat) (s : t),
    Delivery.during s0 s -> Delivery.standing s0 s -> Delivery.holding s0 s ->
    Delivery.during s0 (snd (for_each unload_step refs handled s))
    /\ Delivery.standing s0 (snd (for_each unload_step refs handled s)).
Proof.
  induction refs as [| r refs IH]; intros handled s Hd Hst Hh; cbn [for_each].
  - simpl. auto.
  - destruct (unload_step_during s0 r handled s Hd Hst Hh) as (Hd1 & Hst1 & Hh1).
    unfold bind.
    destruct (unload_step r handled s) as [[handled' | e] s1]; simpl in *;
      [apply IH; assumption | auto].
Qed.

(** phase 2 *)

Lemma load_scan_during (s0 : t) (r : nat) (pending : list nat) :
  forall (handled : list nat) (s : t),
    Delivery.during s0 s -> Delivery.standing s0 s ->
    Delivery.during s0 (snd (load_scan r pending handled s))
    /\ Delivery.standing s0 (snd (load_scan r pending handled s)).
Proof.
  induction pending as [| j pending IH]; intros handled s Hd Hst;
    cbn [load_scan]; [simpl; auto |].
  unfold bind, get_task, get_agv, get, call_agv_task, Agv.load, ret.
  destruct (nth_error (tasks s) j) as [task |] eqn:Htask; [| simpl; auto].
  destruct (nth_error (agvs s) r) as [agv |] eqn:Hagv; [| simpl; auto].
  destruct (PointEx.eqb (TaskEx.pickup_position task) (Agv.position agv))
    eqn:Hat; [| apply IH; assumption].
  apply PointEx_eqb_eq in Hat. cbv beta iota. rewrite Hagv, Htask.
  cbv beta iota. cbn [snd fst].
  destruct (Forall2_nth_error_r _ _ _ Hst _ _ Hagv) as [a0 [Ha0 Hpos]].
  split.
  - apply during_task with (s := s) (j := j) (task := task)
      (task' := TaskEx.load_by task r (timestamp s));
      [exact Hd | reflexivity | exact Htask | reflexivity
      | repeat split; auto |].
    intros task0 H0 [Hdone Htaken]. split; [exact Hdone |].
    intros Hnone i Hi. simpl in Hi. injection Hi as <-.
    destruct Hd as (Ht & Hsteps & _). split; [exact Ht |].
    exists a0. split; [exact Ha0 |].
    destruct (Forall2_nth_error _ _ _ Hsteps _ _ H0) as [task1 [H1 Hs1]].
    rewrite Htask in H1. injection H1 as <-.
    destruct Hs1 as (_ & _ & _ & _ & _ & _ & Hpick & _).
    rewrite <- Hpos, <- Hpick. symmetry. exact Hat.
  - unfold Delivery.standing in *. cbn.
    eapply Forall2_list_set_r; [exact Hst | exact Hagv |].
    intros a Ha. exact Ha.
Qed.

Lemma load_loop_during (s0 : t) (pending refs : list nat) :
  forall (handled : list nat) (s : t),
    Delivery.during s0 s -> Delivery.standing s0 s ->
    Delivery.during s0 (snd (for_each (load_step pending) refs handled s)).
Proof.
  induction refs as [| r refs IH]; intros handled s Hd Hst; cbn [for_each];
    [simpl; auto |].
  assert (Hstep : Delivery.during s0 (snd (load_step pending r handled s))
                  /\ Delivery.standing s0 (snd (load_step pending r handled s))).
  { unfold load_step. unfold bind, get_agv.
    destruct (nth_error (agvs s) r) as [agv |]; [| simpl; auto].
    destruct (ref_mem r handled || Agv.is_loaded agv); [simpl; auto |].
    apply load_scan_during; assumption. }
  destruct Hstep as [Hd1 Hst1]. unfold bind.
  destruct (load_step pending r handled s) as [[handled' | e] s1]; simpl in *;
    [apply IH; assumption | auto].
Qed.

(** the phases after the loading leave the task table alone *)

Lemma calm_refl (s : t) : Delivery.calm s s.
Proof. split; reflexivity. Qed.

Lemma calm_trans (a b c : t) :
  Delivery.calm a b -> Delivery.calm b c -> Delivery.calm a c.
Proof. intros [H1 H2] [H3 H4]. split; congruence. Qed.

Lemma call_agv_calm (r : nat) (method : Agv.t -> result Agv.t) :
  Run.sat Delivery.calm Run.any_exn (call_agv r method).
Proof.
  intros s. split; [| intros; exact I]. unfold call_agv.
  destruct (nth_error (agvs s) r) as [a |]; [| apply calm_refl].
  destruct (method a); split; reflexivity.
Qed.

Ltac calm_side :=
  repeat match goal with
    | |- forall _, _ => intro
    | |- Delivery.calm ?s ?s => apply calm_refl
    | |- Delivery.calm _ _ => eapply calm_trans; eassumption
    | |- Run.any_exn _ => exact I
    | |- Run.sat _ _ (call_agv _ _) => apply call_agv_calm
    | |- Run.sat _ _ (set_path_time_points _ _) => apply call_agv_calm
    | |- Run.sat _ _ (set_trajectory_recorder _) =>
        let s := fresh "s" in
        intros s; split; [split; reflexivity | intros; exact I]
    | |- Run.sat _ _ (batch_move_one _ _ _ _) => apply sat_batch_move_one
    | |- Run.sat _ _ (park_step _ _) => apply sat_park_step
    end.

Lemma calm_turn_step (r : nat) (handled : list nat) :
  Run.sat Delivery.calm Run.any_exn (turn_step r handled).
Proof. apply sat_turn_step; calm_side. Qed.

Lemma calm_batch_move (agvs : list nat) (handled : list nat) (is_loaded : bool)
    (temp : option assignments) :
  Run.sat Delivery.calm Run.any_exn (batch_move agvs handled is_loaded temp).
Proof. apply sat_batch_move; calm_side. Qed.

Lemma calm_assign_loop (pending : list nat) (acc : assign_state) :
  Run.sat Delivery.calm Run.any_exn (assign_loop pending acc).
Proof. apply sat_assign_loop; calm_side. Qed.

Lemma calm_park_step (r : nat) (u : unit) :
  Run.sat Delivery.calm Run.any_exn (park_step r u).
Proof. apply sat_park_step; calm_side. Qed.

Lemma calm_record_tick : Run.sat Delivery.calm Run.any_exn record_tick.
Proof. apply sat_record_tick; calm_side. Qed.

Ltac calm_tac :=
  repeat first
    [ apply calm_batch_move | apply calm_assign_loop | apply calm_record_tick
    | apply sat_for_each; [calm_side ..| intros ];
      first [ apply calm_turn_step | apply calm_park_step | apply call_agv_calm ]
    | apply sat_filter_m; [calm_side ..| intros ];
      apply sat_bind; calm_side;
      first [ apply sat_get_agv; calm_side; apply any_exn_all
            | apply sat_lift; calm_side; eauto with exn ]
    | apply sat_get; calm_side
    | apply sat_ret; calm_side
    | apply sat_lift; calm_side; eauto with exn
    | apply sat_bind; [calm_side ..| | intros ]
    | match goal with
      | |- Run.sat _ _ (match ?x with _ => _ end) => destruct x
      end ].

Lemma phases_during (s0 : t) : Delivery.during s0 (snd (phases s0)).
Proof.
  unfold phases. unfold bind at 1, get at 1. unfold bind at 1.
  destruct (unload_loop_during s0 (agv_refs s0) [] s0 (during_refl s0)
              (standing_refl s0) (holding_refl s0)) as [Hd1 Hst1].
  destruct (for_each unload_step (agv_refs s0) [] s0) as [[handled | e] s1];
    simpl in Hd1, Hst1; [| exact Hd1].
  unfold bind at 1, get at 1. unfold bind at 1, lift at 1.
  destruct (AgvContext.get_sorted_pending_tasks (context s1))
    as [pending | e]; [| exact Hd1].
  unfold bind at 1.
  pose proof (load_loop_during s0 pending (agv_refs s0) handled s1 Hd1 Hst1)
    as Hd2.
  destruct (for_each (load_step pending) (agv_refs s0) handled s1)
    as [[handled' | e] s2]; simpl in Hd2; [| exact Hd2].
  match goal with
  | |- Delivery.during s0 (snd (?m s2)) =>
      assert (Hrest : Run.sat Delivery.calm Run.any_exn m)
  end.
  { unfold agv_should_turn, agv_should_move, agv_turn. calm_tac. }
  eapply during_calm; [exact Hd2 | apply (proj1 (Hrest s2))].
Qed.

Lemma process_during (s : t) (j : nat) (task task' : TaskEx.t) :
  nth_error (tasks s) j = Some task ->
  nth_error (tasks (snd (process s))) j = Some task' ->
  Delivery.task_events (mk (context s) (timestamp s + 1)) j task task'.
Proof.
  unfold process, bind, get.
  destruct (timestamp s >? MAX_TIMESTAMP).
  - simpl. intros H0 H. rewrite H0 in H. injection H as <-.
    split; [congruence | intros Hn i Hi; congruence].
  - unfold advance_timestamp. intros H0 H.
    destruct (phases_during (mk (context s) (timestamp s + 1)))
      as (_ & _ & He).
    exact (He j task task' H0 H).
Qed.
End DeliveryFacts.

(** A call of process completes a task only for an AGV that held it when the
    call began and stood next to the task's end point; the task then carries
    the new timestamp as its complete_timestamp. *)
Theorem completed_only_next_to_end_point :
  forall (s : SchedulerService.t) (j : nat) (task task' : TaskEx.t),
    nth_error (SchedulerService.tasks s) j = Some task ->
    nth_error (SchedulerService.tasks (snd (SchedulerService.process s))) j
    = Some task' ->
    TaskEx.is_completed task = false ->
    TaskEx.is_completed task' = true ->
    TaskEx.complete_timestamp task' = SchedulerService.timestamp s + 1
    /\ exists (i : nat) (a : Agv.t),
         nth_error (SchedulerService.agvs s) i = Some a
         /\ Agv.loaded_task a = Some j
         /\ PointEx.is_neighbour (Agv.position a) (TaskEx.end_position task)
            = true.
Proof.
  intros s j task task' H0 H Hc0 Hc.
  destruct (process_during s j task task' H0 H) as [Hdone _].
  exact (Hdone Hc0 Hc).
Qed.

Lemma completed_only_next_to_end_point_witness :
  exists (i : nat) (a : Agv.t),
    nth_error (SchedulerService.agvs (Run.after_calls 3 Delivery.at_pickup)) i
    = Some a
    /\ Agv.loaded_task a = Some 0%nat
    /\ PointEx.is_neighbour (Agv.position a) (PointEx.mk 6 2) = true.
Proof.
  destruct (completed_only_next_to_end_point
              (Run.after_calls 3 Delivery.at_pickup) 0
              (TaskEx.mk "T1" "S1" "E1" TaskPriority.NORMAL None
                 (PointEx.mk 2 2) (PointEx.mk 6 2) (PointEx.mk 3 2)
                 (Some 0%nat) 1 0 false)
              (TaskEx.mk "T1" "S1" "E1" TaskPriority.NORMAL None
                 (PointEx.mk 2 2) (PointEx.mk 6 2) (PointEx.mk 3 2)
                 (Some 0%nat) 1 4 true))
    as [_ H].
  - vm_compute. reflexivity.
  - vm_compute. reflexivity.
  - reflexivity.
  - reflexivity.
  - exact H.
Defined.

(** A call of process hands a pending task only to an AGV that stood on the
    task's pickup cell when the call began; the task then carries the new
    timestamp as its start_timestamp. *)
Theorem loaded_only_on_pickup_cell :
  forall (s : SchedulerService.t) (j i : nat) (task task' : TaskEx.t),
    nth_error (SchedulerService.tasks s) j = Some task ->
    nth_error (SchedulerService.tasks (snd (SchedulerService.process s))) j
    = Some task' ->
    TaskEx.agv task = None ->
    TaskEx.agv task' = Some i ->
    TaskEx.start_timestamp task' = SchedulerService.timestamp s + 1
    /\ exists a : Agv.t,
         nth_error (SchedulerService.agvs s) i = Some a
         /\ Agv.position a = TaskEx.pickup_position task.
Proof.
  intros s j i task task' H0 H Hp Hi.
  destruct (process_during s j task task' H0 H) as [_ Htaken].
  exact (Htaken Hp i Hi).
Qed.

Lemma loaded_only_on_pickup_cell_witness :
  exists a : Agv.t,
    nth_error (SchedulerService.agvs Delivery.at_pickup) 0 = Some a
    /\ Agv.position a = PointEx.mk 3 2.
Proof.
  destruct (loaded_only_on_pickup_cell Delivery.at_pickup 0 0
              (TaskEx.mk "T1" "S1" "E1" TaskPriority.NORMAL None
                 (PointEx.mk 2 2) (PointEx.mk 6 2) (PointEx.mk 3 2)
                 None 0 0 false)
              (TaskEx.mk "T1" "S1" "E1" TaskPriority.NORMAL None
                 (PointEx.mk 2 2) (PointEx.mk 6 2) (PointEx.mk 3 2)
                 (Some 0%nat) 1 0 false))
    as [_ H].
  - reflexivity.
  - vm_compute. reflexivity.
  - reflexivity.
  - reflexivity.
  - exact H.
Defined.

Lemma process_to_complete_outcome_witness :
  AgvContext.all_tasks_completed
    (SchedulerService.context
       (snd (SchedulerService.process_to_complete Delivery.at_pickup)))
  = true.
Proof.
  apply (proj2 (process_to_complete_outcome Delivery.at_pickup) (Some tt)
           (snd (SchedulerService.process_to_complete Delivery.at_pickup))).
  vm_compute. reflexivity.
Defined.

(** ** A tick never fails *)

Section RunsFacts.
Import SchedulerService.

Lemma runs_ret {A : Type} (P : t -> Prop) (Q : A -> t -> Prop) (a : A) :
  (forall s, P s -> Q a s) -> Sound.runs P (ret a) Q.
Proof. intros H s Hs. exists a, s. split; [reflexivity | apply H, Hs]. Qed.

Lemma runs_bind {A B : Type} (P : t -> Prop) (Q1 : A -> t -> Prop)
    (Q2 : B -> t -> Prop) (m : M A) (k : A -> M B) :
  Sound.runs P m Q1 -> (forall a, Sound.runs (Q1 a) (k a) Q2) ->
  Sound.runs P (bind m k) Q2.
Proof.
  intros Hm Hk s Hs. destruct (Hm s Hs) as (a & s1 & Hrun & Hq).
  destruct (Hk a s1 Hq) as (b & s2 & Hrun2 & Hq2).
  exists b, s2. split; [| exact Hq2]. unfold bind. rewrite Hrun. exact Hrun2.
Qed.

Lemma runs_weaken {A : Type} (P P' : t -> Prop) (Q Q' : A -> t -> Prop)
    (m : M A) :
  (forall s, P' s -> P s) -> (forall a s, Q a s -> Q' a s) ->
  Sound.runs P m Q -> Sound.runs P' m Q'.
Proof.
  intros HP HQ Hm s Hs. destruct (Hm s (HP s Hs)) as (a & s' & Hrun & Hq).
  exists a, s'. split; [exact Hrun | apply HQ, Hq].
Qed.

(* a loop whose body keeps [I] and the property [G] of its local state *)
Lemma runs_for_each {X Acc : Type} (I : t -> Prop) (G : Acc -> Prop)
    (V : X -> Prop) (body : X -> Acc -> M Acc) (l : list X) :
  (forall x acc, V x -> G acc ->
     Sound.runs I (body x acc) (fun acc' s' => I s' /\ G acc')) ->
  Forall V l ->
  forall acc, G acc ->
    Sound.runs I (for_each body l acc) (fun acc' s' => I s' /\ G acc').
Proof.
  intros Hbody Hl. induction Hl as [| x l Hx _ IH]; intros acc Hacc; cbn [for_each].
  - apply runs_ret. auto.
  - eapply runs_bind; [apply Hbody; assumption |].
    intros acc' s [Hs Hacc']. exact (IH acc' Hacc' s Hs).
Qed.

(* a filter whose test reads the state and never fails *)
Lemma filter_m_reads {X : Type} (I : t -> Prop) (V : X -> Prop)
    (test : X -> M bool) (l : list X) :
  (forall x s, V x -> I s -> exists b, test x s = (Ok b, s)) ->
  Forall V l ->
  forall s, I s -> exists l', filter_m test l s = (Ok l', s) /\ incl l' l.
Proof.
  intros Htest Hl. induction Hl as [| x l Hx _ IH]; intros s Hs; cbn [filter_m].
  - exists []. split; [reflexivity | apply incl_refl].
  - destruct (Htest x s Hx Hs) as [b Hb].
    destruct (IH s Hs) as (rest & Hrun & Hincl).
    unfold bind. rewrite Hb, Hrun. eexists. split; [reflexivity |].
    destruct b; [apply incl_cons; [left; reflexivity |] |];
      apply incl_tl; exact Hincl.
Qed.
End RunsFacts.

Section SoundAgvFacts.
Import SchedulerService.

Lemma adjacent_pitch (p q : PointEx.t) :
  Path.four_adjacent p q ->
  exists d, PointEx.get_pitch_to_neighbour p q = Ok d.
Proof.
  intros Hadj.
  destruct (PointEx.get_pitch_to_neighbour p q) as [d | e] eqn:E;
    [exists d; reflexivity | exfalso].
  assert (Hr : exists e, PointEx.get_pitch_to_neighbour p q = Raise e)
    by (exists e; exact E).
  apply pitch_raises_off_axis_aux in Hr.
  destruct p as [px py], q as [qx qy].
  unfold Path.four_adjacent, PathPlanning.manhattan in Hadj. simpl in *.
  destruct Hr as [Hr | Hr]; [injection Hr as -> ->; lia | lia].
Qed.

Lemma tick_positions (l : list PathTimePoint.t) :
  map PathTimePoint.position (map Agv.tick l) = map PathTimePoint.position l.
Proof. rewrite map_map. reflexivity. Qed.

(* the pitch towards the second point of a plan *)
Lemma plan_pitch (a : Agv.t) (p0 p1 : PathTimePoint.t)
    (rest : list PathTimePoint.t) :
  Sound.plan_from (Agv.position a)
    (map PathTimePoint.position (p0 :: p1 :: rest)) ->
  exists d,
    PointEx.get_pitch_to_neighbour (Agv.position a) (PathTimePoint.position p1)
    = Ok d.
Proof.
  simpl. intros [Hhead [Hadj _]]. rewrite <- Hhead. apply adjacent_pitch, Hadj.
Qed.

Lemma should_turn_ok (nt : nat) (a : Agv.t) :
  Sound.agv_ok nt a -> exists b, Agv.should_turn a = Ok b.
Proof.
  intros [Hplan _]. unfold Agv.should_turn.
  destruct (Agv.path_time_points a) as [| p0 [| p1 rest]];
    try (eexists; reflexivity).
  destruct (plan_pitch a p0 p1 rest Hplan) as [d ->]. eexists; reflexivity.
Qed.

Lemma should_move_ok (nt : nat) (a : Agv.t) :
  Sound.agv_ok nt a -> exists b, Agv.should_move a = Ok b.
Proof.
  intros [Hplan _]. unfold Agv.should_move.
  destruct (Agv.path_time_points a) as [| p0 [| p1 rest]];
    try (eexists; reflexivity).
  destruct (plan_pitch a p0 p1 rest Hplan) as [d ->]. eexists; reflexivity.
Qed.

Lemma turn_ok (nt : nat) (a : Agv.t) (d : option Direction.t) :
  Sound.agv_ok nt a -> exists a', Agv.turn a d = Ok a' /\ Sound.agv_ok nt a'.
Proof.
  intros [Hplan Hload]. unfold Agv.turn.
  destruct d as [d |]; [eexists; split; [reflexivity | split; assumption] |].
  destruct (Agv.path_time_points a) as [| p0 [| p1 rest]] eqn:Hp;
    try (exists a; split; [reflexivity |]; split; [rewrite Hp |]; assumption).
  destruct (plan_pitch a p0 p1 rest Hplan) as [d ->].
  eexists; split; [reflexivity |]. split; [| exact Hload].
  cbn [Agv.position Agv.path_time_points]. cbn [map] in *.
  rewrite tick_positions. exact Hplan.
Qed.

Lemma move_ok (nt : nat) (a : Agv.t) :
  Sound.agv_ok nt a -> Sound.agv_ok nt (Agv.move a).
Proof.
  intros [Hplan Hload]. unfold Agv.move.
  destruct (Agv.path_time_points a) as [| p0 [| p1 rest]] eqn:Hp;
    try (split; [rewrite Hp |]; assumption).
  split; [| exact Hload].
  cbn [Agv.position Agv.path_time_points].
  change (map Agv.tick (p1 :: rest)) with (Agv.tick p1 :: map Agv.tick rest).
  cbn [map]. rewrite tick_positions. cbn [map] in Hplan.
  destruct Hplan as [_ [_ Hc]]. split; [reflexivity | exact Hc].
Qed.

Lemma set_path_ok (nt : nat) (a : Agv.t) (l : list PathTimePoint.t) :
  Sound.agv_ok nt a ->
  Sound.plan_from (Agv.position a) (map PathTimePoint.position l) ->
  Sound.agv_ok nt (Agv.set_path_time_points a l).
Proof. intros [_ Hload] Hplan. split; assumption. Qed.

Lemma can_unload_ok (nt : nat) (a : Agv.t) (tasks : list TaskEx.t) :
  Sound.agv_ok nt a -> length tasks = nt ->
  exists b, Agv.can_unload a tasks = Ok b.
Proof.
  intros [_ Hload] Hlen. unfold Agv.can_unload.
  destruct (Agv.is_loaded a); [| eexists; reflexivity].
  destruct (Agv.loaded_task a) as [j |]; [| eexists; reflexivity].
  destruct Hload as [_ Hj].
  destruct (nth_error tasks j) eqn:E; [eexists; reflexivity |].
  apply nth_error_None in E. lia.
Qed.

Lemma unload_ok (nt : nat) (a : Agv.t) (ts : Z) (tasks : list TaskEx.t) :
  Sound.agv_ok nt a -> length tasks = nt ->
  exists a' tasks',
    Agv.unload a ts tasks = Ok (a', tasks')
    /\ Sound.agv_ok nt a'
    /\ length tasks' = nt
    /\ map TaskEx.end_position tasks' = map TaskEx.end_position tasks.
Proof.
  intros [_ Hload] Hlen. unfold Agv.unload.
  destruct (Agv.loaded_task a) as [j |].
  - destruct Hload as [_ Hj].
    destruct (nth_error tasks j) as [task |] eqn:E;
      [| apply nth_error_None in E; lia].
    eexists _, _. split; [reflexivity |]. split; [split; [exact I | reflexivity] |].
    split; [rewrite list_set_length; exact Hlen |].
    apply map_list_set_same with (b := task); [exact E | reflexivity].
  - eexists _, _. split; [reflexivity |]. split; [split; [exact I | reflexivity] |].
    split; [exact Hlen | reflexivity].
Qed.

Lemma load_ok (nt : nat) (self : nat) (a : Agv.t) (j : nat) (ts : Z)
    (tasks : list TaskEx.t) :
  Sound.agv_ok nt a -> length tasks = nt -> (j < nt)%nat ->
  exists a' tasks',
    Agv.load self a j ts tasks = Ok (a', tasks')
    /\ Sound.agv_ok nt a'
    /\ length tasks' = nt
    /\ map TaskEx.end_position tasks' = map TaskEx.end_position tasks.
Proof.
  intros [Hplan _] Hlen Hj. unfold Agv.load.
  destruct (nth_error tasks j) as [task |] eqn:E;
    [| apply nth_error_None in E; lia].
  eexists _, _. split; [reflexivity |].
  split; [split; [exact Hplan | split; [reflexivity | exact Hj]] |].
  split; [rewrite list_set_length; exact Hlen |].
  apply map_list_set_same with (b := task); [exact E | reflexivity].
Qed.

(** what the planner hands out is a plan *)

Lemma planned (start goal : PointEx.t) (o : Direction.t)
    (obstacles : list PointEx.t) (grid_size : option (Z * Z)) :
  Sound.plan_from start
    (PathPlanning.a_star_with_orientation start goal o obstacles grid_size).
Proof.
  unfold PathPlanning.a_star_with_orientation.
  destruct (PathPlanning.a_star_search start goal o obstacles grid_size)
    as [cost path | |] eqn:Hs; try exact I.
  destruct (a_star_search_reached _ _ _ _ _ _ _ Hs)
    as [f [o' [rest [-> [_ [Hc _]]]]]].
  split; [reflexivity | exact Hc].
Qed.

Lemma timed_plan (p : PointEx.t) (path : list PointEx.t) (d : Direction.t) :
  Sound.plan_from p path ->
  exists ptp,
    PathPlanning.calculate_path_timing path d = Ok ptp
    /\ Sound.plan_from p (map PathTimePoint.position ptp).
Proof.
  intros Hplan. unfold PathPlanning.calculate_path_timing.
  destruct path as [| p0 rest]; [exists []; split; [reflexivity | exact I] |].
  destruct Hplan as [-> Hc].
  destruct (timing_loop_chain rest p 0 d Hc) as [tail Ht]. rewrite Ht.
  eexists. split; [reflexivity |]. cbn [map PathTimePoint.position].
  rewrite (timing_loop_positions _ _ _ _ _ Ht). split; [reflexivity | exact Hc].
Qed.

Lemma remove_ok (p : PointEx.t) (l : list PointEx.t) :
  In p l -> exists l', PointEx.remove p l = Ok l'.
Proof.
  induction l as [| q l IH]; [contradiction |]. simpl.
  destruct (PointEx.eqb q p) eqn:E; [eexists; reflexivity |].
  intros [-> | Hin]; [rewrite PointEx_eqb_refl in E; discriminate |].
  destruct (IH Hin) as [l' ->]. eexists; reflexivity.
Qed.

Lemma replan_ok (s : t) (is_loaded : bool) (r : nat) (agv : Agv.t)
    (task : TaskEx.t) :
  In (TaskEx.end_position task) (Run.fixed s) ->
  exists ptp,
    replan s is_loaded r agv task = Ok ptp
    /\ Sound.plan_from (Agv.position agv) (map PathTimePoint.position ptp).
Proof.
  intros Hend. unfold replan. destruct is_loaded.
  - unfold _calculate_path_to_end_point, _build_obstacles.
    destruct (remove_ok (TaskEx.end_position task)
                (AgvContext.fixed_map_obstacles (context s)
                 ++ _get_obstacles s r agv (agvs s))) as [l' ->];
      [apply in_or_app; left; exact Hend |].
    apply timed_plan, planned.
  - unfold _calculate_path_to_pickup_position. apply timed_plan, planned.
Qed.

(** the states of a run *)

Lemma inv_agv (na nt : nat) (s : t) (r : nat) :
  Sound.inv na nt s -> (r < na)%nat ->
  exists agv, nth_error (agvs s) r = Some agv /\ Sound.agv_ok nt agv.
Proof.
  intros (Hna & _ & Hall & _) Hr.
  destruct (nth_error (agvs s) r) as [agv |] eqn:E;
    [| apply nth_error_None in E; lia].
  exists agv. split; [reflexivity |].
  rewrite Forall_forall in Hall. apply Hall. eapply nth_error_In, E.
Qed.

Lemma inv_task (na nt : nat) (s : t) (j : nat) :
  Sound.inv na nt s -> (j < nt)%nat ->
  exists task, nth_error (tasks s) j = Some task
               /\ In (TaskEx.end_position task) (Run.fixed s).
Proof.
  intros (_ & Hnt & _ & Hends) Hj.
  destruct (nth_error (tasks s) j) as [task |] eqn:E;
    [| apply nth_error_None in E; lia].
  exists task. split; [reflexivity |].
  unfold Run.ends_fixed in Hends. rewrite Forall_forall in Hends.
  apply Hends. eapply nth_error_In, E.
Qed.

Lemma inv_set_agv (na nt : nat) (s : t) (r : nat) (a' : Agv.t) :
  Sound.inv na nt s -> Sound.agv_ok nt a' ->
  Sound.inv na nt (with_agvs s (list_set (agvs s) r a')).
Proof.
  intros (Hna & Hnt & Hall & Hends) Hok. unfold Sound.inv. cbn.
  split; [rewrite list_set_length; exact Hna |]. split; [exact Hnt |].
  split; [apply Forall_list_set; assumption | exact Hends].
Qed.

Lemma inv_set_tasks (na nt : nat) (s : t) (tasks' : list TaskEx.t) :
  Sound.inv na nt s -> length tasks' = nt ->
  map TaskEx.end_position tasks' = map TaskEx.end_position (tasks s) ->
  Sound.inv na nt (with_tasks s tasks').
Proof.
  intros (Hna & Hnt & Hall & Hends) Hlen Hmap. unfold Sound.inv. cbn.
  split; [exact Hna |]. split; [exact Hlen |]. split; [exact Hall |].
  unfold Run.ends_fixed, Run.fixed in *. cbn.
  rewrite Forall_forall in *. intros task Hin.
  apply (in_map TaskEx.end_position) in Hin. rewrite Hmap in Hin.
  apply in_map_iff in Hin. destruct Hin as [task0 [Heq Hin]].
  rewrite <- Heq. apply Hends, Hin.
Qed.

Lemma call_agv_runs (na nt : nat) (r : nat) (method : Agv.t -> result Agv.t) :
  (r < na)%nat ->
  (forall a, Sound.agv_ok nt a ->
             exists a', method a = Ok a' /\ Sound.agv_ok nt a') ->
  Sound.runs (Sound.inv na nt) (call_agv r method)
    (fun _ s' => Sound.inv na nt s').
Proof.
  intros Hr Hm s Hs. destruct (inv_agv _ _ _ _ Hs Hr) as [agv [Hagv Hok]].
  destruct (Hm agv Hok) as [a' [Hma Hok']].
  exists tt. eexists. split; [apply (call_agv_ok _ _ _ _ _ Hagv Hma) |].
  apply inv_set_agv; assumption.
Qed.
End SoundAgvFacts.

Section SoundPhaseFacts.
Import SchedulerService.
Variables na nt : nat.

Local Abbreviation I := (Sound.inv na nt).

Ltac done_here Hs := eexists _, _; split; [reflexivity | exact Hs].

(** phase 1 *)

Lemma unload_step_runs (r : nat) (handled : list nat) :
  (r < na)%nat ->
  Sound.runs I (unload_step r handled) (fun _ s' => I s').
Proof.
  intros Hr s Hs. unfold unload_step.
  destruct (ref_mem r handled); [done_here Hs |].
  destruct (inv_agv _ _ _ _ Hs Hr) as [agv [Hagv Hok]].
  rewrite (bind_ok _ _ _ _ _ (get_agv_ok _ _ _ Hagv)).
  unfold bind at 1, get at 1.
  assert (Hlen : length (tasks s) = nt) by apply Hs.
  destruct (can_unload_ok nt agv (tasks s) Hok Hlen) as [b Hb].
  unfold bind at 1, lift at 1. rewrite Hb.
  destruct b; [| done_here Hs].
  destruct (unload_ok nt agv (timestamp s) (tasks s) Hok Hlen)
    as (a' & tasks' & Hu & Hok' & Hlen' & Hmap).
  unfold bind, call_agv_task. rewrite Hagv, Hu.
  eexists _, _. split; [reflexivity |].
  apply inv_set_tasks; [apply inv_set_agv; assumption | exact Hlen' | exact Hmap].
Qed.

(** phase 2 *)

Lemma load_scan_runs (r : nat) (pending : list nat) (handled : list nat) :
  (r < na)%nat -> Forall (fun j => (j < nt)%nat) pending ->
  Sound.runs I (load_scan r pending handled) (fun _ s' => I s').
Proof.
  intros Hr Hpending. induction Hpending as [| j pending Hj _ IH];
    intros s Hs; cbn [load_scan]; [done_here Hs |].
  destruct (inv_task _ _ _ _ Hs Hj) as [task [Htask _]].
  rewrite (bind_ok _ _ _ _ _ (get_task_ok _ _ _ Htask)).
  destruct (inv_agv _ _ _ _ Hs Hr) as [agv [Hagv Hok]].
  rewrite (bind_ok _ _ _ _ _ (get_agv_ok _ _ _ Hagv)).
  destruct (PointEx.eqb (TaskEx.pickup_position task) (Agv.position agv));
    [| exact (IH s Hs)].
  assert (Hlen : length (tasks s) = nt) by apply Hs.
  destruct (load_ok nt r agv j (timestamp s) (tasks s) Hok Hlen Hj)
    as (a' & tasks' & Hl & Hok' & Hlen' & Hmap).
  unfold bind, get, call_agv_task. rewrite Hagv, Hl.
  eexists _, _. split; [reflexivity |].
  apply inv_set_tasks; [apply inv_set_agv; assumption | exact Hlen' | exact Hmap].
Qed.

Lemma load_step_runs (pending : list nat) (r : nat) (handled : list nat) :
  (r < na)%nat -> Forall (fun j => (j < nt)%nat) pending ->
  Sound.runs I (load_step pending r handled) (fun _ s' => I s').
Proof.
  intros Hr Hpending s Hs. unfold load_step.
  destruct (inv_agv _ _ _ _ Hs Hr) as [agv [Hagv Hok]].
  rewrite (bind_ok _ _ _ _ _ (get_agv_ok _ _ _ Hagv)).
  destruct (ref_mem r handled || Agv.is_loaded agv); [done_here Hs |].
  exact (load_scan_runs r pending handled Hr Hpending s Hs).
Qed.

(** phase 4 *)

Lemma turn_step_runs (r : nat) (handled : list nat) :
  (r < na)%nat ->
  Sound.runs I (turn_step r handled) (fun _ s' => I s').
Proof.
  intros Hr s Hs. unfold turn_step.
  destruct (inv_agv _ _ _ _ Hs Hr) as [agv [Hagv Hok]].
  rewrite (bind_ok _ _ _ _ _ (get_agv_ok _ _ _ Hagv)).
  destruct (ref_mem r handled || negb (Agv.is_loaded agv)); [done_here Hs |].
  destruct (should_turn_ok nt agv Hok) as [b Hb].
  unfold bind at 1, lift at 1. rewrite Hb.
  destruct b; [| done_here Hs].
  destruct (call_agv_runs na nt r (fun agv => Agv.turn agv None) Hr
              (fun a => turn_ok nt a None) s Hs) as (u & s' & Hrun & Hs').
  unfold bind. rewrite Hrun. done_here Hs'.
Qed.

(** the loops over all AGVs *)

Lemma refs_valid (s : t) :
  I s -> Forall (fun r => (r < na)%nat) (agv_refs s).
Proof.
  intros Hs. unfold agv_refs. apply Forall_forall. intros r Hr.
  apply in_seq in Hr. destruct Hs as [Hna _]. lia.
Qed.

Lemma loop_runs (body : nat -> list nat -> M (list nat)) (refs : list nat)
    (handled : list nat) :
  (forall r h, (r < na)%nat -> Sound.runs I (body r h) (fun _ s' => I s')) ->
  Forall (fun r => (r < na)%nat) refs ->
  Sound.runs I (for_each body refs handled) (fun _ s' => I s').
Proof.
  intros Hbody Hrefs.
  eapply runs_weaken;
    [| | apply (runs_for_each I (fun _ => True) (fun r => (r < na)%nat) body
                  refs)].
  - auto.
  - intros a s [Hs _]. exact Hs.
  - intros r acc Hr _.
    eapply runs_weaken; [| | apply (Hbody r acc Hr)]; [auto |].
    intros a s Hs. split; [exact Hs | exact Logic.I].
  - exact Hrefs.
  - exact Logic.I.
Qed.
End SoundPhaseFacts.

Section SoundBatchFacts.
Import SchedulerService.
Variables na nt : nat.

Local Abbreviation I := (Sound.inv na nt).

Ltac done_here Hs := eexists _, _; split; [reflexivity | exact Hs].

Lemma check_moved_items_reads (agv : Agv.t) (task : TaskEx.t)
    (moved : list moved_item) (s : t) :
  I s -> Sound.moved_ok na nt moved ->
  exists turn, check_moved_items agv task moved s = (Ok turn, s).
Proof.
  intros Hs Hmoved. induction Hmoved as [| [[mr mp] mj] moved [Hr Hj] _ IH];
    cbn [check_moved_items]; [eexists; reflexivity |].
  simpl in Hr, Hj.
  destruct (inv_agv _ _ _ _ Hs Hr) as [m [Hm _]].
  rewrite (bind_ok _ _ _ _ _ (get_agv_ok _ _ _ Hm)).
  destruct (inv_task _ _ _ _ Hs Hj) as [mt [Hmt _]].
  rewrite (bind_ok _ _ _ _ _ (get_task_ok _ _ _ Hmt)).
  destruct (cross_lock agv task m mp mt); [eexists; reflexivity | exact IH].
Qed.

Lemma batch_move_one_runs (is_loaded : bool) (temp : option assignments)
    (r : nat) (acc : batch_state) :
  (r < na)%nat /\ Sound.has_task nt is_loaded temp r ->
  Sound.moved_ok na nt (snd (fst acc)) ->
  Sound.runs I (batch_move_one is_loaded temp r acc)
    (fun acc' s' => I s' /\ Sound.moved_ok na nt (snd (fst acc'))).
Proof.
  intros [Hr Htemp] Hmoved s Hs. destruct acc as [[handled moved] assigned].
  simpl in Hmoved. unfold batch_move_one.
  destruct (inv_agv _ _ _ _ Hs Hr) as [agv [Hagv Hok]].
  rewrite (bind_ok _ _ _ _ _ (get_agv_ok _ _ _ Hagv)).
  destruct (ref_mem r handled || negb (Bool.eqb (Agv.is_loaded agv) is_loaded))
    eqn:Hskip; [eexists _, _; split; [reflexivity | split; assumption] |].
  apply orb_false_iff in Hskip. destruct Hskip as [_ Hsame].
  apply negb_false_iff, Bool.eqb_prop in Hsame.
  assert (Htask : exists j,
             (j < nt)%nat
             /\ (if is_loaded
                 then match Agv.loaded_task agv with
                      | Some task_ref => ret task_ref
                      | None => raise AttributeError
                      end
                 else match temp with
                      | None => raise KeyError
                      | Some d =>
                          match dict_get d r with
                          | Some task_ref => ret task_ref
                          | None => raise KeyError
                          end
                      end) s = (Ok j, s)).
  { destruct is_loaded.
    - destruct Hok as [_ Hload].
      destruct (Agv.loaded_task agv) as [j |]; [| congruence].
      exists j. split; [apply Hload | reflexivity].
    - destruct (Htemp eq_refl) as (d & j & -> & Hget & Hj).
      exists j. rewrite Hget. split; [exact Hj | reflexivity]. }
  destruct Htask as (j & Hj & Hrun).
  rewrite (bind_ok _ _ _ _ _ Hrun).
  destruct (inv_task _ _ _ _ Hs Hj) as [task [Htask Hend]].
  rewrite (bind_ok _ _ _ _ _ (get_task_ok _ _ _ Htask)).
  unfold bind at 1, get at 1.
  destruct (replan_ok s is_loaded r agv task Hend) as (ptp & Hplan & Hshape).
  unfold bind at 1, lift at 1. rewrite Hplan.
  unfold set_path_time_points at 1.
  assert (Hset : Agv.set_path_time_points agv ptp
                 = Agv.set_path_time_points agv ptp) by reflexivity.
  rewrite (bind_ok _ _ _ _ _
             (call_agv_ok s r _ agv (Agv.set_path_time_points agv ptp) Hagv
                eq_refl)).
  set (s1 := with_agvs s (list_set (agvs s) r (Agv.set_path_time_points agv ptp))).
  assert (Hs1 : I s1).
  { apply inv_set_agv; [exact Hs | apply set_path_ok; assumption]. }
  assert (Hagv1 : nth_error (agvs s1) r = Some (Agv.set_path_time_points agv ptp)).
  { unfold s1. cbn. apply (nth_error_list_set_same _ _ _ _ Hagv). }
  destruct ptp as [| p0 [| p1 rest]];
    try (eexists _, _; split; [reflexivity | split; assumption]).
  destruct (plan_pitch agv p0 p1 rest Hshape) as [d Hd].
  unfold bind at 1, lift at 1. rewrite Hd.
  destruct (negb (Direction.eqb d (Agv.pitch agv)));
    [eexists _, _; split; [reflexivity | split; assumption] |].
  destruct (check_moved_items_reads agv task moved s1 Hs1 Hmoved) as [turn Hturn].
  rewrite (bind_ok _ _ _ _ _ Hturn).
  destruct turn as [turn_direction |].
  - destruct (call_agv_runs na nt r
                (fun agv => Agv.turn agv (Some turn_direction)) Hr
                (fun a => turn_ok nt a (Some turn_direction)) s1 Hs1)
      as (u & s2 & Hrun2 & Hs2).
    rewrite (bind_ok _ _ _ _ _ Hrun2).
    destruct (call_agv_runs na nt r
                (fun agv => Ok (Agv.set_path_time_points agv [])) Hr
                (fun a Ha => ex_intro _ _
                   (conj eq_refl (set_path_ok nt a [] Ha Logic.I))) s2 Hs2)
      as (u3 & s3 & Hrun3 & Hs3).
    unfold set_path_time_points. rewrite (bind_ok _ _ _ _ _ Hrun3).
    eexists _, _. split; [reflexivity | split; assumption].
  - destruct (call_agv_runs na nt r (fun agv => Ok (Agv.move agv)) Hr
                (fun a Ha => ex_intro _ _ (conj eq_refl (move_ok nt a Ha)))
                s1 Hs1) as (u & s2 & Hrun2 & Hs2).
    rewrite (bind_ok _ _ _ _ _ Hrun2).
    eexists _, _. split; [reflexivity |]. split; [exact Hs2 |].
    cbn [fst snd]. unfold Sound.moved_ok. apply Forall_app. split; [exact Hmoved |].
    constructor; [| constructor]. simpl. split; assumption.
Qed.

Lemma batch_loop_runs (is_loaded : bool) (temp : option assignments)
    (agvs_ : list nat) (fuel : nat) :
  Forall (fun r => (r < na)%nat /\ Sound.has_task nt is_loaded temp r) agvs_ ->
  forall (handled : list nat) (moved : list moved_item),
    Sound.moved_ok na nt moved ->
    Sound.runs I (batch_loop fuel agvs_ is_loaded temp handled moved)
      (fun _ s' => I s').
Proof.
  intros Hagvs. induction fuel as [| fuel IH]; intros handled moved Hmoved;
    cbn [batch_loop].
  - apply runs_ret. auto.
  - eapply runs_bind.
    + apply (runs_for_each I (fun acc => Sound.moved_ok na nt (snd (fst acc)))
               (fun r => (r < na)%nat /\ Sound.has_task nt is_loaded temp r)).
      * intros r acc Hr Hacc. apply batch_move_one_runs; assumption.
      * exact Hagvs.
      * exact Hmoved.
    + intros [[handled' moved'] assigned] s [Hs Hmoved'].
      destruct assigned; [exact (IH handled' moved' Hmoved' s Hs) |].
      done_here Hs.
Qed.

Lemma batch_move_runs (is_loaded : bool) (temp : option assignments)
    (agvs_ : list nat) (handled : list nat) :
  Forall (fun r => (r < na)%nat /\ Sound.has_task nt is_loaded temp r) agvs_ ->
  Sound.runs I (batch_move agvs_ handled is_loaded temp) (fun _ s' => I s').
Proof.
  intros Hagvs. unfold batch_move, _batch_move_agvs.
  eapply runs_bind.
  - apply (batch_loop_runs is_loaded temp agvs_ (S (length agvs_)) Hagvs handled []).
    constructor.
  - intros [handled' |]; apply runs_ret; auto.
Qed.
End SoundBatchFacts.

Section SoundAssignFacts.
Import SchedulerService.
Variables na nt : nat.

Local Abbreviation I := (Sound.inv na nt).

Local Abbreviation idle_ok := (Sound.idle_ok na nt).

Lemma ref_remove_In (r x : nat) (refs : list nat) :
  In x (ref_remove r refs) -> In x refs.
Proof.
  induction refs as [| q refs IH]; simpl; [auto |].
  destruct (Nat.eqb q r); [auto |]. intros [H | H]; auto.
Qed.

Lemma dict_set_ok (d : assignments) (k v : nat) :
  Sound.table_ok na nt d -> (k < na)%nat -> (v < nt)%nat ->
  Sound.table_ok na nt (dict_set d k v).
Proof.
  intros Hd Hk Hv. induction Hd as [| [k' v'] d Hkv Hd IH]; simpl.
  - constructor; [split; assumption | constructor].
  - destruct (Nat.eqb k' k); constructor; simpl in *; tauto.
Qed.

Lemma dict_get_ok (d : assignments) (k : nat) :
  Sound.table_ok na nt d -> In k (map fst d) ->
  (k < na)%nat /\ exists v, dict_get d k = Some v /\ (v < nt)%nat.
Proof.
  intros Hd. induction Hd as [| [k' v'] d [Hk Hv] _ IH]; simpl; [contradiction |].
  simpl in Hk, Hv. destruct (Nat.eqb_spec k' k) as [-> | Hne].
  - intros _. split; [exact Hk |]. exists v'. auto.
  - intros [H | H]; [contradiction | exact (IH H)].
Qed.

(** phase 5 *)

Lemma assignment_option_runs (task : TaskEx.t) (r : nat) (s : t) :
  I s -> (r < na)%nat ->
  exists agv ptp,
    nth_error (agvs s) r = Some agv
    /\ Sound.agv_ok nt agv
    /\ assignment_option task r s = (Ok (r, ptp), s)
    /\ Sound.plan_from (Agv.position agv) (map PathTimePoint.position ptp).
Proof.
  intros Hs Hr. destruct (inv_agv _ _ _ _ Hs Hr) as [agv [Hagv Hok]].
  unfold assignment_option.
  rewrite (bind_ok _ _ _ _ _ (get_agv_ok _ _ _ Hagv)).
  unfold bind at 1, get at 1. unfold _calculate_path_to_pickup_position.
  destruct (timed_plan (Agv.position agv) _ (Agv.pitch agv)
              (planned (Agv.position agv) (TaskEx.pickup_position task)
                 (Agv.pitch agv)
                 (_build_obstacles s (_get_obstacles s r agv (agvs s))) None))
    as (ptp & Ht & Hp).
  exists agv, ptp. unfold bind, lift. rewrite Ht. auto.
Qed.

Lemma assignment_options_runs (task : TaskEx.t) (idle : list nat) (s : t) :
  I s -> Forall (fun r => (r < na)%nat) idle ->
  exists options,
    assignment_options task idle s = (Ok options, s)
    /\ Forall (fun o =>
                 In (fst o) idle
                 /\ exists agv,
                      nth_error (agvs s) (fst o) = Some agv
                      /\ Sound.agv_ok nt agv
                      /\ Sound.plan_from (Agv.position agv)
                           (map PathTimePoint.position (snd o))) options.
Proof.
  intros Hs Hidle. induction Hidle as [| r idle Hr _ IH]; cbn [assignment_options].
  - exists []. split; [reflexivity | constructor].
  - destruct (assignment_option_runs task r s Hs Hr)
      as (agv & ptp & Hagv & Hok & Hrun & Hplan).
    destruct IH as (os & Hos & Hall).
    rewrite (bind_ok _ _ _ _ _ Hrun), (bind_ok _ _ _ _ _ Hos).
    eexists. split; [reflexivity |]. constructor.
    + split; [left; reflexivity |]. exists agv. auto.
    + eapply Forall_impl; [| exact Hall].
      intros o [Hin Ho]. split; [right; exact Hin | exact Ho].
Qed.

Lemma assign_task_runs (j : nat) (acc : assign_state) :
  (j < nt)%nat -> idle_ok acc ->
  Sound.runs I (assign_task j acc) (fun acc' s' => I s' /\ idle_ok acc').
Proof.
  intros Hj [Hidle Htable] s Hs. destruct acc as [idle d]. simpl in Hidle, Htable.
  unfold assign_task.
  destruct (inv_task _ _ _ _ Hs Hj) as [task [Htask _]].
  rewrite (bind_ok _ _ _ _ _ (get_task_ok _ _ _ Htask)).
  destruct (assignment_options_runs task idle s Hs Hidle) as (os & Hos & Hall).
  rewrite (bind_ok _ _ _ _ _ Hos).
  destruct (stable_sort cost_leb (map (fun o => (last_time_cost (snd o), o)) os))
    as [| [c [selected ptp]] rest] eqn:Hsort.
  - eexists _, _. split; [reflexivity |].
    split; [exact Hs | split; assumption].
  - assert (Hin : In (selected, ptp) os).
    { assert (H : In (c, (selected, ptp))
                    (map (fun o => (last_time_cost (snd o), o)) os)).
      { eapply Permutation_in; [apply stable_sort_perm |].
        rewrite Hsort. left; reflexivity. }
      apply in_map_iff in H. destruct H as [o [Ho Hino]].
      injection Ho as _ ->. exact Hino. }
    rewrite Forall_forall in Hall.
    destruct (Hall _ Hin) as [Hsel (agv & Hagv & Hok & Hplan)]. simpl in *.
    assert (Hr : (selected < na)%nat)
      by (rewrite Forall_forall in Hidle; apply Hidle, Hsel).
    unfold set_path_time_points.
    rewrite (bind_ok _ _ _ _ _
               (call_agv_ok s selected
                  (fun agv => Ok (Agv.set_path_time_points agv ptp)) agv
                  (Agv.set_path_time_points agv ptp) Hagv eq_refl)).
    eexists _, _. split; [reflexivity |]. split; [| split].
    + apply inv_set_agv; [exact Hs | apply set_path_ok; assumption].
    + cbn [fst]. apply Forall_forall. intros x Hx.
      rewrite Forall_forall in Hidle. eapply Hidle, ref_remove_In, Hx.
    + cbn [snd]. apply dict_set_ok; assumption.
Qed.

Lemma assign_loop_runs (pending : list nat) :
  Forall (fun j => (j < nt)%nat) pending ->
  forall acc, idle_ok acc ->
    Sound.runs I (assign_loop pending acc) (fun acc' s' => I s' /\ idle_ok acc').
Proof.
  intros Hpending. induction Hpending as [| j pending Hj _ IH]; intros acc Hacc;
    cbn [assign_loop].
  - apply runs_ret. auto.
  - destruct (fst acc) eqn:Hidle; [apply runs_ret; auto |].
    eapply runs_bind; [apply assign_task_runs; assumption |].
    intros acc' s [Hs Hacc']. exact (IH acc' Hacc' s Hs).
Qed.

(** phase 6 *)

Lemma agv_should_turn_reads (r : nat) (s : t) :
  (r < na)%nat -> I s -> exists b, agv_should_turn r s = (Ok b, s).
Proof.
  intros Hr Hs. destruct (inv_agv _ _ _ _ Hs Hr) as [agv [Hagv Hok]].
  destruct (should_turn_ok nt agv Hok) as [b Hb]. exists b.
  unfold agv_should_turn. rewrite (bind_ok _ _ _ _ _ (get_agv_ok _ _ _ Hagv)).
  unfold lift. rewrite Hb. reflexivity.
Qed.

Lemma agv_should_move_reads (r : nat) (s : t) :
  (r < na)%nat -> I s -> exists b, agv_should_move r s = (Ok b, s).
Proof.
  intros Hr Hs. destruct (inv_agv _ _ _ _ Hs Hr) as [agv [Hagv Hok]].
  destruct (should_move_ok nt agv Hok) as [b Hb]. exists b.
  unfold agv_should_move. rewrite (bind_ok _ _ _ _ _ (get_agv_ok _ _ _ Hagv)).
  unfold lift. rewrite Hb. reflexivity.
Qed.

Lemma agv_turn_runs (refs : list nat) :
  Forall (fun r => (r < na)%nat) refs ->
  Sound.runs I (for_each agv_turn refs tt) (fun _ s' => I s').
Proof.
  intros Hrefs.
  eapply runs_weaken;
    [| | apply (runs_for_each I (fun _ => True) (fun r => (r < na)%nat)
                  agv_turn refs)].
  - auto.
  - intros a s [Hs _]. exact Hs.
  - intros r acc Hr _ s Hs.
    destruct (call_agv_runs na nt r (fun agv => Agv.turn agv None) Hr
                (fun a => turn_ok nt a None) s Hs) as (u & s' & Hrun & Hs').
    exists u, s'. split; [exact Hrun | split; [exact Hs' | exact Logic.I]].
  - exact Hrefs.
  - exact Logic.I.
Qed.

(** the parking of the idle AGVs *)

Lemma park_step_runs (r : nat) (u : unit) :
  (r < na)%nat -> Sound.runs I (park_step r u) (fun _ s' => I s').
Proof.
  intros Hr s Hs. unfold park_step.
  destruct (inv_agv _ _ _ _ Hs Hr) as [agv [Hagv Hok]].
  rewrite (bind_ok _ _ _ _ _ (get_agv_ok _ _ _ Hagv)).
  unfold bind at 1, get at 1.
  destruct (edge_points agv (agvs s)) as [| p points];
    [eexists _, _; split; [reflexivity | exact Hs] |].
  match goal with
  | |- context [PathPlanning.a_star_with_orientation ?a ?g ?o ?obs ?gs] =>
      destruct (timed_plan a _ (Agv.pitch agv) (planned a g o obs gs))
        as (ptp & Ht & Hp)
  end.
  unfold bind at 1, lift at 1. rewrite Ht.
  unfold set_path_time_points.
  rewrite (bind_ok _ _ _ _ _
             (call_agv_ok s r (fun agv => Ok (Agv.set_path_time_points agv ptp))
                agv (Agv.set_path_time_points agv ptp) Hagv eq_refl)).
  set (agv1 := Agv.set_path_time_points agv ptp).
  set (s1 := with_agvs s (list_set (agvs s) r agv1)).
  assert (Hok1 : Sound.agv_ok nt agv1) by (apply set_path_ok; assumption).
  assert (Hs1 : I s1) by (apply inv_set_agv; assumption).
  assert (Hagv1 : nth_error (agvs s1) r = Some agv1)
    by (unfold s1; cbn; apply (nth_error_list_set_same _ _ _ _ Hagv)).
  rewrite (bind_ok _ _ _ _ _ (get_agv_ok _ _ _ Hagv1)).
  destruct (should_move_ok nt agv1 Hok1) as [bm Hbm].
  unfold bind at 1, lift at 1. rewrite Hbm. destruct bm.
  - exact (call_agv_runs na nt r (fun agv => Ok (Agv.move agv)) Hr
             (fun a Ha => ex_intro _ _ (conj eq_refl (move_ok nt a Ha))) s1 Hs1).
  - destruct (should_turn_ok nt agv1 Hok1) as [bt Hbt].
    unfold bind at 1, lift at 1. rewrite Hbt. destruct bt.
    + exact (call_agv_runs na nt r (fun agv => Agv.turn agv None) Hr
               (fun a => turn_ok nt a None) s1 Hs1).
    + eexists _, _. split; [reflexivity | exact Hs1].
Qed.

Lemma park_runs (refs : list nat) :
  Forall (fun r => (r < na)%nat) refs ->
  Sound.runs I (for_each park_step refs tt) (fun _ s' => I s').
Proof.
  intros Hrefs.
  eapply runs_weaken;
    [| | apply (runs_for_each I (fun _ => True) (fun r => (r < na)%nat)
                  park_step refs)].
  - auto.
  - intros a s [Hs _]. exact Hs.
  - intros r acc Hr _.
    eapply runs_weaken; [| | apply (park_step_runs r acc Hr)]; [auto |].
    intros a s Hs. split; [exact Hs | exact Logic.I].
  - exact Hrefs.
  - exact Logic.I.
Qed.

(** phase 7 *)

Lemma record_tick_runs : Sound.runs I record_tick (fun _ s' => I s').
Proof.
  intros s Hs. unfold record_tick. unfold bind at 1, get at 1.
  unfold TrajectoryRecorderService.add.
  destruct (result_list_map_total
              (TrajectoryRecorderService.row (timestamp s) (tasks s)) (agvs s))
    as [rows Hrows].
  { intros a Ha. destruct Hs as (_ & Hnt & Hall & _).
    rewrite Forall_forall in Hall. destruct (Hall a Ha) as [_ Hload].
    unfold TrajectoryRecorderService.row.
    destruct (Agv.loaded_task a) as [j |]; [| eexists; reflexivity].
    destruct (nth_error (tasks s) j) eqn:E; [eexists; reflexivity |].
    apply nth_error_None in E. lia. }
  unfold bind, lift. rewrite Hrows. cbn [result_map].
  eexists _, _. split; [reflexivity |]. exact Hs.
Qed.

(** the pending tasks are tasks of the table *)

Lemma pending_runs (s : t) :
  I s ->
  exists refs,
    AgvContext.get_sorted_pending_tasks (context s) = Ok refs
    /\ Forall (fun j => (j < nt)%nat) refs.
Proof.
  intros (_ & Hnt & _).
  destruct (sorted_pending (context s)) as (sorted & Hget & Hperm & _).
  exists (map fst sorted). split; [exact Hget |].
  apply Forall_forall. intros j Hin. apply in_map_iff in Hin.
  destruct Hin as [[j' task] [<- Hin]].
  apply (Permutation_in _ Hperm), pending_In in Hin. destruct Hin as [Hnth _].
  simpl. rewrite <- Hnt. apply nth_error_Some. unfold tasks. congruence.
Qed.
End SoundAssignFacts.

Section SoundTickFacts.
Import SchedulerService.
Variables na nt : nat.

Local Abbreviation I := (Sound.inv na nt).

Lemma enumerated_valid {A : Type} (keep : nat * A -> bool) (l : list A) :
  Forall (fun r => (r < length l)%nat) (map fst (filter keep (enumerate l))).
Proof.
  apply Forall_forall. intros r Hin. apply in_map_iff in Hin.
  destruct Hin as [[i a] [<- Hin]]. apply filter_In in Hin.
  destruct Hin as [Hin _]. apply enumerate_In in Hin. simpl.
  apply nth_error_Some. congruence.
Qed.

Lemma table_keys (d : assignments) :
  Sound.table_ok na nt d -> Forall (fun r => (r < na)%nat) (map fst d).
Proof.
  intros Hd. induction Hd as [| kv d [Hk _] _ IH]; simpl; constructor; assumption.
Qed.

Lemma phases_runs : Sound.runs I phases (fun _ s' => I s').
Proof.
  intros s Hs. unfold phases. unfold bind at 1, get at 1.
  pose proof (refs_valid na nt s Hs) as Hrefs.
  (* 1 *)
  destruct (loop_runs na nt unload_step (agv_refs s) []
              (unload_step_runs na nt) Hrefs s Hs) as (h1 & s1 & Hrun1 & Hs1).
  rewrite (bind_ok _ _ _ _ _ Hrun1).
  (* 2 *)
  unfold bind at 1, get at 1.
  destruct (pending_runs na nt s1 Hs1) as (pending1 & Hpending1 & Hvalid1).
  unfold bind at 1, lift at 1. rewrite Hpending1.
  destruct (loop_runs na nt (load_step pending1) (agv_refs s) h1
              (fun r h Hr => load_step_runs na nt pending1 r h Hr Hvalid1)
              Hrefs s1 Hs1) as (h2 & s2 & Hrun2 & Hs2).
  rewrite (bind_ok _ _ _ _ _ Hrun2).
  (* 3 *)
  unfold bind at 1, get at 1.
  assert (Hloaded : Forall (fun r => (r < na)%nat
                                     /\ Sound.has_task nt true None r)
                      (map fst (filter (fun x => Agv.is_loaded (snd x))
                                  (enumerate (agvs s2))))).
  { eapply Forall_impl; [| apply enumerated_valid].
    intros r Hr. cbv beta in Hr. destruct Hs2 as [Hna _].
    split; [lia | discriminate]. }
  destruct (batch_move_runs na nt true None _ h2 Hloaded s2 Hs2)
    as (h3 & s3 & Hrun3 & Hs3).
  rewrite (bind_ok _ _ _ _ _ Hrun3).
  (* 4 *)
  destruct (loop_runs na nt turn_step (agv_refs s) h3 (turn_step_runs na nt)
              Hrefs s3 Hs3) as (h4 & s4 & Hrun4 & Hs4).
  rewrite (bind_ok _ _ _ _ _ Hrun4).
  (* 5 *)
  unfold bind at 1, get at 1.
  destruct (pending_runs na nt s4 Hs4) as (pending2 & Hpending2 & Hvalid2).
  unfold bind at 1, lift at 1. rewrite Hpending2.
  assert (Hidle : Sound.idle_ok na nt
                    (map fst
                       (filter (fun x => negb (ref_mem (fst x) h4)
                                         && negb (Agv.is_loaded (snd x)))
                          (enumerate (agvs s4))), [])).
  { split; [| constructor]. cbn [fst].
    eapply Forall_impl; [| apply enumerated_valid].
    intros r Hr. cbv beta in Hr. destruct Hs4 as [Hna _]. lia. }
  destruct (assign_loop_runs na nt pending2 Hvalid2 _ Hidle s4 Hs4)
    as ([idle temp] & s5 & Hrun5 & Hs5 & _ & Htable).
  rewrite (bind_ok _ _ _ _ _ Hrun5). cbn [snd] in *.
  (* 6 *)
  pose proof (table_keys temp Htable) as Hkeys.
  destruct (filter_m_reads I (fun r => (r < na)%nat) agv_should_turn
              (map fst temp)
              (fun r s Hr Hs => agv_should_turn_reads na nt r s Hr Hs)
              Hkeys s5 Hs5) as (turn_agvs & Hturn & Hturn_in).
  rewrite (bind_ok _ _ _ _ _ Hturn).
  destruct (filter_m_reads I (fun r => (r < na)%nat) agv_should_move
              (map fst temp)
              (fun r s Hr Hs => agv_should_move_reads na nt r s Hr Hs)
              Hkeys s5 Hs5) as (move_agvs & Hmove & Hmove_in).
  rewrite (bind_ok _ _ _ _ _ Hmove).
  assert (Hturn_ok : Forall (fun r => (r < na)%nat) turn_agvs).
  { rewrite Forall_forall in *. intros r Hr. apply Hkeys, Hturn_in, Hr. }
  destruct (agv_turn_runs na nt turn_agvs Hturn_ok s5 Hs5)
    as (u6 & s6 & Hrun6 & Hs6).
  rewrite (bind_ok _ _ _ _ _ Hrun6).
  assert (Hmove_ok : Forall (fun r => (r < na)%nat
                                      /\ Sound.has_task nt false (Some temp) r)
                       move_agvs).
  { apply Forall_forall. intros r Hr.
    destruct (dict_get_ok na nt temp r Htable (Hmove_in r Hr))
      as [Hlt (j & Hget & Hj)].
    split; [exact Hlt |]. intros _. exists temp, j. auto. }
  destruct (batch_move_runs na nt false (Some temp) move_agvs h4 Hmove_ok s6 Hs6)
    as (h7 & s7 & Hrun7 & Hs7).
  rewrite (bind_ok _ _ _ _ _ Hrun7).
  (* the idle AGVs *)
  assert (Hpark : exists u8 s8,
             (match pending2 with
              | [] =>
                  for_each park_step
                    (filter (fun r => negb (ref_mem r h7)) (agv_refs s)) tt
              | _ :: _ => ret tt
              end) s7 = (Ok u8, s8) /\ I s8).
  { destruct pending2; [| eexists _, _; split; [reflexivity | exact Hs7]].
    apply park_runs; [| exact Hs7].
    rewrite Forall_forall in *. intros r Hr. apply filter_In in Hr.
    apply Hrefs, Hr. }
  destruct Hpark as (u8 & s8 & Hrun8 & Hs8).
  rewrite (bind_ok _ _ _ _ _ Hrun8).
  (* 7 *)
  exact (record_tick_runs na nt s8 Hs8).
Qed.
End SoundTickFacts.

Section SoundRunFacts.
Import SchedulerService.

Lemma fresh_agvs_ok (nt : nat) (rows : list MapElement.t) (agvs : list Agv.t) :
  Forall2 Frame.fresh_agv rows agvs -> Forall (Sound.agv_ok nt) agvs.
Proof.
  intros H. induction H as [| e a rows agvs Ha _ IH]; constructor; [| exact IH].
  destruct Ha as (_ & _ & _ & Hl & Ht & Hp). unfold Sound.agv_ok.
  rewrite Hp, Ht. split; [exact Logic.I | exact Hl].
Qed.

Lemma init_sound (map_elements : list MapElement.t)
    (task_records : list TaskRecord.t) (c : AgvContext.t) :
  AgvContext.init map_elements task_records = Ok c ->
  Sound.inv (length (AgvContext.agvs c)) (length (AgvContext.tasks c)) (init c).
Proof.
  intros Hinit. destruct (init_inv _ _ _ Hinit) as (_ & _ & Hagvs & _).
  split; [reflexivity |]. split; [reflexivity |].
  split; [exact (fresh_agvs_ok _ _ _ Hagvs) | exact (init_ends_fixed _ _ _ Hinit)].
Qed.

(* a call of process either ends normally or refuses to start *)
Lemma process_sound (na nt : nat) (s : t) :
  Sound.inv na nt s ->
  (timestamp s <= MAX_TIMESTAMP
   /\ exists s', process s = (Ok tt, s') /\ Sound.inv na nt s'
                 /\ timestamp s' = timestamp s + 1)
  \/ (timestamp s > MAX_TIMESTAMP /\ process s = (Raise DeadlockExceeded, s)).
Proof.
  intros Hs. destruct (Z.le_gt_cases (timestamp s) MAX_TIMESTAMP) as [Hle | Hgt].
  - left. split; [exact Hle |].
    destruct (phases_runs na nt (mk (context s) (timestamp s + 1)) Hs)
      as ([] & s' & Hrun & Hs').
    exists s'. rewrite process_unguarded by exact Hle.
    split; [exact Hrun |]. split; [exact Hs' |].
    apply (process_ok_timestamp s s' tt).
    rewrite process_unguarded by exact Hle. exact Hrun.
  - right. split; [lia |]. apply process_guarded. lia.
Qed.

Lemma after_calls_sound (na nt : nat) (s : t) (n : nat) :
  Sound.inv na nt s -> timestamp s = 0 ->
  Sound.inv na nt (Run.after_calls n s)
  /\ timestamp (Run.after_calls n s) = Z.min (Z.of_nat n) (MAX_TIMESTAMP + 1).
Proof.
  intros Hs H0. unfold MAX_TIMESTAMP. induction n as [| n [IHs IHt]].
  - simpl. split; [exact Hs | lia].
  - cbn [Run.after_calls].
    destruct (process_sound na nt _ IHs)
      as [[Hle (s' & Hrun & Hs' & Ht)] | [Hgt Hrun]];
      rewrite Hrun; cbn [snd]; unfold MAX_TIMESTAMP in *.
    + split; [exact Hs' | lia].
    + split; [exact IHs | lia].
Qed.

Lemma process_loop_sound (na nt : nat) (fuel : nat) :
  forall (s s' : t) (e : exn),
    Sound.inv na nt s -> process_loop fuel s = (Raise e, s') ->
    e = DeadlockExceeded.
Proof.
  induction fuel as [| fuel IH]; intros s s' e Hs; cbn [process_loop];
    [discriminate |].
  unfold bind at 1, get at 1.
  destruct (AgvContext.all_tasks_completed (context s)); [discriminate |].
  destruct (process_sound na nt s Hs)
    as [[_ (s1 & Hrun & Hs1 & _)] | [_ Hrun]]; unfold bind; rewrite Hrun.
  - apply IH, Hs1.
  - intros H; injection H as <- _. reflexivity.
Qed.
End SoundRunFacts.

(** From a context built by AgvContext.__init__, no call of process fails by
    anything but the deadlock guard: the first 401 calls end normally, every
    later call raises DeadlockExceeded, and process_to_complete raises nothing
    but DeadlockExceeded.  No AttributeError, KeyError or ValueError of the
    AGV, planner or recorder methods can come out of a tick. *)
Theorem process_fails_only_by_deadlock :
  forall (map_elements : list MapElement.t) (task_records : list TaskRecord.t)
         (c : AgvContext.t),
    AgvContext.init map_elements task_records = Ok c ->
    (forall n : nat,
       fst (SchedulerService.process
              (Run.after_calls n (SchedulerService.init c)))
       = if Z.of_nat n <=? SchedulerService.MAX_TIMESTAMP
         then Ok tt else Raise DeadlockExceeded)
    /\ (forall (e : exn) (s' : SchedulerService.t),
          SchedulerService.process_to_complete (SchedulerService.init c)
          = (Raise e, s') ->
          e = DeadlockExceeded).
Proof.
  intros m ts c Hinit. pose proof (init_sound _ _ _ Hinit) as Hs. split.
  - intros n.
    destruct (after_calls_sound _ _ _ n Hs eq_refl) as [Hn Ht].
    unfold SchedulerService.MAX_TIMESTAMP in *.
    destruct (process_sound _ _ _ Hn)
      as [[Hle (s' & Hrun & _)] | [Hgt Hrun]]; rewrite Hrun; cbn [fst];
      unfold SchedulerService.MAX_TIMESTAMP in *.
    + destruct (Z.leb_spec (Z.of_nat n) 400); [reflexivity | lia].
    + destruct (Z.leb_spec (Z.of_nat n) 400); [lia | reflexivity].
  - intros e s'. unfold SchedulerService.process_to_complete.
    unfold SchedulerService.bind at 1, SchedulerService.get at 1.
    apply (process_loop_sound _ _ _ _ _ _ Hs).
Qed.

Lemma process_fails_only_by_deadlock_witness :
  fst (SchedulerService.process
         (Run.after_calls 2 (SchedulerService.init Worlds.stuck_context)))
  = Ok tt.
Proof.
  apply (proj1 (process_fails_only_by_deadlock Worlds.stuck_map
                  Worlds.stuck_tasks Worlds.stuck_context eq_refl) 2%nat).
Defined.

(** ** The rows of a whole run *)

Section RowFacts.
Import SchedulerService.

Lemma after_calls_rows (na nt : nat) (s : t) (n : nat) :
  Sound.inv na nt s -> timestamp s = 0 ->
  length (Trace.trajectory (Run.after_calls n s))
  = (length (Trace.trajectory s) + Nat.min n 401 * na)%nat.
Proof.
  intros Hs H0. induction n as [| n IH]; [simpl; lia |].
  destruct (after_calls_sound na nt s n Hs H0) as [Hn Ht].
  unfold MAX_TIMESTAMP in Ht. cbn [Run.after_calls].
  pose proof (process_recorded (Run.after_calls n s)) as Hrec.
  destruct (process_sound na nt _ Hn)
    as [[Hle (s' & Hrun & Hs' & _)] | [Hgt Hrun]];
    rewrite Hrun in *; cbn [fst snd] in *; unfold MAX_TIMESTAMP in *.
  - destruct Hrec as [_ (rows & Hrows & Hsnap)].
    apply Forall2_length in Hsnap. destruct Hs' as [Hna _].
    rewrite Hrows, length_app, IH, <- Hsnap, Hna.
    replace (Nat.min (S n) 401) with (S (Nat.min n 401)) by lia. lia.
  - rewrite IH. replace (Nat.min (S n) 401) with (Nat.min n 401) by lia.
    reflexivity.
Qed.
End RowFacts.

(** After n calls of process on a context built by AgvContext.__init__, the
    trajectory has (min(n, 401) + 1) rows per AGV and the timestamp is
    min(n, 401), whether or not any task is left: the constructor records
    one row per AGV, each of the first 401 calls ends normally and records
    one more, and every later call raises and records nothing. *)
Theorem trajectory_rows_per_tick :
  forall (map_elements : list MapElement.t) (task_records : list TaskRecord.t)
         (c : AgvContext.t) (n : nat),
    AgvContext.init map_elements task_records = Ok c ->
    TrajectoryRecorderService.get_records_count
      (Trace.trajectory (Run.after_calls n (SchedulerService.init c)))
    = ((Nat.min n 401 + 1) * length (AgvContext.agvs c))%nat
    /\ SchedulerService.timestamp
         (Run.after_calls n (SchedulerService.init c))
       = Z.of_nat (Nat.min n 401).
Proof.
  intros m ts c n Hinit. pose proof (init_sound _ _ _ Hinit) as Hs. split.
  - unfold TrajectoryRecorderService.get_records_count.
    rewrite (after_calls_rows _ _ _ n Hs eq_refl).
    destruct (init_inv _ _ _ Hinit) as (_ & _ & _ & Hrec & _).
    unfold Trace.trajectory, SchedulerService.init. cbn. rewrite Hrec, length_map.
    lia.
  - destruct (after_calls_sound _ _ _ n Hs eq_refl) as [_ Ht].
    rewrite Ht. unfold SchedulerService.MAX_TIMESTAMP. lia.
Qed.

Lemma trajectory_rows_per_tick_witness :
  TrajectoryRecorderService.get_records_count
    (Trace.trajectory
       (Run.after_calls 2
          (SchedulerService.init (Worlds.built Worlds.stuck_map []))))
  = 3%nat
  /\ SchedulerService.timestamp
       (Run.after_calls 2
          (SchedulerService.init (Worlds.built Worlds.stuck_map [])))
     = 2.
Proof.
  apply (trajectory_rows_per_tick Worlds.stuck_map []
           (Worlds.built Worlds.stuck_map []) 2).
  vm_compute. reflexivity.
Defined.
